(** * gha-workflow-benchmark: index scanner and resumable comparison pipeline

    A shallow embedding of the Python sources
    [scan_security_index_and_diffs.py], [poutine_docker.py],
    [poutine_docker_optimized.py], [poutine_analysis_fixed.py] and
    [poutine_docker_batch.py], followed by the properties of the
    specification that are checked against it.

    Python [str] values are sequences of Unicode code points; they are
    modelled as lists of [N].  String literals of the sources are written
    [lit "..."]. *)

From Stdlib Require Import List Bool Arith NArith ZArith Lia.
From Stdlib Require String Ascii.
Import ListNotations.
Import String.StringSyntax.
Delimit Scope string_scope with string.

Set Implicit Arguments.
Set Warnings "-register-all".

(** ** Text *)

Definition char := N.
Definition text := list char.

Definition lit (s : String.string) : text :=
  map Ascii.N_of_ascii (String.list_ascii_of_string s).
Arguments lit s%_string.

Fixpoint text_eqb (a b : text) : bool :=
  match a, b with
  | [], [] => true
  | x :: a', y :: b' => N.eqb x y && text_eqb a' b'
  | _, _ => false
  end.

(** [s.startswith(p)] *)
Fixpoint startswith (p s : text) : bool :=
  match p, s with
  | [], _ => true
  | x :: p', y :: s' => N.eqb x y && startswith p' s'
  | _ :: _, [] => false
  end.

(** [p in s] for a one-character [p] *)
Definition contains_char (c : char) (s : text) : bool :=
  existsb (N.eqb c) s.

(** [s.count(sub)] for a non-empty [sub]: occurrences are counted from left
    to right without overlap; [skip] is the number of characters still
    covered by the occurrence found last. *)
Fixpoint count_from (sub : text) (skip : nat) (s : text) : nat :=
  match s with
  | [] => 0
  | _ :: s' =>
      match skip with
      | S k => count_from sub k s'
      | O => if startswith sub s
             then S (count_from sub (length sub - 1) s')
             else count_from sub 0 s'
      end
  end.

Definition count (sub s : text) : nat := count_from sub 0 s.

(** [s.replace(old, new)] for a non-empty [old]. *)
Fixpoint replace_from (old new : text) (skip : nat) (s : text) : text :=
  match s with
  | [] => []
  | c :: s' =>
      match skip with
      | S k => replace_from old new k s'
      | O => if startswith old s
             then new ++ replace_from old new (length old - 1) s'
             else c :: replace_from old new 0 s'
      end
  end.

(** With an empty [old], Python inserts [new] before every character and at
    the end. *)
Fixpoint intersperse_all (new s : text) : text :=
  match s with
  | [] => new
  | c :: s' => new ++ c :: intersperse_all new s'
  end.

Definition replace (old new s : text) : text :=
  match old with
  | [] => intersperse_all new s
  | _ :: _ => replace_from old new 0 s
  end.

(** Characters for which [str.isspace] holds, as used by [str.strip()]. *)
Definition isspace (c : char) : bool :=
  ((9 <=? c) && (c <=? 13) || (28 <=? c) && (c <=? 32)
   || (c =? 133) || (c =? 160) || (c =? 5760)
   || (8192 <=? c) && (c <=? 8202)
   || (c =? 8232) || (c =? 8233) || (c =? 8239) || (c =? 8287)
   || (c =? 12288))%N.

(** [bool(line.strip())] *)
Definition nonblank (line : text) : bool :=
  negb (forallb isspace line).

(** ["\n"] *)
Definition newline : text := [10%N].

(** Outcome of a Python call: a value, or a raised exception (its class and
    message). *)
Inductive outcome (A : Type) : Type :=
| Returns (a : A)
| Raises (cls msg : text).
Arguments Returns {A} a.
Arguments Raises {A} cls msg.

(** ** JSON values and [json.loads]

    [json.loads] is modelled as a pushdown recogniser that reads the text one
    character at a time, so that it is total by structural recursion.  It
    follows the grammar of the CPython scanner: white space is space, tab,
    line feed and carriage return; the constants [NaN], [Infinity] and
    [-Infinity] are accepted; strings are read in strict mode (no raw
    control character); text after the value is an error.  A number is kept
    as its source token. *)
Module Json.

Inductive json : Type :=
| JNull
| JBool (b : bool)
| JNumber (src : text)
| JString (s : text)
| JList (l : list json)
| JObject (kv : list (text * json)).

Inductive frame : Type :=
| FList (acc : list json)
| FObj (acc : list (text * json)) (key : option text).

Inductive numstate : Type :=
| NMinus | NZero | NInt | NDot | NFrac | NExp | NExpSign | NExpDigits.

Inductive mode : Type :=
| MValue (may_close : bool)
| MKey (may_close : bool)
| MColon
| MAfter
| MDone (v : json)
| MString (is_key : bool) (acc : text) (pend : option N)
| MEscape (is_key : bool) (acc : text) (pend : option N)
| MUnicode (is_key : bool) (acc : text) (pend : option N) (digits : list N)
| MNumber (st : numstate) (src : text)
| MLiteral (rest : text) (v : json).

Definition state : Type := (list frame * mode)%type.

Definition is_ws (c : char) : bool :=
  ((c =? 32) || (c =? 9) || (c =? 10) || (c =? 13))%N.

Definition is_digit (c : char) : bool := ((48 <=? c) && (c <=? 57))%N.

Definition hex_value (c : char) : option N :=
  if is_digit c then Some (c - 48)%N
  else if ((97 <=? c) && (c <=? 102))%N then Some (c - 87)%N
  else if ((65 <=? c) && (c <=? 70))%N then Some (c - 55)%N
  else None.

(** A value [v] has just been completed below the frames [stack]. *)
Definition complete (stack : list frame) (v : json) : option state :=
  match stack with
  | [] => Some ([], MDone v)
  | FList acc :: st => Some (FList (v :: acc) :: st, MAfter)
  | FObj acc (Some k) :: st => Some (FObj ((k, v) :: acc) None :: st, MAfter)
  | FObj _ None :: _ => None
  end.

(** The character [c] read after a complete value. *)
Definition step_closed (stack : list frame) (md : mode) (c : char)
  : option state :=
  if is_ws c then Some (stack, md)
  else
    match md, stack with
    | MAfter, FList acc :: st =>
        if (c =? 44)%N then Some (stack, MValue false)
        else if (c =? 93)%N then complete st (JList (rev acc))
        else None
    | MAfter, FObj acc None :: st =>
        if (c =? 44)%N then Some (stack, MKey false)
        else if (c =? 125)%N then complete st (JObject (rev acc))
        else None
    | _, _ => None
    end.

Definition end_string (stack : list frame) (is_key : bool) (s : text)
  : option state :=
  if is_key then
    match stack with
    | FObj acc None :: st => Some (FObj acc (Some s) :: st, MColon)
    | _ => None
    end
  else complete stack (JString s).

Definition end_number (stack : list frame) (src : text) (c : char)
  : option state :=
  match complete stack (JNumber (rev src)) with
  | Some (st, md) => step_closed st md c
  | None => None
  end.

Definition is_high (u : N) : bool := ((55296 <=? u) && (u <=? 56319))%N.
Definition is_low (u : N) : bool := ((56320 <=? u) && (u <=? 57343))%N.

Definition hex4 (ds : list N) : N :=
  fold_left (fun a d => (16 * a + d)%N) ds 0%N.

(** The code point of a complete [\uXXXX] escape is appended to [acc] (kept in
    reverse); a low surrogate that directly follows an escaped high surrogate
    is fused with it. *)
Definition push_unicode (acc : text) (pend : option N) (u : N)
  : text * option N :=
  match pend, acc with
  | Some hi, _ :: acc' =>
      if is_low u
      then ((65536 + N.lor (N.shiftl (hi - 55296) 10) (u - 56320))%N :: acc',
            None)
      else (u :: acc, if is_high u then Some u else None)
  | _, _ => (u :: acc, if is_high u then Some u else None)
  end.

Definition step_number (stack : list frame) (st : numstate) (src : text)
  (c : char) : option state :=
  let go st' := Some (stack, MNumber st' (c :: src)) in
  let is_e := ((c =? 101) || (c =? 69))%N in
  match st with
  | NMinus =>
      if (c =? 48)%N then go NZero
      else if is_digit c then go NInt
      else if (c =? 73)%N
           then Some (stack, MLiteral (lit "nfinity") (JNumber (lit "-Infinity")))
      else None
  | NZero =>
      if (c =? 46)%N then go NDot
      else if is_e then go NExp
      else end_number stack src c
  | NInt =>
      if is_digit c then go NInt
      else if (c =? 46)%N then go NDot
      else if is_e then go NExp
      else end_number stack src c
  | NDot => if is_digit c then go NFrac else None
  | NFrac =>
      if is_digit c then go NFrac
      else if is_e then go NExp
      else end_number stack src c
  | NExp =>
      if ((c =? 43) || (c =? 45))%N then go NExpSign
      else if is_digit c then go NExpDigits
      else None
  | NExpSign => if is_digit c then go NExpDigits else None
  | NExpDigits =>
      if is_digit c then go NExpDigits else end_number stack src c
  end.

Definition step_value (stack : list frame) (may_close : bool) (c : char)
  : option state :=
  if is_ws c then Some (stack, MValue may_close)
  else if (c =? 93)%N then
    match may_close, stack with
    | true, FList [] :: st => complete st (JList [])
    | _, _ => None
    end
  else if (c =? 34)%N then Some (stack, MString false [] None)
  else if (c =? 91)%N then Some (FList [] :: stack, MValue true)
  else if (c =? 123)%N then Some (FObj [] None :: stack, MKey true)
  else if (c =? 45)%N then Some (stack, MNumber NMinus [c])
  else if (c =? 48)%N then Some (stack, MNumber NZero [c])
  else if is_digit c then Some (stack, MNumber NInt [c])
  else if (c =? 116)%N then Some (stack, MLiteral (lit "rue") (JBool true))
  else if (c =? 102)%N then Some (stack, MLiteral (lit "alse") (JBool false))
  else if (c =? 110)%N then Some (stack, MLiteral (lit "ull") JNull)
  else if (c =? 78)%N then Some (stack, MLiteral (lit "aN") (JNumber (lit "NaN")))
  else if (c =? 73)%N
       then Some (stack, MLiteral (lit "nfinity") (JNumber (lit "Infinity")))
  else None.

Definition step_escape (stack : list frame) (is_key : bool) (acc : text)
  (pend : option N) (c : char) : option state :=
  let plain d := Some (stack, MString is_key (d :: acc) None) in
  if ((c =? 34) || (c =? 92) || (c =? 47))%N then plain c
  else if (c =? 98)%N then plain 8%N
  else if (c =? 102)%N then plain 12%N
  else if (c =? 110)%N then plain 10%N
  else if (c =? 114)%N then plain 13%N
  else if (c =? 116)%N then plain 9%N
  else if (c =? 117)%N then Some (stack, MUnicode is_key acc pend [])
  else None.

Definition step (s : state) (c : char) : option state :=
  let '(stack, md) := s in
  match md with
  | MValue may_close => step_value stack may_close c
  | MKey may_close =>
      if is_ws c then Some (stack, md)
      else if (c =? 125)%N then
        match may_close, stack with
        | true, FObj [] None :: st => complete st (JObject [])
        | _, _ => None
        end
      else if (c =? 34)%N then Some (stack, MString true [] None)
      else None
  | MColon =>
      if is_ws c then Some (stack, md)
      else if (c =? 58)%N then Some (stack, MValue false)
      else None
  | MAfter | MDone _ => step_closed stack md c
  | MString is_key acc pend =>
      if (c =? 34)%N then end_string stack is_key (rev acc)
      else if (c =? 92)%N then Some (stack, MEscape is_key acc pend)
      else if (c <? 32)%N then None
      else Some (stack, MString is_key (c :: acc) None)
  | MEscape is_key acc pend => step_escape stack is_key acc pend c
  | MUnicode is_key acc pend digits =>
      match hex_value c with
      | None => None
      | Some d =>
          let ds := digits ++ [d] in
          if (List.length ds =? 4)%nat
          then let '(acc', pend') := push_unicode acc pend (hex4 ds) in
               Some (stack, MString is_key acc' pend')
          else Some (stack, MUnicode is_key acc pend ds)
      end
  | MNumber st src => step_number stack st src c
  | MLiteral rest v =>
      match rest with
      | [] => None
      | r :: rest' =>
          if (c =? r)%N
          then match rest' with
               | [] => complete stack v
               | _ :: _ => Some (stack, MLiteral rest' v)
               end
          else None
      end
  end.

Fixpoint run (s : state) (input : text) : option state :=
  match input with
  | [] => Some s
  | c :: rest =>
      match step s c with
      | Some s' => run s' rest
      | None => None
      end
  end.

(** The value at the end of the input, if the input is one complete value. *)
Definition finish (s : state) : option json :=
  match s with
  | ([], MDone v) => Some v
  | ([], MNumber st src) =>
      match st with
      | NZero | NInt | NFrac | NExpDigits => Some (JNumber (rev src))
      | _ => None
      end
  | _ => None
  end.

(** [json.loads(s)]; [None] stands for [json.JSONDecodeError]. *)
Definition loads (s : text) : option json :=
  match run ([], MValue false) s with
  | Some st => finish st
  | None => None
  end.

(** [d.get(key, default)]: of two members with the same name the later one
    is the value of the dictionary. *)
Fixpoint get (key : text) (kv : list (text * json)) (default : json) : json :=
  match kv with
  | [] => default
  | (k, v) :: kv' =>
      get key kv' (if text_eqb k key then v else default)
  end.

Fixpoint distinct_keys (kv : list (text * json)) : list text :=
  match kv with
  | [] => []
  | (k, _) :: kv' =>
      k :: filter (fun k' => negb (text_eqb k k')) (distinct_keys kv')
  end.

(** The Python type name of a number token: [int] unless it has a fraction,
    an exponent or is one of the special constants. *)
Definition number_type (src : text) : text :=
  if existsb (fun c => ((c =? 46) || (c =? 101) || (c =? 69)
                        || (c =? 78) || (c =? 73))%N) src
  then lit "float" else lit "int".

(** [len(v)]; a value without a length raises [TypeError]. *)
Definition len (v : json) : outcome nat :=
  let no_len ty :=
    Raises (lit "TypeError")
           (lit "object of type '" ++ ty ++ lit "' has no len()") in
  match v with
  | JList l => Returns (List.length l)
  | JObject kv => Returns (List.length (distinct_keys kv))
  | JString s => Returns (List.length s)
  | JNull => no_len (lit "NoneType")
  | JBool _ => no_len (lit "bool")
  | JNumber src => no_len (number_type src)
  end.

End Json.
(** ** [pathlib]

    Pure paths as in CPython 3.11 ([pathlib._Flavour.parse_parts] with the
    [splitroot] of each flavour).  The concrete [Path] class is the one of a
    POSIX host, [PosixPath]. *)
Module Pathlib.

Definition sep : char := 47%N.          (* '/' *)
Definition bsep : char := 92%N.         (* '\\' *)
Definition colon : char := 58%N.
Definition dot : char := 46%N.

Definition is_empty (s : text) : bool :=
  match s with [] => true | _ :: _ => false end.

(** [s.split(c)] *)
Fixpoint split (c : char) (s : text) : list text :=
  match s with
  | [] => [[]]
  | x :: s' =>
      if (x =? c)%N then [] :: split c s'
      else match split c s' with
           | cur :: rest => (x :: cur) :: rest
           | [] => [[x]]
           end
  end.

(** [sep.join(parts)] *)
Fixpoint join (c : char) (parts : list text) : text :=
  match parts with
  | [] => []
  | [p] => p
  | p :: rest => p ++ c :: join c rest
  end.

(** [s.lstrip(c)] *)
Fixpoint lstrip (c : char) (s : text) : text :=
  match s with
  | x :: s' => if (x =? c)%N then lstrip c s' else s
  | [] => []
  end.

(** [s.find(c, start)], as an absolute index *)
Fixpoint find_from (c : char) (start : nat) (s : text) : option nat :=
  match s with
  | [] => None
  | x :: s' =>
      match start with
      | S k => option_map S (find_from c k s')
      | O => if (x =? c)%N then Some 0
             else option_map S (find_from c 0 s')
      end
  end.

(** Components of [rel]: empty ones and ['.'] are dropped. *)
Definition keep_part (x : text) : bool :=
  negb (is_empty x) && negb (text_eqb x [dot]).

Definition rel_parts (c : char) (rel : text) : list text :=
  filter keep_part (split c rel).

Record flavour : Type := {
  fsep : char;
  altsep : option char;
  splitroot : text -> text * text * text
}.

(** [_PosixFlavour.splitroot] *)
Definition posix_splitroot (part : text) : text * text * text :=
  match part with
  | c :: _ =>
      if (c =? sep)%N then
        let stripped := lstrip sep part in
        if (List.length part - List.length stripped =? 2)%nat
        then ([], [sep; sep], stripped)
        else ([], [sep], stripped)
      else ([], [], part)
  | [] => ([], [], part)
  end.

Definition is_drive_letter (c : char) : bool :=
  ((97 <=? c) && (c <=? 122) || (65 <=? c) && (c <=? 90))%N.

(** [_WindowsFlavour._split_extended_path] *)
Definition split_extended_path (s : text) : text * text :=
  if startswith (lit "\\?\") s then
    let prefix := firstn 4 s in
    let s1 := skipn 4 s in
    if startswith (lit "UNC\") s1
    then (prefix ++ firstn 3 s1, bsep :: skipn 3 s1)
    else (prefix, s1)
  else ([], s).

(** [_WindowsFlavour.splitroot] *)
Definition windows_splitroot (part0 : text) : text * text * text :=
  let both_sep (p : text) :=
    startswith [bsep; bsep] p in
  let '(prefix, part) :=
    if both_sep part0 then split_extended_path part0 else ([], part0) in
  let first := firstn 1 part in
  let second := firstn 1 (skipn 1 part) in
  let third := firstn 1 (skipn 2 part) in
  let plain :=
    let '(drv, part1, first1) :=
      if text_eqb second [colon] && existsb is_drive_letter first
      then (firstn 2 part, skipn 2 part, third)
      else ([], part, first) in
    if text_eqb first1 [bsep]
    then (prefix ++ drv, first1, lstrip bsep part1)
    else (prefix ++ drv, [], part1) in
  if both_sep part && negb (text_eqb third [bsep]) then
    match find_from bsep 2 part with
    | Some index =>
        let found2 := find_from bsep (index + 1) part in
        if match found2 with
           | Some index2 => (index2 =? index + 1)%nat
           | None => false
           end
        then plain
        else
          let index2 := match found2 with
                        | Some index2 => index2
                        | None => List.length part
                        end in
          if is_empty prefix
          then (firstn index2 part, [bsep], skipn (index2 + 1) part)
          else (prefix ++ firstn (index2 - 1) (skipn 1 part), [bsep],
                skipn (index2 + 1) part)
    | None => plain
    end
  else plain.

Definition posix : flavour :=
  {| fsep := sep; altsep := None; splitroot := posix_splitroot |}.

Definition windows : flavour :=
  {| fsep := bsep; altsep := Some sep; splitroot := windows_splitroot |}.

Definition replace_char (a b : char) (s : text) : text :=
  map (fun c => if (c =? a)%N then b else c) s.

Definition normalise_altsep (fl : flavour) (part : text) : text :=
  match altsep fl with
  | Some a => replace_char a (fsep fl) part
  | None => part
  end.

(** [_Flavour.parse_parts]: the drive, the root and the components after
    them.  The loop of the source walks the arguments backwards and stops at
    the first anchored one, taking a missing drive from an earlier
    argument. *)
Fixpoint parse_parts (fl : flavour) (parts : list text)
  : text * text * list text :=
  match parts with
  | [] => ([], [], [])
  | p :: rest =>
      let '(drv2, root2, tail2) := parse_parts fl rest in
      if is_empty p then (drv2, root2, tail2)
      else
        let '(drv, root, rel) := splitroot fl (normalise_altsep fl p) in
        if negb (is_empty drv2) then (drv2, root2, tail2)
        else if negb (is_empty root2) then (drv, root2, tail2)
        else (drv, root, rel_parts (fsep fl) rel ++ tail2)
  end.

(** A pure path after parsing. *)
Record pure_path : Type := {
  drive : text;
  root : text;
  tail : list text
}.

Definition make (fl : flavour) (args : list text) : pure_path :=
  let '(d, r, t) := parse_parts fl args in
  {| drive := d; root := r; tail := t |}.

Definition PurePosixPath (s : text) : pure_path := make posix [s].
Definition PureWindowsPath (s : text) : pure_path := make windows [s].

(** [p.parts] *)
Definition parts (p : pure_path) : list text :=
  if is_empty (drive p) && is_empty (root p) then tail p
  else (drive p ++ root p) :: tail p.

(** The concrete [Path] built from several arguments, on a POSIX host *)
Definition Path (args : list text) : pure_path := make posix args.

(** [str(p)] for a POSIX path; [p.as_posix()] is the same text. *)
Definition to_text (p : pure_path) : text :=
  match drive p ++ root p, tail p with
  | [], [] => [dot]
  | anchor, t => anchor ++ join sep t
  end.

(** [a / b] for two POSIX paths ([join_parsed_parts]; the drive is empty) *)
Definition joinpath (a b : pure_path) : pure_path :=
  if negb (is_empty (root b)) then b
  else {| drive := drive a; root := root a; tail := tail a ++ tail b |}.

(** [p.name] *)
Definition name (p : pure_path) : text := last (tail p) [].

(** [name.rfind('.')] splits [name] into what precedes the last dot and what
    follows it; [None] when there is no dot. *)
Fixpoint rsplit_dot (s : text) : option (text * text) :=
  match s with
  | [] => None
  | c :: s' =>
      match rsplit_dot s' with
      | Some (stem, ext) => Some (c :: stem, ext)
      | None => if (c =? dot)%N then Some ([], s') else None
      end
  end.

(** [p.suffix]: [name[i:]] when [0 < i < len(name) - 1] for the index [i] of
    the last dot. *)
Definition suffix (p : pure_path) : text :=
  match rsplit_dot (name p) with
  | Some (_ :: _, (_ :: _) as ext) => dot :: ext
  | _ => []
  end.

End Pathlib.

(** ** Analysis backend: [run_poutine_on_workflow] in its four forms *)
Module Backend.
Import Json.

Record PoutineResult : Type := {
  success : bool;
  error_message : option text;
  findings_count : Z;
  findings : json;
  raw_output : text
}.

(** What [subprocess.run] of the analyzer did. *)
Inductive invocation : Type :=
| Exited (returncode : Z) (stdout stderr : text)
| TimeoutExpired
| OtherError (cls msg : text).

(** The circumstances of one call: whether the workflow file exists, whether
    [_check_container_running] answers true, an exception raised while the
    scratch directory is prepared (class and message), and the analyzer
    process. *)
Record call : Type := {
  file_exists : bool;
  container_running : bool;
  staging_error : option (text * text);
  process : invocation
}.

Definition failure (msg raw : text) : PoutineResult :=
  {| success := false; error_message := Some msg; findings_count := 0;
     findings := JList []; raw_output := raw |}.

Definition not_found (workflow_file : text) : PoutineResult :=
  failure (lit "Workflow file not found: " ++ workflow_file) [].

Definition timed_out : PoutineResult :=
  failure (lit "Poutine execution timed out") [].

Definition error_running (msg : text) : PoutineResult :=
  failure (lit "Error running Poutine: " ++ msg) [].

(** The body of [try: output = json.loads(stdout) ... except
    json.JSONDecodeError: ...], the same in the four places: the findings and
    their count, or the exception that leaves the block. *)
Definition parse_stdout (stdout : text) : outcome (json * Z) :=
  match loads stdout with
  | Some (JList l) => Returns (JList l, Z.of_nat (List.length l))
  | Some (JObject kv) =>
      let found := get (lit "findings") kv (JList []) in
      match len found with
      | Returns n => Returns (found, Z.of_nat n)
      | Raises cls msg => Raises cls msg
      end
  | Some _ => Returns (JList [], 0%Z)
  | None => Returns (JList [], Z.of_nat (count (lit "Finding:") stdout))
  end.

(** [findings = []; findings_count = 0; if <guard>: <parse>] *)
Definition parse_if (guard : bool) (stdout : text) : outcome (json * Z) :=
  if guard then parse_stdout stdout else Returns (JList [], 0%Z).

Definition nonempty (s : text) : bool :=
  match s with [] => false | _ :: _ => true end.

Definition succeeded (parsed : json * Z) (raw : text) : PoutineResult :=
  {| success := true; error_message := None; findings_count := snd parsed;
     findings := fst parsed; raw_output := raw |}.

(** [PoutineDockerOptimized.run_poutine_on_workflow]: the persistent worker *)
Definition run_persistent (workflow_file : text) (c : call) : PoutineResult :=
  if negb (file_exists c) then not_found workflow_file
  else if negb (container_running c)
  then failure (lit "Container not running and failed to restart") []
  else
    match staging_error c with
    | Some (_, msg) => error_running msg
    | None =>
        match process c with
        | TimeoutExpired => timed_out
        | OtherError _ msg => error_running msg
        | Exited returncode stdout stderr =>
            match parse_if (nonempty stdout) stdout with
            | Returns parsed =>
                succeeded parsed (stdout ++ newline ++ stderr)
            | Raises _ msg => error_running msg
            end
        end
    end.

(** [PoutineDockerAnalyzer.run_poutine_on_workflow]: the ephemeral sandbox.
    The scratch directory is prepared outside the [try]. *)
Definition run_ephemeral (workflow_file : text) (c : call)
  : outcome PoutineResult :=
  if negb (file_exists c) then Returns (not_found workflow_file)
  else
    match staging_error c with
    | Some (cls, msg) => Raises cls msg
    | None =>
        Returns
          match process c with
          | TimeoutExpired => timed_out
          | OtherError _ msg => error_running msg
          | Exited returncode stdout stderr =>
              match parse_if ((returncode =? 0)%Z && nonempty stdout) stdout with
              | Returns parsed =>
                  succeeded parsed (stdout ++ newline ++ stderr)
              | Raises _ msg => error_running msg
              end
          end
    end.

(** [PoutineAnalyzerFixed.run_poutine_on_workflow] with [use_wsl=False]:
    [_run_native] under the [except Exception] of its caller *)
Definition run_native (workflow_file : text) (c : call) : PoutineResult :=
  if negb (file_exists c) then not_found workflow_file
  else
    match staging_error c with
    | Some (_, msg) => error_running msg
    | None =>
        match process c with
        | TimeoutExpired => timed_out
        | OtherError _ msg => error_running msg
        | Exited returncode stdout stderr =>
            match parse_if ((returncode =? 0)%Z && nonempty stdout) stdout with
            | Returns parsed => succeeded parsed (stdout ++ stderr)
            | Raises _ msg => error_running msg
            end
        end
    end.

(** [sub in s] *)
Fixpoint contains (sub s : text) : bool :=
  startswith sub s
  || match s with
     | [] => false
     | _ :: s' => contains sub s'
     end.

(** [PoutineAnalyzerFixed.run_poutine_on_workflow] with [use_wsl=True]:
    [_run_with_wsl_workaround].  [staging_error] stands for an exception of
    the steps around the analyzer run (a timeout among them has the class
    [TimeoutExpired]). *)
Definition run_wsl (workflow_file : text) (c : call) : PoutineResult :=
  let wsl_error (cls msg : text) :=
    if text_eqb cls (lit "TimeoutExpired") then timed_out
    else failure (lit "Error in WSL workaround: " ++ msg) [] in
  if negb (file_exists c) then not_found workflow_file
  else
    match staging_error c with
    | Some (cls, msg) => wsl_error cls msg
    | None =>
        match process c with
        | TimeoutExpired => timed_out
        | OtherError cls msg => wsl_error cls msg
        | Exited returncode stdout stderr =>
            if contains (lit "ERROR") stderr
               && contains (lit "CreateProcessParseCommon") stderr
            then failure
                   (lit "WSL mounting error - use poutine_docker.py instead")
                   stderr
            else
              match parse_if (nonempty stdout) stdout with
              | Returns parsed =>
                  succeeded parsed (stdout ++ newline ++ stderr)
              | Raises cls msg => wsl_error cls msg
              end
        end
    end.

Inductive variant : Type := Persistent | Ephemeral | DirectNative | DirectWsl.

Definition run_poutine_on_workflow (v : variant) (workflow_file : text)
  (c : call) : outcome PoutineResult :=
  match v with
  | Persistent => Returns (run_persistent workflow_file c)
  | Ephemeral => run_ephemeral workflow_file c
  | DirectNative => Returns (run_native workflow_file c)
  | DirectWsl => Returns (run_wsl workflow_file c)
  end.

(** Whether a variant looks at the standard output of a process that exited
    with [returncode]. *)
Definition reads_stdout (v : variant) (returncode : Z) : bool :=
  match v with
  | Persistent | DirectWsl => true
  | Ephemeral | DirectNative => (returncode =? 0)%Z
  end.

(** The analyzer ran and exited; nothing else went wrong around it. *)
Definition analyzer_exited (v : variant) (c : call) (returncode : Z)
  (stdout stderr : text) : Prop :=
  file_exists c = true
  /\ (v = Persistent -> container_running c = true)
  /\ staging_error c = None
  /\ process c = Exited returncode stdout stderr
  /\ (v = DirectWsl ->
      contains (lit "ERROR") stderr
      && contains (lit "CreateProcessParseCommon") stderr = false).

End Backend.

(** ** Before/after comparator: [compare_before_after] *)
Module Comparator.
Import Json Backend.

(** [CommitInfo].  The dataclass does not check its annotations: a field
    read from a JSON [null] is [None]. *)
Record CommitInfo : Type := {
  org : text;
  repo : text;
  workflow_path : option text;
  commit_sha : option text;
  commit_date : text;
  matched_keywords : list text;
  message : text;
  snapshot_relpath : text;
  prev_sha : option text;
  diff_relpath : option text
}.

Record ComparisonResult : Type := {
  commit_info : CommitInfo;
  before_result : PoutineResult;
  after_result : PoutineResult;
  weaknesses_reduced : bool;
  before_count : Z;
  after_count : Z;
  reduction_count : Z;
  fixed_issues : list text
}.

(** What iterating over a JSON value yields. *)
Definition iterate (v : json) : list json :=
  match v with
  | JList l => l
  | JObject kv => map JString (distinct_keys kv)
  | JString s => map (fun c => JString [c]) s
  | _ => []
  end.

Fixpoint dedup (l : list text) : list text :=
  match l with
  | [] => []
  | x :: l' => x :: filter (fun y => negb (text_eqb x y)) (dedup l')
  end.

Section Compare.

(** The analyzer is an external process: its answer depends on the state of
    the world, which it may change. *)
Variable world : Type.
Variable run : Pathlib.pure_path -> world -> outcome PoutineResult * world.
(** [str(f)] of a finding *)
Variable str_of : json -> text.
Variable data_root : Pathlib.pure_path.

(** [list(before_issues - after_issues)]; the order of a Python set is not
    specified, the elements are listed here in the order of the findings. *)
Definition issues_fixed (before after : json) : list text :=
  let after_issues := map str_of (iterate after) in
  filter (fun x => negb (existsb (text_eqb x) after_issues))
         (dedup (map str_of (iterate before))).

Definition not_str (position : text) : text :=
  lit "replace() argument " ++ position ++ lit " must be str, not None".

Definition compare_before_after (commit : CommitInfo) (w : world)
  : outcome ComparisonResult * world :=
  match commit_sha commit, prev_sha commit with
  | None, _ => (Raises (lit "TypeError") (not_str (lit "1")), w)
  | Some _, None => (Raises (lit "TypeError") (not_str (lit "2")), w)
  | Some sha, Some prev =>
      let before_file :=
        Pathlib.joinpath data_root
          (Pathlib.Path [replace sha prev (snapshot_relpath commit)]) in
      let after_file :=
        Pathlib.joinpath data_root
          (Pathlib.Path [snapshot_relpath commit]) in
      match run before_file w with
      | (Raises cls msg, w1) => (Raises cls msg, w1)
      | (Returns before, w1) =>
          match run after_file w1 with
          | (Raises cls msg, w2) => (Raises cls msg, w2)
          | (Returns after, w2) =>
              let both := success before && success after in
              let reduction :=
                if both
                then (findings_count before - findings_count after)%Z
                else 0%Z in
              let reduced := both && (0 <? reduction)%Z in
              (Returns
                 {| commit_info := commit;
                    before_result := before;
                    after_result := after;
                    weaknesses_reduced := reduced;
                    before_count := findings_count before;
                    after_count := findings_count after;
                    reduction_count := reduction;
                    fixed_issues :=
                      if reduced
                      then issues_fixed (findings before) (findings after)
                      else [] |},
               w2)
          end
      end
  end.

End Compare.
End Comparator.

(** ** Batch orchestrator: [BatchAnalyzer] and [main] of
    [poutine_docker_batch.py] *)
Module Orchestrator.
Import Comparator.

(** Reading a file in text mode turns ["\r\n"] and ["\r"] into ["\n"]. *)
Fixpoint universal_newlines (s : text) : text :=
  match s with
  | [] => []
  | c :: r =>
      if (c =? 13)%N then
        match r with
        | d :: r' =>
            if (d =? 10)%N then 10%N :: universal_newlines r'
            else 10%N :: universal_newlines r
        | [] => [10%N]
        end
      else c :: universal_newlines r
  end.

(** The lines met by [for line in f], without their terminators. *)
Definition file_lines (content : text) : list text :=
  Pathlib.split 10%N (universal_newlines content).

Record Progress : Type := {
  processed_count : Z;
  last_commit_sha : option text;
  start_time : text;
  last_update : option text
}.

(** The output directory: [progress.json] and [batch_results.jsonl], each
    absent or with its content. *)
Record store : Type := {
  progress_file : option Progress;
  results_file : option text
}.

Record arguments : Type := {
  resume : bool;
  limit : option Z;
  batch_size : Z
}.

(** How the Docker analyzer comes up: [start_container] answers true or
    false, or the constructor or [_ensure_image] raises. *)
Inductive startup : Type :=
| Started
| NotStarted
| StartRaised (cls msg : text).

Inductive exit : Type :=
| Completed
| NothingToProcess
| ContainerFailed
| Raised (cls msg : text).

(** [l[start:]] *)
Definition slice_from (A : Type) (l : list A) (start : Z) : list A :=
  let n := Z.of_nat (List.length l) in
  let s := if (start <? 0)%Z then Z.max 0 (start + n) else Z.min start n in
  skipn (Z.to_nat s) l.

(** [l[:stop]] for a positive [stop] *)
Definition slice_to (A : Type) (l : list A) (stop : Z) : list A :=
  firstn (Z.to_nat stop) l.

Section Batch.

Variable world : Type.
Variable run : Pathlib.pure_path -> world -> outcome Backend.PoutineResult * world.
Variable str_of : Json.json -> text.
Variable data_root : Pathlib.pure_path.
(** [datetime.now().isoformat()] *)
Variable now : text.
(** What [json.dumps(result.to_dict())] writes between its braces. *)
Variable members : ComparisonResult -> text.

Definition dumps (result : ComparisonResult) : text :=
  lit "{" ++ members result ++ lit "}".

Definition fresh_progress : Progress :=
  {| processed_count := 0; last_commit_sha := None; start_time := now;
     last_update := None |}.

Definition load_progress (st : store) : Progress :=
  match progress_file st with
  | Some p => p
  | None => fresh_progress
  end.

(** [save_progress] stamps the dictionary it is given and writes it. *)
Definition save_progress (progress : Progress) (st : store)
  : Progress * store :=
  let stamped :=
    {| processed_count := processed_count progress;
       last_commit_sha := last_commit_sha progress;
       start_time := start_time progress;
       last_update := Some now |} in
  (stamped, {| progress_file := Some stamped;
               results_file := results_file st |}).

Definition append_result (result : ComparisonResult) (st : store) : store :=
  {| progress_file := progress_file st;
     results_file :=
       Some (match results_file st with Some c => c | None => [] end
             ++ dumps result ++ newline) |}.

Definition count_actual_results (st : store) : Z :=
  match results_file st with
  | Some content =>
      Z.of_nat (List.length (filter nonblank (file_lines content)))
  | None => 0
  end.

Definition set_count (progress : Progress) (n : Z) : Progress :=
  {| processed_count := n;
     last_commit_sha := last_commit_sha progress;
     start_time := start_time progress;
     last_update := last_update progress |}.

(** Lines 219-229 of [main]: the stored counter is checked against the
    log. *)
Definition reconcile (st : store) : Progress * store :=
  let progress := load_progress st in
  let actual_count := count_actual_results st in
  if negb (processed_count progress =? actual_count)%Z
  then save_progress (set_count progress actual_count) st
  else (progress, st).

(** Lines 231-243: a run that neither resumes nor has results starts from a
    fresh dictionary. *)
Definition resume_or_restart (args : arguments) (progress : Progress)
  : Progress :=
  if resume args || (0 <? processed_count progress)%Z
  then progress
  else fresh_progress.

(** Lines 257-265 *)
Definition select (args : arguments) (progress : Progress)
  (all_commits : list CommitInfo) : list CommitInfo :=
  let commits_to_process := slice_from all_commits (processed_count progress) in
  match limit args with
  | None => commits_to_process
  | Some l =>
      if (l =? 0)%Z then commits_to_process
      else
        let remaining := (l - processed_count progress)%Z in
        if (0 <? remaining)%Z then slice_to commits_to_process remaining
        else []
  end.

(** [(i + 1) % batch_size == 0]; with a batch size of zero the division
    raises inside the [try] and the progress is not saved. *)
Definition checkpoint_due (args : arguments) (i : Z) : bool :=
  negb (batch_size args =? 0)%Z && ((i + 1) mod batch_size args =? 0)%Z.

(** One turn of the loop at lines 290-326. *)
Definition process_one (args : arguments) (i : Z) (commit : CommitInfo)
  (state : Progress * store * world) : Progress * store * world :=
  let '(progress, st, w) := state in
  match compare_before_after run str_of data_root commit w with
  | (Returns result, w1) =>
      let st1 := append_result result st in
      let progress1 :=
        {| processed_count := count_actual_results st1;
           last_commit_sha := commit_sha commit;
           start_time := start_time progress;
           last_update := last_update progress |} in
      if checkpoint_due args i
      then let '(progress2, st2) := save_progress progress1 st1 in
           (progress2, st2, w1)
      else (progress1, st1, w1)
  | (Raises _ _, w1) => (progress, st, w1)
  end.

Fixpoint process_commits (args : arguments) (i : Z) (commits : list CommitInfo)
  (state : Progress * store * world) : Progress * store * world :=
  match commits with
  | [] => state
  | commit :: rest =>
      process_commits args (i + 1) rest (process_one args i commit state)
  end.

Record report : Type := {
  final_store : store;
  final_progress : Progress;
  final_world : world;
  attempted : list CommitInfo;
  status : exit
}.

(** [main], for a run that is not interrupted.  The report files written
    by [generate_final_reports] are not part of the store. *)
Definition main (args : arguments) (all_commits : list CommitInfo)
  (docker : startup) (st : store) (w : world) : report :=
  let '(progress0, st0) := reconcile st in
  let progress := resume_or_restart args progress0 in
  let commits_to_process := select args progress all_commits in
  let stopped status :=
    {| final_store := st0; final_progress := progress; final_world := w;
       attempted := []; status := status |} in
  match commits_to_process with
  | [] => stopped NothingToProcess
  | _ :: _ =>
      match docker with
      | StartRaised cls msg => stopped (Raised cls msg)
      | NotStarted => stopped ContainerFailed
      | Started =>
          let '(progress1, st1, w1) :=
            process_commits args 0 commits_to_process (progress, st0, w) in
          let '(progress2, st2) := save_progress progress1 st1 in
          {| final_store := st2; final_progress := progress2;
             final_world := w1; attempted := commits_to_process;
             status := Completed |}
      end
  end.

End Batch.
End Orchestrator.

(** ** A small scenario

    The history of one workflow: commit [B] ("fix CVE-2023-0001 in checkout
    step") on top of the initial commit [A].  The analyzer reports two
    findings for the snapshot of [A] and none for that of [B]. *)
Module Scenario.
Import Json Backend Comparator Orchestrator.

Definition quote : text := [34%N].

Definition hit_B : CommitInfo :=
  {| org := lit "o"; repo := lit "r";
     workflow_path := Some (lit ".github/workflows/ci.yml");
     commit_sha := Some (lit "B");
     commit_date := lit "2023-01-02T00:00:00Z";
     matched_keywords := [lit "\bcve[- ]?\d{4}-\d{3,7}\b"; lit "\bfix(?:es|ed)?\b"];
     message := lit "fix CVE-2023-0001 in checkout step";
     snapshot_relpath := lit "raw/o/r/ci.yml/B.yml";
     prev_sha := Some (lit "A");
     diff_relpath := Some (lit "out/diffs/o/r/ci.yml/B.patch") |}.

(** A hit at the oldest index of its history: no predecessor. *)
Definition hit_A : CommitInfo :=
  {| org := lit "o"; repo := lit "r";
     workflow_path := Some (lit ".github/workflows/ci.yml");
     commit_sha := Some (lit "A");
     commit_date := lit "2023-01-01T00:00:00Z";
     matched_keywords := [lit "\bfix(?:es|ed)?\b"];
     message := lit "fix typo";
     snapshot_relpath := lit "raw/o/r/ci.yml/A.yml";
     prev_sha := None;
     diff_relpath := None |}.

Definition data_root : Pathlib.pure_path := Pathlib.Path [lit "data"].

Definition analyzer_says (stdout : text) : call :=
  {| file_exists := true; container_running := true; staging_error := None;
     process := Exited 0 stdout [] |}.

(** The persistent worker on the two snapshots; the world has no state. *)
Definition run (workflow_file : Pathlib.pure_path) (w : unit)
  : outcome PoutineResult * unit :=
  let file := Pathlib.to_text workflow_file in
  (Returns
     (run_persistent file
        (analyzer_says
           (if text_eqb file (lit "data/raw/o/r/ci.yml/A.yml")
            then lit "[{}, {}]" else lit "[]"))),
   tt).

Definition str_of (v : json) : text := lit "{}".

Definition now : text := lit "2023-01-03T00:00:00".

(** Only the commit is written out between the braces of a log line. *)
Definition members (result : ComparisonResult) : text :=
  quote ++ lit "commit_sha" ++ quote ++ lit ": " ++ quote
  ++ match commit_sha (commit_info result) with Some sha => sha | None => [] end
  ++ quote.

Definition empty_store : store :=
  {| progress_file := None; results_file := None |}.

Definition batch_args (resuming : bool) : arguments :=
  {| resume := resuming; limit := None; batch_size := 100 |}.

Definition batch (resuming : bool) (hits : list CommitInfo) (st : store)
  : report unit :=
  main run str_of data_root now members (batch_args resuming) hits Started
       st tt.

End Scenario.

(** ** The builtin [eval], on the sources that matter here

    [eval] skips leading spaces and tabs and then tokenizes the source.  A
    backslash outside a string literal that is not followed by a line break
    makes the tokenizer raise [SyntaxError].  A bracketed list of plain
    string literals (the [repr] of a list of strings without quotes or
    backslashes) evaluates to that list.  Other sources are outside this
    model. *)
Module PyEval.

Inductive evaluated : Type :=
| Evaluated (l : list text)
| EvalRaises (cls msg : text)
| Unmodelled.

Fixpoint skip_blanks (s : text) : text :=
  match s with
  | c :: s' => if ((c =? 32) || (c =? 9))%N then skip_blanks s' else s
  | [] => []
  end.

(** Where the reader of a list display stands: before an item ([closing]
    tells whether the bracket may close here), inside a string literal
    opened by [q], or after an item. *)
Inductive position : Type :=
| BeforeItem (closing : bool)
| InString (q : char) (acc : text)
| AfterItem
| Closed.

Fixpoint read_list (pos : position) (items : list text) (s : text)
  : option (list text) :=
  match s with
  | [] => match pos with Closed => Some (rev items) | _ => None end
  | c :: s' =>
      match pos with
      | BeforeItem closing =>
          if (c =? 32)%N then read_list pos items s'
          else if ((c =? 39) || (c =? 34))%N
          then read_list (InString c []) items s'
          else if (c =? 93)%N && closing then read_list Closed items s'
          else None
      | InString q acc =>
          if (c =? q)%N then read_list AfterItem (rev acc :: items) s'
          else if ((c =? 92) || (c =? 10) || (c =? 13))%N then None
          else read_list (InString q (c :: acc)) items s'
      | AfterItem =>
          if (c =? 32)%N then read_list pos items s'
          else if (c =? 44)%N then read_list (BeforeItem true) items s'
          else if (c =? 93)%N then read_list Closed items s'
          else None
      | Closed =>
          if ((c =? 32) || (c =? 9))%N then read_list pos items s' else None
      end
  end.

Definition eval (source : text) : evaluated :=
  match skip_blanks source with
  | c :: rest =>
      if (c =? 92)%N then
        match rest with
        | d :: _ =>
            if ((d =? 10) || (d =? 13))%N then Unmodelled
            else EvalRaises (lit "SyntaxError")
                   (lit "unexpected character after line continuation character")
        | [] => Unmodelled
        end
      else if (c =? 91)%N then
        match read_list (BeforeItem true) [] rest with
        | Some l => Evaluated l
        | None => Unmodelled
        end
      else Unmodelled
  | [] => Unmodelled
  end.

End PyEval.

(** ** Index scanner: [main] of [scan_security_index_and_diffs.py] and the
    CSV loader of the analysis scripts *)
Module Scanner.

Definition DEFAULT_KEYWORDS : list text :=
  [ lit "\bfix(?:es|ed)?\b";
    lit "\bsecurity\b";
    lit "\bvuln(?:erability|erable|erabilities)?\b";
    lit "\bcve[- ]?\d{4}-\d{3,7}\b";
    lit "\bpin(?:ned|ning)?\b";
    lit "\bsha[- ]?pin(?:ned|ning)?\b";
    lit "\binject(?:ion|s|ed)?\b";
    lit "\bsanitiz(?:e|ed|ing|ation)\b";
    lit "\bescape(?:d|s|ing)?\b";
    lit "\bharden(?:ing|ed)?\b";
    lit "\bpermission(?:s)?\b";
    lit "\bleak(?:ed|s|age)?\b";
    lit "\bxss\b";
    lit "\bcsrf\b";
    lit "\brce\b";
    lit "\bsecret(?:s)?\b";
    lit "\btokens?\b";
    lit "\bauth(?:n|z|entication|orization)?\b" ].

(** The dictionary built at the end of a turn of
    [scan_repo_workflow_json]; a value taken with [.get] from the index
    document may be [None]. *)
Record Hit : Type := {
  org : option text;
  repo : option text;
  workflow_path : option text;
  commit_sha : option text;
  commit_date : option text;
  matched_keywords : list text;
  message : text;
  snapshot_relpath : text;
  prev_sha : option text;
  diff_relpath : option text
}.

(** An element of [hits]: a hit, or the error entry of a workflow whose scan
    raised. *)
Inductive entry : Type :=
| HitEntry (h : Hit)
| ErrorEntry (org repo error : text).

Definition keys (e : entry) : list text :=
  match e with
  | HitEntry _ =>
      [lit "org"; lit "repo"; lit "workflow_path"; lit "commit_sha";
       lit "commit_date"; lit "matched_keywords"; lit "message";
       lit "snapshot_relpath"; lit "prev_sha"; lit "diff_relpath"]
  | ErrorEntry _ _ _ =>
      [lit "org"; lit "repo"; lit "workflow_path"; lit "commit_sha";
       lit "error"]
  end.

Definition is_error (e : entry) : bool :=
  match e with ErrorEntry _ _ _ => true | HitEntry _ => false end.

(** The index tree [data/index/<org>/<repo>/workflows/*.json], each level in
    the order of [sorted]. *)
Record repo_dir : Type := {
  repo_name : text;
  repo_is_dir : bool;
  workflows : option (list text)
}.

Record org_dir : Type := {
  org_name : text;
  org_is_dir : bool;
  repos : list repo_dir
}.

Record arguments : Type := {
  only_org : option text;
  only_repo : option text
}.

(** [if args.org and args.org != org: continue] *)
Definition filtered_out (wanted : option text) (actual : text) : bool :=
  match wanted with
  | Some (c :: w) => negb (text_eqb (c :: w) actual)
  | _ => false
  end.

Definition fields : list text :=
  [lit "org"; lit "repo"; lit "workflow_path"; lit "commit_sha";
   lit "commit_date"; lit "matched_keywords"; lit "snapshot_relpath";
   lit "prev_sha"; lit "diff_relpath"; lit "message"].

Definition text_in (x : text) (l : list text) : bool :=
  existsb (text_eqb x) l.

Definition or_empty (v : option text) : text :=
  match v with Some s => s | None => [] end.

(** The cell that the writer puts under [field] for a row: [None] becomes the
    empty text, a missing key too; the keyword list has been joined with
    ["|"] before. *)
Definition cell (e : entry) (field : text) : text :=
  match e with
  | HitEntry h =>
      if text_eqb field (lit "org") then or_empty (org h)
      else if text_eqb field (lit "repo") then or_empty (repo h)
      else if text_eqb field (lit "workflow_path")
      then or_empty (workflow_path h)
      else if text_eqb field (lit "commit_sha") then or_empty (commit_sha h)
      else if text_eqb field (lit "commit_date") then or_empty (commit_date h)
      else if text_eqb field (lit "matched_keywords")
      then Pathlib.join 124%N (matched_keywords h)
      else if text_eqb field (lit "snapshot_relpath") then snapshot_relpath h
      else if text_eqb field (lit "prev_sha") then or_empty (prev_sha h)
      else if text_eqb field (lit "diff_relpath")
      then or_empty (diff_relpath h)
      else if text_eqb field (lit "message") then message h
      else []
  | ErrorEntry o r err =>
      if text_eqb field (lit "org") then o
      else if text_eqb field (lit "repo") then r
      else if text_eqb field (lit "error") then err
      else []
  end.

(** [csv.DictWriter.writerow] with the default [extrasaction='raise']. *)
Definition writerow (e : entry) : outcome (list text) :=
  match filter (fun k => negb (text_in k fields)) (keys e) with
  | [] => Returns (map (cell e) fields)
  | k :: _ =>
      Raises (lit "ValueError")
        (lit "dict contains fields not in fieldnames: '" ++ k ++ lit "'")
  end.

(** What [writerow] raises for an error entry. *)
Definition extra_field : outcome unit :=
  Raises (lit "ValueError")
         (lit "dict contains fields not in fieldnames: 'error'").

(** Rows written until one raises. *)
Fixpoint writerows (hits : list entry) : list (list text) * outcome unit :=
  match hits with
  | [] => ([], Returns tt)
  | h :: rest =>
      match writerow h with
      | Returns row =>
          let '(rows, result) := writerows rest in (row :: rows, result)
      | Raises cls msg => ([], Raises cls msg)
      end
  end.

(** What is left in the output directory, and how [main] ended. *)
Record output : Type := {
  hits_jsonl : list text;
  hits_csv : list (list text);
  readme_written : bool;
  result : outcome unit
}.

Section Scan.

(** [scan_repo_workflow_json] on one index file: its hits, or the exception
    that leaves it (a malformed document makes [json.loads] raise). *)
Variable scan_repo_workflow_json : text -> outcome (list Hit).
(** [json.dumps(h, ensure_ascii=False)] *)
Variable dumps : entry -> text.

(** Lines 185-193 *)
Definition scan_workflow (org repo wf_json : text) : list entry :=
  match scan_repo_workflow_json wf_json with
  | Returns repo_hits => map HitEntry repo_hits
  | Raises _ e => [ErrorEntry org repo (wf_json ++ lit ": " ++ e)]
  end.

Definition scan_repo (args : arguments) (org : text) (r : repo_dir)
  : list entry :=
  if negb (repo_is_dir r) then []
  else if filtered_out (only_repo args) (repo_name r) then []
  else
    match workflows r with
    | None => []
    | Some files => flat_map (scan_workflow org (repo_name r)) files
    end.

Definition scan_org (args : arguments) (o : org_dir) : list entry :=
  if negb (org_is_dir o) then []
  else if filtered_out (only_org args) (org_name o) then []
  else flat_map (scan_repo args (org_name o)) (repos o).

(** Lines 167-193: the walk over the index. *)
Definition collect (args : arguments) (index : list org_dir) : list entry :=
  flat_map (scan_org args) index.

(** Lines 195-243 *)
Definition report (hits : list entry) : output :=
  let jsonl := map dumps hits in
  let '(rows, written) := writerows hits in
  match written with
  | Returns _ =>
      {| hits_jsonl := jsonl; hits_csv := fields :: rows;
         readme_written := true; result := Returns tt |}
  | Raises cls msg =>
      {| hits_jsonl := jsonl; hits_csv := fields :: rows;
         readme_written := false; result := Raises cls msg |}
  end.

Definition main (args : arguments) (index : list org_dir) : output :=
  report (collect args index).

End Scan.

(** *** Reading the CSV back: [load_commits_from_csv] *)

(** [csv.DictReader] gives each row as the cells under the header's names.
    The file is opened without [newline=''], so a carriage return inside a
    cell is read as a line feed; apart from that the [csv] module returns the
    cell that was written. *)
Definition read_cell (c : text) : text := Orchestrator.universal_newlines c.

Definition row_dict (header cells : list text) : list (text * text) :=
  combine header (map read_cell cells).

(** [row[key]] *)
Fixpoint lookup (key : text) (row : list (text * text)) : option text :=
  match row with
  | [] => None
  | (k, v) :: row' => if text_eqb k key then Some v else lookup key row'
  end.

Inductive loaded (A : Type) : Type :=
| Loaded (a : A)
| LoadRaises (cls msg : text)
| LoadUnmodelled.
Arguments Loaded {A} a.
Arguments LoadRaises {A} cls msg.
Arguments LoadUnmodelled {A}.

(** [row[key]], or [KeyError] *)
Definition with_cell (A : Type) (row : list (text * text))
  (key : String.string) (k : text -> loaded A) : loaded A :=
  match lookup (lit key) row with
  | Some v => k v
  | None => LoadRaises (lit "KeyError") (lit key)
  end.
Arguments with_cell {A} row key%_string k.

(** One turn of the loop of [load_commits_from_csv]. *)
Definition load_row (row : list (text * text))
  : loaded Comparator.CommitInfo :=
  with_cell row "matched_keywords" (fun keywords_str =>
  match
    match keywords_str with
    | [] => PyEval.Evaluated []
    | _ :: _ => PyEval.eval keywords_str
    end
  with
  | PyEval.EvalRaises cls msg => LoadRaises cls msg
  | PyEval.Unmodelled => LoadUnmodelled
  | PyEval.Evaluated keywords =>
      with_cell row "org" (fun org =>
      with_cell row "repo" (fun repo =>
      with_cell row "workflow_path" (fun workflow_path =>
      with_cell row "commit_sha" (fun commit_sha =>
      with_cell row "commit_date" (fun commit_date =>
      with_cell row "message" (fun message =>
      with_cell row "snapshot_relpath" (fun snapshot_relpath =>
      with_cell row "prev_sha" (fun prev_sha =>
      with_cell row "diff_relpath" (fun diff_relpath =>
        Loaded
          {| Comparator.org := org;
             Comparator.repo := repo;
             Comparator.workflow_path := Some workflow_path;
             Comparator.commit_sha := Some commit_sha;
             Comparator.commit_date := commit_date;
             Comparator.matched_keywords := keywords;
             Comparator.message := message;
             Comparator.snapshot_relpath := snapshot_relpath;
             Comparator.prev_sha := Some prev_sha;
             Comparator.diff_relpath := Some diff_relpath |})))))))))
  end).

(** A hit written by [main] into [hits.csv] and read back. *)
Definition csv_round_trip (h : Hit) : loaded Comparator.CommitInfo :=
  match writerow (HitEntry h) with
  | Returns cells => load_row (row_dict fields cells)
  | Raises cls msg => LoadRaises cls msg
  end.

End Scanner.

(** ** A small index: one repository with two workflow index files, the
    first of which is not JSON *)
Module ScanScenario.
Import Scanner.

Definition hit_B : Hit :=
  {| org := Some (lit "o"); repo := Some (lit "r");
     workflow_path := Some (lit ".github/workflows/ci.yml");
     commit_sha := Some (lit "B");
     commit_date := Some (lit "2023-01-02T00:00:00Z");
     matched_keywords :=
       [lit "\bcve[- ]?\d{4}-\d{3,7}\b"; lit "\bfix(?:es|ed)?\b"];
     message := lit "fix CVE-2023-0001 in checkout step";
     snapshot_relpath := lit "raw/o/r/ci.yml/B.yml";
     prev_sha := Some (lit "A");
     diff_relpath := Some (lit "out/diffs/o/r/ci.yml/B.patch") |}.

Definition bad_json : text := lit "data/index/o/r/workflows/bad.json".
Definition good_json : text := lit "data/index/o/r/workflows/good.json".

Definition index : list org_dir :=
  [{| org_name := lit "o"; org_is_dir := true;
      repos := [{| repo_name := lit "r"; repo_is_dir := true;
                   workflows := Some [bad_json; good_json] |}] |}].

Definition scan (wf_json : text) : outcome (list Hit) :=
  if text_eqb wf_json bad_json
  then Raises (lit "JSONDecodeError")
              (lit "Expecting value: line 1 column 1 (char 0)")
  else Returns [hit_B].

(** Only the keys are written out. *)
Definition dumps (e : entry) : text :=
  lit "{" ++ Pathlib.join 44%N (keys e) ++ lit "}".

Definition no_filter : arguments := {| only_org := None; only_repo := None |}.

End ScanScenario.

(** ** Snapshot resolver: [normalize_relpath] and the path lookup of
    [scan_repo_workflow_json] *)
Module Resolver.
Import Pathlib.

Definition normalize_relpath (rel : text) : pure_path :=
  let p :=
    if contains_char bsep rel && negb (contains_char sep rel)
    then PureWindowsPath rel
    else PurePosixPath rel in
  Path (parts p).

(** [root / rel_path] (lines 89-90 and 102-103) *)
Definition resolve (root : pure_path) (rel : text) : pure_path :=
  joinpath root (normalize_relpath rel).

(** [p.with_suffix(p.suffix + ".gz")]: the name with [".gz"] appended; a
    path without a name raises [ValueError]. *)
Definition with_gz (p : pure_path) : outcome pure_path :=
  match name p with
  | [] => Raises (lit "ValueError") (to_text p ++ lit " has an empty name")
  | n =>
      Returns {| drive := drive p; root := Pathlib.root p;
                 tail := removelast (tail p) ++ [n ++ lit ".gz"] |}
  end.

(** Lines 90-95: the path as recorded, or its [.gz] variant when only that
    one exists. *)
Definition locate (exists_ : text -> bool) (root : pure_path) (rel : text)
  : outcome pure_path :=
  let curr_path := resolve root rel in
  if exists_ (to_text curr_path) then Returns curr_path
  else
    match with_gz curr_path with
    | Returns gz_try =>
        Returns (if exists_ (to_text gz_try) then gz_try else curr_path)
    | Raises cls msg => Raises cls msg
    end.

(** A relative path in the plain sense: it does not begin with a back-slash
    and has no drive prefix (no colon in second position). *)
Definition plain_relative (rel : text) : bool :=
  match rel with
  | [] => true
  | c :: rest =>
      negb (c =? bsep)%N
      && match rest with
         | d :: _ => negb (d =? colon)%N
         | [] => true
         end
  end.

End Resolver.

(** ** Reading a snapshot: [read_text_maybe_gz]

    Bytes are numbers below 256.  [bytes.decode("utf-8", errors=...)] is the
    decoder of CPython: a byte that cannot start a sequence is an error of
    one byte, a sequence broken by a byte that cannot continue it is an
    error of the bytes before that byte, and a sequence cut off by the end
    of the data is an error up to the end.  The handler [Ignore] drops the
    bytes of an error, [Replace] puts U+FFFD in their place, [Strict]
    raises. *)
Module Codec.

Inductive handler : Type := Strict | Ignore | Replace.

Definition replacement_character : char := 65533%N.

Definition continuation (b : N) : bool := ((128 <=? b) && (b <=? 191))%N.

Definition code2 (b0 b1 : N) : char :=
  (N.shiftl b0 6 + b1 - (N.shiftl 192 6 + 128))%N.

Definition code3 (b0 b1 b2 : N) : char :=
  (N.shiftl b0 12 + N.shiftl b1 6 + b2
   - (N.shiftl 224 12 + N.shiftl 128 6 + 128))%N.

Definition code4 (b0 b1 b2 b3 : N) : char :=
  (N.shiftl b0 18 + N.shiftl b1 12 + N.shiftl b2 6 + b3
   - (N.shiftl 240 18 + N.shiftl 128 12 + N.shiftl 128 6 + 128))%N.

(** The second byte of a three-byte sequence: a continuation byte that does
    not make an overlong form (after E0) or a surrogate (after ED). *)
Definition second_of_three (b0 b1 : N) : bool :=
  continuation b1
  && negb (if (b1 <? 160)%N then (b0 =? 224)%N else (b0 =? 237)%N).

(** The second byte of a four-byte sequence: no overlong form (after F0) and
    nothing above U+10FFFF (after F4). *)
Definition second_of_four (b0 b1 : N) : bool :=
  continuation b1
  && negb (if (b1 <? 144)%N then (b0 =? 240)%N else (b0 =? 244)%N).

(** What the handler makes of an error, given the decoding of what follows
    the bytes of the error. *)
Definition on_error (h : handler) (rest : option text) : option text :=
  match h with
  | Strict => None
  | Ignore => rest
  | Replace => option_map (cons replacement_character) rest
  end.

Definition emit (c : char) (rest : option text) : option text :=
  option_map (cons c) rest.

(** [None] stands for [UnicodeDecodeError]. *)
Fixpoint utf8_decode (h : handler) (s : list N) {struct s} : option text :=
  match s with
  | [] => Some []
  | b0 :: r1 =>
      if (b0 <? 128)%N then emit b0 (utf8_decode h r1)
      else if (b0 <? 194)%N then on_error h (utf8_decode h r1)
      else if (b0 <? 224)%N then
        match r1 with
        | [] => on_error h (Some [])
        | b1 :: r2 =>
            if continuation b1 then emit (code2 b0 b1) (utf8_decode h r2)
            else on_error h (utf8_decode h r1)
        end
      else if (b0 <? 240)%N then
        match r1 with
        | [] => on_error h (Some [])
        | b1 :: r2 =>
            if second_of_three b0 b1 then
              match r2 with
              | [] => on_error h (Some [])
              | b2 :: r3 =>
                  if continuation b2
                  then emit (code3 b0 b1 b2) (utf8_decode h r3)
                  else on_error h (utf8_decode h r2)
              end
            else on_error h (utf8_decode h r1)
        end
      else if (b0 <? 245)%N then
        match r1 with
        | [] => on_error h (Some [])
        | b1 :: r2 =>
            if second_of_four b0 b1 then
              match r2 with
              | [] => on_error h (Some [])
              | b2 :: r3 =>
                  if continuation b2 then
                    match r3 with
                    | [] => on_error h (Some [])
                    | b3 :: r4 =>
                        if continuation b3
                        then emit (code4 b0 b1 b2 b3) (utf8_decode h r4)
                        else on_error h (utf8_decode h r3)
                    end
                  else on_error h (utf8_decode h r2)
              end
            else on_error h (utf8_decode h r1)
        end
      else on_error h (utf8_decode h r1)
  end.

(** [data.decode("latin-1")]: every byte is the code point of its value. *)
Definition latin1_decode (data : list N) : text := data.

(** [gzip.open(path, "rb").read()] on the content [raw] of the file: an
    empty file reads as nothing, a file that does not begin with the magic
    number 1f 8b is refused, and the compressed stream is inflated by
    [inflate], which fails on a damaged stream. *)
Definition gzip_read (inflate : list N -> outcome (list N)) (raw : list N)
  : outcome (list N) :=
  match raw with
  | [] => Returns []
  | m0 :: rest =>
      match rest with
      | m1 :: _ =>
          if ((m0 =? 31) && (m1 =? 139))%N then inflate raw
          else Raises (lit "BadGzipFile") (lit "Not a gzipped file")
      | [] => Raises (lit "BadGzipFile") (lit "Not a gzipped file")
      end
  end.

Section ReadText.

(** The bytes of the file at a path; a file that cannot be opened raises. *)
Variable read_bytes : text -> outcome (list N).
Variable inflate : list N -> outcome (list N).

Definition read_text_maybe_gz (path : Pathlib.pure_path) : outcome text :=
  if text_eqb (Pathlib.suffix path) (lit ".gz") then
    match read_bytes (Pathlib.to_text path) with
    | Raises cls msg => Raises cls msg
    | Returns raw =>
        match gzip_read inflate raw with
        | Raises cls msg => Raises cls msg
        | Returns data =>
            match utf8_decode Ignore data with
            | Some s => Returns s
            | None => Returns (latin1_decode data)
            end
        end
    end
  else
    match read_bytes (Pathlib.to_text path) with
    | Raises cls msg => Raises cls msg
    | Returns data =>
        match utf8_decode Ignore data with
        | Some s => Returns (Orchestrator.universal_newlines s)
        | None => Raises (lit "UnicodeDecodeError") []
        end
    end.

End ReadText.

(** [needle] occurs in [data] as a run of consecutive bytes. *)
Definition occurs_in (needle data : list N) : Prop :=
  exists before after, data = before ++ needle ++ after.

End Codec.

(** ** Two snapshot files: one with a byte that is not UTF-8, and a [.gz]
    file that is not a gzip stream *)
Module ReadScenario.

Definition plain : Pathlib.pure_path := Pathlib.Path [lit "data/raw/x.yml"].
Definition zipped : Pathlib.pure_path :=
  Pathlib.Path [lit "data/raw/x.yml.gz"].

Definition read_bytes (path : text) : outcome (list N) :=
  if text_eqb path (lit "data/raw/x.yml") then Returns [97; 255; 98]%N
  else if text_eqb path (lit "data/raw/x.yml.gz") then Returns [0; 1; 2]%N
  else Raises (lit "FileNotFoundError") path.

Definition inflate (raw : list N) : outcome (list N) :=
  Raises (lit "EOFError")
    (lit "Compressed file ended before the end-of-stream marker was reached").

End ReadScenario.

(** ** Diff generator: [unified_diff_text] over [difflib]

    [difflib.SequenceMatcher] (without junk function, with the automatic
    junk heuristic), its opcodes, their grouping with three lines of context
    and [difflib.unified_diff].  Indices are natural numbers; [a[i]] is
    [nth i a []]. *)
Module Difflib.

Abbreviation line := text (only parsing).

(** The characters at which [str.splitlines] ends a line. *)
Definition is_boundary (c : char) : bool :=
  ((10 <=? c) && (c <=? 13) || (28 <=? c) && (c <=? 30)
   || (c =? 133) || (c =? 8232) || (c =? 8233))%N.

(** [s.splitlines(keepends=True)] *)
Fixpoint splitlines (s : text) : list line :=
  match s with
  | [] => []
  | c :: r =>
      if (c =? 13)%N then
        match r with
        | d :: r' =>
            if (d =? 10)%N then [c; d] :: splitlines r'
            else [c] :: splitlines r
        | [] => [[c]]
        end
      else if is_boundary c then [c] :: splitlines r
      else match splitlines r with
           | l :: ls => (c :: l) :: ls
           | [] => [[c]]
           end
  end.

(** *** [SequenceMatcher.__chain_b] *)

Fixpoint positions_from (k : nat) (b : list line) (x : line) : list nat :=
  match b with
  | [] => []
  | y :: b' =>
      if text_eqb y x then k :: positions_from (S k) b' x
      else positions_from (S k) b' x
  end.

(** An element of a sequence of at least 200 is popular when it occurs more
    than [n // 100 + 1] times; its indices are deleted. *)
Definition popular (b : list line) (x : line) : bool :=
  (200 <=? List.length b)
  && (List.length b / 100 + 1 <? List.length (positions_from 0 b x)).

(** [b2j.get(x, [])] *)
Definition b2j (b : list line) (x : line) : list nat :=
  if popular b x then [] else positions_from 0 b x.

(** *** [SequenceMatcher.find_longest_match] *)

(** [j2len.get(j, 0)] *)
Fixpoint j2len_get (j2len : list (nat * nat)) (j : nat) : nat :=
  match j2len with
  | [] => 0
  | (j', k) :: rest => if j' =? j then k else j2len_get rest j
  end.

Definition best : Type := (nat * nat * nat)%type.

(** The inner loop [for j in b2j.get(a[i], nothing)]. *)
Fixpoint scan_row (blo bhi i : nat) (j2len : list (nat * nat))
  (js : list nat) (bst : best) (newj2len : list (nat * nat))
  : best * list (nat * nat) :=
  match js with
  | [] => (bst, newj2len)
  | j :: js' =>
      if j <? blo then scan_row blo bhi i j2len js' bst newj2len
      else if bhi <=? j then (bst, newj2len)
      else
        let k := match j with
                 | O => 1
                 | S j1 => j2len_get j2len j1 + 1
                 end in
        let '(besti, bestj, bestsize) := bst in
        scan_row blo bhi i j2len js'
          (if bestsize <? k then (i + 1 - k, j + 1 - k, k) else bst)
          ((j, k) :: newj2len)
  end.

(** The outer loop [for i in range(alo, ahi)]. *)
Fixpoint scan_rows (a b : list line) (blo bhi : nat) (rows : list nat)
  (j2len : list (nat * nat)) (bst : best) : best :=
  match rows with
  | [] => bst
  | i :: rows' =>
      let '(bst', newj2len) :=
        scan_row blo bhi i j2len (b2j b (nth i a [])) bst [] in
      scan_rows a b blo bhi rows' newj2len bst'
  end.

(** [while besti > alo and bestj > blo and a[besti-1] == b[bestj-1]] *)
Fixpoint extend_left (a b : list line) (alo blo besti bestj bestsize : nat)
  : best :=
  match besti, bestj with
  | S i', S j' =>
      if (alo <? besti) && (blo <? bestj)
         && text_eqb (nth i' a []) (nth j' b [])
      then extend_left a b alo blo i' j' (S bestsize)
      else (besti, bestj, bestsize)
  | _, _ => (besti, bestj, bestsize)
  end.

(** [while besti+bestsize < ahi and bestj+bestsize < bhi and
    a[besti+bestsize] == b[bestj+bestsize]]; [room] bounds the number of
    turns. *)
Fixpoint extend_right (a b : list line) (ahi bhi besti bestj bestsize : nat)
  (room : nat) : best :=
  match room with
  | O => (besti, bestj, bestsize)
  | S room' =>
      if (besti + bestsize <? ahi) && (bestj + bestsize <? bhi)
         && text_eqb (nth (besti + bestsize) a []) (nth (bestj + bestsize) b [])
      then extend_right a b ahi bhi besti bestj (S bestsize) room'
      else (besti, bestj, bestsize)
  end.

(** No element is junk, so the two loops over junk elements do nothing. *)
Definition find_longest_match (a b : list line) (alo ahi blo bhi : nat)
  : best :=
  let '(besti, bestj, bestsize) :=
    scan_rows a b blo bhi (seq alo (ahi - alo)) [] (alo, blo, 0) in
  let '(besti, bestj, bestsize) :=
    extend_left a b alo blo besti bestj bestsize in
  extend_right a b ahi bhi besti bestj bestsize (ahi - (besti + bestsize)).

(** *** [SequenceMatcher.get_matching_blocks]

    The source keeps the ranges still to be searched on a stack and sorts
    the blocks it has found; here the blocks left of a match, the match and
    the blocks right of it are listed in that order, which is the sorted
    one.  [depth] bounds the nesting of the search; [ahi - alo] is
    enough. *)
Fixpoint blocks_between (a b : list line) (depth alo ahi blo bhi : nat)
  : list best :=
  match depth with
  | O => []
  | S depth' =>
      let '(i, j, k) := find_longest_match a b alo ahi blo bhi in
      match k with
      | O => []
      | S _ =>
          (if (alo <? i) && (blo <? j)
           then blocks_between a b depth' alo i blo j else [])
          ++ (i, j, k)
          :: (if (i + k <? ahi) && (j + k <? bhi)
              then blocks_between a b depth' (i + k) ahi (j + k) bhi else [])
      end
  end.

(** The pass that fuses adjacent blocks: [(i1, j1, k1)] is the block being
    grown. *)
Fixpoint collapse (i1 j1 k1 : nat) (blocks : list best) : list best :=
  match blocks with
  | [] => match k1 with O => [] | S _ => [(i1, j1, k1)] end
  | (i2, j2, k2) :: rest =>
      if (i1 + k1 =? i2) && (j1 + k1 =? j2)
      then collapse i1 j1 (k1 + k2) rest
      else match k1 with
           | O => collapse i2 j2 k2 rest
           | S _ => (i1, j1, k1) :: collapse i2 j2 k2 rest
           end
  end.

Definition get_matching_blocks (a b : list line) : list best :=
  let la := List.length a in
  let lb := List.length b in
  collapse 0 0 0 (blocks_between a b la 0 la 0 lb) ++ [(la, lb, 0)].

(** *** [SequenceMatcher.get_opcodes] *)

Inductive tag : Type := Replace | Delete | Insert | Equal.

Record opcode : Type := {
  op : tag;
  i1 : nat; i2 : nat;
  j1 : nat; j2 : nat
}.

Fixpoint opcodes_from (i j : nat) (blocks : list best) : list opcode :=
  match blocks with
  | [] => []
  | (ai, bj, size) :: rest =>
      (if (i <? ai) && (j <? bj)
       then [{| op := Replace; i1 := i; i2 := ai; j1 := j; j2 := bj |}]
       else if i <? ai
       then [{| op := Delete; i1 := i; i2 := ai; j1 := j; j2 := bj |}]
       else if j <? bj
       then [{| op := Insert; i1 := i; i2 := ai; j1 := j; j2 := bj |}]
       else [])
      ++ (match size with
          | O => []
          | S _ => [{| op := Equal; i1 := ai; i2 := ai + size;
                       j1 := bj; j2 := bj + size |}]
          end)
      ++ opcodes_from (ai + size) (bj + size) rest
  end.

Definition get_opcodes (a b : list line) : list opcode :=
  opcodes_from 0 0 (get_matching_blocks a b).

(** *** [SequenceMatcher.get_grouped_opcodes] *)

Definition is_equal (c : opcode) : bool :=
  match op c with Equal => true | _ => false end.

(** [codes[0] = tag, max(i1, i2-n), i2, max(j1, j2-n), j2] *)
Definition trim_front (n : nat) (c : opcode) : opcode :=
  {| op := op c; i1 := Nat.max (i1 c) (i2 c - n); i2 := i2 c;
     j1 := Nat.max (j1 c) (j2 c - n); j2 := j2 c |}.

(** [codes[-1] = tag, i1, min(i2, i1+n), j1, min(j2, j1+n)] *)
Definition trim_back (n : nat) (c : opcode) : opcode :=
  {| op := op c; i1 := i1 c; i2 := Nat.min (i2 c) (i1 c + n);
     j1 := j1 c; j2 := Nat.min (j2 c) (j1 c + n) |}.

Definition fix_first (n : nat) (codes : list opcode) : list opcode :=
  match codes with
  | c :: rest => if is_equal c then trim_front n c :: rest else codes
  | [] => []
  end.

Fixpoint fix_last (n : nat) (codes : list opcode) : list opcode :=
  match codes with
  | [] => []
  | [c] => if is_equal c then [trim_back n c] else [c]
  | c :: rest => c :: fix_last n rest
  end.

(** The loop over the codes; [group] is the group being filled. *)
Fixpoint group_codes (n : nat) (codes group : list opcode)
  : list (list opcode) :=
  match codes with
  | [] =>
      match group with
      | [] => []
      | [c] => if is_equal c then [] else [group]
      | _ => [group]
      end
  | c :: rest =>
      if is_equal c && (n + n <? i2 c - i1 c)
      then (group ++ [trim_back n c])
           :: group_codes n rest [trim_front n c]
      else group_codes n rest (group ++ [c])
  end.

Definition get_grouped_opcodes (n : nat) (codes : list opcode)
  : list (list opcode) :=
  let codes :=
    match codes with
    | [] => [{| op := Equal; i1 := 0; i2 := 1; j1 := 0; j2 := 1 |}]
    | _ => codes
    end in
  group_codes n (fix_last n (fix_first n codes)) [].

(** *** [difflib.unified_diff] *)

(** [a[lo:hi]] *)
Definition slice (A : Type) (l : list A) (lo hi : nat) : list A :=
  firstn (hi - lo) (skipn lo l).

Definition digit (d : nat) : char := N.of_nat (48 + d).

(** [str(n)]; [width] bounds the number of digits. *)
Fixpoint decimal_digits (width n : nat) (acc : text) : text :=
  match width with
  | O => acc
  | S width' =>
      let acc' := digit (n mod 10) :: acc in
      match n / 10 with
      | O => acc'
      | q => decimal_digits width' q acc'
      end
  end.

Definition decimal (n : nat) : text := decimal_digits (S n) n [].

Definition format_range_unified (start stop : nat) : text :=
  let beginning := start + 1 in
  let length := stop - start in
  if length =? 1 then decimal beginning
  else decimal (if length =? 0 then beginning - 1 else beginning)
       ++ lit "," ++ decimal length.

Definition lines_of (a b : list line) (c : opcode) : list line :=
  match op c with
  | Equal => map (app (lit " ")) (slice a (i1 c) (i2 c))
  | Replace =>
      map (app (lit "-")) (slice a (i1 c) (i2 c))
      ++ map (app (lit "+")) (slice b (j1 c) (j2 c))
  | Delete => map (app (lit "-")) (slice a (i1 c) (i2 c))
  | Insert => map (app (lit "+")) (slice b (j1 c) (j2 c))
  end.

Definition first_code (group : list opcode) : opcode :=
  hd {| op := Equal; i1 := 0; i2 := 0; j1 := 0; j2 := 0 |} group.

Definition last_code (group : list opcode) : opcode :=
  last group {| op := Equal; i1 := 0; i2 := 0; j1 := 0; j2 := 0 |}.

Definition hunk (a b : list line) (group : list opcode) : list line :=
  (lit "@@ -"
   ++ format_range_unified (i1 (first_code group)) (i2 (last_code group))
   ++ lit " +"
   ++ format_range_unified (j1 (first_code group)) (j2 (last_code group))
   ++ lit " @@" ++ newline)
  :: flat_map (lines_of a b) group.

(** The lines yielded by [unified_diff(a, b, fromfile, tofile)] with the
    defaults [n=3] and [lineterm="\n"] and without file dates. *)
Definition unified_diff (a b : list line) (fromfile tofile : text)
  : list line :=
  match get_grouped_opcodes 3 (get_opcodes a b) with
  | [] => []
  | groups =>
      (lit "--- " ++ fromfile ++ newline)
      :: (lit "+++ " ++ tofile ++ newline)
      :: flat_map (hunk a b) groups
  end.

End Difflib.

Module DiffGenerator.

(** [unified_diff_text] of [scan_security_index_and_diffs.py] *)
Definition unified_diff_text (old_text new_text fromfile tofile : text)
  : text :=
  let old_lines := Difflib.splitlines old_text in
  let new_lines := Difflib.splitlines new_text in
  concat (Difflib.unified_diff old_lines new_lines fromfile tofile).

End DiffGenerator.

(** ** Applying a unified diff

    The repository has no code that applies a patch; [apply_patch] is the
    usual reading of a unified diff, as by [patch(1)]: the patch and the old
    text are taken line by line (a line ends at a line feed), a hunk header
    [@@ -s,l +s',l' @@] says where the hunk starts in the old text and how
    many old and new lines its body has, a body line beginning with a space
    or a minus must be the next old line, and the new text is made of the
    old lines outside the hunks, the lines with a space and the lines with a
    plus. *)
Module Patch.

(** The lines of a text, each with its line feed. *)
Fixpoint split_lines (s : text) : list text :=
  match s with
  | [] => []
  | c :: r =>
      if (c =? 10)%N then [c] :: split_lines r
      else match split_lines r with
           | l :: ls => (c :: l) :: ls
           | [] => [[c]]
           end
  end.

Definition is_digit (c : char) : bool := ((48 <=? c) && (c <=? 57))%N.

Fixpoint read_digits (value : nat) (s : text) : nat * text :=
  match s with
  | c :: r =>
      if is_digit c then read_digits (10 * value + (N.to_nat c - 48)) r
      else (value, s)
  | [] => (value, [])
  end.

(** A decimal number at the head of [s], and what follows it. *)
Definition read_decimal (s : text) : option (nat * text) :=
  match s with
  | c :: _ => if is_digit c then Some (read_digits 0 s) else None
  | [] => None
  end.

(** [start] or [start,count] *)
Definition read_range (s : text) : option (nat * nat * text) :=
  match read_decimal s with
  | Some (start, r) =>
      match r with
      | c :: r' =>
          if (c =? 44)%N then
            match read_decimal r' with
            | Some (count, r'') => Some (start, count, r'')
            | None => None
            end
          else Some (start, 1, r)
      | [] => Some (start, 1, r)
      end
  | None => None
  end.

(** The text after [prefix], if [s] begins with it. *)
Fixpoint after (prefix s : text) : option text :=
  match prefix, s with
  | [], _ => Some s
  | p :: prefix', c :: s' => if (p =? c)%N then after prefix' s' else None
  | _ :: _, [] => None
  end.

(** The old range and the new range of a hunk header. *)
Definition read_header (l : text) : option (nat * nat * nat * nat) :=
  match after (lit "@@ -") l with
  | Some r1 =>
      match read_range r1 with
      | Some (old_start, old_count, r2) =>
          match after (lit " +") r2 with
          | Some r3 =>
              match read_range r3 with
              | Some (new_start, new_count, r4) =>
                  match after (lit " @@") r4 with
                  | Some _ => Some (old_start, old_count, new_start, new_count)
                  | None => None
                  end
              | None => None
              end
          | None => None
          end
      | None => None
      end
  | None => None
  end.

(** While a patch is applied: the old and new lines that the current hunk
    still has to show, the old lines not yet passed and their number so far,
    and the new lines so far. *)
Record progress : Type := {
  old_left : nat;
  new_left : nat;
  old_rest : list text;
  passed : nat;
  output : list text
}.

Definition lines_eqb (x y : text) : bool := text_eqb x y.

(** One line of the patch. *)
Definition step (st : progress) (l : text) : option progress :=
  match old_left st, new_left st with
  | O, O =>
      match read_header l with
      | Some (old_start, old_count, _, new_count) =>
          let target :=
            match old_count with O => old_start | S _ => old_start - 1 end in
          if (target <? passed st)
             || (List.length (old_rest st) <? target - passed st)
          then None
          else
            Some {| old_left := old_count; new_left := new_count;
                    old_rest := skipn (target - passed st) (old_rest st);
                    passed := target;
                    output := output st
                              ++ firstn (target - passed st) (old_rest st) |}
      | None => None
      end
  | o, n =>
      match l with
      | [] => None
      | c :: content =>
          if (c =? 32)%N then
            match o, n, old_rest st with
            | S o', S n', x :: rest =>
                if lines_eqb x content
                then Some {| old_left := o'; new_left := n';
                             old_rest := rest; passed := S (passed st);
                             output := output st ++ [content] |}
                else None
            | _, _, _ => None
            end
          else if (c =? 45)%N then
            match o, old_rest st with
            | S o', x :: rest =>
                if lines_eqb x content
                then Some {| old_left := o'; new_left := n;
                             old_rest := rest; passed := S (passed st);
                             output := output st |}
                else None
            | _, _ => None
            end
          else if (c =? 43)%N then
            match n with
            | S n' =>
                Some {| old_left := o; new_left := n';
                        old_rest := old_rest st; passed := passed st;
                        output := output st ++ [content] |}
            | O => None
            end
          else None
      end
  end.

Fixpoint steps (st : progress) (patch_lines : list text) : option progress :=
  match patch_lines with
  | [] => Some st
  | l :: rest =>
      match step st l with
      | Some st' => steps st' rest
      | None => None
      end
  end.

Definition ends_with_newline (l : text) : bool :=
  match rev l with
  | c :: _ => (c =? 10)%N
  | [] => false
  end.

(** The new text, or [None] when the patch does not apply.  An empty patch
    changes nothing; a patch whose last line has no line feed is refused. *)
Definition apply_patch (patch old : text) : option text :=
  match split_lines patch with
  | [] => Some old
  | from_line :: rest =>
      match rest with
      | to_line :: hunks =>
          if startswith (lit "--- ") from_line
             && startswith (lit "+++ ") to_line
             && forallb ends_with_newline hunks
          then
            match steps {| old_left := 0; new_left := 0;
                           old_rest := split_lines old; passed := 0;
                           output := [] |} hunks with
            | Some st =>
                match old_left st, new_left st with
                | O, O => Some (concat (output st ++ old_rest st))
                | _, _ => None
                end
            | None => None
            end
          else None
      | [] => None
      end
  end.

End Patch.

(** ** What a correct diff is

    The notions used to state that the opcodes of [difflib] describe how the
    new lines are obtained from the old ones. *)
Module DiffSpec.
Import Difflib.

Section Between.

Variables a b : list line.

(** [a[i:i+k]] and [b[j:j+k]] are the same lines. *)
Definition same (i j k : nat) : Prop :=
  forall t, t < k -> nth (i + t) a [] = nth (j + t) b [].

(** A block found in the window [alo:ahi] of [a] and [blo:bhi] of [b]. *)
Definition block_in (alo ahi blo bhi : nat) (m : best) : Prop :=
  let '(i, j, k) := m in
  alo <= i /\ i + k <= ahi /\ blo <= j /\ j + k <= bhi /\ same i j k.

(** Blocks in increasing order, after [(i, j)] and within [(hi, hj)]. *)
Fixpoint ordered (i j : nat) (blocks : list best) (hi hj : nat) : Prop :=
  match blocks with
  | [] => True
  | (bi, bj, bk) :: rest =>
      block_in i hi j hj (bi, bj, bk)
      /\ ordered (bi + bk) (bj + bk) rest hi hj
  end.

(** From [(i, j)] on, [a] and [b] run in parallel up to [(i', j')]. *)
Definition diag (i j i' j' : nat) : Prop :=
  i <= i' /\ j <= j' /\ i' - i = j' - j
  /\ i' <= List.length a /\ j' <= List.length b
  /\ same i j (i' - i).

Definition op_ok (c : opcode) : Prop :=
  match op c with
  | Equal => j2 c - j1 c = i2 c - i1 c /\ same (i1 c) (j1 c) (i2 c - i1 c)
  | Delete => j2 c = j1 c
  | Insert => i2 c = i1 c
  | Replace => True
  end.

Definition code_ok (i j : nat) (c : opcode) : Prop :=
  i1 c = i /\ j1 c = j /\ i <= i2 c /\ j <= j2 c
  /\ i2 c <= List.length a /\ j2 c <= List.length b /\ op_ok c.

(** Opcodes that follow one another from [(i, j)] to [(i', j')]. *)
Fixpoint chain (i j : nat) (codes : list opcode) (i' j' : nat) : Prop :=
  match codes with
  | [] => i = i' /\ j = j'
  | c :: rest => code_ok i j c /\ chain (i2 c) (j2 c) rest i' j'
  end.

(** Opcodes that follow one another from [(i, j)], after which [a] and [b]
    run in parallel to their ends. *)
Fixpoint open_chain (i j : nat) (codes : list opcode) : Prop :=
  match codes with
  | [] => diag i j (List.length a) (List.length b)
  | c :: rest => code_ok i j c /\ open_chain (i2 c) (j2 c) rest
  end.

(** An entry [(j, k)] of [j2len] after row [r]: the [k] lines that end at
    [a[r]] and [b[j]] are the same. *)
Definition entry_ok (alo blo bhi r : nat) (e : nat * nat) : Prop :=
  let '(j, k) := e in
  1 <= k /\ k <= r + 1 - alo /\ k <= j + 1 - blo /\ j < bhi
  /\ alo <= r
  /\ forall t, t < k -> nth (r - t) a [] = nth (j - t) b [].

(** Groups of opcodes with parallel stretches before, between and after
    them. *)
Fixpoint hunks_ok (i j : nat) (groups : list (list opcode)) : Prop :=
  match groups with
  | [] => diag i j (List.length a) (List.length b)
  | g :: rest =>
      exists ei ej,
        diag i j (i1 (first_code g)) (j1 (first_code g))
        /\ chain (i1 (first_code g)) (j1 (first_code g)) g ei ej
        /\ hunks_ok ei ej rest
  end.

End Between.

(** The value of a number after one more digit, as [Patch.read_digits]
    computes it. *)
Definition digit_value (v : nat) (c : char) : nat :=
  10 * v + (N.to_nat c - 48).

(** The text after a number does not go on with a digit. *)
Definition stops (rest : text) : Prop :=
  match rest with
  | [] => True
  | c :: _ => Patch.is_digit c = false
  end.

(** The header line of a hunk that starts at [(gi, gj)] and ends at
    [(ei, ej)]. *)
Definition header_line (gi ei gj ej : nat) : text :=
  lit "@@ -" ++ format_range_unified gi ei ++ lit " +"
  ++ format_range_unified gj ej ++ lit " @@" ++ newline.

(** A line that ends with a line feed and has no other. *)
Definition terminated (l : text) : Prop :=
  exists x, l = x ++ newline /\ contains_char 10%N x = false.

(** A line feed occurs in [l] at most as its last character. *)
Fixpoint newline_only_last (l : text) : bool :=
  match l with
  | [] => true
  | c :: r => if (c =? 10)%N then Pathlib.is_empty r else newline_only_last r
  end.

(** Every line of the text ends with a line feed. *)
Definition newline_terminated (s : text) : bool :=
  forallb Patch.ends_with_newline (splitlines s).

End DiffSpec.

(** ** What the batch run keeps *)
Module BatchSpec.
Import Orchestrator.

(** The counter in memory is the number of entries of the log. *)
Definition in_step (world : Type) (state : Progress * store * world) : Prop :=
  let '(progress, st, _) := state in
  processed_count progress = count_actual_results st.

(** The content of the result log; a log that does not exist has none. *)
Definition log_content (st : store) : text :=
  match results_file st with Some c => c | None => [] end.

End BatchSpec.

(** ** What an analysis result looks like *)
Module BackendSpec.
Import Json Backend.

(** A result is a success without error message or a failure with one; a
    failure has no findings; the count is not negative; and a success comes
    from an analyzer process that ran to its end on an existing file. *)
Definition well_formed (c : call) (r : PoutineResult) : Prop :=
  (success r = true <-> error_message r = None)
  /\ (success r = false -> findings_count r = 0%Z /\ findings r = JList [])
  /\ (0 <= findings_count r)%Z
  /\ (success r = true ->
      file_exists c = true
      /\ exists returncode stdout stderr,
           process c = Exited returncode stdout stderr).

End BackendSpec.

(** ** What the components of a parsed path look like *)
Module PathSpec.
Import Pathlib.

(** A component as [parse_parts] leaves it: not empty, not a lone dot, and
    without separator. *)
Definition component (x : text) : Prop :=
  keep_part x = true /\ contains_char sep x = false.

End PathSpec.

(** ** Keyword patterns: [load_keywords] *)
Module Keywords.

(** [s.lstrip()] *)
Fixpoint lstrip_space (s : text) : text :=
  match s with
  | c :: r => if isspace c then lstrip_space r else s
  | [] => []
  end.

(** [s.strip()] *)
Definition strip (s : text) : text :=
  rev (lstrip_space (rev (lstrip_space s))).

(** [s.splitlines()]: the lines without their ends. *)
Fixpoint splitlines (s : text) : list text :=
  match s with
  | [] => []
  | c :: r =>
      if (c =? 13)%N then
        match r with
        | d :: r' =>
            if (d =? 10)%N then [] :: splitlines r'
            else [] :: splitlines r
        | [] => [[]]
        end
      else if Difflib.is_boundary c then [] :: splitlines r
      else match splitlines r with
           | l :: ls => (c :: l) :: ls
           | [] => [[c]]
           end
  end.

(** [ln.strip() and not ln.strip().startswith("#")] *)
Definition is_pattern_line (ln : text) : bool :=
  Backend.nonempty (strip ln) && negb (startswith (lit "#") (strip ln)).

(** The patterns of a keywords file with the given text. *)
Definition extra_patterns (content : text) : list text :=
  map strip (filter is_pattern_line (splitlines content)).

(** The keywords file: not given or not there, one that cannot be opened,
    or a file with its bytes. *)
Inductive keywords_file : Type :=
| NoFile
| Unreadable (cls msg : text)
| Holds (raw : list N).

(** How [load_keywords] ends: with the compiled patterns (each stands for
    its source), by [sys.exit], or with an exception. *)
Inductive loaded : Type :=
| Patterns (pats : list text)
| Exits (code : Z)
| Raised (cls msg : text).

Section Load.

(** [re.compile(p, re.IGNORECASE)] accepts [p]. *)
Variable compiles : text -> bool.
(** The message of the [UnicodeDecodeError] for bytes that are not UTF-8. *)
Variable decode_error : list N -> text.

Definition load_keywords (file : keywords_file) : loaded :=
  let pats :=
    match file with
    | NoFile => Returns Scanner.DEFAULT_KEYWORDS
    | Unreadable cls msg => Raises cls msg
    | Holds raw =>
        match Codec.utf8_decode Codec.Strict raw with
        | Some t =>
            Returns (Scanner.DEFAULT_KEYWORDS
                     ++ extra_patterns (Orchestrator.universal_newlines t))
        | None => Raises (lit "UnicodeDecodeError") (decode_error raw)
        end
    end in
  match pats with
  | Returns pats => if forallb compiles pats then Patterns pats else Exits 2
  | Raises cls msg => Raised cls msg
  end.

End Load.

(** Neither the first nor the last character is white space. *)
Definition trimmed (p : text) : Prop :=
  match p with c :: _ => isspace c = false | [] => True end
  /\ match rev p with c :: _ => isspace c = false | [] => True end.

End Keywords.

(** ** Matching a sequence with itself *)
Module SameSpec.
Import Difflib.

(** The number of consecutive lines of [a] that end at index [j] and are not
    popular (so that [b2j] lists them). *)
Fixpoint run_to (a : list line) (j : nat) : nat :=
  match j with
  | O => if popular a (nth 0 a []) then 0 else 1
  | S j' => if popular a (nth j a []) then 0 else S (run_to a j')
  end.

(** The run that ends just before row [i]. *)
Definition run_before (a : list line) (i : nat) : nat :=
  match i with O => 0 | S i' => run_to a i' end.

(** Increasing indices, none below [lo]. *)
Fixpoint ascending (lo : nat) (js : list nat) : Prop :=
  match js with
  | [] => True
  | j :: rest => lo <= j /\ ascending (S j) rest
  end.

End SameSpec.

(** ** [hits.jsonl]: written by the scanner, read by
    [load_commits_from_jsonl] *)
Module Jsonl.
Import Json.

Definition hex_digit (d : N) : char :=
  if (d <? 10)%N then (48 + d)%N else (87 + d)%N.

(** What [json.dumps(..., ensure_ascii=False)] writes for one character of
    a string: the quote, the backslash and the control characters are
    escaped, everything else is written as it is. *)
Definition escape_char (c : char) : text :=
  if (c =? 34)%N then [92; 34]%N
  else if (c =? 92)%N then [92; 92]%N
  else if (c =? 10)%N then [92; 110]%N
  else if (c =? 13)%N then [92; 114]%N
  else if (c =? 9)%N then [92; 116]%N
  else if (c =? 8)%N then [92; 98]%N
  else if (c =? 12)%N then [92; 102]%N
  else if (c <? 32)%N
  then [92; 117; 48; 48; hex_digit (c / 16); hex_digit (c mod 16)]%N
  else [c].

Definition encode_basestring (s : text) : text :=
  [34%N] ++ flat_map escape_char s ++ [34%N].

(** [sep.join(parts)] *)
Fixpoint join_with (sep : text) (parts : list text) : text :=
  match parts with
  | [] => []
  | [p] => p
  | p :: rest => p ++ sep ++ join_with sep rest
  end.

(** A string or [None] *)
Definition dumps_optional (v : option text) : text :=
  match v with
  | Some s => encode_basestring s
  | None => lit "null"
  end.

(** A list of strings *)
Definition dumps_strings (l : list text) : text :=
  lit "[" ++ join_with (lit ", ") (map encode_basestring l) ++ lit "]".

(** A dictionary, given the text of each value. *)
Definition dumps_dict (items : list (text * text)) : text :=
  lit "{"
  ++ join_with (lit ", ")
       (map (fun kv => encode_basestring (fst kv) ++ lit ": " ++ snd kv) items)
  ++ lit "}".

(** [json.dumps(h, ensure_ascii=False)] for an element of [hits], with the
    keys in the order in which the dictionary was built. *)
Definition dumps (e : Scanner.entry) : text :=
  match e with
  | Scanner.HitEntry h =>
      dumps_dict
        [ (lit "org", dumps_optional (Scanner.org h));
          (lit "repo", dumps_optional (Scanner.repo h));
          (lit "workflow_path", dumps_optional (Scanner.workflow_path h));
          (lit "commit_sha", dumps_optional (Scanner.commit_sha h));
          (lit "commit_date", dumps_optional (Scanner.commit_date h));
          (lit "matched_keywords", dumps_strings (Scanner.matched_keywords h));
          (lit "message", encode_basestring (Scanner.message h));
          (lit "snapshot_relpath",
           encode_basestring (Scanner.snapshot_relpath h));
          (lit "prev_sha", dumps_optional (Scanner.prev_sha h));
          (lit "diff_relpath", dumps_optional (Scanner.diff_relpath h)) ]
  | Scanner.ErrorEntry o r err =>
      dumps_dict
        [ (lit "org", encode_basestring o);
          (lit "repo", encode_basestring r);
          (lit "workflow_path", lit "null");
          (lit "commit_sha", lit "null");
          (lit "error", encode_basestring err) ]
  end.

(** The content of [hits.jsonl]: one line for each element of [hits]. *)
Definition hits_jsonl (hits : list Scanner.entry) : text :=
  concat (map (fun h => dumps h ++ newline) hits).

(** The lines met by [for line in f], each with its line feed. *)
Fixpoint lines_of_text (s : text) : list text :=
  match s with
  | [] => []
  | c :: r =>
      if (c =? 10)%N then [c] :: lines_of_text r
      else match lines_of_text r with
           | l :: ls => (c :: l) :: ls
           | [] => [[c]]
           end
  end.

Definition readlines (content : text) : list text :=
  lines_of_text (Orchestrator.universal_newlines content).

(** The fields of [CommitInfo], in the order of the class. *)
Definition fields : list text :=
  [lit "org"; lit "repo"; lit "workflow_path"; lit "commit_sha";
   lit "commit_date"; lit "matched_keywords"; lit "message";
   lit "snapshot_relpath"; lit "prev_sha"; lit "diff_relpath"].

Definition quoted (name : text) : text := lit "'" ++ name ++ lit "'".

(** The names of the missing arguments as the interpreter lists them. *)
Fixpoint name_list (names : list text) : text :=
  match names with
  | [] => []
  | [a] => quoted a
  | [a; b] => quoted a ++ lit " and " ++ quoted b
  | a :: rest =>
      match rest with
      | [b; c] => quoted a ++ lit ", " ++ quoted b ++ lit ", and " ++ quoted c
      | _ => quoted a ++ lit ", " ++ name_list rest
      end
  end.

Definition missing_arguments (names : list text) : text :=
  lit "CommitInfo.__init__() missing "
  ++ Difflib.decimal (List.length names)
  ++ lit " required positional argument"
  ++ (if (List.length names =? 1)%nat then [] else lit "s")
  ++ lit ": " ++ name_list names.

Definition unexpected_argument (key : text) : text :=
  lit "CommitInfo.__init__() got an unexpected keyword argument '"
  ++ key ++ lit "'".

(** A value as a field that holds a string. *)
Definition as_text (A : Type) (v : json) (k : text -> Scanner.loaded A)
  : Scanner.loaded A :=
  match v with
  | JString s => k s
  | _ => Scanner.LoadUnmodelled
  end.

(** A value as a field that holds a string or [None]. *)
Definition as_optional (A : Type) (v : json)
  (k : option text -> Scanner.loaded A) : Scanner.loaded A :=
  match v with
  | JString s => k (Some s)
  | JNull => k None
  | _ => Scanner.LoadUnmodelled
  end.

Fixpoint strings_of (l : list json) : option (list text) :=
  match l with
  | [] => Some []
  | JString s :: rest => option_map (cons s) (strings_of rest)
  | _ :: _ => None
  end.

(** A value as a field that holds a list of strings. *)
Definition as_strings (A : Type) (v : json)
  (k : list text -> Scanner.loaded A) : Scanner.loaded A :=
  match v with
  | JList l =>
      match strings_of l with
      | Some ss => k ss
      | None => Scanner.LoadUnmodelled
      end
  | _ => Scanner.LoadUnmodelled
  end.

Section Load.

(** The message of the [TypeError] for [CommitInfo( **data)] with a [data]
    that is no dictionary, and that of the [JSONDecodeError] for a line. *)
Variable mapping_error : json -> text.
Variable decode_error : text -> text.

(** [CommitInfo( **data)].  The record holds strings, [None] for the fields
    that the comparator reads as optional, and a list of strings; a value of
    another type in a field is outside this model. *)
Definition make_commit (data : json) : Scanner.loaded Comparator.CommitInfo :=
  match data with
  | JObject kv =>
      let keys := distinct_keys kv in
      match filter (fun k => negb (Scanner.text_in k fields)) keys with
      | k :: _ =>
          Scanner.LoadRaises (lit "TypeError") (unexpected_argument k)
      | [] =>
          match filter (fun f => negb (Scanner.text_in f keys)) fields with
          | (_ :: _) as missing =>
              Scanner.LoadRaises (lit "TypeError")
                (missing_arguments missing)
          | [] =>
              let field name := get name kv JNull in
              as_text (field (lit "org")) (fun org =>
              as_text (field (lit "repo")) (fun repo =>
              as_optional (field (lit "workflow_path")) (fun workflow_path =>
              as_optional (field (lit "commit_sha")) (fun commit_sha =>
              as_text (field (lit "commit_date")) (fun commit_date =>
              as_strings (field (lit "matched_keywords")) (fun keywords =>
              as_text (field (lit "message")) (fun message =>
              as_text (field (lit "snapshot_relpath")) (fun snapshot =>
              as_optional (field (lit "prev_sha")) (fun prev_sha =>
              as_optional (field (lit "diff_relpath")) (fun diff_relpath =>
                Scanner.Loaded
                  {| Comparator.org := org;
                     Comparator.repo := repo;
                     Comparator.workflow_path := workflow_path;
                     Comparator.commit_sha := commit_sha;
                     Comparator.commit_date := commit_date;
                     Comparator.matched_keywords := keywords;
                     Comparator.message := message;
                     Comparator.snapshot_relpath := snapshot;
                     Comparator.prev_sha := prev_sha;
                     Comparator.diff_relpath := diff_relpath |}))))))))))
          end
      end
  | _ => Scanner.LoadRaises (lit "TypeError") (mapping_error data)
  end.

(** The loop of [load_commits_from_jsonl] over the lines of the file. *)
Fixpoint load_lines (lines : list text)
  : Scanner.loaded (list Comparator.CommitInfo) :=
  match lines with
  | [] => Scanner.Loaded []
  | line :: rest =>
      if nonblank line then
        match loads line with
        | None =>
            Scanner.LoadRaises (lit "JSONDecodeError") (decode_error line)
        | Some data =>
            match make_commit data with
            | Scanner.Loaded commit =>
                match load_lines rest with
                | Scanner.Loaded commits => Scanner.Loaded (commit :: commits)
                | Scanner.LoadRaises cls msg => Scanner.LoadRaises cls msg
                | Scanner.LoadUnmodelled => Scanner.LoadUnmodelled
                end
            | Scanner.LoadRaises cls msg => Scanner.LoadRaises cls msg
            | Scanner.LoadUnmodelled => Scanner.LoadUnmodelled
            end
        end
      else load_lines rest
  end.

Definition load_commits_from_jsonl (content : text)
  : Scanner.loaded (list Comparator.CommitInfo) :=
  load_lines (readlines content).

End Load.

(** The [CommitInfo] with the values of a hit whose organisation,
    repository and date are strings. *)
Definition commit_of (h : Scanner.Hit) : option Comparator.CommitInfo :=
  match Scanner.org h, Scanner.repo h, Scanner.commit_date h with
  | Some org, Some repo, Some commit_date =>
      Some {| Comparator.org := org;
              Comparator.repo := repo;
              Comparator.workflow_path := Scanner.workflow_path h;
              Comparator.commit_sha := Scanner.commit_sha h;
              Comparator.commit_date := commit_date;
              Comparator.matched_keywords := Scanner.matched_keywords h;
              Comparator.message := Scanner.message h;
              Comparator.snapshot_relpath := Scanner.snapshot_relpath h;
              Comparator.prev_sha := Scanner.prev_sha h;
              Comparator.diff_relpath := Scanner.diff_relpath h |}
  | _, _, _ => None
  end.

Fixpoint commits_of (hits : list Scanner.Hit)
  : option (list Comparator.CommitInfo) :=
  match hits with
  | [] => Some []
  | h :: rest =>
      match commit_of h, commits_of rest with
      | Some c, Some cs => Some (c :: cs)
      | _, _ => None
      end
  end.

End Jsonl.

(** ** What the reader makes of a written value *)
Module JsonlSpec.
Import Json Jsonl.

(** Where a value is expected, the text [written] is read as the value
    [v]. *)
Definition reads_as (written : text) (v : json) : Prop :=
  forall (stack : list frame) (may_close : bool) (more : text),
    run (stack, MValue may_close) (written ++ more)
    = match complete stack v with
      | Some s => run s more
      | None => None
      end.

(** The JSON value of a string or [None]. *)
Definition optional (v : option text) : json :=
  match v with
  | Some s => JString s
  | None => JNull
  end.

(** The dictionary of a hit, as a JSON object. *)
Definition hit_object (h : Scanner.Hit) : json :=
  JObject
    [ (lit "org", optional (Scanner.org h));
      (lit "repo", optional (Scanner.repo h));
      (lit "workflow_path", optional (Scanner.workflow_path h));
      (lit "commit_sha", optional (Scanner.commit_sha h));
      (lit "commit_date", optional (Scanner.commit_date h));
      (lit "matched_keywords",
       JList (map JString (Scanner.matched_keywords h)));
      (lit "message", JString (Scanner.message h));
      (lit "snapshot_relpath", JString (Scanner.snapshot_relpath h));
      (lit "prev_sha", optional (Scanner.prev_sha h));
      (lit "diff_relpath", optional (Scanner.diff_relpath h)) ].

(** The dictionary of an error entry. *)
Definition error_object (o r err : text) : json :=
  JObject
    [ (lit "org", JString o); (lit "repo", JString r);
      (lit "workflow_path", JNull); (lit "commit_sha", JNull);
      (lit "error", JString err) ].

Definition entry_object (e : Scanner.entry) : json :=
  match e with
  | Scanner.HitEntry h => hit_object h
  | Scanner.ErrorEntry o r err => error_object o r err
  end.

(** A text without line feed and without carriage return. *)
Definition one_line (t : text) : Prop :=
  contains_char 10%N t = false /\ contains_char 13%N t = false.

End JsonlSpec.

(** ** One index document: [scan_repo_workflow_json]

    The values that the code takes out of the document with [.get] are kept
    as JSON values: the code never checks their type, and an operation that
    Python refuses for the type at hand raises as it does there.  The file
    system is a state [world] with the operations the function uses; next to
    it the state keeps the list of the [write_text] calls made so far, the
    path first and the text second. *)
Module WorkflowScan.
Import Json Pathlib.

(** [type(v).__name__] *)
Definition type_name (v : json) : text :=
  match v with
  | JNull => lit "NoneType"
  | JBool _ => lit "bool"
  | JNumber src => number_type src
  | JString _ => lit "str"
  | JList _ => lit "list"
  | JObject _ => lit "dict"
  end.

(** [v.get(key, default)] *)
Definition dict_get (v : json) (key : text) (default : json) : outcome json :=
  match v with
  | JObject kv => Returns (get key kv default)
  | _ =>
      Raises (lit "AttributeError")
        (lit "'" ++ type_name v ++ lit "' object has no attribute 'get'")
  end.

(** The values that [for ... in enumerate(v)] goes through: the elements of
    a list, the keys of a dictionary, the characters of a string. *)
Definition iterate (v : json) : outcome (list json) :=
  match v with
  | JList l => Returns l
  | JObject kv => Returns (map JString (distinct_keys kv))
  | JString s => Returns (map (fun c => JString [c]) s)
  | _ =>
      Raises (lit "TypeError")
        (lit "'" ++ type_name v ++ lit "' object is not iterable")
  end.

(** [a < b] for two [str] values: the order of the code points. *)
Fixpoint text_ltb (a b : text) : bool :=
  match a, b with
  | _, [] => false
  | [], _ :: _ => true
  | x :: a', y :: b' => (x <? y)%N || ((x =? y)%N && text_ltb a' b')
  end.

Fixpoint insert (x : text) (l : list text) : list text :=
  match l with
  | [] => [x]
  | y :: l' =>
      if text_eqb x y then l
      else if text_ltb x y then x :: l
      else y :: insert x l'
  end.

(** [sorted(set(l))] *)
Definition sorted_set (l : list text) : list text :=
  fold_right insert [] l.

(** [normalize_relpath(rel)] for any value: the test ["\\" in rel] refuses a
    value that is no container, and the path classes refuse a list and a
    dictionary. *)
Definition normalize_relpath (rel : json) : outcome pure_path :=
  match rel with
  | JString s => Returns (Resolver.normalize_relpath s)
  | JList _ | JObject _ =>
      Raises (lit "TypeError")
        (lit "expected str, bytes or os.PathLike object, not "
         ++ type_name rel)
  | _ =>
      Raises (lit "TypeError")
        (lit "argument of type '" ++ type_name rel ++ lit "' is not iterable")
  end.

(** [p.parent] *)
Definition parent (p : pure_path) : pure_path :=
  {| drive := drive p; root := Pathlib.root p;
     tail := removelast (tail p) |}.

(** In [relative_to] the drive and the root count as two parts. *)
Definition abs_parts (p : pure_path) : list text :=
  if is_empty (Pathlib.root p) then parts p
  else drive p :: Pathlib.root p :: tail p.

Definition parts_eqb (a b : list text) : bool :=
  (List.length a =? List.length b)%nat
  && forallb (fun xy => text_eqb (fst xy) (snd xy)) (combine a b).

(** [_format_parsed_parts]: the text of a path, empty for the empty path. *)
Definition format_parsed_parts (p : pure_path) : text :=
  if is_empty (drive p) && is_empty (Pathlib.root p) then join sep (tail p)
  else drive p ++ Pathlib.root p ++ join sep (tail p).

Section Scan.

Variable world : Type.
(** [p.exists()]; an error of [stat] other than a missing file is raised. *)
Variable exists_ : text -> world -> outcome bool.
(** The bytes of a file. *)
Variable read_bytes : text -> world -> outcome (list N).
Variable inflate : list N -> outcome (list N).
(** [p.mkdir(parents=True, exist_ok=True)] *)
Variable mkdir : text -> world -> outcome unit * world.
(** [p.write_text(text, encoding="utf-8")] *)
Variable write_text : text -> text -> world -> outcome unit * world.
(** [pat.search(msg) is not None] for the pattern compiled from a source *)
Variable search : text -> text -> bool.
(** The truth value of a number *)
Variable nonzero : text -> bool.
(** [str(v)] for a number, a list or a dictionary *)
Variable str_of : json -> text.
(** [repr(s)] for a [str] *)
Variable repr_of : text -> text.
(** The messages of [UnicodeDecodeError] and [json.JSONDecodeError] *)
Variable decode_error : list N -> text.
Variable json_error : text -> text.

Variable root : pure_path.
Variable diffs_dir : pure_path.
(** The sources of the compiled patterns, [pat.pattern] *)
Variable patterns : list text.

(** [bool(v)] *)
Definition truthy (v : json) : bool :=
  match v with
  | JNull => false
  | JBool b => b
  | JNumber src => nonzero src
  | JString s => negb (is_empty s)
  | JList l => match l with [] => false | _ :: _ => true end
  | JObject kv => match kv with [] => false | _ :: _ => true end
  end.

(** [f"{v}"] *)
Definition py_str (v : json) : text :=
  match v with
  | JString s => s
  | JNull => lit "None"
  | JBool true => lit "True"
  | JBool false => lit "False"
  | _ => str_of v
  end.

(** [p.with_suffix(p.suffix + ".gz")] *)
Definition with_gz (p : pure_path) : outcome pure_path :=
  match name p with
  | [] =>
      Raises (lit "ValueError")
        (lit "PosixPath(" ++ repr_of (to_text p) ++ lit ") has an empty name")
  | n =>
      Returns {| drive := drive p; Pathlib.root := Pathlib.root p;
                 tail := removelast (tail p) ++ [n ++ lit ".gz"] |}
  end.

(** [p.relative_to(other)] *)
Definition relative_to (p other : pure_path) : outcome pure_path :=
  let to_abs_parts := abs_parts other in
  let n := List.length to_abs_parts in
  if match n with
     | O => negb (is_empty (Pathlib.root p) && is_empty (drive p))
     | S _ => negb (parts_eqb (firstn n (abs_parts p)) to_abs_parts)
     end
  then
    Raises (lit "ValueError")
      (repr_of (to_text p) ++ lit " is not in the subpath of "
       ++ repr_of (format_parsed_parts other)
       ++ lit " OR one path is relative and the other is absolute.")
  else
    Returns {| drive := [];
               Pathlib.root := if (n =? 1)%nat then Pathlib.root p else [];
               tail := skipn n (abs_parts p) |}.

(** [p / v] *)
Definition div (p : pure_path) (v : json) : outcome pure_path :=
  match v with
  | JString s => Returns (joinpath p (Path [s]))
  | _ =>
      Raises (lit "TypeError")
        (lit "unsupported operand type(s) for /: 'PosixPath' and '"
         ++ type_name v ++ lit "'")
  end.

(** Line 81: the sources of the patterns found in the message, in the order
    of [sorted]; [search] refuses a message that is not a [str]. *)
Definition matching (msg : json) : outcome (list text) :=
  match patterns with
  | [] => Returns []
  | _ :: _ =>
      match msg with
      | JString m => Returns (sorted_set (filter (fun p => search p m) patterns))
      | _ =>
          Raises (lit "TypeError")
            (lit "expected string or bytes-like object, got '"
             ++ type_name msg ++ lit "'")
      end
  end.

(** Line 121 *)
Definition wf_leaf (workflow_path : json) : outcome text :=
  match (if truthy workflow_path then workflow_path
         else JString (lit "workflow.yml")) with
  | JString s =>
      Returns (replace (lit "\") (lit "_") (replace (lit "/") (lit "_") s))
  | v =>
      Raises (lit "AttributeError")
        (lit "'" ++ type_name v ++ lit "' object has no attribute 'replace'")
  end.

(** *** Steps on the state *)

Definition state : Type := world * list (text * text).

Definition action (A : Type) : Type := state -> outcome A * state.

Definition ret (A : Type) (a : A) : action A := fun st => (Returns a, st).

Definition bind (A B : Type) (m : action A) (k : A -> action B) : action B :=
  fun st =>
    match m st with
    | (Returns a, st') => k a st'
    | (Raises cls msg, st') => (Raises cls msg, st')
    end.

Definition lift (A : Type) (o : outcome A) : action A := fun st => (o, st).

Local Notation "x <- m ;; k" := (bind m (fun x => k))
  (at level 61, m at next level, right associativity).

Definition path_exists (p : pure_path) : action bool :=
  fun st => (exists_ (to_text p) (fst st), st).

Definition read_text (p : pure_path) : action text :=
  fun st =>
    (Codec.read_text_maybe_gz (fun q => read_bytes q (fst st)) inflate p, st).

Definition make_dirs (p : pure_path) : action unit :=
  fun st =>
    let '(r, w) := mkdir (to_text p) (fst st) in (r, (w, snd st)).

Definition write (p : pure_path) (s : text) : action unit :=
  fun st =>
    let '(r, w) := write_text (to_text p) s (fst st) in
    (r, (w, snd st ++ [(to_text p, s)])).

(** [json.loads(json_path.read_text(encoding="utf-8"))] *)
Definition read_document (json_path : text) : action json :=
  fun st =>
    (match read_bytes json_path (fst st) with
     | Raises cls msg => Raises cls msg
     | Returns data =>
         match Codec.utf8_decode Codec.Strict data with
         | None => Raises (lit "UnicodeDecodeError") (decode_error data)
         | Some s =>
             let s' := Orchestrator.universal_newlines s in
             match loads s' with
             | None => Raises (lit "JSONDecodeError") (json_error s')
             | Some data => Returns data
             end
         end
     end, st).

(** Lines 90-95 and 103-107: the path under the root, or its [.gz] variant
    when only that one exists. *)
Definition locate (rel_path : pure_path) : action pure_path :=
  let curr_path := joinpath root rel_path in
  found <- path_exists curr_path ;;
  if found then ret curr_path
  else
    gz_try <- lift (with_gz curr_path) ;;
    found_gz <- path_exists gz_try ;;
    ret (if found_gz then gz_try else curr_path).

(** Lines 97-107: the hash and the snapshot of the commit that follows in the
    list, if there is one. *)
Definition previous (next : option json) : action (json * option pure_path) :=
  match next with
  | None => ret (JNull, None)
  | Some n =>
      prev_sha <- lift (dict_get n (lit "sha") JNull) ;;
      prev_rel <- lift (dict_get n (lit "raw_snapshot_relpath") JNull) ;;
      prev_rel_path <- lift (normalize_relpath prev_rel) ;;
      prev_path <- locate prev_rel_path ;;
      ret (prev_sha, Some prev_path)
  end.

(** Lines 110-115 *)
Definition read_if_exists (path : option pure_path) : action text :=
  match path with
  | None => ret []
  | Some p =>
      found <- path_exists p ;;
      if found then read_text p else ret []
  end.

(** Lines 119-130 *)
Definition write_diff (org repo workflow_path sha prev_sha : json)
  (old_text new_text : text) : action (option text) :=
  if negb (is_empty new_text) && negb (is_empty old_text) then
    leaf <- lift (wf_leaf workflow_path) ;;
    org_dir <- lift (div diffs_dir org) ;;
    repo_dir <- lift (div org_dir repo) ;;
    let dest_dir := joinpath repo_dir (Path [leaf]) in
    _ <- make_dirs dest_dir ;;
    let diff_abs := joinpath dest_dir (Path [py_str sha ++ lit ".patch"]) in
    let udiff :=
      DiffGenerator.unified_diff_text old_text new_text
        (py_str workflow_path ++ lit "@"
         ++ (if truthy prev_sha then py_str prev_sha else lit "NA"))
        (py_str workflow_path ++ lit "@" ++ py_str sha) in
    _ <- write diff_abs udiff ;;
    rel <- lift (relative_to diff_abs (parent diffs_dir)) ;;
    ret (Some (to_text rel))
  else ret None.

(** The dictionary appended to [results]. *)
Record hit : Type := {
  org : json;
  repo : json;
  workflow_path : json;
  commit_sha : json;
  commit_date : json;
  matched_keywords : list text;
  message : json;
  snapshot_relpath : text;
  prev_sha : json;
  diff_relpath : option text
}.

(** One turn of the loop for the commit [c]; [next] is [commits[idx+1]]. *)
Definition scan_commit (org repo workflow_path c : json) (next : option json)
  : action (option hit) :=
  msg <- lift (dict_get c (lit "message") (JString [])) ;;
  matches <- lift (matching msg) ;;
  match matches with
  | [] => ret None
  | _ :: _ =>
      sha <- lift (dict_get c (lit "sha") JNull) ;;
      date <- lift (dict_get c (lit "date") JNull) ;;
      raw_rel <- lift (dict_get c (lit "raw_snapshot_relpath") JNull) ;;
      rel_path <- lift (normalize_relpath raw_rel) ;;
      curr_path <- locate rel_path ;;
      prev <- previous next ;;
      new_text <- read_if_exists (Some curr_path) ;;
      old_text <- read_if_exists (snd prev) ;;
      diff_file_rel <-
        write_diff org repo workflow_path sha (fst prev) old_text new_text ;;
      ret (Some {| org := org;
                   repo := repo;
                   workflow_path := workflow_path;
                   commit_sha := sha;
                   commit_date := date;
                   matched_keywords := matches;
                   message := msg;
                   snapshot_relpath := to_text rel_path;
                   prev_sha := fst prev;
                   diff_relpath := diff_file_rel |})
  end.

Fixpoint scan_commits (org repo workflow_path : json) (commits : list json)
  : action (list hit) :=
  match commits with
  | [] => ret []
  | c :: rest =>
      found <- scan_commit org repo workflow_path c (hd_error rest) ;;
      results <- scan_commits org repo workflow_path rest ;;
      ret (match found with
           | Some entry => entry :: results
           | None => results
           end)
  end.

Definition scan_repo_workflow_json (json_path : text) : action (list hit) :=
  data <- read_document json_path ;;
  org <- lift (dict_get data (lit "org") JNull) ;;
  repo <- lift (dict_get data (lit "repo") JNull) ;;
  workflow_path <- lift (dict_get data (lit "workflow_path") JNull) ;;
  commits <- lift (dict_get data (lit "commits") (JList [])) ;;
  items <- lift (iterate commits) ;;
  scan_commits org repo workflow_path items.

End Scan.

End WorkflowScan.

(** ** What a scan of one document is compared with *)
Module WorkflowScanSpec.
Import Json Pathlib WorkflowScan.

(** [c.get(key, default)] for a commit that is a dictionary *)
Definition member (key : text) (c : json) (default : json) : json :=
  match c with
  | JObject kv => get key kv default
  | _ => default
  end.

(** A list of texts in strictly ascending order *)
Fixpoint increasing (l : list text) : Prop :=
  match l with
  | [] => True
  | x :: l' => Forall (fun y => text_ltb x y = true) l' /\ increasing l'
  end.

Definition has_diff (h : hit) : bool :=
  match diff_relpath h with Some _ => true | None => false end.

(** A step that leaves the state as it is *)
Definition quiet (world A : Type) (m : action world A) : Prop :=
  forall st, snd (m st) = st.

(** [diffs_dir / org / repo / leaf / fname] *)
Definition patch_path (diffs_dir : pure_path) (org repo leaf fname : text)
  : pure_path :=
  joinpath
    (joinpath (joinpath (joinpath diffs_dir (Path [org])) (Path [repo]))
       (Path [leaf]))
    (Path [fname]).

Section Spec.

Variable search : text -> text -> bool.
Variable nonzero : text -> bool.
Variable str_of : json -> text.
Variable repr_of : text -> text.
Variable diffs_dir : pure_path.
Variable patterns : list text.

(** The patterns found in the message of a commit, in the order of the
    pattern list *)
Definition found (c : json) : list text :=
  match member (lit "message") c (JString []) with
  | JString m => filter (fun p => search p m) patterns
  | _ => []
  end.

Definition selected (c : json) : bool :=
  match found c with [] => false | _ :: _ => true end.

(** The positions in the commit list of the commits with a pattern in their
    message *)
Definition hit_positions (items : list json) : list nat :=
  filter (fun i => selected (nth i items JNull)) (seq 0 (List.length items)).

(** The hit carries the values of the document and of the commit at
    position [i]. *)
Definition taken_from (org0 repo0 workflow_path0 : json) (items : list json)
  (i : nat) (h : hit) : Prop :=
  exists c raw,
    nth_error items i = Some c
    /\ org h = org0
    /\ repo h = repo0
    /\ workflow_path h = workflow_path0
    /\ commit_sha h = member (lit "sha") c JNull
    /\ commit_date h = member (lit "date") c JNull
    /\ message h = member (lit "message") c (JString [])
    /\ member (lit "raw_snapshot_relpath") c JNull = JString raw
    /\ snapshot_relpath h = to_text (Resolver.normalize_relpath raw).

(** The predecessor of the hit is the commit at position [i + 1]. *)
Definition preceded_by_next (items : list json) (i : nat) (h : hit) : Prop :=
  match nth_error items (S i) with
  | Some n => prev_sha h = member (lit "sha") n JNull
  | None => prev_sha h = JNull /\ diff_relpath h = None
  end.

(** The keyword list of a hit: the patterns found in its message, each once,
    in ascending order. *)
Definition keywords_of_message (h : hit) : Prop :=
  exists m,
    message h = JString m
    /\ matched_keywords h <> []
    /\ increasing (matched_keywords h)
    /\ forall p, In p (matched_keywords h)
                 <-> In p patterns /\ search p m = true.

(** The labels of the two sides of the diff of a hit *)
Definition fromfile (h : hit) : text :=
  py_str str_of (workflow_path h) ++ lit "@"
  ++ (if truthy nonzero (prev_sha h) then py_str str_of (prev_sha h)
      else lit "NA").

Definition tofile (h : hit) : text :=
  py_str str_of (workflow_path h) ++ lit "@" ++ py_str str_of (commit_sha h).

(** The patch file of a hit: where it is written, and what [diff_relpath]
    says about it. *)
Definition patch_of (h : hit) (path : pure_path) : Prop :=
  exists o r leaf rel,
    org h = JString o
    /\ repo h = JString r
    /\ wf_leaf nonzero (workflow_path h) = Returns leaf
    /\ path = patch_path diffs_dir o r leaf
                (py_str str_of (commit_sha h) ++ lit ".patch")
    /\ relative_to repr_of path (parent diffs_dir) = Returns rel
    /\ diff_relpath h = Some (to_text rel).

(** A call of [write_text] for a hit: the patch file of the hit, with the
    diff of two texts that are not empty. *)
Definition written_for (call : text * text) (h : hit) : Prop :=
  exists path old_text new_text,
    patch_of h path
    /\ fst call = to_text path
    /\ old_text <> [] /\ new_text <> []
    /\ snd call
       = DiffGenerator.unified_diff_text old_text new_text
           (fromfile h) (tofile h).

End Spec.

End WorkflowScanSpec.

(** ** A small data set: one index document with two commits, the newer of
    which mentions a fix, and the two snapshots *)
Module ScanWorld.
Import Json Pathlib.

(** Files by path *)
Definition world : Type := list (text * list N).

Fixpoint content (path : text) (w : world) : option (list N) :=
  match w with
  | [] => None
  | (p, data) :: w' => if text_eqb p path then Some data else content path w'
  end.

Definition exists_ (path : text) (w : world) : outcome bool :=
  Returns (match content path w with Some _ => true | None => false end).

Definition read_bytes (path : text) (w : world) : outcome (list N) :=
  match content path w with
  | Some data => Returns data
  | None => Raises (lit "FileNotFoundError") path
  end.

Definition inflate (raw : list N) : outcome (list N) :=
  Raises (lit "EOFError")
    (lit "Compressed file ended before the end-of-stream marker was reached").

Definition mkdir (path : text) (w : world) : outcome unit * world :=
  (Returns tt, w).

(** The texts written here are ASCII, one byte for each character. *)
Definition write_text (path s : text) (w : world) : outcome unit * world :=
  (Returns tt, (path, s) :: w).

(** A pattern without special character is found where it occurs. *)
Fixpoint search (pattern msg : text) : bool :=
  startswith pattern msg
  || match msg with
     | [] => false
     | _ :: msg' => search pattern msg'
     end.

Definition nonzero (src : text) : bool := negb (text_eqb src (lit "0")).
Definition str_of (v : json) : text :=
  match v with JNumber src => src | _ => [] end.
Definition repr_of (s : text) : text := lit "'" ++ s ++ lit "'".
Definition decode_error (data : list N) : text := [].
Definition json_error (s : text) : text := [].

Definition root : pure_path := Path [lit "/data"].
Definition diffs_dir : pure_path := Path [lit "/out/diffs"].
Definition patterns : list text := [lit "fix"; lit "security"].

Definition index_path : text := lit "/data/index/o/r/workflows/ci.json".

(** The document, with ['] for the quotation mark *)
Definition document : text :=
  replace_char 39%N 34%N
    (lit "{'org': 'o', 'repo': 'r', 'workflow_path': '.github/workflows/ci.yml', 'commits': [{'sha': 'b2', 'date': '2024-01-02', 'message': 'fix the token', 'raw_snapshot_relpath': 'raw\\o\\r\\ci.yml\\b2.yml'}, {'sha': 'a1', 'date': '2024-01-01', 'message': 'add ci', 'raw_snapshot_relpath': 'raw\\o\\r\\ci.yml\\a1.yml'}]}").

(** A second document, whose only commit has no snapshot path *)
Definition other_index_path : text :=
  lit "/data/index/o/r/workflows/release.json".

Definition other_document : text :=
  replace_char 39%N 34%N
    (lit "{'org': 'o', 'repo': 'r', 'commits': [{'sha': 'c3', 'message': 'security fix'}]}").

Definition files : world :=
  [ (index_path, document);
    (other_index_path, other_document);
    (lit "/data/raw/o/r/ci.yml/b2.yml", lit "on: push" ++ newline);
    (lit "/data/raw/o/r/ci.yml/a1.yml",
     lit "on: pull_request_target" ++ newline) ].

Definition scan (json_path : text)
  : WorkflowScan.action world (list WorkflowScan.hit) :=
  WorkflowScan.scan_repo_workflow_json exists_ read_bytes inflate mkdir
    write_text search nonzero str_of repr_of decode_error json_error
    root diffs_dir patterns json_path.

End ScanWorld.

(** ** The one-shot scripts: [main] and [save_results] of
    [poutine_docker.py], [poutine_docker_optimized.py] and
    [poutine_analysis_fixed.py] *)
Module Runner.
Import Comparator.

Inductive script : Type := Docker | Optimized | Fixed.

(** [l[:stop]] *)
Definition slice_to (A : Type) (l : list A) (stop : Z) : list A :=
  let n := Z.of_nat (List.length l) in
  let s := if (stop <? 0)%Z then Z.max 0 (stop + n) else Z.min stop n in
  firstn (Z.to_nat s) l.

(** [if args.limit: commits = commits[:args.limit]] *)
Definition limited (limit : option Z) (commits : list CommitInfo)
  : list CommitInfo :=
  match limit with
  | None => commits
  | Some l => if (l =? 0)%Z then commits else slice_to commits l
  end.

(** [sorted(l, key=lambda x: x.reduction_count, reverse=True)]: results
    with the same count keep their order. *)
Fixpoint insert (r : ComparisonResult) (l : list ComparisonResult)
  : list ComparisonResult :=
  match l with
  | [] => [r]
  | x :: l' =>
      if (reduction_count x <=? reduction_count r)%Z then r :: l
      else x :: insert r l'
  end.

Definition by_reduction (l : list ComparisonResult) : list ComparisonResult :=
  fold_right insert [] l.

(** The lines printed for the results with improvements: each shows
    [commit_sha[:8]], which [None] refuses. *)
Definition print_improved (l : list ComparisonResult) : outcome unit :=
  if existsb (fun r => match commit_sha (commit_info r) with
                       | None => true
                       | Some _ => false
                       end) l
  then Raises (lit "TypeError") (lit "'NoneType' object is not subscriptable")
  else Returns tt.

(** The end of [save_results], after the percentage: all results with
    improvements in [poutine_docker.py], the ten largest in
    [poutine_docker_optimized.py], nothing in [poutine_analysis_fixed.py]. *)
Definition improvements (s : script) (results : list ComparisonResult)
  : outcome unit :=
  match s with
  | Docker => print_improved (filter weaknesses_reduced results)
  | Optimized =>
      print_improved (firstn 10 (by_reduction
                                   (filter weaknesses_reduced results)))
  | Fixed => Returns tt
  end.

Inductive exit : Type :=
| Completed
| ContainerFailed
| Raised (cls msg : text).

Section Run.

Variable world : Type.
Variable run : Pathlib.pure_path -> world -> outcome Backend.PoutineResult * world.
Variable str_of : Json.json -> text.
Variable data_root : Pathlib.pure_path.
(** [output_dir.mkdir(exist_ok=True)] *)
Variable mkdir : world -> outcome unit * world.
(** The two report files, each opened and written in one step *)
Variable write_json : list ComparisonResult -> world -> outcome unit * world.
Variable write_csv : list ComparisonResult -> world -> outcome unit * world.
Variable stop_container : world -> world.

(** [save_results]: [reduced/total] divides by the number of results. *)
Definition save_results (s : script) (results : list ComparisonResult)
  (w : world) : outcome unit * world :=
  match mkdir w with
  | (Raises cls msg, w1) => (Raises cls msg, w1)
  | (Returns _, w1) =>
      match write_json results w1 with
      | (Raises cls msg, w2) => (Raises cls msg, w2)
      | (Returns _, w2) =>
          match write_csv results w2 with
          | (Raises cls msg, w3) => (Raises cls msg, w3)
          | (Returns _, w3) =>
              match results with
              | [] =>
                  (Raises (lit "ZeroDivisionError") (lit "division by zero"),
                   w3)
              | _ :: _ => (improvements s results, w3)
              end
          end
      end
  end.

(** The loop of [main]: the results of the comparisons that return. *)
Fixpoint analyse (commits : list CommitInfo) (w : world)
  : list ComparisonResult * world :=
  match commits with
  | [] => ([], w)
  | commit :: rest =>
      match compare_before_after run str_of data_root commit w with
      | (Returns result, w1) =>
          let '(results, w2) := analyse rest w1 in (result :: results, w2)
      | (Raises _ _, w1) => analyse rest w1
      end
  end.

Record report : Type := {
  status : exit;
  results : list ComparisonResult;
  final_world : world
}.

Definition ended (saved : outcome unit) : exit :=
  match saved with
  | Returns _ => Completed
  | Raises cls msg => Raised cls msg
  end.

(** [main] of [poutine_docker.py]; [setup] is what the constructor of the
    analyzer and the pull of the image do. *)
Definition docker_main (limit : option Z) (setup : outcome unit)
  (commits : list CommitInfo) (w : world) : report :=
  match setup with
  | Raises cls msg =>
      {| status := Raised cls msg; results := []; final_world := w |}
  | Returns _ =>
      let '(results, w1) := analyse (limited limit commits) w in
      let '(saved, w2) := save_results Docker results w1 in
      {| status := ended saved; results := results; final_world := w2 |}
  end.

(** [main] of [poutine_analysis_fixed.py] *)
Definition fixed_main (limit : option Z) (commits : list CommitInfo)
  (w : world) : report :=
  let '(results, w1) := analyse (limited limit commits) w in
  let '(saved, w2) := save_results Fixed results w1 in
  {| status := ended saved; results := results; final_world := w2 |}.

(** [main] of [poutine_docker_optimized.py]: the time for each commit is
    computed before the results are saved, and the container is stopped
    whatever happens after it has started. *)
Definition optimized_main (limit : option Z) (docker : Orchestrator.startup)
  (commits : list CommitInfo) (w : world) : report :=
  match docker with
  | Orchestrator.StartRaised cls msg =>
      {| status := Raised cls msg; results := []; final_world := w |}
  | Orchestrator.NotStarted =>
      {| status := ContainerFailed; results := []; final_world := w |}
  | Orchestrator.Started =>
      let '(results, w1) := analyse (limited limit commits) w in
      match limited limit commits with
      | [] =>
          {| status :=
               Raised (lit "ZeroDivisionError") (lit "float division by zero");
             results := results;
             final_world := stop_container w1 |}
      | _ :: _ =>
          let '(saved, w2) := save_results Optimized results w1 in
          {| status := ended saved; results := results;
             final_world := stop_container w2 |}
      end
  end.

End Run.

End Runner.

(** ** Reading the result log back: [BatchAnalyzer.load_all_results] *)
Module Reports.

Section Load.

(** The message of [json.JSONDecodeError] for a line *)
Variable decode_error : text -> text.

(** The loop over the lines of the log: a line that is not blank is parsed,
    and the first one that is not JSON raises. *)
Fixpoint load_lines (lines : list text) : outcome (list Json.json) :=
  match lines with
  | [] => Returns []
  | line :: rest =>
      if nonblank line then
        match Json.loads line with
        | None => Raises (lit "JSONDecodeError") (decode_error line)
        | Some data =>
            match load_lines rest with
            | Returns results => Returns (data :: results)
            | Raises cls msg => Raises cls msg
            end
        end
      else load_lines rest
  end.

Definition load_all_results (st : Orchestrator.store)
  : outcome (list Json.json) :=
  match Orchestrator.results_file st with
  | Some content => load_lines (Jsonl.readlines content)
  | None => Returns []
  end.

End Load.

End Reports.

(* PROPERTIES *)

(** * Properties *)

(** ** Before/after comparator *)
Section ComparatorFacts.
Import Backend Comparator.

Variable world : Type.
Variable run : Pathlib.pure_path -> world -> outcome PoutineResult * world.
Variable str_of : Json.json -> text.
Variable data_root : Pathlib.pure_path.

Lemma compare_returns_inv (commit : CommitInfo) (w w' : world)
  (r : ComparisonResult) :
  compare_before_after run str_of data_root commit w = (Returns r, w') ->
  let both := success (before_result r) && success (after_result r) in
  before_count r = findings_count (before_result r)
  /\ after_count r = findings_count (after_result r)
  /\ reduction_count r
     = (if both then (before_count r - after_count r)%Z else 0%Z)
  /\ weaknesses_reduced r = both && (0 <? reduction_count r)%Z.
Proof.
  unfold compare_before_after.
  destruct (commit_sha commit) as [sha|]; [|discriminate].
  destruct (prev_sha commit) as [prev|]; [|discriminate].
  destruct (run _ w) as [[before|? ?] w1]; [|discriminate].
  destruct (run _ w1) as [[after|? ?] w2]; [|discriminate].
  intros H. injection H as <- _. cbn. auto.
Qed.

(** C1: in every result of [compare_before_after], [weaknesses_reduced] holds
    exactly when both analyses succeeded and
    [reduction_count = before_count - after_count > 0]; when one of the
    analyses failed, [weaknesses_reduced] is false and [reduction_count]
    is 0. *)
Theorem weaknesses_reduced_iff (commit : CommitInfo) (w w' : world)
  (r : ComparisonResult) :
  compare_before_after run str_of data_root commit w = (Returns r, w') ->
  (weaknesses_reduced r = true <->
     success (before_result r) = true /\ success (after_result r) = true
     /\ reduction_count r = (before_count r - after_count r)%Z
     /\ (reduction_count r > 0)%Z)
  /\ (success (before_result r) = false \/ success (after_result r) = false ->
      weaknesses_reduced r = false /\ reduction_count r = 0%Z).
Proof.
  intros H. apply compare_returns_inv in H.
  destruct H as (_ & _ & Hred & Hweak).
  rewrite Hweak, Hred. clear Hweak Hred.
  destruct (success (before_result r)), (success (after_result r)); cbn;
    split; try (intros [?|?]; try discriminate; auto);
    try (split; [discriminate | intros (? & ? & _); discriminate]).
  rewrite Z.ltb_lt. split.
  - intros Hlt. repeat split; auto. lia.
  - intros (_ & _ & _ & Hgt). lia.
Qed.

End ComparatorFacts.

(** The scenario of the specification: two findings before, none after. *)
Example scenario_reduced :
  exists r,
    Comparator.compare_before_after Scenario.run Scenario.str_of
      Scenario.data_root Scenario.hit_B tt = (Returns r, tt)
    /\ Comparator.weaknesses_reduced r = true
    /\ Comparator.reduction_count r = 2%Z.
Proof. eexists. split; [vm_compute; reflexivity | split; reflexivity]. Qed.

Lemma weaknesses_reduced_iff_witness :
  exists r,
    Comparator.compare_before_after Scenario.run Scenario.str_of
      Scenario.data_root Scenario.hit_B tt = (Returns r, tt)
    /\ (Comparator.weaknesses_reduced r = true <->
          Backend.success (Comparator.before_result r) = true
          /\ Backend.success (Comparator.after_result r) = true
          /\ Comparator.reduction_count r
             = (Comparator.before_count r - Comparator.after_count r)%Z
          /\ (Comparator.reduction_count r > 0)%Z).
Proof.
  eexists. split; [vm_compute; reflexivity|].
  apply (weaknesses_reduced_iff Scenario.run Scenario.str_of
           Scenario.data_root Scenario.hit_B tt (w' := tt)).
  vm_compute. reflexivity.
Defined.

(** ** A hit without predecessor *)
Section OldestCommit.
Import Backend Comparator Orchestrator.

Variable world : Type.
Variable run : Pathlib.pure_path -> world -> outcome PoutineResult * world.
Variable str_of : Json.json -> text.
Variable data_root : Pathlib.pure_path.
Variable now : text.
Variable members : ComparisonResult -> text.

(** C10: for a [CommitInfo] whose [prev_sha] is [None],
    [compare_before_after] raises ([str.replace] refuses [None]) before the
    analyzer is called and returns no [ComparisonResult]; the turn of the
    batch loop for such a hit goes through the [except Exception] handler
    and leaves the result log and the progress as they were. *)
Theorem no_predecessor_raises (commit : CommitInfo) (w : world) :
  prev_sha commit = None ->
  (exists msg,
      compare_before_after run str_of data_root commit w
      = (Raises (lit "TypeError") msg, w))
  /\ (forall args i progress st,
         process_one run str_of data_root now members args i commit
           (progress, st, w) = (progress, st, w)).
Proof.
  intros Hprev.
  assert (H : exists msg,
             compare_before_after run str_of data_root commit w
             = (Raises (lit "TypeError") msg, w)).
  { unfold compare_before_after. rewrite Hprev.
    destruct (commit_sha commit); eexists; reflexivity. }
  split; [exact H|].
  intros args i progress st. destruct H as [msg H].
  unfold process_one. rewrite H. reflexivity.
Qed.

End OldestCommit.

Lemma no_predecessor_raises_witness :
  Comparator.prev_sha Scenario.hit_A = None
  /\ (exists msg,
        Comparator.compare_before_after Scenario.run Scenario.str_of
          Scenario.data_root Scenario.hit_A tt
        = (Raises (lit "TypeError") msg, tt)).
Proof.
  split; [reflexivity|].
  apply (no_predecessor_raises Scenario.run Scenario.str_of
           Scenario.data_root Scenario.now Scenario.members
           Scenario.hit_A tt).
  reflexivity.
Defined.

(** ** Batch orchestrator *)
Section OrchestratorFacts.
Import Backend Comparator Orchestrator.

Variable world : Type.
Variable run : Pathlib.pure_path -> world -> outcome PoutineResult * world.
Variable str_of : Json.json -> text.
Variable data_root : Pathlib.pure_path.
Variable now : text.
Variable members : ComparisonResult -> text.

Lemma count_actual_results_nonneg (st : store) :
  (0 <= count_actual_results st)%Z.
Proof. unfold count_actual_results. destruct (results_file st); lia. Qed.

Lemma reconcile_count (st : store) :
  processed_count (fst (reconcile now st)) = count_actual_results st
  /\ results_file (snd (reconcile now st)) = results_file st.
Proof.
  unfold reconcile.
  destruct (processed_count (load_progress now st) =? count_actual_results st)%Z
    eqn:E; cbn.
  - apply Z.eqb_eq in E. auto.
  - auto.
Qed.

Lemma resume_or_restart_count (args : arguments) (progress : Progress) :
  (0 <= processed_count progress)%Z ->
  processed_count (resume_or_restart now args progress)
  = processed_count progress.
Proof.
  intros Hpos. unfold resume_or_restart.
  destruct (resume args); cbn; [reflexivity|].
  destruct (0 <? processed_count progress)%Z eqn:E; [reflexivity|].
  apply Z.ltb_ge in E. cbn. lia.
Qed.

Lemma select_prefix (args : arguments) (progress : Progress)
  (all_commits : list CommitInfo) :
  exists k,
    select args progress all_commits
    = firstn k (slice_from all_commits (processed_count progress)).
Proof.
  unfold select.
  set (rest := slice_from all_commits (processed_count progress)).
  assert (Hall : exists k, rest = firstn k rest)
    by (exists (List.length rest); symmetry; apply firstn_all).
  destruct (limit args) as [l|]; [|exact Hall].
  destruct (l =? 0)%Z; [exact Hall|].
  destruct (0 <? l - processed_count progress)%Z.
  - eexists. reflexivity.
  - exists 0%nat. reflexivity.
Qed.

Lemma main_attempted (args : arguments) (all_commits : list CommitInfo)
  (docker : startup) (st : store) (w : world) :
  exists k,
    attempted (main run str_of data_root now members args all_commits docker
                 st w)
    = firstn k (slice_from all_commits (count_actual_results st)).
Proof.
  unfold main.
  destruct (reconcile_count st) as [Hcount _].
  destruct (reconcile now st) as [progress0 st0]. cbn in Hcount.
  assert (Hpc : processed_count (resume_or_restart now args progress0)
                = count_actual_results st).
  { rewrite resume_or_restart_count; [exact Hcount|].
    rewrite Hcount. apply count_actual_results_nonneg. }
  destruct (select_prefix args (resume_or_restart now args progress0)
              all_commits) as [k Hk].
  rewrite Hpc in Hk.
  destruct (select args (resume_or_restart now args progress0) all_commits)
    as [|c cs] eqn:Esel.
  - exists 0%nat. reflexivity.
  - destruct docker.
    + destruct (process_commits _ _ _ _ _ _ _ _ _) as [[p1 st1] w1].
      destruct (save_progress now p1 st1) as [p2 st2]. cbn.
      exists k. exact Hk.
    + exists 0%nat. reflexivity.
    + exists 0%nat. reflexivity.
Qed.

(** C2: when the stored [processed_count] differs from the number of entries
    of the result log, the start of [main] sets it to that number and writes
    the corrected progress; the log is left as it is, and the hits that are
    then processed are taken from the hit list at the log's entry count. *)
Theorem counter_corrected_to_log (args : arguments) (st : store) :
  processed_count (load_progress now st) <> count_actual_results st ->
  let reconciled := reconcile now st in
  processed_count (fst reconciled) = count_actual_results st
  /\ progress_file (snd reconciled) = Some (fst reconciled)
  /\ results_file (snd reconciled) = results_file st
  /\ processed_count (resume_or_restart now args (fst reconciled))
     = count_actual_results st
  /\ forall all_commits docker w,
       exists k,
         attempted (main run str_of data_root now members args all_commits
                      docker st w)
         = firstn k (slice_from all_commits (count_actual_results st)).
Proof.
  intros Hdiff reconciled.
  destruct (reconcile_count st) as [Hcount Hlog].
  fold reconciled in Hcount, Hlog.
  repeat split; auto.
  - subst reconciled. unfold reconcile.
    destruct (processed_count (load_progress now st)
              =? count_actual_results st)%Z eqn:E.
    + apply Z.eqb_eq in E. contradiction.
    + reflexivity.
  - rewrite resume_or_restart_count; [exact Hcount|].
    rewrite Hcount. apply count_actual_results_nonneg.
  - intros. apply main_attempted.
Qed.

End OrchestratorFacts.

Lemma counter_corrected_to_log_witness :
  let st :=
    {| Orchestrator.progress_file :=
         Some {| Orchestrator.processed_count := 7;
                 Orchestrator.last_commit_sha := Some (lit "B");
                 Orchestrator.start_time := Scenario.now;
                 Orchestrator.last_update := None |};
       Orchestrator.results_file :=
         Some (lit "{" ++ lit "}" ++ newline ++ newline ++ lit "{" ++ lit "}") |} in
  Orchestrator.count_actual_results st = 2%Z
  /\ Orchestrator.processed_count
       (fst (Orchestrator.reconcile Scenario.now st)) = 2%Z.
Proof.
  intros st. split; [reflexivity|].
  apply (counter_corrected_to_log Scenario.run Scenario.str_of
           Scenario.data_root Scenario.now Scenario.members
           (Scenario.batch_args true) st).
  vm_compute. discriminate.
Defined.

(** C3 fails on the code: a hit whose comparison raises (here [hit_A], which
    has no predecessor) is skipped without a log entry, so after the run
    over [hit_A; hit_B] has completed the log holds one entry; the resumed
    run then starts at index 1, compares [hit_B] a second time and appends
    its result again. *)
Theorem resume_after_skipped_hit :
  let hits := [Scenario.hit_A; Scenario.hit_B] in
  let entry := lit "{" ++ Scenario.members
                 {| Comparator.commit_info := Scenario.hit_B;
                    Comparator.before_result := Backend.timed_out;
                    Comparator.after_result := Backend.timed_out;
                    Comparator.weaknesses_reduced := false;
                    Comparator.before_count := 0; Comparator.after_count := 0;
                    Comparator.reduction_count := 0;
                    Comparator.fixed_issues := [] |}
               ++ lit "}" ++ newline in
  let first := Scenario.batch false hits Scenario.empty_store in
  let second := Scenario.batch true hits (Orchestrator.final_store first) in
  Orchestrator.status first = Orchestrator.Completed
  /\ Orchestrator.attempted first = hits
  /\ Orchestrator.results_file (Orchestrator.final_store first) = Some entry
  /\ Orchestrator.attempted second = [Scenario.hit_B]
  /\ Orchestrator.results_file (Orchestrator.final_store second)
     = Some (entry ++ entry).
Proof. vm_compute. repeat split. Qed.

(** ** Analysis backend *)
Section BackendFacts.
Import Json Backend.

(** The guard [result.stdout] (an empty output is not parsed) changes
    nothing: parsing the empty text gives no finding either. *)
Lemma parse_if_guard (guard : bool) (stdout : text) :
  parse_if (guard && nonempty stdout) stdout = parse_if guard stdout.
Proof. destruct guard, stdout; reflexivity. Qed.

Lemma run_exited (v : variant) (file : text) (c : call) (returncode : Z)
  (stdout stderr : text) (parsed : json * Z) :
  analyzer_exited v c returncode stdout stderr ->
  parse_if (reads_stdout v returncode) stdout = Returns parsed ->
  exists raw,
    run_poutine_on_workflow v file c = Returns (succeeded parsed raw).
Proof.
  intros (Hfile & Hcont & Hstage & Hproc & Hwsl) Hparse.
  destruct v; cbn [reads_stdout] in Hparse;
    cbn [run_poutine_on_workflow];
    unfold run_persistent, run_ephemeral, run_native, run_wsl;
    rewrite Hfile, Hstage, Hproc; cbn [negb].
  - rewrite (Hcont eq_refl). cbn [negb].
    rewrite <- (andb_true_l (nonempty stdout)), parse_if_guard, Hparse.
    eexists. reflexivity.
  - rewrite parse_if_guard, Hparse. eexists. reflexivity.
  - rewrite parse_if_guard, Hparse. eexists. reflexivity.
  - rewrite (Hwsl eq_refl).
    rewrite <- (andb_true_l (nonempty stdout)), parse_if_guard, Hparse.
    eexists. reflexivity.
Qed.

(** C5, as the code has it: the persistent worker and the WSL form of the
    direct backend parse the analyzer's standard output whatever the exit
    code is; the ephemeral sandbox and the native direct backend parse it
    only after exit code 0 and otherwise report success with no finding.
    Where the output is parsed: a JSON list is the findings and its length
    their count; of a JSON object the value under ['findings'] is the
    findings (and its length the count, when it has one); when the output is
    not JSON the result is a success with no findings and a count equal to
    the number of occurrences of ['Finding:']. *)
Theorem parsing_policy (v : variant) (file : text) (c : call)
  (returncode : Z) (stdout stderr : text) :
  analyzer_exited v c returncode stdout stderr ->
  (reads_stdout v returncode = true ->
     (forall l, loads stdout = Some (JList l) ->
        exists r, run_poutine_on_workflow v file c = Returns r
          /\ success r = true /\ findings r = JList l
          /\ findings_count r = Z.of_nat (List.length l))
     /\ (forall kv n, loads stdout = Some (JObject kv) ->
           len (get (lit "findings") kv (JList [])) = Returns n ->
           exists r, run_poutine_on_workflow v file c = Returns r
             /\ success r = true
             /\ findings r = get (lit "findings") kv (JList [])
             /\ findings_count r = Z.of_nat n)
     /\ (loads stdout = None ->
           exists r, run_poutine_on_workflow v file c = Returns r
             /\ success r = true /\ findings r = JList []
             /\ findings_count r
                = Z.of_nat (count (lit "Finding:") stdout)))
  /\ (reads_stdout v returncode = false ->
        exists r, run_poutine_on_workflow v file c = Returns r
          /\ success r = true /\ findings r = JList []
          /\ findings_count r = 0%Z).
Proof.
  intros Hrun. split.
  - intros Hreads. repeat split.
    + intros l Hl.
      destruct (run_exited (v := v) file
                  (parsed := (JList l, Z.of_nat (List.length l))) Hrun)
        as [raw Hr].
      { rewrite Hreads. cbn. unfold parse_stdout. rewrite Hl. reflexivity. }
      eexists. split; [exact Hr|]. repeat split.
    + intros kv n Hkv Hn.
      destruct (run_exited (v := v) file
                  (parsed := (get (lit "findings") kv (JList []), Z.of_nat n))
                  Hrun) as [raw Hr].
      { rewrite Hreads. cbn. unfold parse_stdout. rewrite Hkv, Hn.
        reflexivity. }
      eexists. split; [exact Hr|]. repeat split.
    + intros Hnone.
      destruct (run_exited (v := v) file
                  (parsed := (JList [],
                              Z.of_nat (count (lit "Finding:") stdout)))
                  Hrun) as [raw Hr].
      { rewrite Hreads. cbn. unfold parse_stdout. rewrite Hnone.
        reflexivity. }
      eexists. split; [exact Hr|]. repeat split.
  - intros Hreads.
    destruct (run_exited (v := v) file (parsed := (JList [], 0%Z)) Hrun)
      as [raw Hr].
    { rewrite Hreads. reflexivity. }
    eexists. split; [exact Hr|]. repeat split.
Qed.

End BackendFacts.

(** Output that is not JSON and names three findings, from a process that
    exited with code 1, read by the persistent worker. *)
Lemma parsing_policy_witness :
  let out := lit "Finding: a" ++ newline ++ lit "Finding: b" ++ newline
             ++ lit "Finding: c" in
  let c := {| Backend.file_exists := true; Backend.container_running := true;
              Backend.staging_error := None;
              Backend.process := Backend.Exited 1 out [] |} in
  exists r,
    Backend.run_poutine_on_workflow Backend.Persistent (lit "w.yml") c
    = Returns r
    /\ Backend.success r = true
    /\ Backend.findings r = Json.JList []
    /\ Backend.findings_count r = 3%Z.
Proof.
  intros out c.
  assert (H : Backend.analyzer_exited Backend.Persistent c 1 out []).
  { repeat split. }
  destruct (parsing_policy (lit "w.yml") H) as [Hread _].
  destruct (Hread eq_refl) as (_ & _ & Hfallback).
  exact (Hfallback eq_refl).
Defined.

(** C5 as stated fails for the ephemeral sandbox: after exit code 1 a JSON
    list on the standard output is not looked at. *)
Lemma ephemeral_ignores_output_of_failed_run :
  let c := {| Backend.file_exists := true; Backend.container_running := true;
              Backend.staging_error := None;
              Backend.process := Backend.Exited 1 (lit "[{}]") [] |} in
  Json.loads (lit "[{}]") = Some (Json.JList [Json.JObject []])
  /\ exists r,
       Backend.run_poutine_on_workflow Backend.Ephemeral (lit "w.yml") c
       = Returns r
       /\ Backend.success r = true
       /\ Backend.findings r = Json.JList []
       /\ Backend.findings_count r = 0%Z
       /\ Backend.findings r <> Json.JList [Json.JObject []].
Proof.
  split; [reflexivity|].
  eexists. split; [reflexivity|]. repeat split. discriminate.
Qed.

(** ** Index scanner *)
Section ScannerFacts.
Import Scanner.

Variable scan_repo_workflow_json : text -> outcome (list Hit).
Variable dumps : entry -> text.

Lemma writerow_hit (h : Hit) :
  writerow (HitEntry h) = Returns (map (cell (HitEntry h)) fields).
Proof. reflexivity. Qed.

Lemma writerow_error (o r e : text) :
  writerow (ErrorEntry o r e)
  = Raises (lit "ValueError")
           (lit "dict contains fields not in fieldnames: 'error'").
Proof. reflexivity. Qed.

Lemma writerows_hits (hits : list entry) :
  existsb is_error hits = false ->
  writerows hits = (map (fun e => map (cell e) fields) hits, Returns tt).
Proof.
  induction hits as [|e hits IH]; [reflexivity|].
  cbn [existsb writerows map].
  destruct e as [h|o r err]; cbn [is_error orb]; [|discriminate].
  intros H. rewrite writerow_hit, (IH H). reflexivity.
Qed.

Lemma writerows_error (hits : list entry) :
  existsb is_error hits = true -> snd (writerows hits) = extra_field.
Proof.
  induction hits as [|e hits IH]; [discriminate|].
  cbn [existsb writerows].
  destruct e as [h|o r err]; cbn [is_error orb].
  - intros H. rewrite writerow_hit.
    specialize (IH H). destruct (writerows hits). exact IH.
  - intros _. rewrite writerow_error. reflexivity.
Qed.

(** A workflow whose scan raises yields an error entry, and the walk goes
    on: the entries of every workflow file of a visited repository are among
    the hits. *)
Lemma scan_continues (args : arguments) (index : list org_dir)
  (o : org_dir) (r : repo_dir) (files : list text) (wf_json : text) :
  In o index -> org_is_dir o = true ->
  filtered_out (only_org args) (org_name o) = false ->
  In r (repos o) -> repo_is_dir r = true ->
  filtered_out (only_repo args) (repo_name r) = false ->
  workflows r = Some files -> In wf_json files ->
  incl (scan_workflow scan_repo_workflow_json (org_name o) (repo_name r)
          wf_json)
       (collect scan_repo_workflow_json args index).
Proof.
  intros Ho Hod Hof Hr Hrd Hrf Hw Hf e He.
  unfold collect. apply in_flat_map. exists o. split; [exact Ho|].
  unfold scan_org. rewrite Hod, Hof. cbn.
  apply in_flat_map. exists r. split; [exact Hr|].
  unfold scan_repo. rewrite Hrd, Hrf, Hw. cbn.
  apply in_flat_map. exists wf_json. split; [exact Hf | exact He].
Qed.

Lemma scan_raises_error_entry (o r wf_json cls msg : text) :
  scan_repo_workflow_json wf_json = Raises cls msg ->
  scan_workflow scan_repo_workflow_json o r wf_json
  = [ErrorEntry o r (wf_json ++ lit ": " ++ msg)].
Proof. intros H. unfold scan_workflow. rewrite H. reflexivity. Qed.

(** Whenever an error entry was recorded, the JSONL report is written in
    full and the CSV writer then raises: [main] does not complete. *)
Lemma main_raises_on_error_entry (args : arguments) (index : list org_dir) :
  existsb is_error (collect scan_repo_workflow_json args index) = true ->
  let out := main scan_repo_workflow_json dumps args index in
  hits_jsonl out = map dumps (collect scan_repo_workflow_json args index)
  /\ result out = extra_field
  /\ readme_written out = false.
Proof.
  intros H. unfold main, report.
  pose proof (writerows_error _ H) as Hw.
  destruct (writerows _) as [rows written]. cbn in Hw. subst written.
  cbn. auto.
Qed.

Lemma main_completes_without_error_entry (args : arguments)
  (index : list org_dir) :
  existsb is_error (collect scan_repo_workflow_json args index) = false ->
  result (main scan_repo_workflow_json dumps args index) = Returns tt.
Proof.
  intros H. unfold main, report. rewrite (writerows_hits _ H). reflexivity.
Qed.

End ScannerFacts.

(** C4 fails on the code in its last part: with one index file that is not
    JSON, the scan goes on to the next file and records the error entry next
    to the hit, and [hits.jsonl] gets both; but [csv.DictWriter] refuses the
    error entry (its key ['error'] is not a field name), so [main] ends with
    [ValueError], the CSV holds the header only and the README is not
    written. *)
Theorem malformed_index_aborts_report :
  let out := Scanner.main ScanScenario.scan ScanScenario.dumps
               ScanScenario.no_filter ScanScenario.index in
  Scanner.collect ScanScenario.scan ScanScenario.no_filter ScanScenario.index
  = [Scanner.ErrorEntry (lit "o") (lit "r")
       (ScanScenario.bad_json
        ++ lit ": Expecting value: line 1 column 1 (char 0)");
     Scanner.HitEntry ScanScenario.hit_B]
  /\ List.length (Scanner.hits_jsonl out) = 2%nat
  /\ Scanner.hits_csv out = [Scanner.fields]
  /\ Scanner.readme_written out = false
  /\ Scanner.result out
     = Raises (lit "ValueError")
         (lit "dict contains fields not in fieldnames: 'error'").
Proof. vm_compute. repeat split. Qed.

(** ** The keyword cell of [hits.csv] *)

Lemma eval_backslash (c : char) (rest : text) :
  ((c =? 10) || (c =? 13))%N = false ->
  PyEval.eval (92%N :: c :: rest)
  = PyEval.EvalRaises (lit "SyntaxError")
      (lit "unexpected character after line continuation character").
Proof. intros H. unfold PyEval.eval. cbn. rewrite H. reflexivity. Qed.

Lemma default_keyword_head (k : text) :
  In k Scanner.DEFAULT_KEYWORDS -> exists rest, k = 92%N :: 98%N :: rest.
Proof.
  unfold Scanner.DEFAULT_KEYWORDS. cbn [In].
  intros H.
  repeat (destruct H as [<-|H]; [eexists; reflexivity|]).
  destruct H.
Qed.

Lemma keyword_cell_head (k : text) (others : list text) (rest : text) :
  k = 92%N :: 98%N :: rest ->
  exists tl,
    Scanner.read_cell (Pathlib.join 124%N (k :: others))
    = 92%N :: 98%N :: tl.
Proof. intros ->. destruct others; cbn; eexists; reflexivity. Qed.

(** No hit found with the built-in patterns can be read back from
    [hits.csv]: its keyword cell begins with a backslash and [eval]
    raises. *)
Lemma default_keywords_not_loadable (h : Scanner.Hit) (k : text)
  (others : list text) :
  Scanner.matched_keywords h = k :: others ->
  In k Scanner.DEFAULT_KEYWORDS ->
  Scanner.csv_round_trip h
  = Scanner.LoadRaises (lit "SyntaxError")
      (lit "unexpected character after line continuation character").
Proof.
  intros Hk Hin.
  destruct (default_keyword_head Hin) as [rest Hrest].
  destruct (keyword_cell_head others Hrest) as [tl Htl].
  unfold Scanner.csv_round_trip. rewrite writerow_hit.
  unfold Scanner.load_row, Scanner.with_cell at 1.
  assert (Hcell : Scanner.lookup (lit "matched_keywords")
            (Scanner.row_dict Scanner.fields
               (map (Scanner.cell (Scanner.HitEntry h)) Scanner.fields))
          = Some (Scanner.read_cell
                    (Pathlib.join 124%N (Scanner.matched_keywords h)))).
  { reflexivity. }
  rewrite Hcell, Hk, Htl.
  rewrite eval_backslash; reflexivity.
Qed.

(** C7 fails on the code: the hit of the scenario is written to the CSV with
    the keyword cell [\bcve[- ]?\d{4}-\d{3,7}\b|\bfix(?:es|ed)?\b], and the
    loader, which evaluates the cell as a Python expression, raises
    [SyntaxError] instead of returning the two keywords. *)
Theorem csv_keywords_not_recovered :
  Scanner.cell (Scanner.HitEntry ScanScenario.hit_B) (lit "matched_keywords")
  = lit "\bcve[- ]?\d{4}-\d{3,7}\b|\bfix(?:es|ed)?\b"
  /\ Scanner.csv_round_trip ScanScenario.hit_B
     = Scanner.LoadRaises (lit "SyntaxError")
         (lit "unexpected character after line continuation character").
Proof. vm_compute. split; reflexivity. Qed.

(** ** Snapshot resolver *)
Section ResolverFacts.
Import Pathlib Resolver.
Local Arguments N.eqb : simpl never.

(** The separator style is chosen as the claim says. *)
Lemma normalize_relpath_style (rel : text) :
  normalize_relpath rel
  = Path (parts (if contains_char bsep rel && negb (contains_char sep rel)
                 then PureWindowsPath rel else PurePosixPath rel)).
Proof. reflexivity. Qed.

Lemma split_replace (s : text) :
  contains_char sep s = false ->
  split sep (replace_char bsep sep s) = split bsep s.
Proof.
  induction s as [|c s IH]; [reflexivity|].
  cbn [contains_char existsb]. intros H.
  apply orb_false_iff in H. destruct H as [Hc Hs].
  fold (contains_char sep s) in Hs. specialize (IH Hs).
  cbn [replace_char map split].
  fold (replace_char bsep sep s).
  destruct (c =? bsep)%N eqn:Eb.
  - rewrite N.eqb_refl, IH. reflexivity.
  - rewrite N.eqb_sym in Hc. rewrite Hc, IH. reflexivity.
Qed.

Lemma split_nonempty (c : char) (s : text) : split c s <> [].
Proof.
  destruct s as [|x s]; cbn; [discriminate|].
  destruct (x =? c)%N; [discriminate|].
  destruct (split c s); discriminate.
Qed.

(** A component contains no character that the whole text lacks. *)
Lemma split_component_chars (c d : char) (s x : text) :
  contains_char d s = false -> In x (split c s) ->
  contains_char d x = false.
Proof.
  revert x. induction s as [|y s IH]; intros x Hd Hin.
  - cbn in Hin. destruct Hin as [<-|[]]. reflexivity.
  - cbn [contains_char existsb] in Hd. apply orb_false_iff in Hd.
    destruct Hd as [Hy Hs]. fold (contains_char d s) in Hs.
    cbn [split] in Hin. destruct (y =? c)%N.
    + destruct Hin as [<-|Hin]; [reflexivity | apply IH; assumption].
    + pose proof (split_nonempty c s) as Hne.
      destruct (split c s) as [|cur rest]; [contradiction|].
      destruct Hin as [<-|Hin].
      * cbn [contains_char existsb]. rewrite Hy. cbn.
        apply IH; [assumption | left; reflexivity].
      * apply IH; [assumption | right; assumption].
Qed.

(** A component contains no separator. *)
Lemma split_component_sep (c : char) (s x : text) :
  In x (split c s) -> contains_char c x = false.
Proof.
  revert x. induction s as [|y s IH]; intros x Hin.
  - cbn in Hin. destruct Hin as [<-|[]]. reflexivity.
  - cbn [split] in Hin. destruct (y =? c)%N eqn:E.
    + destruct Hin as [<-|Hin]; [reflexivity | apply IH; assumption].
    + pose proof (split_nonempty c s) as Hne.
      destruct (split c s) as [|cur rest]; [contradiction|].
      destruct Hin as [<-|Hin].
      * cbn [contains_char existsb]. rewrite N.eqb_sym, E. cbn.
        apply IH. left. reflexivity.
      * apply IH. right. assumption.
Qed.

Lemma split_without_sep (c : char) (s : text) :
  contains_char c s = false -> split c s = [s].
Proof.
  induction s as [|y s IH]; [reflexivity|].
  cbn [contains_char existsb]. intros H. apply orb_false_iff in H.
  destruct H as [Hy Hs]. fold (contains_char c s) in Hs.
  cbn [split]. rewrite N.eqb_sym, Hy, (IH Hs). reflexivity.
Qed.

Lemma posix_splitroot_relative (s : text) :
  startswith [sep] s = false -> posix_splitroot s = ([], [], s).
Proof.
  destruct s as [|c s]; [reflexivity|].
  cbn. rewrite andb_true_r. intros H. rewrite N.eqb_sym, H. reflexivity.
Qed.

(** Components that are kept and contain no slash are, as arguments of
    [Path], the components of the path. *)
Lemma path_of_components (ps : list text) :
  (forall x, In x ps -> keep_part x = true /\ contains_char sep x = false) ->
  parse_parts posix ps = ([], [], ps).
Proof.
  induction ps as [|x ps IH]; intros H; [reflexivity|].
  cbn [parse_parts]. rewrite IH by (intros y Hy; apply H; right; exact Hy).
  destruct (H x (or_introl eq_refl)) as [Hkeep Hsep].
  assert (Hne : is_empty x = false).
  { unfold keep_part in Hkeep. destruct (is_empty x); [discriminate|reflexivity]. }
  rewrite Hne. cbn [normalise_altsep altsep posix splitroot fsep].
  rewrite posix_splitroot_relative.
  - cbn [is_empty negb]. unfold rel_parts.
    rewrite (@split_without_sep sep x Hsep). cbn [filter]. rewrite Hkeep.
    reflexivity.
  - destruct x as [|c x]; [reflexivity|].
    cbn [contains_char existsb] in Hsep. apply orb_false_iff in Hsep.
    cbn. rewrite andb_true_r. exact (proj1 Hsep).
Qed.

Lemma rel_parts_components (c : char) (s x : text) :
  contains_char sep s = false ->
  In x (rel_parts c s) ->
  keep_part x = true /\ contains_char sep x = false.
Proof.
  intros Hs Hin. unfold rel_parts in Hin. apply filter_In in Hin.
  destruct Hin as [Hin Hkeep]. split; [exact Hkeep|].
  exact (@split_component_chars c sep s x Hs Hin).
Qed.

Lemma windows_splitroot_relative (s : text) :
  plain_relative s = true -> windows_splitroot s = ([], [], s).
Proof.
  destruct s as [|c s]; [reflexivity|].
  cbn [plain_relative]. intros H. apply andb_true_iff in H.
  destruct H as [Hc Hd]. apply negb_true_iff in Hc.
  unfold windows_splitroot.
  assert (Hboth : startswith [bsep; bsep] (c :: s) = false).
  { cbn. rewrite N.eqb_sym, Hc. reflexivity. }
  assert (Hcolon : text_eqb (firstn 1 (skipn 1 (c :: s))) [colon] = false).
  { destruct s as [|d s]; [reflexivity|].
    apply negb_true_iff in Hd. cbn. rewrite Hd. reflexivity. }
  assert (Hfirst : text_eqb (firstn 1 (c :: s)) [bsep] = false).
  { cbn. rewrite Hc. reflexivity. }
  cbv beta zeta. rewrite Hboth. cbv beta iota zeta. rewrite Hboth.
  cbn [andb]. rewrite Hcolon. cbn [andb]. rewrite Hfirst. reflexivity.
Qed.

Lemma replace_char_none (a b : char) (s : text) :
  contains_char a s = false -> replace_char a b s = s.
Proof.
  induction s as [|c s IH]; [reflexivity|].
  cbn [contains_char existsb]. intros H. apply orb_false_iff in H.
  destruct H as [Hc Hs]. fold (contains_char a s) in Hs.
  cbn [replace_char map]. fold (replace_char a b s).
  rewrite N.eqb_sym, Hc, (IH Hs). reflexivity.
Qed.

Lemma replace_char_removes (a b : char) (s : text) :
  (a =? b)%N = false -> contains_char a (replace_char a b s) = false.
Proof.
  intros Hab. induction s as [|c s IH]; [reflexivity|].
  cbn [replace_char map contains_char existsb].
  fold (replace_char a b s). fold (contains_char a (replace_char a b s)).
  rewrite IH. destruct (c =? a)%N eqn:E.
  - rewrite Hab. reflexivity.
  - rewrite N.eqb_sym, E. reflexivity.
Qed.

(** The Windows-style reading of a plain relative path without slash. *)
Lemma normalize_windows_style (s : text) :
  contains_char sep s = false -> plain_relative s = true ->
  Path (parts (PureWindowsPath s))
  = {| drive := []; root := []; tail := rel_parts bsep s |}.
Proof.
  intros Hsep Hplain.
  unfold PureWindowsPath, make. cbn [parse_parts].
  destruct s as [|c s].
  - reflexivity.
  - cbn [is_empty normalise_altsep altsep windows splitroot fsep].
    rewrite (@replace_char_none sep bsep _ Hsep).
    rewrite (@windows_splitroot_relative _ Hplain).
    cbn [is_empty negb]. rewrite app_nil_r.
    unfold parts. cbn [drive root tail is_empty andb].
    unfold Path, make.
    rewrite path_of_components; [reflexivity|].
    intros x Hx. exact (@rel_parts_components bsep _ x Hsep Hx).
Qed.

(** The POSIX-style reading of a relative path. *)
Lemma normalize_posix_style (s : text) :
  startswith [sep] s = false ->
  Path (parts (PurePosixPath s))
  = {| drive := []; root := []; tail := rel_parts sep s |}.
Proof.
  intros Hrel.
  unfold PurePosixPath, make. cbn [parse_parts].
  destruct s as [|c s].
  - reflexivity.
  - cbn [is_empty normalise_altsep altsep posix splitroot fsep].
    rewrite (@posix_splitroot_relative _ Hrel).
    cbn [is_empty negb]. rewrite app_nil_r.
    unfold parts. cbn [drive root tail is_empty andb].
    unfold Path, make.
    rewrite path_of_components; [reflexivity|].
    intros x Hx. unfold rel_parts in Hx. apply filter_In in Hx.
    destruct Hx as [Hin Hkeep]. split; [exact Hkeep|].
    exact (@split_component_sep sep _ x Hin).
Qed.

(** C8, as the code has it: [normalize_relpath] reads a text with a
    back-slash and no slash in the Windows style and any other text in the
    POSIX style; for a relative path that has no slash, does not begin with
    a back-slash and has no colon in second position, the path resolved under
    a root is the one resolved for the same text with every back-slash
    replaced by a slash. *)
Theorem backslash_path_resolves_like_slash_path (root0 : pure_path)
  (rel : text) :
  contains_char sep rel = false ->
  plain_relative rel = true ->
  normalize_relpath rel
  = Path (parts (if contains_char bsep rel then PureWindowsPath rel
                 else PurePosixPath rel))
  /\ resolve root0 (replace_char bsep sep rel) = resolve root0 rel.
Proof.
  intros Hsep Hplain. split.
  { unfold normalize_relpath. rewrite Hsep, andb_true_r. reflexivity. }
  unfold resolve. f_equal. unfold normalize_relpath.
  rewrite (@replace_char_removes bsep sep rel eq_refl). cbn [andb].
  destruct (contains_char bsep rel) eqn:Hb.
  - rewrite Hsep. cbn [negb andb].
    rewrite (@normalize_windows_style _ Hsep Hplain).
    rewrite normalize_posix_style.
    + unfold rel_parts. rewrite (@split_replace _ Hsep). reflexivity.
    + destruct rel as [|c rel]; [reflexivity|].
      cbn [plain_relative] in Hplain. apply andb_true_iff in Hplain.
      destruct Hplain as [Hc _]. apply negb_true_iff in Hc.
      cbn [contains_char existsb] in Hsep. apply orb_false_iff in Hsep.
      destruct Hsep as [Hs _].
      cbn. rewrite Hc, andb_true_r. exact Hs.
  - rewrite (@replace_char_none bsep sep _ Hb). reflexivity.
Qed.

End ResolverFacts.

Lemma backslash_path_resolves_like_slash_path_witness :
  Pathlib.to_text
    (Resolver.resolve (Pathlib.Path [lit "/data"])
       (lit "raw\o\r\.github\workflows\ci.yml\B.yml"))
  = lit "/data/raw/o/r/.github/workflows/ci.yml/B.yml"
  /\ Resolver.resolve (Pathlib.Path [lit "/data"])
       (lit "raw/o/r/.github/workflows/ci.yml/B.yml")
     = Resolver.resolve (Pathlib.Path [lit "/data"])
         (lit "raw\o\r\.github\workflows\ci.yml\B.yml").
Proof.
  split; [reflexivity|].
  apply (backslash_path_resolves_like_slash_path (Pathlib.Path [lit "/data"])
           (lit "raw\o\r\.github\workflows\ci.yml\B.yml"));
    reflexivity.
Defined.

(** C8 as stated fails: a text with both separators is read in the POSIX
    style and keeps its back-slash inside a component, and a back-slash path
    with a drive prefix keeps the drive as a component of its own; neither
    resolves like its slash-only twin. *)
Lemma separator_twins_resolve_apart :
  let root0 := Pathlib.Path [lit "/data"] in
  Pathlib.replace_char 92%N 47%N (lit "a\b/c") = lit "a/b/c"
  /\ Pathlib.to_text (Resolver.resolve root0 (lit "a\b/c"))
     = lit "/data/a\b/c"
  /\ Pathlib.to_text (Resolver.resolve root0 (lit "a/b/c"))
     = lit "/data/a/b/c"
  /\ Resolver.resolve root0 (lit "a\b/c") <> Resolver.resolve root0 (lit "a/b/c")
  /\ Pathlib.replace_char 92%N 47%N (lit "a:b\c") = lit "a:b/c"
  /\ Pathlib.to_text (Resolver.resolve root0 (lit "a:b\c"))
     = lit "/data/a:/b/c"
  /\ Pathlib.to_text (Resolver.resolve root0 (lit "a:b/c"))
     = lit "/data/a:b/c"
  /\ Resolver.resolve root0 (lit "a:b\c") <> Resolver.resolve root0 (lit "a:b/c").
Proof.
  cbv zeta. repeat split; try reflexivity; vm_compute; discriminate.
Qed.

(** ** Reading a snapshot *)
Section CodecFacts.
Import Codec.
Local Arguments N.shiftl : simpl never.
Local Arguments N.ltb : simpl never.
Local Arguments N.leb : simpl never.
Local Arguments N.eqb : simpl never.

Variable read_bytes : text -> outcome (list N).
Variable inflate : list N -> outcome (list N).

(** Properties of the decoder are proved by induction on a bound of the
    length: the decoder calls itself on the data after one to four bytes. *)
Lemma by_length (P : list N -> Prop) :
  (forall s, (forall r, List.length r < List.length s -> P r) -> P s) ->
  forall s, P s.
Proof.
  intros step s.
  assert (H : forall n r, List.length r < n -> P r).
  { induction n as [|n IH]; intros r Hr; [lia|].
    apply step. intros r' Hr'. apply IH. lia. }
  apply (H (S (List.length s))). lia.
Qed.

(** With [errors="ignore"] the decoder always returns. *)
Lemma utf8_decode_ignore_total (s : list N) :
  exists t, utf8_decode Ignore s = Some t.
Proof.
  induction s as [s IH] using by_length.
  assert (Hrec : forall r, List.length r < List.length s ->
                   exists t, on_error Ignore (utf8_decode Ignore r) = Some t)
    by (intros r Hr; exact (IH r Hr)).
  assert (Hemit : forall c r, List.length r < List.length s ->
                    exists t, emit c (utf8_decode Ignore r) = Some t).
  { intros c r Hr. destruct (IH r Hr) as [t ->]. eexists. reflexivity. }
  assert (Hend : exists t : text, on_error Ignore (Some []) = Some t)
    by (eexists; reflexivity).
  destruct s as [|b0 r1]; cbn [utf8_decode]; [eexists; reflexivity|].
  repeat match goal with
    | |- context [if ?b then _ else _] => destruct b
    | |- context [match ?r with [] => _ | _ :: _ => _ end] => destruct r
    end;
    try exact Hend;
    solve [apply Hrec; cbn [List.length]; lia
          | apply Hemit; cbn [List.length]; lia].
Qed.

Lemma occurs_in_later (needle before r : list N) :
  occurs_in needle r -> occurs_in needle (before ++ r).
Proof.
  intros (b & a & ->). exists (before ++ b), a. rewrite app_assoc.
  reflexivity.
Qed.

Lemma shiftl_mul (a n : N) : N.shiftl a n = (a * 2 ^ n)%N.
Proof. apply N.shiftl_mul_pow2. Qed.

Lemma code2_small (b0 b1 : N) :
  (b0 <? 224)%N = true -> continuation b1 = true ->
  code2 b0 b1 <> replacement_character.
Proof.
  unfold code2, continuation, replacement_character.
  rewrite !shiftl_mul. intros H0 H1.
  apply N.ltb_lt in H0. apply andb_true_iff in H1. destruct H1 as [Ha Hb].
  apply N.leb_le in Ha, Hb.
  change (2 ^ 6)%N with 64%N. lia.
Qed.

Lemma code3_replacement (b0 b1 b2 : N) :
  (b0 <? 224)%N = false -> (b0 <? 240)%N = true ->
  continuation b1 = true -> continuation b2 = true ->
  code3 b0 b1 b2 = replacement_character ->
  b0 = 239%N /\ b1 = 191%N /\ b2 = 189%N.
Proof.
  unfold code3, continuation, replacement_character.
  rewrite !shiftl_mul. intros H0 H0' H1 H2.
  apply N.ltb_ge in H0. apply N.ltb_lt in H0'.
  apply andb_true_iff in H1, H2. destruct H1 as [Ha Hb], H2 as [Hc Hd].
  apply N.leb_le in Ha, Hb, Hc, Hd.
  change (2 ^ 12)%N with 4096%N. change (2 ^ 6)%N with 64%N. lia.
Qed.

Lemma code4_large (b0 b1 b2 b3 : N) :
  (b0 <? 240)%N = false ->
  second_of_four b0 b1 = true -> continuation b2 = true ->
  continuation b3 = true ->
  code4 b0 b1 b2 b3 <> replacement_character.
Proof.
  unfold code4, second_of_four, continuation, replacement_character.
  rewrite !shiftl_mul. intros H0 H1 H2 H3.
  apply N.ltb_ge in H0.
  apply andb_true_iff in H1. destruct H1 as [H1 Hover].
  apply andb_true_iff in H1, H2, H3.
  destruct H1 as [Ha Hb], H2 as [Hc Hd], H3 as [He Hf].
  apply N.leb_le in Ha, Hb, Hc, Hd, He, Hf.
  apply negb_true_iff in Hover.
  change (2 ^ 18)%N with 262144%N. change (2 ^ 12)%N with 4096%N.
  change (2 ^ 6)%N with 64%N.
  destruct (b1 <? 144)%N eqn:E.
  - apply N.ltb_lt in E. apply N.eqb_neq in Hover. lia.
  - apply N.ltb_ge in E. lia.
Qed.

(** With [errors="ignore"] nothing is put in the place of malformed bytes:
    U+FFFD is in the result only if the data holds its encoding EF BF BD. *)
Lemma utf8_decode_ignore_no_replacement (s : list N) (t : text) :
  utf8_decode Ignore s = Some t ->
  In replacement_character t ->
  occurs_in [239; 191; 189]%N s.
Proof.
  revert t. induction s as [s IH] using by_length. intros t.
  assert (Hskip : forall before r u,
            s = before ++ r -> List.length r < List.length s ->
            on_error Ignore (utf8_decode Ignore r) = Some u ->
            In replacement_character u -> occurs_in [239; 191; 189]%N s).
  { intros before r u -> Hr Hu Hin. apply occurs_in_later.
    exact (IH r Hr u Hu Hin). }
  assert (Hchar : forall before c r u,
            s = before ++ r -> List.length r < List.length s ->
            c <> replacement_character ->
            emit c (utf8_decode Ignore r) = Some u ->
            In replacement_character u -> occurs_in [239; 191; 189]%N s).
  { intros before c r u -> Hr Hc Hu Hin. apply occurs_in_later.
    unfold emit in Hu. destruct (utf8_decode Ignore r) as [u'|] eqn:E;
      [|discriminate].
    injection Hu as <-. destruct Hin as [Hin|Hin]; [congruence|].
    exact (IH r Hr u' E Hin). }
  assert (Hend : forall u : text,
            on_error Ignore (Some []) = Some u ->
            In replacement_character u -> occurs_in [239; 191; 189]%N s).
  { intros u Hu Hin. injection Hu as <-. destruct Hin. }
  destruct s as [|b0 r1]; cbn [utf8_decode].
  { intros Hu Hin. injection Hu as <-. destruct Hin. }
  destruct (b0 <? 128)%N eqn:E128.
  { apply (Hchar [b0]); [reflexivity | cbn; lia |].
    apply N.ltb_lt in E128. unfold replacement_character. lia. }
  destruct (b0 <? 194)%N eqn:E194.
  { apply (Hskip [b0]); [reflexivity | cbn; lia]. }
  destruct (b0 <? 224)%N eqn:E224.
  { destruct r1 as [|b1 r2]; [exact (Hend t)|].
    destruct (continuation b1) eqn:C1.
    - apply (Hchar [b0; b1]); [reflexivity | cbn; lia |].
      exact (@code2_small b0 b1 E224 C1).
    - apply (Hskip [b0]); [reflexivity | cbn; lia]. }
  destruct (b0 <? 240)%N eqn:E240.
  { destruct r1 as [|b1 r2]; [exact (Hend t)|].
    destruct (second_of_three b0 b1) eqn:S1;
      [|apply (Hskip [b0]); [reflexivity | cbn; lia]].
    destruct r2 as [|b2 r3]; [exact (Hend t)|].
    destruct (continuation b2) eqn:C2;
      [|apply (Hskip [b0; b1]); [reflexivity | cbn; lia]].
    intros Hu Hin.
    destruct (N.eq_dec (code3 b0 b1 b2) replacement_character) as [Heq|Hne].
    - assert (C1 : continuation b1 = true).
      { unfold second_of_three in S1. apply andb_true_iff in S1. apply S1. }
      destruct (@code3_replacement b0 b1 b2 E224 E240 C1 C2 Heq) as (-> & -> & ->).
      exists [], r3. reflexivity.
    - exact (Hchar [b0; b1; b2] _ r3 t eq_refl ltac:(cbn; lia) Hne Hu Hin). }
  destruct (b0 <? 245)%N eqn:E245;
    [|apply (Hskip [b0]); [reflexivity | cbn; lia]].
  destruct r1 as [|b1 r2]; [exact (Hend t)|].
  destruct (second_of_four b0 b1) eqn:S1;
    [|apply (Hskip [b0]); [reflexivity | cbn; lia]].
  destruct r2 as [|b2 r3]; [exact (Hend t)|].
  destruct (continuation b2) eqn:C2;
    [|apply (Hskip [b0; b1]); [reflexivity | cbn; lia]].
  destruct r3 as [|b3 r4]; [exact (Hend t)|].
  destruct (continuation b3) eqn:C3;
    [|apply (Hskip [b0; b1; b2]); [reflexivity | cbn; lia]].
  apply (Hchar [b0; b1; b2; b3]); [reflexivity | cbn; lia |].
  exact (@code4_large b0 b1 b2 b3 E240 S1 C2 C3).
Qed.

(** A file that cannot be read, or a damaged gzip stream, raises out of
    [read_text_maybe_gz]. *)
Lemma read_text_raises (path : Pathlib.pure_path) (cls msg : text) :
  match read_bytes (Pathlib.to_text path) with
  | Returns raw =>
      text_eqb (Pathlib.suffix path) (lit ".gz") = true
      /\ gzip_read inflate raw = Raises cls msg
  | Raises cls' msg' => cls' = cls /\ msg' = msg
  end ->
  read_text_maybe_gz read_bytes inflate path = Raises cls msg.
Proof.
  unfold read_text_maybe_gz.
  destruct (read_bytes (Pathlib.to_text path)) as [raw|cls' msg'].
  - intros [-> ->]. reflexivity.
  - intros [-> ->]. destruct (text_eqb _ _); reflexivity.
Qed.

(** C6, as the code has it: when the file can be read (and, for a path with
    the suffix [.gz], unpacked), [read_text_maybe_gz] returns the UTF-8
    decoding of its bytes in which every malformed sequence is dropped;
    U+FFFD is in the text only where the bytes encode it; the text of a file
    that is not [.gz] has its line ends turned into line feeds. *)
Theorem read_text_drops_malformed_bytes (path : Pathlib.pure_path)
  (raw data : list N) :
  read_bytes (Pathlib.to_text path) = Returns raw ->
  (if text_eqb (Pathlib.suffix path) (lit ".gz")
   then gzip_read inflate raw else Returns raw) = Returns data ->
  exists s,
    utf8_decode Ignore data = Some s
    /\ read_text_maybe_gz read_bytes inflate path
       = Returns (if text_eqb (Pathlib.suffix path) (lit ".gz")
                  then s else Orchestrator.universal_newlines s)
    /\ (In replacement_character s -> occurs_in [239; 191; 189]%N data).
Proof.
  intros Hread Hdata.
  destruct (utf8_decode_ignore_total data) as [s Hs].
  exists s. split; [exact Hs|]. split.
  - unfold read_text_maybe_gz. rewrite Hread.
    destruct (text_eqb (Pathlib.suffix path) (lit ".gz")).
    + rewrite Hdata, Hs. reflexivity.
    + injection Hdata as ->. rewrite Hs. reflexivity.
  - exact (utf8_decode_ignore_no_replacement data Hs).
Qed.

End CodecFacts.

Lemma read_text_drops_malformed_bytes_witness :
  exists s,
    Codec.utf8_decode Codec.Ignore [97; 255; 98]%N = Some s
    /\ Codec.read_text_maybe_gz ReadScenario.read_bytes ReadScenario.inflate
         ReadScenario.plain
       = Returns (Orchestrator.universal_newlines s)
    /\ (In Codec.replacement_character s ->
        Codec.occurs_in [239; 191; 189]%N [97; 255; 98]%N).
Proof.
  apply (read_text_drops_malformed_bytes ReadScenario.read_bytes
           ReadScenario.inflate ReadScenario.plain
           (raw := [97; 255; 98]%N)); reflexivity.
Defined.

(** C6 as stated fails: the byte FF between [a] and [b] is dropped, where
    the handler [replace] would have put U+FFFD; and a [.gz] file that is not
    a gzip stream makes the function raise. *)
Lemma malformed_byte_dropped_bad_gzip_raises :
  Codec.read_text_maybe_gz ReadScenario.read_bytes ReadScenario.inflate
    ReadScenario.plain = Returns (lit "ab")
  /\ ~ In Codec.replacement_character (lit "ab")
  /\ Codec.utf8_decode Codec.Replace [97; 255; 98]%N
     = Some [97; Codec.replacement_character; 98]%N
  /\ Codec.read_text_maybe_gz ReadScenario.read_bytes ReadScenario.inflate
       ReadScenario.zipped
     = Raises (lit "BadGzipFile") (lit "Not a gzipped file").
Proof.
  repeat split; try reflexivity.
  vm_compute. intros [H|[H|[]]]; discriminate.
Qed.

(** ** Diff generator *)
Section MatcherFacts.
Import Difflib DiffSpec.
Local Arguments N.eqb : simpl never.

Variables a b : list line.

Lemma text_eqb_eq (x y : text) : text_eqb x y = true <-> x = y.
Proof.
  revert y. induction x as [|c x IH]; intros [|d y]; cbn; split;
    try discriminate; try reflexivity.
  - intros H. apply andb_true_iff in H. destruct H as [Hc Hx].
    apply N.eqb_eq in Hc. apply IH in Hx. congruence.
  - intros H. injection H as -> ->. rewrite N.eqb_refl. cbn. apply IH.
    reflexivity.
Qed.

(** The indices listed for [x] are indices of [x]. *)
Lemma positions_from_spec (k : nat) (l : list line) (x : line) (j : nat) :
  In j (positions_from k l x) -> k <= j /\ nth (j - k) l [] = x.
Proof.
  revert k. induction l as [|y l IH]; intros k; cbn; [intros []|].
  destruct (text_eqb y x) eqn:E.
  - intros [<-|H].
    + rewrite Nat.sub_diag. apply text_eqb_eq in E. auto.
    + apply IH in H. destruct H as [Hk Hn]. split; [lia|].
      replace (j - k) with (S (j - S k)) by lia. exact Hn.
  - intros H. apply IH in H. destruct H as [Hk Hn]. split; [lia|].
    replace (j - k) with (S (j - S k)) by lia. exact Hn.
Qed.

Lemma b2j_spec (x : line) (j : nat) :
  In j (b2j b x) -> nth j b [] = x.
Proof.
  unfold b2j. destruct (popular b x); [intros []|].
  intros H. apply positions_from_spec in H. destruct H as [_ H].
  rewrite Nat.sub_0_r in H. exact H.
Qed.

Lemma j2len_get_ok (P : nat * nat -> Prop) (j2len : list (nat * nat))
  (j : nat) :
  Forall P j2len ->
  j2len_get j2len j = 0 \/ P (j, j2len_get j2len j).
Proof.
  induction j2len as [|[j' k] rest IH]; intros H; cbn; [left; reflexivity|].
  inversion H as [|? ? He Hrest]; subst.
  destruct (j' =? j) eqn:E.
  - apply Nat.eqb_eq in E. subst j'. right. exact He.
  - apply IH. exact Hrest.
Qed.

Lemma scan_row_ok (alo ahi blo bhi i : nat) (j2len : list (nat * nat))
  (js : list nat) (bst : best) (newj2len : list (nat * nat)) :
  alo <= i -> i < ahi ->
  Forall (fun e => 1 <= i /\ entry_ok a b alo blo bhi (i - 1) e) j2len ->
  (forall j, In j js -> nth j b [] = nth i a []) ->
  block_in a b alo ahi blo bhi bst ->
  Forall (entry_ok a b alo blo bhi i) newj2len ->
  block_in a b alo ahi blo bhi
    (fst (scan_row blo bhi i j2len js bst newj2len))
  /\ Forall (entry_ok a b alo blo bhi i)
       (snd (scan_row blo bhi i j2len js bst newj2len)).
Proof.
  intros Hlo Hhi Hprev. revert bst newj2len.
  induction js as [|j js IH]; intros bst newj2len Hjs Hbst Hnew;
    cbn [scan_row]; [auto|].
  assert (Hjs' : forall j', In j' js -> nth j' b [] = nth i a [])
    by (intros j' Hj'; apply Hjs; right; exact Hj').
  destruct (j <? blo) eqn:Eblo; [apply IH; assumption|].
  destruct (bhi <=? j) eqn:Ebhi; [auto|].
  apply Nat.ltb_ge in Eblo. apply Nat.leb_gt in Ebhi.
  set (k := match j with O => 1 | S j1 => j2len_get j2len j1 + 1 end).
  assert (Hk : entry_ok a b alo blo bhi i (j, k)).
  { assert (H0 : nth (i - 0) a [] = nth (j - 0) b []).
    { rewrite !Nat.sub_0_r. symmetry. apply Hjs. left. reflexivity. }
    assert (Hone : entry_ok a b alo blo bhi i (j, 1)).
    { unfold entry_ok. repeat split; try lia. intros t Ht.
      replace t with 0 by lia. exact H0. }
    subst k. destruct j as [|j1]; [exact Hone|].
    destruct (@j2len_get_ok _ j2len j1 Hprev) as [Hz|He].
    - rewrite Hz. exact Hone.
    - unfold entry_ok in He. cbn beta in He.
      destruct He as (Hi & Hk1 & Hk2 & Hk3 & Hk4 & Hk5 & Hsame).
      unfold entry_ok. repeat split; try lia. intros t Ht.
      destruct t as [|t]; [exact H0|].
      replace (i - S t) with (i - 1 - t) by lia.
      replace (S j1 - S t) with (j1 - t) by lia.
      apply Hsame. lia. }
  destruct bst as [[besti bestj] bestsize].
  apply IH; [exact Hjs'| |constructor; assumption].
  destruct (bestsize <? k) eqn:Ebest; [|exact Hbst].
  unfold entry_ok in Hk. destruct Hk as (Hk1 & Hk2 & Hk3 & Hk4 & Hk5 & Hsame).
  unfold block_in. repeat split; try lia. intros t Ht.
  replace (i + 1 - k + t) with (i - (k - 1 - t)) by lia.
  replace (j + 1 - k + t) with (j - (k - 1 - t)) by lia.
  apply Hsame. lia.
Qed.

Lemma scan_rows_ok (alo ahi blo bhi : nat) (n i : nat)
  (j2len : list (nat * nat)) (bst : best) :
  alo <= i -> i + n <= ahi ->
  Forall (fun e => 1 <= i /\ entry_ok a b alo blo bhi (i - 1) e) j2len ->
  block_in a b alo ahi blo bhi bst ->
  block_in a b alo ahi blo bhi
    (scan_rows a b blo bhi (seq i n) j2len bst).
Proof.
  revert i j2len bst.
  induction n as [|n IH]; intros i j2len bst Hlo Hhi Hprev Hbst;
    cbn [seq scan_rows]; [exact Hbst|].
  destruct (@scan_row_ok alo ahi blo bhi i j2len (b2j b (nth i a [])) bst []
              Hlo ltac:(lia) Hprev
              (fun j Hj => @b2j_spec (nth i a []) j Hj) Hbst (Forall_nil _))
    as [Hb Hn].
  destruct (scan_row blo bhi i j2len (b2j b (nth i a [])) bst [])
    as [bst' newj2len].
  cbn [fst snd] in Hb, Hn.
  apply IH; [lia | lia | | exact Hb].
  apply Forall_forall. intros e He.
  rewrite Forall_forall in Hn. specialize (Hn e He).
  split; [lia|]. replace (S i - 1) with i by lia. exact Hn.
Qed.

Lemma extend_left_ok (alo ahi blo bhi besti bestj bestsize : nat) :
  block_in a b alo ahi blo bhi (besti, bestj, bestsize) ->
  block_in a b alo ahi blo bhi
    (extend_left a b alo blo besti bestj bestsize).
Proof.
  revert bestj bestsize.
  induction besti as [|i' IH]; intros bestj bestsize Hb;
    cbn [extend_left]; [exact Hb|].
  destruct bestj as [|j']; [exact Hb|].
  destruct ((alo <? S i') && (blo <? S j')
            && text_eqb (nth i' a []) (nth j' b [])) eqn:E; [|exact Hb].
  apply andb_true_iff in E. destruct E as [E Eq].
  apply andb_true_iff in E. destruct E as [Ea Eb].
  apply Nat.ltb_lt in Ea, Eb. apply text_eqb_eq in Eq.
  apply IH. cbn in Hb. destruct Hb as (H1 & H2 & H3 & H4 & Hsame).
  cbn. repeat split; try lia. intros t Ht.
  destruct t as [|t].
  - rewrite !Nat.add_0_r. exact Eq.
  - replace (i' + S t) with (S i' + t) by lia.
    replace (j' + S t) with (S j' + t) by lia.
    apply Hsame. lia.
Qed.

Lemma extend_right_ok (alo ahi blo bhi besti bestj bestsize room : nat) :
  block_in a b alo ahi blo bhi (besti, bestj, bestsize) ->
  block_in a b alo ahi blo bhi
    (extend_right a b ahi bhi besti bestj bestsize room).
Proof.
  revert bestsize.
  induction room as [|room IH]; intros bestsize Hb;
    cbn [extend_right]; [exact Hb|].
  destruct ((besti + bestsize <? ahi) && (bestj + bestsize <? bhi)
            && text_eqb (nth (besti + bestsize) a [])
                 (nth (bestj + bestsize) b [])) eqn:E; [|exact Hb].
  apply andb_true_iff in E. destruct E as [E Eq].
  apply andb_true_iff in E. destruct E as [Ea Eb].
  apply Nat.ltb_lt in Ea, Eb. apply text_eqb_eq in Eq.
  apply IH. cbn in Hb. destruct Hb as (H1 & H2 & H3 & H4 & Hsame).
  cbn. repeat split; try lia. intros t Ht.
  destruct (Nat.eq_dec t bestsize) as [->|Hne]; [exact Eq|].
  apply Hsame. lia.
Qed.

(** The block returned by [find_longest_match] lies in the window and
    consists of the same lines on both sides. *)
Lemma find_longest_match_ok (alo ahi blo bhi : nat) :
  alo <= ahi -> blo <= bhi ->
  block_in a b alo ahi blo bhi (find_longest_match a b alo ahi blo bhi).
Proof.
  intros Ha Hb. unfold find_longest_match.
  assert (H0 : block_in a b alo ahi blo bhi (alo, blo, 0)).
  { cbn. repeat split; try lia. intros t Ht. lia. }
  pose proof (@scan_rows_ok alo ahi blo bhi (ahi - alo) alo [] (alo, blo, 0)
                (le_n _) ltac:(lia) (Forall_nil _) H0) as H1.
  destruct (scan_rows a b blo bhi (seq alo (ahi - alo)) [] (alo, blo, 0))
    as [[besti bestj] bestsize].
  pose proof (extend_left_ok H1) as H2.
  destruct (extend_left a b alo blo besti bestj bestsize)
    as [[besti' bestj'] bestsize'].
  apply extend_right_ok. exact H2.
Qed.

End MatcherFacts.

Section OpcodeFacts.
Import Difflib DiffSpec.

Variables a b : list line.

Lemma ordered_lower (i j i' j' : nat) (blocks : list best) (hi hj : nat) :
  i' <= i -> j' <= j ->
  ordered a b i j blocks hi hj -> ordered a b i' j' blocks hi hj.
Proof.
  intros Hi Hj. destruct blocks as [|[[bi bj] bk] rest]; [auto|].
  cbn. intros [(H1 & H2 & H3 & H4 & H5) Hrest].
  repeat split; try lia; assumption.
Qed.

Lemma ordered_upper (i j : nat) (blocks : list best) (hi hj hi' hj' : nat) :
  hi <= hi' -> hj <= hj' ->
  ordered a b i j blocks hi hj -> ordered a b i j blocks hi' hj'.
Proof.
  intros Hi Hj. revert i j.
  induction blocks as [|[[bi bj] bk] rest IH]; intros i j; [auto|].
  cbn. intros [(H1 & H2 & H3 & H4 & H5) Hrest].
  repeat split; try lia; try assumption. apply IH. exact Hrest.
Qed.

Lemma ordered_app (i j m n : nat) (l1 l2 : list best) (hi hj : nat) :
  i <= m -> j <= n -> m <= hi -> n <= hj ->
  ordered a b i j l1 m n -> ordered a b m n l2 hi hj ->
  ordered a b i j (l1 ++ l2) hi hj.
Proof.
  revert i j.
  induction l1 as [|[[bi bj] bk] rest IH]; intros i j Hi Hj Hm Hn H1 H2.
  - exact (@ordered_lower m n i j l2 hi hj Hi Hj H2).
  - cbn in H1 |- *. destruct H1 as [(B1 & B2 & B3 & B4 & B5) Hrest].
    repeat split; try lia; try assumption.
    apply IH; try lia; assumption.
Qed.

Lemma blocks_between_ordered (depth alo ahi blo bhi : nat) :
  alo <= ahi -> blo <= bhi ->
  ordered a b alo blo (blocks_between a b depth alo ahi blo bhi) ahi bhi.
Proof.
  revert alo ahi blo bhi.
  induction depth as [|depth IH]; intros alo ahi blo bhi Ha Hb;
    cbn [blocks_between]; [exact I|].
  pose proof (@find_longest_match_ok a b alo ahi blo bhi Ha Hb) as Hm.
  destruct (find_longest_match a b alo ahi blo bhi) as [[i j] k].
  destruct k as [|k']; [exact I|].
  set (k := S k') in *.
  cbn in Hm. destruct Hm as (M1 & M2 & M3 & M4 & M5).
  apply (@ordered_app alo blo i j _ _ ahi bhi); try lia.
  - destruct ((alo <? i) && (blo <? j)); [|exact I].
    apply IH; lia.
  - cbn [ordered]. unfold block_in. repeat split; try lia; try assumption.
    destruct ((i + k <? ahi) && (j + k <? bhi)); [|exact I].
    apply IH; lia.
Qed.

Lemma same_join (i j k1 k2 : nat) :
  same a b i j k1 -> same a b (i + k1) (j + k1) k2 ->
  same a b i j (k1 + k2).
Proof.
  intros H1 H2 t Ht. destruct (Nat.lt_ge_cases t k1) as [Hlt|Hge].
  - apply H1. exact Hlt.
  - replace (i + t) with (i + k1 + (t - k1)) by lia.
    replace (j + t) with (j + k1 + (t - k1)) by lia.
    apply H2. lia.
Qed.

Lemma collapse_ordered (blocks : list best) (i1 j1 k1 i j hi hj : nat) :
  i <= i1 -> j <= j1 -> i1 + k1 <= hi -> j1 + k1 <= hj ->
  same a b i1 j1 k1 ->
  ordered a b (i1 + k1) (j1 + k1) blocks hi hj ->
  ordered a b i j (collapse i1 j1 k1 blocks) hi hj.
Proof.
  revert i1 j1 k1 i j.
  induction blocks as [|[[i2 j2] k2] rest IH];
    intros i1 j1 k1 i j Hi Hj Hhi Hhj Hsame Hord; cbn [collapse].
  - destruct k1; [exact I|]. cbn. repeat split; try lia; assumption.
  - cbn in Hord. destruct Hord as [(B1 & B2 & B3 & B4 & B5) Hrest].
    destruct ((i1 + k1 =? i2) && (j1 + k1 =? j2)) eqn:E.
    + apply andb_true_iff in E. destruct E as [E1 E2].
      apply Nat.eqb_eq in E1, E2. subst i2 j2.
      apply IH; try lia.
      * apply same_join; assumption.
      * replace (i1 + (k1 + k2)) with (i1 + k1 + k2) by lia.
        replace (j1 + (k1 + k2)) with (j1 + k1 + k2) by lia.
        exact Hrest.
    + destruct k1 as [|k1'].
      * apply IH; try lia; assumption.
      * cbn. repeat split; try lia; try assumption.
        apply IH; try lia; assumption.
Qed.

Lemma chain_app (i j m n i' j' : nat) (l1 l2 : list opcode) :
  chain a b i j l1 m n -> chain a b m n l2 i' j' ->
  chain a b i j (l1 ++ l2) i' j'.
Proof.
  revert i j. induction l1 as [|c l1 IH]; intros i j H1 H2; cbn in *.
  - destruct H1 as [-> ->]. exact H2.
  - destruct H1 as [Hc Hrest]. split; [exact Hc|].
    apply IH; assumption.
Qed.

Lemma opcodes_chain (blocks : list best) (i j : nat) :
  i <= List.length a -> j <= List.length b ->
  ordered a b i j blocks (List.length a) (List.length b) ->
  chain a b i j
    (opcodes_from i j (blocks ++ [(List.length a, List.length b, 0)]))
    (List.length a) (List.length b).
Proof.
  revert i j.
  induction blocks as [|[[ai bj] size] rest IH]; intros i j Hi Hj Hord;
    cbn [opcodes_from app].
  - rewrite ?app_nil_r. cbn [app].
    destruct (i <? List.length a) eqn:Ea;
      destruct (j <? List.length b) eqn:Eb; cbn [andb app chain];
      try apply Nat.ltb_lt in Ea; try apply Nat.ltb_ge in Ea;
      try apply Nat.ltb_lt in Eb; try apply Nat.ltb_ge in Eb;
      unfold code_ok, op_ok; cbn; repeat split; try lia.
  - cbn in Hord. destruct Hord as [(B1 & B2 & B3 & B4 & B5) Hrest].
    apply (@chain_app i j ai bj).
    { destruct (i <? ai) eqn:Ea; destruct (j <? bj) eqn:Eb;
        cbn [andb chain];
        try apply Nat.ltb_lt in Ea; try apply Nat.ltb_ge in Ea;
        try apply Nat.ltb_lt in Eb; try apply Nat.ltb_ge in Eb;
        unfold code_ok, op_ok; cbn; repeat split; try lia. }
    apply (@chain_app ai bj (ai + size) (bj + size)).
    { destruct size as [|size'].
      - cbn. split; lia.
      - cbn [chain]. unfold code_ok, op_ok. cbn. repeat split; try lia.
        replace (ai + S size' - ai) with (S size') by lia. exact B5. }
    apply IH; try lia. exact Hrest.
Qed.

(** The opcodes of [get_opcodes] lead from the start of both sequences to
    their ends, and each is what its tag says. *)
Lemma get_opcodes_chain :
  chain a b 0 0 (get_opcodes a b) (List.length a) (List.length b).
Proof.
  unfold get_opcodes, get_matching_blocks.
  apply opcodes_chain; try lia.
  apply collapse_ordered; try lia.
  - intros t Ht. lia.
  - apply blocks_between_ordered; lia.
Qed.


(** The search depth given by [get_matching_blocks] is enough: with any
    depth of at least [ahi - alo] the same blocks are found. *)
Lemma blocks_between_depth (d d' alo ahi blo bhi : nat) :
  alo <= ahi -> blo <= bhi -> ahi - alo <= d -> ahi - alo <= d' ->
  blocks_between a b d alo ahi blo bhi
  = blocks_between a b d' alo ahi blo bhi.
Proof.
  revert d' alo ahi blo bhi.
  induction d as [|d IH]; intros d' alo ahi blo bhi Ha Hb Hd Hd'.
  - destruct d' as [|d']; [reflexivity|]. cbn [blocks_between].
    pose proof (@find_longest_match_ok a b alo ahi blo bhi Ha Hb) as Hm.
    destruct (find_longest_match a b alo ahi blo bhi) as [[i j] k].
    unfold block_in in Hm. destruct k; [reflexivity|]. lia.
  - cbn [blocks_between].
    pose proof (@find_longest_match_ok a b alo ahi blo bhi Ha Hb) as Hm.
    destruct d' as [|d'].
    + cbn [blocks_between].
      destruct (find_longest_match a b alo ahi blo bhi) as [[i j] k].
      unfold block_in in Hm. destruct k; [reflexivity|]. lia.
    + cbn [blocks_between].
      destruct (find_longest_match a b alo ahi blo bhi) as [[i j] k].
      unfold block_in in Hm. destruct Hm as (M1 & M2 & M3 & M4 & _).
      destruct k as [|k']; [reflexivity|].
      f_equal; [|f_equal].
      * destruct ((alo <? i) && (blo <? j)); [|reflexivity].
        apply IH; lia.
      * destruct ((i + S k' <? ahi) && (j + S k' <? bhi)); [|reflexivity].
        apply IH; lia.
Qed.

End OpcodeFacts.

Section GroupFacts.
Import Difflib DiffSpec.

Variables a b : list line.

Lemma same_sub (i j k x y : nat) :
  same a b i j k -> x + y <= k -> same a b (i + x) (j + x) y.
Proof.
  intros H Hxy t Ht.
  replace (i + x + t) with (i + (x + t)) by lia.
  replace (j + x + t) with (j + (x + t)) by lia.
  apply H. lia.
Qed.

Lemma diag_refl (i j : nat) :
  i <= List.length a -> j <= List.length b -> diag a b i j i j.
Proof.
  intros Hi Hj. unfold diag. repeat split; try lia. intros t Ht. lia.
Qed.

Lemma diag_trans (i j m n i' j' : nat) :
  diag a b i j m n -> diag a b m n i' j' -> diag a b i j i' j'.
Proof.
  unfold diag. intros (A1 & A2 & A3 & A4 & A5 & A6)
                      (B1 & B2 & B3 & B4 & B5 & B6).
  repeat split; try lia.
  replace (i' - i) with ((m - i) + (i' - m)) by lia.
  apply same_join; [exact A6|].
  replace (i + (m - i)) with m by lia.
  replace (j + (m - i)) with n by lia. exact B6.
Qed.

Lemma hunks_ok_diag (i j m n : nat) (groups : list (list opcode)) :
  diag a b i j m n -> hunks_ok a b m n groups -> hunks_ok a b i j groups.
Proof.
  intros Hd. destruct groups as [|g rest]; cbn.
  - apply diag_trans. exact Hd.
  - intros (ei & ej & H1 & H2 & H3). exists ei, ej.
    split; [exact (diag_trans Hd H1)|]. split; assumption.
Qed.

(** Part of an [equal] opcode, as a parallel stretch. *)
Lemma equal_diag (i j : nat) (c : opcode) (x y p q p' q' : nat) :
  code_ok a b i j c -> is_equal c = true ->
  x <= y -> y <= i2 c - i1 c ->
  p = i + x -> q = j + x -> p' = i + y -> q' = j + y ->
  diag a b p q p' q'.
Proof.
  unfold code_ok, op_ok, is_equal.
  intros (C1 & C2 & C3 & C4 & C5 & C6 & C7) He Hx Hy -> -> -> ->.
  destruct (op c); try discriminate. destruct C7 as [Hlen Hsame].
  unfold diag. repeat split; try lia.
  replace (i + y - (i + x)) with (y - x) by lia.
  subst i j. apply (@same_sub (i1 c) (j1 c) (i2 c - i1 c)); [exact Hsame|lia].
Qed.

Lemma equal_lengths (i j : nat) (c : opcode) :
  code_ok a b i j c -> is_equal c = true ->
  i1 c = i /\ j1 c = j /\ i <= i2 c /\ j <= j2 c
  /\ i2 c <= List.length a /\ j2 c <= List.length b
  /\ j2 c - j1 c = i2 c - i1 c
  /\ same a b (i1 c) (j1 c) (i2 c - i1 c).
Proof.
  unfold code_ok, op_ok, is_equal.
  intros (C1 & C2 & C3 & C4 & C5 & C6 & C7) He.
  destruct (op c); try discriminate. destruct C7 as [Hlen Hsame].
  repeat split; assumption.
Qed.

Lemma is_equal_trim_back (n : nat) (c : opcode) :
  is_equal (trim_back n c) = is_equal c.
Proof. reflexivity. Qed.

Lemma is_equal_trim_front (n : nat) (c : opcode) :
  is_equal (trim_front n c) = is_equal c.
Proof. reflexivity. Qed.

Lemma trim_back_ok (n i j : nat) (c : opcode) :
  code_ok a b i j c -> is_equal c = true ->
  code_ok a b i j (trim_back n c)
  /\ diag a b (i2 (trim_back n c)) (j2 (trim_back n c)) (i2 c) (j2 c).
Proof.
  intros Hc He.
  destruct (equal_lengths Hc He) as (C1 & C2 & C3 & C4 & C5 & C6 & Hlen & Hsame).
  split.
  - unfold code_ok, op_ok. cbn [trim_back op i1 i2 j1 j2].
    unfold is_equal in He. destruct (op c); try discriminate.
    repeat split; try lia. intros t Ht. apply Hsame. lia.
  - cbn [trim_back i2 j2].
    apply (@equal_diag i j c (Nat.min (i2 c - i1 c) n) (i2 c - i1 c));
      try assumption; lia.
Qed.

Lemma trim_front_ok (n i j : nat) (c : opcode) :
  code_ok a b i j c -> is_equal c = true ->
  code_ok a b (i1 (trim_front n c)) (j1 (trim_front n c)) (trim_front n c)
  /\ diag a b i j (i1 (trim_front n c)) (j1 (trim_front n c))
  /\ i2 (trim_front n c) = i2 c /\ j2 (trim_front n c) = j2 c.
Proof.
  intros Hc He.
  destruct (equal_lengths Hc He) as (C1 & C2 & C3 & C4 & C5 & C6 & Hlen & Hsame).
  split; [|split; [|split; reflexivity]].
  - unfold code_ok, op_ok. cbn [trim_front op i1 i2 j1 j2].
    unfold is_equal in He. destruct (op c); try discriminate.
    repeat split; try lia. intros t Ht.
    replace (Nat.max (i1 c) (i2 c - n) + t)
      with (i1 c + (Nat.max (i1 c) (i2 c - n) - i1 c + t)) by lia.
    replace (Nat.max (j1 c) (j2 c - n) + t)
      with (j1 c + (Nat.max (i1 c) (i2 c - n) - i1 c + t)) by lia.
    apply Hsame. lia.
  - cbn [trim_front i1 j1].
    apply (@equal_diag i j c 0 (i2 c - i1 c - n)); try assumption; lia.
Qed.

Lemma code_ok_bounds (i j : nat) (c : opcode) :
  code_ok a b i j c ->
  i1 c = i /\ j1 c = j /\ i <= i2 c /\ j <= j2 c
  /\ i2 c <= List.length a /\ j2 c <= List.length b.
Proof. unfold code_ok. intuition. Qed.

Lemma chain_open (i j : nat) (codes : list opcode) :
  i <= List.length a -> j <= List.length b ->
  chain a b i j codes (List.length a) (List.length b) ->
  open_chain a b i j codes.
Proof.
  revert i j. induction codes as [|c rest IH]; intros i j Hi Hj; cbn.
  - intros [-> ->]. apply diag_refl; lia.
  - intros [Hc Hrest]. split; [exact Hc|].
    destruct (code_ok_bounds Hc) as (_ & _ & _ & _ & B1 & B2).
    apply IH; assumption.
Qed.

Lemma fix_last_open (n i j : nat) (codes : list opcode) :
  open_chain a b i j codes -> open_chain a b i j (fix_last n codes).
Proof.
  revert i j. induction codes as [|c rest IH]; intros i j; [auto|].
  destruct rest as [|c' rest'].
  - cbn [fix_last open_chain]. intros [Hc Hd].
    destruct (is_equal c) eqn:He; [|cbn; auto].
    destruct (@trim_back_ok n i j c Hc He) as [Hc' Hd'].
    cbn [open_chain]. split; [exact Hc'|].
    exact (diag_trans Hd' Hd).
  - change (fix_last n (c :: c' :: rest'))
      with (c :: fix_last n (c' :: rest')).
    cbn [open_chain]. intros [Hc Hrest]. split; [exact Hc|].
    apply IH. exact Hrest.
Qed.

Lemma open_chain_start (i j : nat) (codes : list opcode) :
  open_chain a b i j codes -> i <= List.length a /\ j <= List.length b.
Proof.
  destruct codes as [|c rest]; cbn.
  - unfold diag. lia.
  - intros [Hc _]. destruct (code_ok_bounds Hc). lia.
Qed.

Lemma fix_first_open (n i j : nat) (codes : list opcode) :
  open_chain a b i j codes ->
  exists i' j',
    diag a b i j i' j' /\ open_chain a b i' j' (fix_first n codes).
Proof.
  intros H. destruct (@open_chain_start i j codes H) as [Hi Hj].
  destruct codes as [|c rest].
  - exists i, j. split; [apply diag_refl; assumption | exact H].
  - cbn [fix_first]. destruct (is_equal c) eqn:He.
    + cbn [open_chain] in H. destruct H as [Hc Hrest].
      destruct (@trim_front_ok n i j c Hc He) as (Hc' & Hd & E1 & E2).
      exists (i1 (trim_front n c)), (j1 (trim_front n c)).
      split; [exact Hd|]. cbn [open_chain]. split; [exact Hc'|].
      rewrite E1, E2. exact Hrest.
    + exists i, j. split; [apply diag_refl; assumption | exact H].
Qed.

Lemma chain_first (gi gj ei ej : nat) (g : list opcode) :
  g <> [] -> chain a b gi gj g ei ej ->
  i1 (first_code g) = gi /\ j1 (first_code g) = gj
  /\ gi <= List.length a /\ gj <= List.length b.
Proof.
  destruct g as [|c rest]; [congruence|]. intros _ [Hc _].
  destruct (code_ok_bounds Hc) as (B1 & B2 & B3 & B4 & B5 & B6).
  cbn. repeat split; lia.
Qed.

Lemma chain_snoc (gi gj i j : nat) (group : list opcode) (c : opcode) :
  chain a b gi gj group i j -> code_ok a b i j c ->
  chain a b gi gj (group ++ [c]) (i2 c) (j2 c).
Proof.
  intros Hg Hc. apply (@chain_app a b gi gj i j); [exact Hg|].
  cbn. auto.
Qed.

(** A finished group, followed by what the rest of the codes yields. *)
Lemma hunks_ok_cons (gi gj ei ej : nat) (g : list opcode)
  (rest : list (list opcode)) :
  g <> [] -> chain a b gi gj g ei ej -> hunks_ok a b ei ej rest ->
  hunks_ok a b gi gj (g :: rest).
Proof.
  intros Hne Hg Hrest.
  destruct (@chain_first gi gj ei ej g Hne Hg) as (F1 & F2 & F3 & F4).
  cbn [hunks_ok]. exists ei, ej. rewrite F1, F2.
  split; [apply diag_refl; assumption|]. split; assumption.
Qed.

Lemma group_codes_ok (n : nat) (codes group : list opcode)
  (gi gj i j : nat) :
  chain a b gi gj group i j -> open_chain a b i j codes ->
  hunks_ok a b gi gj (group_codes n codes group).
Proof.
  revert group gi gj i j.
  induction codes as [|c rest IH]; intros group gi gj i j Hg Hopen.
  - cbn [group_codes open_chain] in *.
    destruct group as [|c0 [|c1 more]].
    + destruct Hg as [-> ->]. exact Hopen.
    + destruct (is_equal c0) eqn:He.
      * cbn [hunks_ok]. destruct Hg as [Hc0 [Ei Ej]]. subst i j.
        apply (@diag_trans gi gj (i2 c0) (j2 c0)); [|exact Hopen].
        destruct (equal_lengths Hc0 He)
          as (C1 & C2 & C3 & C4 & C5 & C6 & Hlen & Hsame).
        apply (@equal_diag gi gj c0 0 (i2 c0 - i1 c0)); try assumption;
          lia.
      * apply (@hunks_ok_cons gi gj i j); [discriminate | exact Hg | exact Hopen].
    + apply (@hunks_ok_cons gi gj i j); [discriminate | exact Hg | exact Hopen].
  - cbn [group_codes open_chain] in *. destruct Hopen as [Hc Hrest].
    destruct (is_equal c && (n + n <? i2 c - i1 c)) eqn:E.
    + apply andb_true_iff in E. destruct E as [He Hbig].
      apply Nat.ltb_lt in Hbig.
      destruct (@trim_back_ok n i j c Hc He) as [Hback _].
      destruct (@trim_front_ok n i j c Hc He) as (Hfront & _ & E1 & E2).
      destruct (equal_lengths Hc He)
        as (C1 & C2 & C3 & C4 & C5 & C6 & Hlen & Hsame).
      apply (@hunks_ok_cons gi gj (i2 (trim_back n c)) (j2 (trim_back n c))).
      * destruct group; discriminate.
      * apply (@chain_snoc gi gj i j); assumption.
      * apply (@hunks_ok_diag (i2 (trim_back n c)) (j2 (trim_back n c))
                 (i1 (trim_front n c)) (j1 (trim_front n c))).
        -- cbn [trim_back trim_front i1 i2 j1 j2].
           apply (@equal_diag i j c n (i2 c - i1 c - n)); try assumption;
             lia.
        -- apply (IH [trim_front n c] _ _ (i2 c) (j2 c)); [|exact Hrest].
           cbn [chain]. rewrite E1, E2. auto.
    + apply (IH (group ++ [c]) gi gj (i2 c) (j2 c)); [|exact Hrest].
      apply (@chain_snoc gi gj i j); assumption.
Qed.

(** The groups of [get_grouped_opcodes] are separated by stretches where old
    and new lines are the same. *)
Lemma get_grouped_opcodes_ok (codes : list opcode) :
  chain a b 0 0 codes (List.length a) (List.length b) ->
  hunks_ok a b 0 0 (get_grouped_opcodes 3 codes).
Proof.
  intros Hchain. unfold get_grouped_opcodes.
  destruct codes as [|c rest].
  - cbn in Hchain. destruct Hchain as [Ha Hb].
    cbn. unfold diag. rewrite <- Ha, <- Hb.
    repeat split; try lia. intros t Ht. lia.
  - apply chain_open in Hchain; try lia.
    destruct (@fix_first_open 3 0 0 _ Hchain) as (i' & j' & Hd & Hopen).
    apply (@hunks_ok_diag 0 0 i' j' _ Hd).
    apply (@group_codes_ok 3 _ [] i' j' i' j').
    + cbn. auto.
    + apply fix_last_open. exact Hopen.
Qed.

End GroupFacts.

Section SliceFacts.
Import Difflib.

Variable A : Type.

Lemma slice_length (l : list A) (lo hi : nat) :
  hi <= List.length l -> List.length (slice l lo hi) = hi - lo.
Proof.
  intros H. unfold slice. rewrite length_firstn, length_skipn. lia.
Qed.

Lemma slice_empty (l : list A) (lo : nat) : slice l lo lo = [].
Proof. unfold slice. rewrite Nat.sub_diag. reflexivity. Qed.

Lemma slice_skipn (l : list A) (lo hi : nat) :
  lo <= hi -> slice l lo hi ++ skipn hi l = skipn lo l.
Proof.
  intros H. unfold slice.
  rewrite <- (firstn_skipn (hi - lo) (skipn lo l)) at 2.
  f_equal. rewrite skipn_skipn. f_equal. lia.
Qed.

Lemma firstn_plus (l : list A) (n m : nat) :
  firstn (n + m) l = firstn n l ++ firstn m (skipn n l).
Proof.
  revert l. induction n as [|n IH]; intros l; [reflexivity|].
  destruct l as [|x l]; cbn.
  - destruct m; reflexivity.
  - rewrite IH. reflexivity.
Qed.

Lemma slice_app (l : list A) (lo mid hi : nat) :
  lo <= mid -> mid <= hi -> slice l lo mid ++ slice l mid hi = slice l lo hi.
Proof.
  intros H1 H2. unfold slice.
  replace (hi - lo) with ((mid - lo) + (hi - mid)) by lia.
  rewrite firstn_plus. f_equal.
  rewrite skipn_skipn. do 2 f_equal. lia.
Qed.

Lemma slice_to_end (l : list A) (lo : nat) :
  slice l lo (List.length l) = skipn lo l.
Proof.
  unfold slice. apply firstn_all2. rewrite length_skipn. lia.
Qed.

Lemma nth_slice (l : list A) (lo hi t : nat) (d : A) :
  t < hi - lo -> nth t (slice l lo hi) d = nth (lo + t) l d.
Proof.
  intros H. unfold slice. rewrite nth_firstn.
  destruct (t <? hi - lo) eqn:E; [apply nth_skipn|].
  apply Nat.ltb_ge in E. lia.
Qed.

End SliceFacts.

Section PatchFacts.
Import Difflib DiffSpec Patch.
Local Arguments N.eqb : simpl never.

Variables a b : list line.

Lemma same_slices (i j i' j' : nat) :
  diag a b i j i' j' -> slice a i i' = slice b j j'.
Proof.
  unfold diag. intros (H1 & H2 & H3 & H4 & H5 & Hsame).
  apply (nth_ext _ _ [] []).
  - rewrite !slice_length by assumption. exact H3.
  - intros t Ht. rewrite slice_length in Ht by assumption.
    rewrite !nth_slice by lia. apply Hsame. exact Ht.
Qed.

Lemma text_eqb_refl (x : text) : text_eqb x x = true.
Proof. apply text_eqb_eq. reflexivity. Qed.

Lemma steps_app (st : progress) (l1 l2 : list text) :
  steps st (l1 ++ l2)
  = match steps st l1 with
    | Some st' => steps st' l2
    | None => None
    end.
Proof.
  revert st. induction l1 as [|l l1 IH]; intros st; cbn; [reflexivity|].
  destruct (step st l); [apply IH | reflexivity].
Qed.

Lemma steps_context (ls rest out : list text) (o n p : nat) :
  steps {| old_left := List.length ls + o; new_left := List.length ls + n;
           old_rest := ls ++ rest; passed := p; output := out |}
        (map (app (lit " ")) ls)
  = Some {| old_left := o; new_left := n; old_rest := rest;
            passed := p + List.length ls; output := out ++ ls |}.
Proof.
  revert out p. induction ls as [|x ls IH]; intros out p.
  - cbn. rewrite Nat.add_0_r, app_nil_r. reflexivity.
  - cbn [map steps]. unfold step at 1.
    cbn [old_left new_left old_rest passed output List.length Nat.add app].
    change (lit " " ++ x) with (32%N :: x).
    cbn [N.eqb]. rewrite N.eqb_refl.
    unfold lines_eqb. rewrite text_eqb_refl.
    rewrite IH. do 2 f_equal; [lia|].
    rewrite <- app_assoc. reflexivity.
Qed.

Lemma steps_removed (ls rest out : list text) (o n p : nat) :
  steps {| old_left := List.length ls + o; new_left := n;
           old_rest := ls ++ rest; passed := p; output := out |}
        (map (app (lit "-")) ls)
  = Some {| old_left := o; new_left := n; old_rest := rest;
            passed := p + List.length ls; output := out |}.
Proof.
  revert p. induction ls as [|x ls IH]; intros p.
  - cbn. rewrite Nat.add_0_r. reflexivity.
  - cbn [map steps]. unfold step at 1.
    cbn [old_left new_left old_rest passed output List.length Nat.add app].
    change (lit "-" ++ x) with (45%N :: x).
    assert (E1 : (45 =? 32)%N = false) by reflexivity.
    cbv beta iota. rewrite E1, N.eqb_refl.
    unfold lines_eqb. rewrite text_eqb_refl.
    destruct n; rewrite IH; do 2 f_equal; lia.
Qed.

Lemma steps_added (ls rest out : list text) (o n p : nat) :
  steps {| old_left := o; new_left := List.length ls + n;
           old_rest := rest; passed := p; output := out |}
        (map (app (lit "+")) ls)
  = Some {| old_left := o; new_left := n; old_rest := rest;
            passed := p; output := out ++ ls |}.
Proof.
  revert out. induction ls as [|x ls IH]; intros out.
  - cbn. rewrite app_nil_r. reflexivity.
  - cbn [map steps]. unfold step at 1.
    cbn [old_left new_left old_rest passed output List.length Nat.add app].
    change (lit "+" ++ x) with (43%N :: x).
    assert (E1 : (43 =? 32)%N = false) by reflexivity.
    assert (E2 : (43 =? 45)%N = false) by reflexivity.
    cbv beta iota. rewrite E1, E2, N.eqb_refl.
    destruct o; rewrite IH; do 2 f_equal; rewrite <- app_assoc; reflexivity.
Qed.


(** The body lines of one opcode, read by the patch: the old lines of the
    opcode are passed and its new lines are put out. *)
Lemma op_steps (i j : nat) (c : opcode) (o n : nat) (out : list text) :
  code_ok a b i j c ->
  steps {| old_left := (i2 c - i1 c) + o; new_left := (j2 c - j1 c) + n;
           old_rest := skipn i a; passed := i; output := out |}
        (lines_of a b c)
  = Some {| old_left := o; new_left := n; old_rest := skipn (i2 c) a;
            passed := i2 c; output := out ++ slice b j (j2 c) |}.
Proof.
  unfold code_ok, op_ok.
  intros (C1 & C2 & C3 & C4 & C5 & C6 & C7). subst i j.
  assert (Hp : i1 c + List.length (slice a (i1 c) (i2 c)) = i2 c)
    by (rewrite slice_length by assumption; lia).
  rewrite <- (@slice_skipn _ a (i1 c) (i2 c) C3).
  rewrite <- (@slice_length _ a (i1 c) (i2 c) C5).
  rewrite <- (@slice_length _ b (j1 c) (j2 c) C6).
  unfold lines_of. destruct (op c).
  - rewrite steps_app, steps_removed, steps_added, Hp. reflexivity.
  - rewrite steps_removed, Hp.
    rewrite (@slice_length _ b (j1 c) (j2 c) C6), C7, Nat.sub_diag.
    rewrite slice_empty, app_nil_r. reflexivity.
  - rewrite (@slice_length _ a (i1 c) (i2 c) C5), C7, Nat.sub_diag.
    rewrite slice_empty. cbn [List.length Nat.add app].
    rewrite steps_added. reflexivity.
  - destruct C7 as [Hlen Hsame].
    assert (Hd : diag a b (i1 c) (j1 c) (i2 c) (j2 c)).
    { unfold diag. repeat split; try lia. exact Hsame. }
    rewrite <- (same_slices Hd).
    rewrite steps_context, Hp. reflexivity.
Qed.

Lemma chain_mono (i j i' j' : nat) (g : list opcode) :
  chain a b i j g i' j' -> i <= i' /\ j <= j'.
Proof.
  revert i j. induction g as [|c g IH]; intros i j; cbn.
  - intros [-> ->]. lia.
  - unfold code_ok. intros [(C1 & C2 & C3 & C4 & _) Hrest].
    apply IH in Hrest. lia.
Qed.

Lemma chain_bounds (i j i' j' : nat) (g : list opcode) :
  j <= List.length b ->
  chain a b i j g i' j' -> j' <= List.length b.
Proof.
  revert i j. induction g as [|c g IH]; intros i j Hj; cbn.
  - intros [_ <-]. exact Hj.
  - unfold code_ok. intros [(C1 & C2 & C3 & C4 & C5 & C6 & _) Hrest].
    apply (IH (i2 c) (j2 c) C6 Hrest).
Qed.

(** The body of a hunk. *)
Lemma group_steps (g : list opcode) (gi gj ei ej o n : nat)
  (out : list text) :
  chain a b gi gj g ei ej ->
  steps {| old_left := (ei - gi) + o; new_left := (ej - gj) + n;
           old_rest := skipn gi a; passed := gi; output := out |}
        (flat_map (lines_of a b) g)
  = Some {| old_left := o; new_left := n; old_rest := skipn ei a;
            passed := ei; output := out ++ slice b gj ej |}.
Proof.
  revert gi gj out. induction g as [|c g IH]; intros gi gj out.
  - cbn. intros [-> ->]. rewrite !Nat.sub_diag, slice_empty, app_nil_r.
    reflexivity.
  - cbn [chain flat_map]. intros [Hc Hrest].
    destruct (@chain_mono (i2 c) (j2 c) ei ej g Hrest) as [Mi Mj].
    pose proof Hc as Hc'. unfold code_ok in Hc'.
    destruct Hc' as (C1 & C2 & C3 & C4 & C5 & C6 & _).
    rewrite steps_app.
    replace (ei - gi + o) with ((i2 c - i1 c) + ((ei - i2 c) + o)) by lia.
    replace (ej - gj + n) with ((j2 c - j1 c) + ((ej - j2 c) + n)) by lia.
    rewrite (@op_steps gi gj c _ _ _ Hc), (IH _ _ _ Hrest).
    rewrite <- app_assoc, slice_app by lia. reflexivity.
Qed.

End PatchFacts.

Section HeaderFacts.
Import Difflib DiffSpec Patch.
Local Arguments N.eqb : simpl never.
Local Arguments N.leb : simpl never.
Local Arguments Nat.div : simpl never.
Local Arguments Nat.modulo : simpl never.

Lemma digit_is_digit (d : nat) :
  d < 10 -> is_digit (digit d) = true /\ N.to_nat (digit d) - 48 = d.
Proof.
  intros H. unfold is_digit, digit. split.
  - apply andb_true_iff. split; apply N.leb_le; lia.
  - lia.
Qed.

Lemma read_digits_app (ds rest : text) (v : nat) :
  Forall (fun c => is_digit c = true) ds -> stops rest ->
  read_digits v (ds ++ rest) = (fold_left digit_value ds v, rest).
Proof.
  intros Hds Hrest. revert v.
  induction Hds as [|c ds Hc Hds IH]; intros v.
  - destruct rest as [|c rest]; [reflexivity|].
    cbn in Hrest |- *. rewrite Hrest. reflexivity.
  - cbn. rewrite Hc. apply IH.
Qed.

Lemma decimal_digits_spec (width n : nat) (acc : text) :
  n < width -> Forall (fun c => is_digit c = true) acc ->
  Forall (fun c => is_digit c = true) (decimal_digits width n acc)
  /\ fold_left digit_value (decimal_digits width n acc) 0
     = fold_left digit_value acc n
  /\ decimal_digits width n acc <> [].
Proof.
  revert n acc. induction width as [|width IH]; intros n acc Hn Hacc; [lia|].
  cbn [decimal_digits].
  assert (Hmod : n mod 10 < 10) by (apply Nat.mod_upper_bound; lia).
  destruct (digit_is_digit Hmod) as [Hd Hv].
  pose proof (Nat.div_mod_eq n 10) as Hdm.
  destruct (n / 10) as [|q] eqn:Eq.
  - repeat split.
    + constructor; assumption.
    + cbn [fold_left]. unfold digit_value at 2. rewrite Hv.
      f_equal. lia.
    + discriminate.
  - destruct (IH (S q) (digit (n mod 10) :: acc)) as (I1 & I2 & I3).
    + lia.
    + constructor; assumption.
    + repeat split; try assumption.
      rewrite I2. cbn [fold_left]. unfold digit_value at 2. rewrite Hv.
      f_equal. lia.
Qed.

Lemma read_decimal_decimal (n : nat) (rest : text) :
  stops rest -> read_decimal (decimal n ++ rest) = Some (n, rest).
Proof.
  intros Hrest. unfold decimal.
  destruct (@decimal_digits_spec (S n) n [] ltac:(lia) (Forall_nil _))
    as (Hds & Hval & Hne).
  cbn [fold_left] in Hval.
  pose proof (@read_digits_app _ rest 0 Hds Hrest) as Hread.
  rewrite Hval in Hread.
  destruct (decimal_digits (S n) n []) as [|c ds]; [congruence|].
  unfold read_decimal. cbn [app].
  inversion Hds as [|? ? Hc _]; subst. rewrite Hc.
  cbn [app] in Hread. rewrite Hread. reflexivity.
Qed.

(** Digits are not line feeds. *)
Lemma decimal_no_newline (n : nat) : contains_char 10%N (decimal n) = false.
Proof.
  unfold decimal.
  destruct (@decimal_digits_spec (S n) n [] ltac:(lia) (Forall_nil _))
    as (Hds & _ & _).
  induction Hds as [|c ds Hc Hds IH]; [reflexivity|].
  cbn [contains_char existsb]. fold (contains_char 10%N ds). rewrite IH.
  unfold is_digit in Hc. apply andb_true_iff in Hc. destruct Hc as [Hc _].
  apply N.leb_le in Hc. rewrite orb_false_r. apply N.eqb_neq. lia.
Qed.


Lemma after_app (prefix r : text) : after prefix (prefix ++ r) = Some r.
Proof.
  induction prefix as [|c prefix IH]; cbn; [destruct r; reflexivity|].
  rewrite N.eqb_refl. exact IH.
Qed.

(** A printed range is read back as the index of its first line and its
    length. *)
Lemma read_range_format (s e : nat) (rest : text) :
  s <= e ->
  (exists rest', rest = 32%N :: rest') ->
  exists start,
    read_range (format_range_unified s e ++ rest) = Some (start, e - s, rest)
    /\ match e - s with O => start | S _ => start - 1 end = s.
Proof.
  intros Hse [rest' ->].
  assert (Hstop : stops (32%N :: rest')) by reflexivity.
  unfold format_range_unified.
  destruct (e - s =? 1) eqn:E1.
  - apply Nat.eqb_eq in E1. exists (s + 1). split.
    + unfold read_range. rewrite (@read_decimal_decimal _ _ Hstop).
      assert (E : (32 =? 44)%N = false) by reflexivity.
      rewrite E, E1. reflexivity.
    + rewrite E1. lia.
  - set (x := if e - s =? 0 then s + 1 - 1 else s + 1).
    exists x. split.
    + unfold read_range. rewrite <- !app_assoc.
      change (lit "," ++ decimal (e - s) ++ 32%N :: rest')
        with (44%N :: decimal (e - s) ++ 32%N :: rest').
      rewrite (@read_decimal_decimal x (44%N :: _) eq_refl).
      rewrite N.eqb_refl.
      rewrite (@read_decimal_decimal _ _ Hstop). reflexivity.
    + subst x. destruct (e - s) as [|k]; cbn [Nat.eqb]; lia.
Qed.

Lemma read_header_line (gi ei gj ej : nat) :
  gi <= ei -> gj <= ej ->
  exists old_start new_start,
    read_header (header_line gi ei gj ej)
    = Some (old_start, ei - gi, new_start, ej - gj)
    /\ match ei - gi with O => old_start | S _ => old_start - 1 end = gi.
Proof.
  intros Hi Hj. unfold header_line, read_header.
  rewrite after_app.
  destruct (@read_range_format gi ei
              (lit " +" ++ format_range_unified gj ej ++ lit " @@" ++ newline)
              Hi ltac:(eexists; reflexivity)) as (s1 & R1 & T1).
  rewrite R1, after_app.
  destruct (@read_range_format gj ej (lit " @@" ++ newline)
              Hj ltac:(eexists; reflexivity)) as (s2 & R2 & _).
  rewrite R2, after_app.
  exists s1, s2. split; [reflexivity | exact T1].
Qed.

End HeaderFacts.

Section HunkFacts.
Import Difflib DiffSpec Patch.

Variables a b : list text.

(** The header of a hunk moves the patch to the start of the hunk: the old
    lines before it are put out. *)
Lemma step_header (i gi ei gj ej : nat) (out : list text) :
  i <= gi -> gi <= ei -> gj <= ej -> gi <= List.length a ->
  step {| old_left := 0; new_left := 0; old_rest := skipn i a;
          passed := i; output := out |}
       (header_line gi ei gj ej)
  = Some {| old_left := ei - gi; new_left := ej - gj;
            old_rest := skipn gi a; passed := gi;
            output := out ++ slice a i gi |}.
Proof.
  intros H1 H2 H3 H4.
  destruct (read_header_line H2 H3) as (s1 & s2 & R & T).
  unfold step. cbn [old_left new_left old_rest passed output].
  rewrite R, T.
  assert (E : (gi <? i) || (List.length (skipn i a) <? gi - i) = false).
  { apply orb_false_iff. split; apply Nat.ltb_ge; [lia|].
    rewrite length_skipn. lia. }
  rewrite E. rewrite skipn_skipn.
  replace (gi - i + i) with gi by lia. reflexivity.
Qed.

Lemma chain_last (i j ei ej : nat) (g : list opcode) (d : opcode) :
  g <> [] -> chain a b i j g ei ej ->
  i2 (last g d) = ei /\ j2 (last g d) = ej.
Proof.
  revert i j. induction g as [|c g IH]; intros i j Hne; [congruence|].
  destruct g as [|c' g'].
  - cbn. intros [_ [-> ->]]. auto.
  - intros [_ Hrest].
    change (last (c :: c' :: g') d) with (last (c' :: g') d).
    apply (IH (i2 c) (j2 c)); [discriminate | exact Hrest].
Qed.

(** The lines of a hunk are its header line and the lines of its
    opcodes. *)
Lemma hunk_lines (g : list opcode) (ei ej : nat) :
  chain a b (i1 (first_code g)) (j1 (first_code g)) g ei ej ->
  hunk a b g
  = header_line (i1 (first_code g)) ei (j1 (first_code g)) ej
    :: flat_map (lines_of a b) g.
Proof.
  intros Hg. unfold hunk, header_line.
  assert (E : i2 (last_code g) = ei /\ j2 (last_code g) = ej).
  { destruct g as [|c g'].
    - cbn in Hg |- *. destruct Hg as [<- <-]. auto.
    - apply (@chain_last (i1 (first_code (c :: g')))
               (j1 (first_code (c :: g')))); [discriminate | exact Hg]. }
  destruct E as [-> ->]. reflexivity.
Qed.

(** A patch made of the hunks of the groups turns the old lines into the new
    ones. *)
Lemma hunks_steps (groups : list (list opcode)) (i j : nat)
  (out : list text) :
  hunks_ok a b i j groups ->
  exists st,
    steps {| old_left := 0; new_left := 0; old_rest := skipn i a;
             passed := i; output := out |}
          (flat_map (hunk a b) groups) = Some st
    /\ old_left st = 0 /\ new_left st = 0
    /\ output st ++ old_rest st = out ++ skipn j b.
Proof.
  revert i j out. induction groups as [|g rest IH]; intros i j out.
  - cbn [hunks_ok flat_map steps]. intros Hd.
    eexists. split; [reflexivity|]. cbn. repeat split.
    rewrite <- (slice_to_end a), <- (slice_to_end b).
    f_equal. apply same_slices. exact Hd.
  - cbn [hunks_ok flat_map]. intros (ei & ej & Hd & Hg & Hrest).
    set (gi := i1 (first_code g)) in *. set (gj := j1 (first_code g)) in *.
    destruct (@chain_mono a b gi gj ei ej g Hg) as [Mi Mj].
    pose proof Hd as Hd'. unfold diag in Hd'.
    destruct Hd' as (D1 & D2 & D3 & D4 & D5 & D6).
    rewrite (@hunk_lines g ei ej Hg). fold gi gj.
    cbn [app steps].
    rewrite (@step_header i gi ei gj ej out D1 Mi Mj D4).
    rewrite steps_app.
    replace (ei - gi) with (ei - gi + 0) by lia.
    replace (ej - gj) with (ej - gj + 0) by lia.
    rewrite (@group_steps a b g gi gj ei ej 0 0 _ Hg).
    destruct (IH ei ej ((out ++ slice a i gi) ++ slice b gj ej) Hrest)
      as (st & Hst & Ho & Hn & Hout).
    exists st. repeat split; try assumption.
    rewrite Hout, (same_slices Hd).
    rewrite <- !app_assoc. f_equal.
    rewrite (slice_skipn b Mj). apply slice_skipn. exact D2.
Qed.

End HunkFacts.

Section LineFacts.
Import Difflib DiffSpec Patch.
Local Arguments N.eqb : simpl never.

Lemma contains_char_app (c : char) (x y : text) :
  contains_char c (x ++ y) = contains_char c x || contains_char c y.
Proof. unfold contains_char. apply existsb_app. Qed.

Lemma boundary_not_newline (c : char) :
  is_boundary c = false -> (c =? 10)%N = false.
Proof.
  intros H. destruct (c =? 10)%N eqn:E; [|reflexivity].
  apply N.eqb_eq in E. subst c. vm_compute in H. discriminate H.
Qed.

(** [splitlines] keeps the line ends, so joining the lines gives the text
    back. *)
Lemma splitlines_concat (s : text) : concat (splitlines s) = s.
Proof.
  induction s as [s IH] using by_length.
  destruct s as [|c r]; [reflexivity|].
  cbn [splitlines]. destruct (c =? 13)%N.
  - destruct r as [|d r']; [reflexivity|].
    destruct (d =? 10)%N; cbn [concat app]; rewrite IH; cbn; try lia;
      reflexivity.
  - pose proof (IH r ltac:(cbn; lia)) as Hr.
    destruct (is_boundary c).
    + cbn [concat app]. rewrite Hr. reflexivity.
    + destruct (splitlines r) as [|l ls].
      * cbn in Hr. subst r. reflexivity.
      * cbn [concat app] in Hr |- *. rewrite Hr. reflexivity.
Qed.

Lemma one_char_line (c : char) : newline_only_last [c] = true.
Proof. cbn. destruct (c =? 10)%N; reflexivity. Qed.

(** A line of [splitlines] has no line feed before its end. *)
Lemma splitlines_lines (s : text) :
  Forall (fun l => newline_only_last l = true) (splitlines s).
Proof.
  induction s as [s IH] using by_length.
  destruct s as [|c r]; [constructor|].
  cbn [splitlines]. destruct (c =? 13)%N eqn:E13.
  - destruct r as [|d r'].
    + constructor; [apply one_char_line | constructor].
    + destruct (d =? 10)%N eqn:E10.
      * constructor; [|apply IH; cbn; lia].
        apply N.eqb_eq in E13, E10. subst c d. reflexivity.
      * constructor; [apply one_char_line | apply IH; cbn; lia].
  - pose proof (IH r ltac:(cbn; lia)) as Hr.
    destruct (is_boundary c) eqn:Eb.
    + constructor; [apply one_char_line | exact Hr].
    + apply boundary_not_newline in Eb.
      destruct (splitlines r) as [|l ls].
      * constructor; [apply one_char_line | constructor].
      * inversion Hr as [|? ? Hl Hls]; subst.
        constructor; [|exact Hls].
        cbn [newline_only_last]. rewrite Eb. exact Hl.
Qed.

Lemma ends_with_newline_iff (l : text) :
  ends_with_newline l = true <-> exists x, l = x ++ newline.
Proof.
  unfold ends_with_newline. split.
  - intros H. destruct (rev l) as [|c t] eqn:E; [discriminate|].
    apply N.eqb_eq in H. subst c. exists (rev t).
    rewrite <- (rev_involutive l), E. reflexivity.
  - intros [x ->]. rewrite rev_app_distr. reflexivity.
Qed.

Lemma newline_only_last_app (x : text) :
  newline_only_last (x ++ newline) = true -> contains_char 10%N x = false.
Proof.
  induction x as [|c x IH]; [reflexivity|].
  cbn [app newline_only_last contains_char existsb].
  fold (contains_char 10%N x). rewrite (N.eqb_sym 10 c).
  destruct (c =? 10)%N.
  - intros H. destruct x; discriminate H.
  - exact IH.
Qed.

Lemma terminated_line (l : text) :
  newline_only_last l = true -> ends_with_newline l = true -> terminated l.
Proof.
  intros H1 H2. apply ends_with_newline_iff in H2. destruct H2 as [x Hx].
  subst l. exists x. split; [reflexivity|].
  apply newline_only_last_app. exact H1.
Qed.

Lemma terminated_ends (l : text) : terminated l -> ends_with_newline l = true.
Proof.
  intros [x [Hx _]]. apply ends_with_newline_iff. exists x. exact Hx.
Qed.

Lemma split_lines_terminated (x r : text) :
  contains_char 10%N x = false ->
  split_lines ((x ++ newline) ++ r) = (x ++ newline) :: split_lines r.
Proof.
  induction x as [|c x IH]; intros H.
  - unfold newline. cbn [app split_lines]. rewrite N.eqb_refl. reflexivity.
  - cbn [contains_char existsb] in H. fold (contains_char 10%N x) in H.
    apply orb_false_iff in H. destruct H as [Hc Hx].
    rewrite N.eqb_sym in Hc.
    cbn [app split_lines]. rewrite Hc, (IH Hx). reflexivity.
Qed.

(** Lines that end with their only line feed are found again when their
    concatenation is split at the line feeds. *)
Lemma split_lines_concat (ls : list text) :
  Forall terminated ls -> split_lines (concat ls) = ls.
Proof.
  induction 1 as [|l ls Hl Hls IH]; [reflexivity|].
  destruct Hl as [x [-> Hx]]. cbn [concat].
  rewrite (@split_lines_terminated x (concat ls) Hx), IH. reflexivity.
Qed.

Lemma splitlines_terminated (s : text) :
  newline_terminated s = true -> Forall terminated (splitlines s).
Proof.
  unfold newline_terminated. intros H.
  pose proof (splitlines_lines s) as Hl.
  rewrite forallb_forall in H. rewrite Forall_forall in Hl |- *.
  intros l Hin. apply terminated_line; auto.
Qed.

(** On a text whose lines all end with a line feed, splitting at the line
    feeds gives the lines of [splitlines]. *)
Lemma split_lines_splitlines (s : text) :
  newline_terminated s = true -> split_lines s = splitlines s.
Proof.
  intros H. rewrite <- (splitlines_concat s) at 1.
  apply split_lines_concat, splitlines_terminated, H.
Qed.

End LineFacts.

Section DiffLineFacts.
Import Difflib DiffSpec Patch.
Local Arguments N.eqb : simpl never.

Variables a b : list text.
Hypothesis a_terminated : Forall terminated a.
Hypothesis b_terminated : Forall terminated b.

Lemma terminated_prefix (p l : text) :
  contains_char 10%N p = false -> terminated l -> terminated (p ++ l).
Proof.
  intros Hp [x [-> Hx]]. exists (p ++ x). split.
  - apply app_assoc.
  - rewrite contains_char_app, Hp, Hx. reflexivity.
Qed.

Lemma format_range_no_newline (s e : nat) :
  contains_char 10%N (format_range_unified s e) = false.
Proof.
  unfold format_range_unified.
  destruct (e - s =? 1); [apply decimal_no_newline|].
  rewrite !contains_char_app, !decimal_no_newline. reflexivity.
Qed.

Lemma header_line_terminated (gi ei gj ej : nat) :
  terminated (header_line gi ei gj ej).
Proof.
  exists (lit "@@ -" ++ format_range_unified gi ei ++ lit " +"
          ++ format_range_unified gj ej ++ lit " @@").
  split.
  - unfold header_line. rewrite <- !app_assoc. reflexivity.
  - rewrite !contains_char_app, !format_range_no_newline. reflexivity.
Qed.

Lemma firstn_Forall (A : Type) (P : A -> Prop) (l : list A) (n : nat) :
  Forall P l -> Forall P (firstn n l).
Proof.
  intros H. revert n. induction H as [|x l Hx Hl IH]; intros [|n]; cbn;
    constructor; auto.
Qed.

Lemma skipn_Forall (A : Type) (P : A -> Prop) (l : list A) (n : nat) :
  Forall P l -> Forall P (skipn n l).
Proof.
  intros H. revert n. induction H as [|x l Hx Hl IH]; intros [|n]; cbn;
    try constructor; auto.
Qed.

Lemma slice_Forall (A : Type) (P : A -> Prop) (l : list A) (lo hi : nat) :
  Forall P l -> Forall P (slice l lo hi).
Proof.
  intros H. unfold slice. apply firstn_Forall, skipn_Forall, H.
Qed.

Lemma prefixed_terminated (p : text) (ls : list text) :
  contains_char 10%N p = false -> Forall terminated ls ->
  Forall terminated (map (app p) ls).
Proof.
  intros Hp H. apply Forall_map.
  apply (Forall_impl _ (fun l => @terminated_prefix p l Hp) H).
Qed.

Lemma lines_of_terminated (c : opcode) : Forall terminated (lines_of a b c).
Proof.
  unfold lines_of.
  destruct (op c); try apply Forall_app; try split;
    apply prefixed_terminated; try reflexivity;
    apply slice_Forall; assumption.
Qed.

Lemma hunk_terminated (g : list opcode) : Forall terminated (hunk a b g).
Proof.
  unfold hunk. constructor.
  - apply header_line_terminated.
  - apply Forall_flat_map, Forall_forall. intros c _.
    apply lines_of_terminated.
Qed.

Lemma hunks_terminated (groups : list (list opcode)) :
  Forall terminated (flat_map (hunk a b) groups).
Proof.
  apply Forall_flat_map, Forall_forall. intros g _. apply hunk_terminated.
Qed.

Lemma file_line_terminated (mark name : text) :
  contains_char 10%N mark = false -> contains_char 10%N name = false ->
  terminated (mark ++ name ++ newline).
Proof.
  intros Hm Hn. exists (mark ++ name). split.
  - apply app_assoc.
  - rewrite contains_char_app, Hm, Hn. reflexivity.
Qed.

Lemma startswith_app (p r : text) : startswith p (p ++ r) = true.
Proof.
  induction p as [|c p IH]; [reflexivity|].
  cbn [app startswith]. rewrite N.eqb_refl. exact IH.
Qed.

(** When no group of opcodes is left to show, the two sequences are the
    same. *)
Lemma no_group_same : hunks_ok a b 0 0 [] -> a = b.
Proof.
  cbn [hunks_ok]. intros Hd. apply same_slices in Hd.
  rewrite !slice_to_end in Hd. exact Hd.
Qed.

End DiffLineFacts.

Section RoundTrip.
Import Difflib DiffSpec Patch DiffGenerator.

(** C9, as the code has it: when every line of the old text and of the new
    text ends with a line feed and the two file labels have no line feed,
    applying the unified diff of [unified_diff_text] for the old and the new
    text to the old text gives the new text exactly. *)
Theorem diff_round_trip (old new fromfile tofile : text) :
  newline_terminated old = true ->
  newline_terminated new = true ->
  contains_char 10%N fromfile = false ->
  contains_char 10%N tofile = false ->
  apply_patch (unified_diff_text old new fromfile tofile) old = Some new.
Proof.
  intros Ho Hn Hf Ht.
  pose proof (splitlines_terminated old Ho) as Ta.
  pose proof (splitlines_terminated new Hn) as Tb.
  pose proof (split_lines_splitlines old Ho) as Hsplit.
  pose proof (splitlines_concat old) as Cold.
  pose proof (splitlines_concat new) as Cnew.
  unfold unified_diff_text, unified_diff.
  set (a := splitlines old) in *. set (b := splitlines new) in *.
  pose proof (@get_grouped_opcodes_ok a b _ (get_opcodes_chain a b)) as Hok.
  destruct (get_grouped_opcodes 3 (get_opcodes a b)) as [|g gs].
  - apply no_group_same in Hok. cbv beta iota. cbn [concat].
    unfold apply_patch. cbn [split_lines].
    rewrite <- Cold, <- Cnew, Hok. reflexivity.
  - set (groups := g :: gs) in *. cbv beta iota.
    pose proof (@hunks_terminated a b Ta Tb groups) as Th.
    unfold apply_patch. rewrite split_lines_concat.
    + rewrite !startswith_app. cbn [andb].
      assert (Hends : forallb ends_with_newline (flat_map (hunk a b) groups)
                      = true).
      { apply forallb_forall. intros l Hl. apply terminated_ends.
        rewrite Forall_forall in Th. apply Th. exact Hl. }
      rewrite Hends, Hsplit.
      destruct (@hunks_steps a b groups 0 0 [] Hok)
        as (st & Hst & Hold & Hnew & Hout).
      cbn [skipn] in Hst. rewrite Hst, Hold, Hnew, Hout.
      cbn [app skipn]. rewrite Cnew. reflexivity.
    + constructor; [apply file_line_terminated; [reflexivity | exact Hf]|].
      constructor; [apply file_line_terminated; [reflexivity | exact Ht]|].
      exact Th.
Qed.

End RoundTrip.

Lemma diff_round_trip_witness :
  Patch.apply_patch
    (DiffGenerator.unified_diff_text (lit "b" ++ newline) (lit "c" ++ newline)
       (lit "old.yml") (lit "new.yml"))
    (lit "b" ++ newline)
  = Some (lit "c" ++ newline).
Proof.
  apply (@diff_round_trip (lit "b" ++ newline) (lit "c" ++ newline)
           (lit "old.yml") (lit "new.yml")); reflexivity.
Defined.

(** For the old text [b] and the new text [c], neither with a line feed, the
    last two lines of the diff run together, and the diff does not apply. *)
Lemma unterminated_line_breaks_round_trip :
  DiffGenerator.unified_diff_text (lit "b") (lit "c") (lit "f") (lit "t")
  = lit "--- f" ++ newline ++ lit "+++ t" ++ newline
    ++ lit "@@ -1 +1 @@" ++ newline ++ lit "-b+c"
  /\ Patch.apply_patch
       (DiffGenerator.unified_diff_text (lit "b") (lit "c") (lit "f") (lit "t"))
       (lit "b")
     <> Some (lit "c").
Proof.
  split; [vm_compute; reflexivity|].
  vm_compute. discriminate.
Qed.

(** ** The batch run as a whole *)
Section BatchRunFacts.
Import Backend Comparator Orchestrator BatchSpec.

Variable world : Type.
Variable run : Pathlib.pure_path -> world -> outcome PoutineResult * world.
Variable str_of : Json.json -> text.
Variable data_root : Pathlib.pure_path.
Variable now : text.
Variable members : ComparisonResult -> text.

Lemma save_progress_count (progress : Progress) (st : store) :
  processed_count (fst (save_progress now progress st))
  = processed_count progress
  /\ results_file (snd (save_progress now progress st)) = results_file st
  /\ progress_file (snd (save_progress now progress st))
     = Some (fst (save_progress now progress st)).
Proof. repeat split. Qed.

Lemma count_depends_on_log (st st' : store) :
  results_file st = results_file st' ->
  count_actual_results st = count_actual_results st'.
Proof. unfold count_actual_results. intros ->. reflexivity. Qed.

Lemma process_one_in_step (args : arguments) (i : Z) (commit : CommitInfo)
  (state : Progress * store * world) :
  in_step state ->
  in_step (process_one run str_of data_root now members args i commit state).
Proof.
  destruct state as [[progress st] w]. unfold in_step, process_one.
  intros H.
  destruct (compare_before_after run str_of data_root commit w)
    as [[result|cls msg] w1]; [|exact H].
  destruct (checkpoint_due args i); reflexivity.
Qed.

Lemma process_commits_in_step (args : arguments) (commits : list CommitInfo)
  (i : Z) (state : Progress * store * world) :
  in_step state ->
  in_step (process_commits run str_of data_root now members args i commits
             state).
Proof.
  revert i state. induction commits as [|c cs IH]; intros i state H.
  - exact H.
  - cbn [process_commits]. apply IH, process_one_in_step, H.
Qed.

Lemma start_in_step (args : arguments) (st : store) :
  processed_count (resume_or_restart now args (fst (reconcile now st)))
  = count_actual_results (snd (reconcile now st)).
Proof.
  destruct (reconcile_count now st) as [Hcount Hlog].
  rewrite (count_depends_on_log _ _ Hlog).
  rewrite resume_or_restart_count; [exact Hcount|].
  rewrite Hcount. apply count_actual_results_nonneg.
Qed.

(** However [main] ends (nothing to do, the container does not start, or
    the loop runs to its end), the counter it holds is the number of entries
    of the result log; after a complete run this counter, stamped with the
    time, is what [progress.json] holds. *)
Theorem main_counter_is_log_count (args : arguments)
  (all_commits : list CommitInfo) (docker : startup) (st : store) (w : world) :
  let r := main run str_of data_root now members args all_commits docker st w
  in
  processed_count (final_progress r) = count_actual_results (final_store r)
  /\ (status r = Completed ->
      progress_file (final_store r) = Some (final_progress r)
      /\ last_update (final_progress r) = Some now).
Proof.
  unfold main.
  pose proof (start_in_step args st) as Hstart.
  destruct (reconcile now st) as [progress0 st0]. cbn [fst snd] in Hstart.
  destruct (select args (resume_or_restart now args progress0) all_commits)
    as [|c cs].
  { cbn. split; [exact Hstart | discriminate]. }
  destruct docker;
    [|cbn; split; [exact Hstart | discriminate]
     |cbn; split; [exact Hstart | discriminate]].
  pose proof (@process_commits_in_step args (c :: cs) 0
                (resume_or_restart now args progress0, st0, w) Hstart) as H.
  destruct (process_commits run str_of data_root now members args 0 (c :: cs)
              (resume_or_restart now args progress0, st0, w))
    as [[progress1 st1] w1].
  cbn [save_progress final_progress final_store status processed_count
       progress_file last_update count_actual_results results_file].
  split; [exact H | intros _; split; reflexivity].
Qed.






(** With [--limit l] (for [l] other than 0, which [main] reads as no limit)
    the entries already in the log count against the limit: the hits
    attempted by a run, added to the entries the log had when the run
    started, are at most [l], and none is attempted once the log has [l]
    entries or more. *)
Theorem limit_counts_logged_entries (args : arguments)
  (all_commits : list CommitInfo) (docker : startup) (st : store) (w : world)
  (l : Z) :
  limit args = Some l -> l <> 0%Z ->
  let r := main run str_of data_root now members args all_commits docker st w
  in
  (count_actual_results st + Z.of_nat (List.length (attempted r))
   <= Z.max l (count_actual_results st))%Z.
Proof.
  intros Hl Hl0. unfold main.
  pose proof (start_in_step args st) as Hstart.
  destruct (reconcile_count now st) as [_ Hlog].
  destruct (reconcile now st) as [progress0 st0]. cbn [fst snd] in Hstart, Hlog.
  rewrite (count_depends_on_log _ _ Hlog) in Hstart.
  pose proof (count_actual_results_nonneg st) as Hpos.
  set (progress := resume_or_restart now args progress0) in *.
  assert (Hsel : (count_actual_results st
                  + Z.of_nat (List.length (select args progress all_commits))
                  <= Z.max l (count_actual_results st))%Z).
  { unfold select. rewrite Hl.
    destruct (l =? 0)%Z eqn:E0; [apply Z.eqb_eq in E0; contradiction|].
    rewrite Hstart.
    destruct (0 <? l - count_actual_results st)%Z eqn:E.
    - apply Z.ltb_lt in E. unfold slice_to.
      rewrite length_firstn. lia.
    - cbn. lia. }
  destruct (select args progress all_commits) as [|c cs] eqn:Esel.
  { cbn. lia. }
  destruct docker; [|cbn; lia|cbn; lia].
  destruct (process_commits run str_of data_root now members args 0 (c :: cs)
              (progress, st0, w)) as [[progress1 st1] w1].
  cbn [save_progress attempted]. exact Hsel.
Qed.


Lemma universal_newlines_plain (s : text) :
  contains_char 13%N s = false -> universal_newlines s = s.
Proof.
  induction s as [|c s IH]; [reflexivity|].
  cbn [contains_char existsb]. fold (contains_char 13%N s).
  intros H. apply orb_false_iff in H. destruct H as [Hc Hs].
  cbn [universal_newlines]. rewrite N.eqb_sym, Hc, (IH Hs). reflexivity.
Qed.

Lemma universal_newlines_cons (c : char) (r : text) :
  universal_newlines (c :: r)
  = if (c =? 13)%N then
      match r with
      | d :: r' =>
          if (d =? 10)%N then 10%N :: universal_newlines r'
          else 10%N :: universal_newlines r
      | [] => [10%N]
      end
    else c :: universal_newlines r.
Proof. reflexivity. Qed.

(** A line feed ends the translation of what precedes it. *)
Lemma universal_newlines_app (x y : text) :
  universal_newlines (x ++ 10%N :: y)
  = universal_newlines (x ++ [10%N]) ++ universal_newlines y.
Proof.
  induction x as [x IH] using by_length.
  destruct x as [|c r]; [reflexivity|].
  rewrite <- !app_comm_cons, !(universal_newlines_cons c).
  destruct (c =? 13)%N.
  - destruct r as [|d r']; [reflexivity|].
    cbn [app]. destruct (d =? 10)%N; cbn [app]; f_equal.
    + apply (IH r'). cbn. lia.
    + apply (IH (d :: r')). cbn. lia.
  - cbn [app]. f_equal. apply (IH r). cbn. lia.
Qed.

Lemma universal_newlines_ends (x : text) :
  exists z, universal_newlines (x ++ [10%N]) = z ++ [10%N].
Proof.
  induction x as [x IH] using by_length.
  destruct x as [|c r]; [exists []; reflexivity|].
  rewrite <- !app_comm_cons, !(universal_newlines_cons c).
  destruct (c =? 13)%N.
  - destruct r as [|d r']; [exists []; reflexivity|].
    cbn [app]. destruct (d =? 10)%N.
    + destruct (IH r' ltac:(cbn; lia)) as [z Hz]. exists (10%N :: z).
      cbn [app]. f_equal. exact Hz.
    + destruct (IH (d :: r') ltac:(cbn; lia)) as [z Hz].
      exists (10%N :: z). cbn [app]. f_equal. exact Hz.
  - destruct (IH r ltac:(cbn; lia)) as [z Hz]. exists (c :: z).
    cbn [app]. f_equal. exact Hz.
Qed.

Lemma split_app (c : char) (x y : text) :
  Pathlib.split c (x ++ c :: y) = Pathlib.split c x ++ Pathlib.split c y.
Proof.
  induction x as [|a x IH]; cbn [app Pathlib.split].
  - rewrite N.eqb_refl. reflexivity.
  - rewrite IH. destruct (a =? c)%N; [reflexivity|].
    pose proof (split_nonempty c x) as Hne.
    destruct (Pathlib.split c x); [contradiction | reflexivity].
Qed.

Lemma dumps_nonblank (result : ComparisonResult) :
  nonblank (dumps members result) = true.
Proof. reflexivity. Qed.

Lemma dumps_one_line (result : ComparisonResult) :
  contains_char 10%N (members result) = false ->
  contains_char 13%N (members result) = false ->
  filter nonblank (file_lines (dumps members result ++ newline))
  = [dumps members result].
Proof.
  intros H10 H13. unfold file_lines.
  assert (E13 : contains_char 13%N (dumps members result ++ newline) = false).
  { unfold dumps. rewrite !contains_char_app, H13. reflexivity. }
  assert (E10 : contains_char 10%N (dumps members result) = false).
  { unfold dumps. rewrite !contains_char_app, H10. reflexivity. }
  rewrite (@universal_newlines_plain _ E13).
  unfold newline. rewrite split_app, (@split_without_sep _ _ E10).
  cbn [Pathlib.split app filter forallb nonblank negb].
  rewrite dumps_nonblank. reflexivity.
Qed.

Lemma count_of_log (st : store) :
  count_actual_results st
  = Z.of_nat (List.length (filter nonblank (file_lines (log_content st)))).
Proof.
  unfold count_actual_results, log_content.
  destruct (results_file st); reflexivity.
Qed.

Lemma log_after_append (result : ComparisonResult) (st : store) :
  log_content (append_result members result st)
  = log_content st ++ dumps members result ++ newline.
Proof. reflexivity. Qed.

(** When the log is empty or ends with a line feed, appending a result adds
    exactly one entry to it, whatever the log holds. *)
Theorem append_result_adds_one_entry (result : ComparisonResult) (st : store) :
  log_content st = [] \/ (exists x, log_content st = x ++ newline) ->
  contains_char 10%N (members result) = false ->
  contains_char 13%N (members result) = false ->
  count_actual_results (append_result members result st)
  = (count_actual_results st + 1)%Z.
Proof.
  intros Hend H10 H13.
  pose proof (dumps_one_line result H10 H13) as Hline.
  rewrite !count_of_log, log_after_append.
  destruct Hend as [-> | [x ->]].
  - cbn [app]. rewrite Hline. reflexivity.
  - unfold file_lines in *. unfold newline in *.
    rewrite <- app_assoc. cbn [app].
    rewrite universal_newlines_app.
    destruct (universal_newlines_ends x) as [z ->].
    rewrite <- !app_assoc. cbn [app].
    rewrite !split_app, !filter_app, !length_app, Hline.
    cbn. lia.
Qed.

End BatchRunFacts.

Lemma limit_counts_logged_entries_witness :
  let args := {| Orchestrator.resume := false; Orchestrator.limit := Some 1%Z;
                 Orchestrator.batch_size := 100 |} in
  let r := Orchestrator.main Scenario.run Scenario.str_of Scenario.data_root
             Scenario.now Scenario.members args
             [Scenario.hit_B; Scenario.hit_B] Orchestrator.Started
             Scenario.empty_store tt in
  Orchestrator.attempted r = [Scenario.hit_B]
  /\ (Orchestrator.count_actual_results Scenario.empty_store
      + Z.of_nat (List.length (Orchestrator.attempted r))
      <= Z.max 1 (Orchestrator.count_actual_results Scenario.empty_store))%Z.
Proof.
  intros args r. split; [reflexivity|].
  apply (limit_counts_logged_entries Scenario.run Scenario.str_of
           Scenario.data_root Scenario.now Scenario.members args
           [Scenario.hit_B; Scenario.hit_B] Orchestrator.Started
           Scenario.empty_store tt (l := 1%Z)); [reflexivity | discriminate].
Defined.

Lemma append_result_adds_one_entry_witness :
  let result :=
    {| Comparator.commit_info := Scenario.hit_B;
       Comparator.before_result := Backend.timed_out;
       Comparator.after_result := Backend.timed_out;
       Comparator.weaknesses_reduced := false;
       Comparator.before_count := 0; Comparator.after_count := 0;
       Comparator.reduction_count := 0; Comparator.fixed_issues := [] |} in
  let st := Orchestrator.append_result Scenario.members result
              Scenario.empty_store in
  Orchestrator.count_actual_results
    (Orchestrator.append_result Scenario.members result st)
  = (Orchestrator.count_actual_results st + 1)%Z.
Proof.
  intros result st.
  apply (append_result_adds_one_entry Scenario.members result st);
    [right; eexists; reflexivity | reflexivity | reflexivity].
Defined.

(** ** The shape of an analysis result *)
Section ResultFacts.
Import Json Backend BackendSpec.

Lemma parse_stdout_count (stdout : text) (parsed : json * Z) :
  parse_stdout stdout = Returns parsed -> (0 <= snd parsed)%Z.
Proof.
  unfold parse_stdout.
  destruct (loads stdout) as [[| | | |l|kv]|];
    try (intros H; injection H as <-; cbn; lia).
  destruct (len (get (lit "findings") kv (JList []))) as [n|cls msg];
    [|discriminate].
  intros H. injection H as <-. cbn. lia.
Qed.

Lemma parse_if_count (guard : bool) (stdout : text) (parsed : json * Z) :
  parse_if guard stdout = Returns parsed -> (0 <= snd parsed)%Z.
Proof.
  destruct guard; cbn [parse_if].
  - apply parse_stdout_count.
  - intros H. injection H as <-. cbn. lia.
Qed.

Lemma failure_well_formed (c : call) (msg raw : text) :
  well_formed c (failure msg raw).
Proof.
  unfold well_formed, failure. cbn.
  repeat split; try discriminate; try lia.
Qed.

Lemma succeeded_well_formed (c : call) (guard : bool)
  (returncode : Z) (stdout stderr raw : text) (parsed : json * Z) :
  file_exists c = true -> process c = Exited returncode stdout stderr ->
  parse_if guard stdout = Returns parsed ->
  well_formed c (succeeded parsed raw).
Proof.
  intros Hfile Hproc Hparse. apply parse_if_count in Hparse.
  unfold well_formed, succeeded. cbn.
  repeat split; try discriminate; try assumption.
  exists returncode, stdout, stderr. exact Hproc.
Qed.

(** Whatever happens around the analyzer, each of the four forms of
    [run_poutine_on_workflow] that returns a result returns a well-formed
    one: success exactly when there is no error message, no findings and a
    count of 0 on failure, never a negative count, and success only when the
    workflow file exists and the analyzer process ran to its end. *)
Theorem results_are_well_formed (v : variant) (file : text) (c : call)
  (r : PoutineResult) :
  run_poutine_on_workflow v file c = Returns r -> well_formed c r.
Proof.
  destruct v; cbn [run_poutine_on_workflow];
    unfold run_persistent, run_ephemeral, run_native, run_wsl;
    destruct (file_exists c) eqn:Hfile; cbn [negb];
    try (intros H; injection H as <-; apply failure_well_formed).
  - destruct (container_running c); cbn [negb];
      [|intros H; injection H as <-; apply failure_well_formed].
    destruct (staging_error c) as [[cls msg]|];
      [intros H; injection H as <-; apply failure_well_formed|].
    destruct (process c) as [code out err| |cls msg] eqn:Hproc;
      try (intros H; injection H as <-; apply failure_well_formed).
    destruct (parse_if (nonempty out) out) as [parsed|cls msg] eqn:Hparse;
      intros H; injection H as <-;
      [exact (@succeeded_well_formed c _ _ _ _ _ _ Hfile Hproc Hparse)
      |apply failure_well_formed].
  - destruct (staging_error c) as [[cls msg]|]; [discriminate|].
    destruct (process c) as [code out err| |cls msg] eqn:Hproc;
      try (intros H; injection H as <-; apply failure_well_formed).
    destruct (parse_if ((code =? 0)%Z && nonempty out) out)
      as [parsed|cls msg] eqn:Hparse;
      intros H; injection H as <-;
      [exact (@succeeded_well_formed c _ _ _ _ _ _ Hfile Hproc Hparse)
      |apply failure_well_formed].
  - destruct (staging_error c) as [[cls msg]|];
      [intros H; injection H as <-; apply failure_well_formed|].
    destruct (process c) as [code out err| |cls msg] eqn:Hproc;
      try (intros H; injection H as <-; apply failure_well_formed).
    destruct (parse_if ((code =? 0)%Z && nonempty out) out)
      as [parsed|cls msg] eqn:Hparse;
      intros H; injection H as <-;
      [exact (@succeeded_well_formed c _ _ _ _ _ _ Hfile Hproc Hparse)
      |apply failure_well_formed].
  - assert (Hwsl : forall cls msg,
              well_formed c
                (if text_eqb cls (lit "TimeoutExpired") then timed_out
                 else failure (lit "Error in WSL workaround: " ++ msg) [])).
    { intros cls msg. destruct (text_eqb cls _); apply failure_well_formed. }
    destruct (staging_error c) as [[cls msg]|];
      [intros H; injection H as <-; apply Hwsl|].
    destruct (process c) as [code out err| |cls msg] eqn:Hproc;
      try (intros H; injection H as <-;
           first [apply failure_well_formed | apply Hwsl]).
    destruct (contains (lit "ERROR") err
              && contains (lit "CreateProcessParseCommon") err);
      [intros H; injection H as <-; apply failure_well_formed|].
    destruct (parse_if (nonempty out) out) as [parsed|cls msg] eqn:Hparse;
      intros H; injection H as <-;
      [exact (@succeeded_well_formed c _ _ _ _ _ _ Hfile Hproc Hparse) | apply Hwsl].
Qed.

End ResultFacts.

Lemma results_are_well_formed_witness :
  let c := Scenario.analyzer_says (lit "[{}, {}]") in
  exists r,
    Backend.run_poutine_on_workflow Backend.Persistent (lit "w.yml") c
    = Returns r
    /\ Backend.findings_count r = 2%Z
    /\ BackendSpec.well_formed c r.
Proof.
  intros c. eexists. split; [reflexivity|]. split; [reflexivity|].
  apply (results_are_well_formed Backend.Persistent (lit "w.yml") c).
  reflexivity.
Defined.

(** ** The issues reported as fixed *)
Section FixedIssuesFacts.
Import Json Backend Comparator.

Variable world : Type.
Variable run : Pathlib.pure_path -> world -> outcome PoutineResult * world.
Variable str_of : json -> text.
Variable data_root : Pathlib.pure_path.

Lemma text_in_iff (x : text) (l : list text) :
  existsb (text_eqb x) l = true <-> In x l.
Proof.
  rewrite existsb_exists. split.
  - intros (y & Hy & E). apply text_eqb_eq in E. subst y. exact Hy.
  - intros H. exists x. split; [exact H | apply text_eqb_eq; reflexivity].
Qed.

Lemma differs_iff (x y : text) : negb (text_eqb x y) = true <-> x <> y.
Proof.
  rewrite negb_true_iff. split.
  - intros E Heq. apply text_eqb_eq in Heq. congruence.
  - intros Hne. destruct (text_eqb x y) eqn:E; [|reflexivity].
    apply text_eqb_eq in E. contradiction.
Qed.

Lemma dedup_In (x : text) (l : list text) : In x (dedup l) <-> In x l.
Proof.
  induction l as [|y l IH]; [reflexivity|].
  cbn [dedup In]. rewrite filter_In, IH, differs_iff. split.
  - intros [H|[H _]]; auto.
  - intros [H|H]; [left; exact H|].
    destruct (text_eqb y x) eqn:E.
    + left. apply text_eqb_eq. exact E.
    + right. split; [exact H|]. intros Heq. apply text_eqb_eq in Heq.
      congruence.
Qed.

Lemma dedup_NoDup (l : list text) : NoDup (dedup l).
Proof.
  induction l as [|y l IH]; [constructor|].
  cbn [dedup]. constructor.
  - rewrite filter_In, differs_iff. intros [_ H]. apply H. reflexivity.
  - apply NoDup_filter. exact IH.
Qed.

(** In every result of [compare_before_after], [fixed_issues] lists, each
    once, the texts [str(f)] of the findings before the commit that are the
    text of no finding after it, and it lists them only when the weaknesses
    were reduced; otherwise it is empty. *)
Theorem fixed_issues_are_the_difference (commit : CommitInfo) (w w' : world)
  (r : ComparisonResult) :
  compare_before_after run str_of data_root commit w = (Returns r, w') ->
  NoDup (fixed_issues r)
  /\ forall x,
       In x (fixed_issues r) <->
       weaknesses_reduced r = true
       /\ In x (map str_of (iterate (findings (before_result r))))
       /\ ~ In x (map str_of (iterate (findings (after_result r)))).
Proof.
  unfold compare_before_after.
  destruct (commit_sha commit) as [sha|]; [|discriminate].
  destruct (prev_sha commit) as [prev|]; [|discriminate].
  destruct (run _ w) as [[before|? ?] w1]; [|discriminate].
  destruct (run _ w1) as [[after|? ?] w2]; [|discriminate].
  intros H. injection H as <- _.
  cbn [fixed_issues weaknesses_reduced before_result after_result].
  destruct (success before && success after
            && (0 <? (if success before && success after
                      then findings_count before - findings_count after
                      else 0))%Z).
  - split; [apply NoDup_filter, dedup_NoDup|].
    intros x. unfold issues_fixed.
    rewrite filter_In, dedup_In, negb_true_iff.
    rewrite <- not_true_iff_false, text_in_iff. tauto.
  - split; [constructor|]. intros x. cbn. split; [tauto|].
    intros [H _]. discriminate.
Qed.

End FixedIssuesFacts.

Lemma fixed_issues_are_the_difference_witness :
  exists r,
    Comparator.compare_before_after Scenario.run Scenario.str_of
      Scenario.data_root Scenario.hit_B tt = (Returns r, tt)
    /\ Comparator.fixed_issues r = [lit "{}"]
    /\ NoDup (Comparator.fixed_issues r).
Proof.
  eexists. split; [vm_compute; reflexivity|]. split; [reflexivity|].
  apply (proj1 (fixed_issues_are_the_difference Scenario.run Scenario.str_of
                  Scenario.data_root Scenario.hit_B tt (w' := tt)
                  ltac:(vm_compute; reflexivity))).
Defined.

(** ** A snapshot path without the commit's hash *)
Section SamePathFacts.
Import Json Backend Comparator.

Variable world : Type.
Variable run : Pathlib.pure_path -> world -> outcome PoutineResult * world.
Variable str_of : json -> text.
Variable data_root : Pathlib.pure_path.

(** Replacing a text that does not occur changes nothing. *)
Lemma replace_absent (old new s : text) :
  old <> [] -> contains old s = false -> replace old new s = s.
Proof.
  intros Hne. unfold replace.
  destruct old as [|o old']; [congruence|].
  induction s as [|c s IH]; [reflexivity|].
  cbn [contains replace_from]. intros H.
  apply orb_false_iff in H. destruct H as [Hstart Hrest].
  rewrite Hstart, (IH Hrest). reflexivity.
Qed.

(** When the recorded snapshot path does not contain the commit's hash, the
    path of the snapshot before the commit, which is made by replacing the
    hash in that path, is the path of the snapshot after it: the same file
    is analysed twice, and with an analyzer that answers the same both times
    the result never shows a reduction. *)
Theorem path_without_hash_compares_snapshot_with_itself
  (commit : CommitInfo) (sha prev : text) (w : world) (res : PoutineResult) :
  commit_sha commit = Some sha -> prev_sha commit = Some prev ->
  sha <> [] -> contains sha (snapshot_relpath commit) = false ->
  run (Pathlib.joinpath data_root (Pathlib.Path [snapshot_relpath commit])) w
  = (Returns res, w) ->
  exists r,
    compare_before_after run str_of data_root commit w = (Returns r, w)
    /\ before_result r = res /\ after_result r = res
    /\ reduction_count r = 0%Z /\ weaknesses_reduced r = false
    /\ fixed_issues r = [].
Proof.
  intros Hsha Hprev Hne Habsent Hrun. unfold compare_before_after.
  rewrite Hsha, Hprev, (@replace_absent sha prev _ Hne Habsent), Hrun, Hrun.
  eexists. split; [reflexivity|].
  cbn [before_result after_result reduction_count weaknesses_reduced
       fixed_issues].
  assert (E : (if success res && success res
               then (findings_count res - findings_count res)%Z else 0%Z)
              = 0%Z) by (destruct (success res && success res); lia).
  rewrite E. rewrite andb_false_r. repeat split.
Qed.

End SamePathFacts.

Lemma path_without_hash_compares_snapshot_with_itself_witness :
  let commit :=
    {| Comparator.org := lit "o"; Comparator.repo := lit "r";
       Comparator.workflow_path := Some (lit ".github/workflows/ci.yml");
       Comparator.commit_sha := Some (lit "B");
       Comparator.commit_date := lit "2023-01-02T00:00:00Z";
       Comparator.matched_keywords := [lit "\bfix(?:es|ed)?\b"];
       Comparator.message := lit "fix it";
       Comparator.snapshot_relpath := lit "raw/o/r/ci.yml/A.yml";
       Comparator.prev_sha := Some (lit "A");
       Comparator.diff_relpath := None |} in
  exists r,
    Comparator.compare_before_after Scenario.run Scenario.str_of
      Scenario.data_root commit tt = (Returns r, tt)
    /\ Comparator.before_result r = Comparator.after_result r
    /\ Backend.findings_count (Comparator.before_result r) = 2%Z
    /\ Comparator.weaknesses_reduced r = false.
Proof.
  intros commit.
  destruct (@path_without_hash_compares_snapshot_with_itself unit
              Scenario.run Scenario.str_of Scenario.data_root commit
              (lit "B") (lit "A") tt _
              eq_refl eq_refl ltac:(discriminate) eq_refl eq_refl)
    as (r & Hr & Hb & Ha & _ & Hw & _).
  exists r. split; [exact Hr|]. rewrite Hb, Ha.
  split; [reflexivity|]. split; [reflexivity | exact Hw].
Defined.

(** ** The reports of the scanner *)
Section ReportFacts.
Import Scanner.

Variable scan_repo_workflow_json : text -> outcome (list Hit).
Variable dumps : entry -> text.

(** [main] always writes every entry, error entries included, to
    [hits.jsonl]; it goes on to complete [hits.csv] and to write the README
    exactly when no workflow index made the scan raise, and otherwise ends
    with the [ValueError] of the CSV writer. *)
Theorem scanner_completes_iff_no_scan_raised (args : arguments)
  (index : list org_dir) :
  let hits := collect scan_repo_workflow_json args index in
  let out := main scan_repo_workflow_json dumps args index in
  hits_jsonl out = map dumps hits
  /\ (result out = Returns tt <-> existsb is_error hits = false)
  /\ (readme_written out = true <-> existsb is_error hits = false)
  /\ (existsb is_error hits = true -> result out = extra_field).
Proof.
  intros hits out.
  destruct (existsb is_error hits) eqn:E.
  - destruct (main_raises_on_error_entry scan_repo_workflow_json dumps args
                index E) as (Hj & Hr & Hw).
    fold out in Hj, Hr, Hw. rewrite Hr, Hw.
    repeat split; try discriminate; auto.
  - pose proof (writerows_hits hits E) as Hrows.
    subst out. unfold main, report. fold hits. rewrite Hrows.
    cbn. repeat split. discriminate.
Qed.

End ReportFacts.

Lemma default_keywords_not_loadable_witness :
  Scanner.csv_round_trip ScanScenario.hit_B
  = Scanner.LoadRaises (lit "SyntaxError")
      (lit "unexpected character after line continuation character").
Proof.
  apply (@default_keywords_not_loadable ScanScenario.hit_B
           (lit "\bcve[- ]?\d{4}-\d{3,7}\b") [lit "\bfix(?:es|ed)?\b"]);
    [reflexivity | cbn; tauto].
Defined.

(** ** Well-formed files *)
Section WellFormedFileFacts.
Import Codec.
Local Arguments N.shiftl : simpl never.
Local Arguments N.ltb : simpl never.
Local Arguments N.leb : simpl never.
Local Arguments N.eqb : simpl never.

Variable read_bytes : text -> outcome (list N).
Variable inflate : list N -> outcome (list N).

(** Bytes that the strict decoder accepts are decoded to the same text by
    the decoder with [errors="ignore"]: the handler only matters for
    malformed data. *)
Lemma utf8_decode_strict_ignore (s : list N) (t : text) :
  utf8_decode Strict s = Some t -> utf8_decode Ignore s = Some t.
Proof.
  revert t. induction s as [s IH] using by_length. intros t.
  assert (Hemit : forall c r u, List.length r < List.length s ->
            emit c (utf8_decode Strict r) = Some u ->
            emit c (utf8_decode Ignore r) = Some u).
  { intros c r u Hr. unfold emit.
    destruct (utf8_decode Strict r) as [v|] eqn:E; [|discriminate].
    rewrite (IH r Hr v E). auto. }
  assert (Herr : forall (x : option text) (y : option text) u,
            on_error Strict x = Some u -> y = Some u)
    by (intros x y u H; discriminate H).
  destruct s as [|b0 r1]; cbn [utf8_decode]; [auto|].
  repeat match goal with
    | |- context [if ?b then _ else _] => destruct b
    | |- context [match ?r with [] => _ | _ :: _ => _ end] => destruct r
    end;
    solve [apply Herr | apply Hemit; cbn [List.length]; lia].
Qed.

(** Text-mode reading leaves no carriage return. *)
Lemma universal_newlines_no_cr (s : text) :
  contains_char 13%N (Orchestrator.universal_newlines s) = false.
Proof.
  induction s as [s IH] using by_length.
  destruct s as [|c r]; [reflexivity|].
  rewrite universal_newlines_cons.
  destruct (c =? 13)%N eqn:E.
  - destruct r as [|d r']; [reflexivity|].
    destruct (d =? 10)%N; cbn [contains_char existsb];
      fold (contains_char 13%N); apply IH; cbn; lia.
  - cbn [contains_char existsb]. rewrite N.eqb_sym, E.
    apply IH. cbn. lia.
Qed.

(** A snapshot that is valid UTF-8 is read as its decoded text: as it is
    from a [.gz] file, and with every line end turned into a line feed, so
    that no carriage return is left, from any other file. *)
Theorem valid_snapshot_is_read_as_written (path : Pathlib.pure_path)
  (raw data : list N) (t : text) :
  read_bytes (Pathlib.to_text path) = Returns raw ->
  (if text_eqb (Pathlib.suffix path) (lit ".gz")
   then gzip_read inflate raw else Returns raw) = Returns data ->
  utf8_decode Strict data = Some t ->
  exists s,
    read_text_maybe_gz read_bytes inflate path = Returns s
    /\ (if text_eqb (Pathlib.suffix path) (lit ".gz")
        then s = t
        else s = Orchestrator.universal_newlines t
             /\ contains_char 13%N s = false).
Proof.
  intros Hread Hdata Hvalid. apply utf8_decode_strict_ignore in Hvalid.
  unfold read_text_maybe_gz. rewrite Hread.
  destruct (text_eqb (Pathlib.suffix path) (lit ".gz")).
  - rewrite Hdata, Hvalid. eexists. split; reflexivity.
  - injection Hdata as ->. rewrite Hvalid. eexists.
    split; [reflexivity|]. split; [reflexivity|].
    apply universal_newlines_no_cr.
Qed.

End WellFormedFileFacts.

Lemma valid_snapshot_is_read_as_written_witness :
  exists s,
    Codec.read_text_maybe_gz (fun _ => Returns [97; 13; 10; 98]%N)
      ReadScenario.inflate ReadScenario.plain = Returns s
    /\ s = [97; 10; 98]%N.
Proof.
  destruct (@valid_snapshot_is_read_as_written
              (fun _ => Returns [97; 13; 10; 98]%N) ReadScenario.inflate
              ReadScenario.plain [97; 13; 10; 98]%N [97; 13; 10; 98]%N
              [97; 13; 10; 98]%N eq_refl eq_refl eq_refl)
    as (s & Hs & Hshape).
  exists s. split; [exact Hs|]. cbn in Hshape. destruct Hshape as [-> _].
  reflexivity.
Defined.

(** ** The recorded snapshot path, read again *)
Section PathTextFacts.
Import Pathlib Resolver PathSpec.
Local Arguments N.eqb : simpl never.

Lemma rel_parts_posix_components (s : text) :
  Forall component (rel_parts sep s).
Proof.
  apply Forall_forall. intros x Hx. unfold rel_parts in Hx.
  apply filter_In in Hx. destruct Hx as [Hin Hkeep].
  split; [exact Hkeep | exact (@split_component_sep sep s x Hin)].
Qed.

Lemma posix_splitroot_root (s : text) :
  let '(d, r, _) := posix_splitroot s in
  d = [] /\ (r = [] \/ r = [sep] \/ r = [sep; sep]).
Proof.
  unfold posix_splitroot. destruct s as [|c s]; [auto|].
  destruct (c =? sep)%N; [|auto].
  destruct (_ =? 2); auto.
Qed.

Lemma parse_parts_posix_shape (args : list text) :
  let '(d, r, t) := parse_parts posix args in
  d = [] /\ (r = [] \/ r = [sep] \/ r = [sep; sep]) /\ Forall component t.
Proof.
  induction args as [|p rest IH]; [cbn; auto|].
  cbn [parse_parts].
  destruct (parse_parts posix rest) as [[d2 r2] t2].
  destruct IH as (Hd & Hr & Ht).
  destruct (is_empty p); [auto|].
  cbn [splitroot posix normalise_altsep altsep fsep].
  pose proof (posix_splitroot_root p) as Hsplit.
  destruct (posix_splitroot p) as [[d r] rel].
  destruct Hsplit as [Hd' Hr'].
  subst d2. cbn [is_empty negb].
  destruct (is_empty r2); cbn [negb].
  - repeat split; auto. apply Forall_app. split; [|exact Ht].
    apply rel_parts_posix_components.
  - auto.
Qed.

Lemma component_nonempty (x : text) : component x -> x <> [].
Proof. intros [H _] ->. discriminate H. Qed.

Lemma split_join (t : list text) :
  t <> [] -> Forall component t -> split sep (join sep t) = t.
Proof.
  intros Hne Ht. induction Ht as [|x t Hx Ht IH]; [congruence|].
  destruct t as [|y t'].
  - cbn [join]. apply split_without_sep. apply Hx.
  - change (join sep (x :: y :: t')) with (x ++ sep :: join sep (y :: t')).
    rewrite split_app, IH by discriminate.
    rewrite (@split_without_sep sep x (proj2 Hx)). reflexivity.
Qed.

Lemma join_relative (t : list text) :
  Forall component t -> startswith [sep] (join sep t) = false.
Proof.
  intros Ht. destruct Ht as [|x t Hx Ht]; [reflexivity|].
  pose proof (component_nonempty Hx) as Hne.
  destruct Hx as [_ Hsep].
  destruct x as [|c x]; [congruence|].
  cbn [contains_char existsb] in Hsep. apply orb_false_iff in Hsep.
  destruct Hsep as [Hc _].
  destruct t; cbn; rewrite Hc; reflexivity.
Qed.

Lemma lstrip_relative (s : text) :
  startswith [sep] s = false -> lstrip sep s = s.
Proof.
  destruct s as [|c s]; [reflexivity|].
  cbn. rewrite andb_true_r. intros H. rewrite N.eqb_sym, H. reflexivity.
Qed.

Lemma rel_parts_join (t : list text) :
  Forall component t -> rel_parts sep (join sep t) = t.
Proof.
  intros Ht. unfold rel_parts. destruct t as [|x t]; [reflexivity|].
  rewrite split_join by (discriminate || exact Ht).
  apply forallb_filter_id. apply forallb_forall. intros y Hy.
  rewrite Forall_forall in Ht. apply Ht. exact Hy.
Qed.

(** The text of a path, given to [Path] again, is the same path. *)
Lemma path_of_text (args : list text) :
  Path [to_text (Path args)] = Path args.
Proof.
  unfold Path, make.
  pose proof (parse_parts_posix_shape args) as Hshape.
  destruct (parse_parts posix args) as [[d r] t].
  destruct Hshape as (-> & Hr & Ht).
  unfold to_text. cbn [drive root tail app].
  pose proof (join_relative Ht) as Hrel.
  pose proof (rel_parts_join Ht) as Hparts.
  destruct Hr as [-> | [-> | ->]].
  - destruct t as [|x t'].
    + reflexivity.
    + set (s := join sep (x :: t')) in *.
      assert (Hs : is_empty s = false).
      { subst s. pose proof (component_nonempty (Forall_inv Ht)) as Hx.
        destruct x; [congruence|]. destruct t'; reflexivity. }
      cbn [parse_parts]. rewrite Hs.
      cbn [splitroot posix normalise_altsep altsep fsep].
      rewrite (posix_splitroot_relative _ Hrel), Hparts.
      cbn. rewrite app_nil_r. reflexivity.
  - cbn [parse_parts app is_empty].
    cbn [splitroot posix normalise_altsep altsep fsep].
    unfold posix_splitroot. rewrite N.eqb_refl.
    cbn [lstrip]. rewrite N.eqb_refl, (lstrip_relative _ Hrel).
    cbn [List.length].
    replace (S (List.length (join sep t)) - List.length (join sep t)) with 1
      by lia.
    cbn [Nat.eqb is_empty negb]. rewrite Hparts, app_nil_r. reflexivity.
  - cbn [parse_parts app is_empty].
    cbn [splitroot posix normalise_altsep altsep fsep].
    unfold posix_splitroot. rewrite N.eqb_refl.
    cbn [lstrip]. rewrite !N.eqb_refl, (lstrip_relative _ Hrel).
    cbn [List.length].
    replace (S (S (List.length (join sep t))) - List.length (join sep t))
      with 2 by lia.
    cbn [Nat.eqb is_empty negb]. rewrite Hparts, app_nil_r. reflexivity.
Qed.

(** The scanner records a snapshot as [rel_path.as_posix()] and the
    comparator looks it up as [data_root / snapshot_relpath]: under the same
    root this is the path [root / rel_path] that the scanner itself looked at
    first (before it tried the [.gz] variant). *)
Theorem recorded_path_is_resolved_path (root0 : pure_path) (raw_rel : text) :
  joinpath root0 (Path [to_text (normalize_relpath raw_rel)])
  = resolve root0 raw_rel.
Proof.
  unfold resolve, normalize_relpath. rewrite path_of_text. reflexivity.
Qed.

End PathTextFacts.

(** ** Keyword patterns *)
Section KeywordFacts.
Import Keywords.

Variable compiles : text -> bool.
Variable decode_error : list N -> text.

Lemma lstrip_space_suffix (s : text) :
  exists pre, s = pre ++ lstrip_space s.
Proof.
  induction s as [|c s IH]; [exists []; reflexivity|].
  cbn [lstrip_space]. destruct (isspace c).
  - destruct IH as [pre Hpre]. exists (c :: pre). cbn. f_equal. exact Hpre.
  - exists []. reflexivity.
Qed.

Lemma lstrip_space_head (s : text) :
  match lstrip_space s with c :: _ => isspace c = false | [] => True end.
Proof.
  induction s as [|c s IH]; [exact I|].
  cbn [lstrip_space]. destruct (isspace c) eqn:E; [exact IH | exact E].
Qed.

Lemma last_of_suffix (pre z : text) (c : char) (r : text) :
  rev (pre ++ z) = c :: r -> z <> [] -> exists r', rev z = c :: r'.
Proof.
  rewrite rev_app_distr. intros H Hz.
  destruct (rev z) as [|d r'] eqn:E.
  - apply (f_equal (@rev char)) in E. rewrite rev_involutive in E.
    cbn in E. contradiction.
  - cbn in H. injection H as -> _. eexists. reflexivity.
Qed.

Lemma strip_trimmed (s : text) : trimmed (strip s).
Proof.
  unfold trimmed, strip. rewrite rev_involutive.
  split; [|apply lstrip_space_head].
  set (y := lstrip_space s).
  pose proof (lstrip_space_head s) as Hy. fold y in Hy.
  destruct (lstrip_space_suffix (rev y)) as [pre Hpre].
  set (z := lstrip_space (rev y)) in *.
  destruct (rev z) as [|c r] eqn:Ez; [exact I|].
  assert (Hzne : z <> []) by (intros ->; discriminate Ez).
  apply (f_equal (@rev char)) in Hpre. rewrite rev_involutive in Hpre.
  rewrite rev_app_distr, Ez in Hpre. cbn [app] in Hpre.
  rewrite Hpre in Hy. exact Hy.
Qed.

(** When [load_keywords] returns, the patterns are the built-in ones, in
    their order, followed by those of the keywords file, in the order of its
    lines; each pattern of the file is a line of the file after [strip], is
    not empty, neither begins nor ends with white space and does not begin
    with [#]; without a keywords file there is none. *)
Theorem keywords_are_defaults_then_trimmed_lines (file : keywords_file)
  (pats : list text) :
  load_keywords compiles decode_error file = Patterns pats ->
  exists extra,
    pats = Scanner.DEFAULT_KEYWORDS ++ extra
    /\ (file = NoFile -> extra = [])
    /\ (forall raw t, file = Holds raw ->
          Codec.utf8_decode Codec.Strict raw = Some t ->
          extra = extra_patterns (Orchestrator.universal_newlines t))
    /\ Forall (fun p => p <> [] /\ trimmed p
                        /\ startswith (lit "#") p = false) extra
    /\ forallb compiles pats = true.
Proof.
  unfold load_keywords.
  assert (Hextra : forall content,
            Forall (fun p => p <> [] /\ trimmed p
                             /\ startswith (lit "#") p = false)
                   (extra_patterns content)).
  { intros content. unfold extra_patterns.
    apply Forall_map, Forall_forall. intros ln Hln.
    apply filter_In in Hln. destruct Hln as [_ Hln].
    unfold is_pattern_line in Hln. apply andb_true_iff in Hln.
    destruct Hln as [Hne Hhash]. apply negb_true_iff in Hhash.
    repeat split; try apply strip_trimmed; try exact Hhash.
    intros E. rewrite E in Hne. discriminate Hne. }
  destruct file as [|cls msg|raw].
  - destruct (forallb compiles Scanner.DEFAULT_KEYWORDS) eqn:E;
      [|discriminate].
    intros H. injection H as <-. exists [].
    rewrite app_nil_r. repeat split; auto; discriminate.
  - discriminate.
  - destruct (Codec.utf8_decode Codec.Strict raw) as [t|] eqn:Et;
      [|discriminate].
    destruct (forallb compiles _) eqn:E; [|discriminate].
    intros H. injection H as <-.
    exists (extra_patterns (Orchestrator.universal_newlines t)).
    repeat split; auto; try discriminate.
    intros raw' t' Hraw Ht'. injection Hraw as <-.
    rewrite Et in Ht'. injection Ht' as <-. reflexivity.
Qed.

End KeywordFacts.

Lemma keywords_are_defaults_then_trimmed_lines_witness :
  let raw := lit " # no pattern" ++ newline ++ lit "  \bsudo\b  " ++ newline in
  Keywords.load_keywords (fun _ => true) (fun _ => []) (Keywords.Holds raw)
  = Keywords.Patterns (Scanner.DEFAULT_KEYWORDS ++ [lit "\bsudo\b"])
  /\ exists extra,
       Scanner.DEFAULT_KEYWORDS ++ [lit "\bsudo\b"]
       = Scanner.DEFAULT_KEYWORDS ++ extra
       /\ Forall (fun p => p <> [] /\ Keywords.trimmed p
                           /\ startswith (lit "#") p = false) extra.
Proof.
  intros raw. split; [reflexivity|].
  destruct (@keywords_are_defaults_then_trimmed_lines (fun _ => true)
              (fun _ => []) (Keywords.Holds raw)
              (Scanner.DEFAULT_KEYWORDS ++ [lit "\bsudo\b"]) eq_refl)
    as (extra & Hp & _ & _ & Hall & _).
  exists extra. split; [exact Hp | exact Hall].
Defined.

(** ** The diff of a text with itself *)
Section SameSequenceFacts.
Import Difflib DiffSpec SameSpec.
Local Arguments N.eqb : simpl never.

Variable a : list line.

Lemma run_to_step (i : nat) :
  popular a (nth i a []) = false -> run_to a i = S (run_before a i).
Proof. intros H. destruct i as [|i']; cbn; rewrite H; reflexivity. Qed.

Lemma positions_from_bounds (k : nat) (l : list line) (x : line) :
  Forall (fun j => k <= j < k + List.length l) (positions_from k l x).
Proof.
  revert k. induction l as [|y l IH]; intros k; cbn; [constructor|].
  assert (H : Forall (fun j => k <= j < k + S (List.length l))
                (positions_from (S k) l x)).
  { apply (Forall_impl _ (fun j (Hj : S k <= j < S k + List.length l) =>
                            conj (Nat.lt_le_incl _ _ (proj1 Hj))
                                 (eq_ind _ (fun m => j < m) (proj2 Hj) _
                                    (eq_sym (Nat.add_succ_r _ _))))
             (IH (S k))). }
  destruct (text_eqb y x); [constructor; [lia | exact H] | exact H].
Qed.

Lemma ascending_weaken (lo lo' : nat) (js : list nat) :
  lo' <= lo -> ascending lo js -> ascending lo' js.
Proof.
  destruct js as [|j rest]; [auto|]. cbn. intros H [H1 H2]. split; [lia|auto].
Qed.

Lemma ascending_In (lo : nat) (js : list nat) (i : nat) :
  ascending lo js -> In i js -> lo <= i.
Proof.
  revert lo. induction js as [|j rest IH]; intros lo; [intros _ []|].
  cbn. intros [H1 H2] [<-|Hin]; [exact H1|].
  specialize (IH (S j) H2 Hin). lia.
Qed.

Lemma positions_from_sorted (k : nat) (l : list line) (x : line) :
  ascending k (positions_from k l x).
Proof.
  revert k. induction l as [|y l IH]; intros k; cbn; [exact I|].
  destruct (text_eqb y x).
  - cbn. split; [lia | apply IH].
  - apply (@ascending_weaken (S k)); [lia | apply IH].
Qed.

Lemma positions_from_complete (k : nat) (l : list line) (x : line) (j : nat) :
  j < List.length l -> nth j l [] = x -> In (k + j) (positions_from k l x).
Proof.
  revert k j. induction l as [|y l IH]; intros k j Hj Hx; [cbn in Hj; lia|].
  cbn [positions_from]. destruct j as [|j].
  - cbn in Hx. subst y. rewrite text_eqb_refl, Nat.add_0_r. left. reflexivity.
  - cbn in Hj, Hx. replace (k + S j) with (S k + j) by lia.
    destruct (text_eqb y x); [right|]; apply IH; (lia || exact Hx).
Qed.

Lemma b2j_listed (j : nat) (x : line) :
  In j (b2j a x) ->
  j < List.length a /\ nth j a [] = x /\ popular a x = false.
Proof.
  intros H. pose proof (@b2j_spec a x j H) as Hx.
  unfold b2j in H. destruct (popular a x) eqn:E; [destruct H|].
  pose proof (positions_from_bounds 0 a x) as Hb.
  rewrite Forall_forall in Hb. specialize (Hb j H). cbn in Hb.
  repeat split; (lia || assumption).
Qed.

Lemma b2j_lists_row (i : nat) :
  i < List.length a -> popular a (nth i a []) = false ->
  In i (b2j a (nth i a [])).
Proof.
  intros Hi Hp. unfold b2j. rewrite Hp.
  apply (@positions_from_complete 0 a (nth i a []) i Hi eq_refl).
Qed.

Lemma b2j_sorted (x : line) : ascending 0 (b2j a x).
Proof.
  unfold b2j. destruct (popular a x); [exact I|].
  apply positions_from_sorted.
Qed.


Lemma scan_row_same (i : nat) (prev : list (nat * nat)) (js : list nat) :
  i < List.length a ->
  (forall j, j2len_get prev j <= run_to a j
             /\ j2len_get prev j <= run_before a i) ->
  match i with
  | O => True
  | S i' => j2len_get prev i' = run_to a i'
  end ->
  (forall j, In j js ->
     j < List.length a /\ popular a (nth j a []) = false
     /\ popular a (nth i a []) = false) ->
  ascending 0 js ->
  forall (p s : nat) (new : list (nat * nat)),
  (forall j, j < i -> run_to a j <= s) ->
  (forall j, j2len_get new j <= run_to a j
             /\ j2len_get new j <= run_to a i) ->
  In i js \/ (run_to a i <= s /\ j2len_get new i = run_to a i) ->
  exists p' s' new',
    scan_row 0 (List.length a) i prev js (p, p, s) new = ((p', p', s'), new')
    /\ (forall j, j <= i -> run_to a j <= s')
    /\ (forall j, j2len_get new' j <= run_to a j
                  /\ j2len_get new' j <= run_to a i)
    /\ j2len_get new' i = run_to a i.
Proof.
  intros Hi Hprev Hdiag.
  induction js as [|j js IH]; intros Hjs Hasc p s new Hbest Hnew Hrow.
  - destruct Hrow as [[]|[Hs Hget]].
    exists p, s, new. cbn [scan_row]. repeat split; try apply Hnew; auto.
    intros j Hj. destruct (Nat.eq_dec j i) as [->|Hne]; [exact Hs|].
    apply Hbest. lia.
  - destruct (Hjs j (or_introl eq_refl)) as (Hjn & Hpj & Hpi).
    cbn [ascending] in Hasc. destruct Hasc as [_ Hasc].
    cbn [scan_row].
    assert (E1 : (j <? 0) = false) by (apply Nat.ltb_ge; lia).
    assert (E2 : (List.length a <=? j) = false) by (apply Nat.leb_gt; lia).
    rewrite E1, E2.
    set (k := match j with
              | O => 1
              | S j1 => j2len_get prev j1 + 1
              end).
    assert (Hkj : k <= run_to a j).
    { rewrite (run_to_step j Hpj). subst k. destruct j as [|j1]; cbn; [lia|].
      destruct (Hprev j1) as [H _]. lia. }
    assert (Hki : k <= run_to a i).
    { rewrite (run_to_step i Hpi). subst k. destruct j as [|j1]; [lia|].
      destruct (Hprev j1) as [_ H]. lia. }
    assert (Hnew' : forall j0,
              j2len_get ((j, k) :: new) j0 <= run_to a j0
              /\ j2len_get ((j, k) :: new) j0 <= run_to a i).
    { intros j0. cbn [j2len_get]. destruct (j =? j0) eqn:E.
      - apply Nat.eqb_eq in E. subst j0. auto.
      - apply Hnew. }
    assert (Hlater : In i js -> j < i).
    { intros Hin. pose proof (@ascending_In (S j) js i Hasc Hin). lia. }
    assert (Hrow' : forall s', s <= s' -> (j = i -> k <= s') ->
              In i js
              \/ (run_to a i <= s'
                  /\ j2len_get ((j, k) :: new) i = run_to a i)).
    { intros s' Hs' Hk'. destruct (Nat.eq_dec j i) as [->|Hne].
      - right. cbn [j2len_get]. rewrite Nat.eqb_refl.
        assert (Hk : k = run_to a i).
        { rewrite (run_to_step i Hpi). subst k.
          destruct i as [|i']; [reflexivity|]. cbn [run_before].
          rewrite Hdiag. lia. }
        split; [rewrite <- Hk; auto | exact Hk].
      - destruct Hrow as [[Heq|Hin]|[Hs Hget]]; [contradiction|left; exact Hin|].
        right. cbn [j2len_get].
        assert (E : (j =? i) = false) by (apply Nat.eqb_neq; exact Hne).
        rewrite E. split; [lia | exact Hget]. }
    destruct (s <? k) eqn:E.
    + apply Nat.ltb_lt in E.
      assert (Hji : j = i).
      { destruct (Nat.lt_trichotomy j i) as [Hlt|[Heq|Hgt]]; [|exact Heq|].
        - specialize (Hbest j Hlt). lia.
        - destruct Hrow as [[Heq|Hin]|[Hs _]]; [lia| |lia].
          specialize (Hlater Hin). lia. }
      subst j.
      apply (IH (fun j0 H0 => Hjs j0 (or_intror H0))
                (@ascending_weaken (S i) 0 js ltac:(lia) Hasc)
                (i + 1 - k) k ((i, k) :: new)).
      * intros j0 Hj0. specialize (Hbest j0 Hj0). lia.
      * exact Hnew'.
      * apply Hrow'; lia.
    + apply Nat.ltb_ge in E.
      apply (IH (fun j0 H0 => Hjs j0 (or_intror H0))
                (@ascending_weaken (S j) 0 js ltac:(lia) Hasc)
                p s ((j, k) :: new)).
      * exact Hbest.
      * exact Hnew'.
      * apply Hrow'; lia.
Qed.


Lemma scan_rows_same (m i : nat) :
  i + m <= List.length a ->
  forall (prev : list (nat * nat)) (p s : nat),
  (forall j, j2len_get prev j <= run_to a j
             /\ j2len_get prev j <= run_before a i) ->
  match i with
  | O => True
  | S i' => j2len_get prev i' = run_to a i'
  end ->
  (forall j, j < i -> run_to a j <= s) ->
  exists p' s',
    scan_rows a a 0 (List.length a) (seq i m) prev (p, p, s) = (p', p', s').
Proof.
  revert i. induction m as [|m IH]; intros i Hm prev p s Hprev Hdiag Hbest.
  - exists p, s. reflexivity.
  - cbn [seq scan_rows].
    assert (Hrow : In i (b2j a (nth i a []))
                   \/ (run_to a i <= s /\ j2len_get [] i = run_to a i)).
    { destruct (popular a (nth i a [])) eqn:E.
      - right. cbn [j2len_get]. destruct i; cbn [run_to]; rewrite E; lia.
      - left. apply b2j_lists_row; [lia | exact E]. }
    destruct (@scan_row_same i prev (b2j a (nth i a [])) ltac:(lia) Hprev
                Hdiag) with (p := p) (s := s) (new := @nil (nat * nat))
      as (p' & s' & new' & Hscan & Hbest' & Hnew' & Hdiag').
    + intros j Hj. destruct (b2j_listed _ _ Hj) as (H1 & H2 & H3).
      rewrite H2. auto.
    + apply b2j_sorted.
    + exact Hbest.
    + intros j. cbn. lia.
    + exact Hrow.
    + rewrite Hscan. apply (IH (S i)); [lia | exact Hnew' | exact Hdiag' |].
      intros j Hj. apply Hbest'. lia.
Qed.

Lemma extend_left_same (p s : nat) :
  extend_left a a 0 0 p p s = (0, 0, s + p).
Proof.
  revert s. induction p as [|p IH]; intros s.
  - cbn. rewrite Nat.add_0_r. reflexivity.
  - cbn [extend_left]. rewrite text_eqb_refl. cbn [Nat.ltb Nat.leb andb].
    rewrite IH. f_equal. lia.
Qed.

Lemma extend_right_same (room size : nat) :
  size + room = List.length a ->
  extend_right a a (List.length a) (List.length a) 0 0 size room
  = (0, 0, List.length a).
Proof.
  revert size. induction room as [|room IH]; intros size H.
  - cbn. f_equal. lia.
  - cbn [extend_right Nat.add]. rewrite text_eqb_refl.
    assert (E : (size <? List.length a) = true) by (apply Nat.ltb_lt; lia).
    rewrite E. cbn [andb]. apply IH. lia.
Qed.

(** The longest match of a sequence with itself is the whole sequence. *)
Lemma find_longest_match_same :
  find_longest_match a a 0 (List.length a) 0 (List.length a)
  = (0, 0, List.length a).
Proof.
  unfold find_longest_match.
  pose proof (@find_longest_match_ok a a 0 (List.length a) 0 (List.length a)
                (Nat.le_0_l _) (Nat.le_0_l _)) as Hok.
  unfold find_longest_match in Hok.
  rewrite Nat.sub_0_r in *.
  destruct (@scan_rows_same (List.length a) 0 (le_n _) [] 0 0) as (p & s & Hscan).
  - intros j. cbn. lia.
  - exact I.
  - intros j Hj. lia.
  - rewrite Hscan in *. rewrite extend_left_same in *.
    assert (H0 : block_in a a 0 (List.length a) 0 (List.length a) (0, 0, 0)).
    { cbn. repeat split; try lia. }
    pose proof (@scan_rows_ok a a 0 (List.length a) 0 (List.length a)
                  (List.length a) 0 [] (0, 0, 0) (le_n _) (le_n _)
                  (Forall_nil _) H0) as Hblock.
    rewrite Hscan in Hblock. destruct Hblock as (_ & Hps & _).
    apply extend_right_same. lia.
Qed.


Lemma blocks_between_same :
  blocks_between a a (List.length a) 0 (List.length a) 0 (List.length a)
  = match List.length a with
    | O => []
    | S _ => [(0, 0, List.length a)]
    end.
Proof.
  pose proof find_longest_match_same as H.
  destruct (List.length a) as [|m]; [reflexivity|].
  cbn [blocks_between]. rewrite H.
  cbn [Nat.add]. rewrite !Nat.ltb_irrefl. reflexivity.
Qed.

Lemma get_opcodes_same :
  get_opcodes a a
  = match List.length a with
    | O => []
    | S _ => [{| op := Equal; i1 := 0; i2 := List.length a;
                 j1 := 0; j2 := List.length a |}]
    end.
Proof.
  unfold get_opcodes, get_matching_blocks. cbv zeta.
  rewrite blocks_between_same.
  destruct (List.length a) as [|m]; [reflexivity|].
  cbn [collapse Nat.add Nat.eqb andb app opcodes_from].
  rewrite !Nat.ltb_irrefl. reflexivity.
Qed.

(** A lone opcode that shows no change makes no group. *)
Lemma lone_equal_no_group (c : opcode) :
  op c = Equal -> get_grouped_opcodes 3 [c] = [].
Proof.
  intros Hop. unfold get_grouped_opcodes, fix_first.
  assert (He : is_equal c = true) by (unfold is_equal; rewrite Hop; reflexivity).
  rewrite He. cbn [fix_last].
  assert (He1 : is_equal (trim_front 3 c) = true)
    by (unfold is_equal; cbn; rewrite Hop; reflexivity).
  rewrite He1. cbn [group_codes].
  assert (He2 : is_equal (trim_back 3 (trim_front 3 c)) = true)
    by (unfold is_equal; cbn; rewrite Hop; reflexivity).
  rewrite He2.
  assert (Hshort : (3 + 3 <? i2 (trim_back 3 (trim_front 3 c))
                             - i1 (trim_back 3 (trim_front 3 c))) = false).
  { apply Nat.ltb_ge. cbn [trim_back trim_front i1 i2]. lia. }
  rewrite Hshort. cbn [andb app]. rewrite He2. reflexivity.
Qed.

Lemma unified_diff_same (fromfile tofile : text) :
  unified_diff a a fromfile tofile = [].
Proof.
  unfold unified_diff. rewrite get_opcodes_same.
  destruct (List.length a) as [|m]; [reflexivity|].
  rewrite lone_equal_no_group; reflexivity.
Qed.

End SameSequenceFacts.

(** The diff that [unified_diff_text] makes is the empty text exactly when
    the old text and the new text are the same, whatever their line ends and
    the file labels are. *)
Theorem diff_is_empty_iff_texts_equal (old new fromfile tofile : text) :
  DiffGenerator.unified_diff_text old new fromfile tofile = [] <-> old = new.
Proof.
  unfold DiffGenerator.unified_diff_text. split.
  - intros H.
    pose proof (@get_grouped_opcodes_ok (Difflib.splitlines old)
                  (Difflib.splitlines new) _
                  (get_opcodes_chain (Difflib.splitlines old)
                     (Difflib.splitlines new))) as Hok.
    unfold Difflib.unified_diff in H.
    destruct (Difflib.get_grouped_opcodes 3
                (Difflib.get_opcodes (Difflib.splitlines old)
                   (Difflib.splitlines new))) as [|g gs].
    + apply no_group_same in Hok.
      rewrite <- (splitlines_concat old), <- (splitlines_concat new), Hok.
      reflexivity.
    + discriminate H.
  - intros ->. rewrite unified_diff_same. reflexivity.
Qed.

(** ** [hits.jsonl] read back *)
Section JsonlFacts.
Import Json Jsonl JsonlSpec.

Lemma run_app (s : state) (x y : text) :
  run s (x ++ y)
  = match run s x with
    | Some s' => run s' y
    | None => None
    end.
Proof.
  revert s. induction x as [|c x IH]; intros s; [reflexivity|].
  cbn [app run]. destruct (step s c); [apply IH | reflexivity].
Qed.

Lemma run_assoc (s : state) (x y z : text) :
  run s ((x ++ y) ++ z) = run s (x ++ y ++ z).
Proof. rewrite <- app_assoc. reflexivity. Qed.

(** A character below 32 is one of thirty-two. *)
Lemma control_cases (P : N -> Prop) :
  (forall n, n < 32 -> P (N.of_nat n)) ->
  forall c, (c <? 32)%N = true -> P c.
Proof.
  intros H c Hc. apply N.ltb_lt in Hc.
  rewrite <- (N2Nat.id c). apply H. lia.
Qed.

(** The reader takes the escaped form of a character for the character. *)
Lemma escape_char_read (stack : list frame) (is_key : bool) (acc : text)
  (c : char) (more : text) :
  run (stack, MString is_key acc None) (escape_char c ++ more)
  = run (stack, MString is_key (c :: acc) None) more.
Proof.
  destruct (c <? 32)%N eqn:E32.
  - revert c E32. apply control_cases. intros n Hn.
    do 32 (destruct n as [|n]; [reflexivity|]). lia.
  - unfold escape_char. rewrite E32.
    destruct (c =? 34)%N eqn:E34;
      [apply N.eqb_eq in E34; subst c; reflexivity|].
    destruct (c =? 92)%N eqn:E92;
      [apply N.eqb_eq in E92; subst c; reflexivity|].
    apply N.ltb_ge in E32.
    assert (E : forall d, (d < 32)%N -> (c =? d)%N = false)
      by (intros d Hd; apply N.eqb_neq; lia).
    rewrite !E by lia.
    cbn [app run step]. rewrite E34, E92.
    assert (E' : (c <? 32)%N = false) by (apply N.ltb_ge; exact E32).
    rewrite E'. reflexivity.
Qed.

Lemma string_body_read (stack : list frame) (is_key : bool) (s acc : text)
  (more : text) :
  run (stack, MString is_key acc None) (flat_map escape_char s ++ more)
  = run (stack, MString is_key (rev s ++ acc) None) more.
Proof.
  revert acc. induction s as [|c s IH]; intros acc; [reflexivity|].
  cbn [flat_map rev]. rewrite <- !app_assoc, escape_char_read, IH.
  reflexivity.
Qed.


Lemma key_read (acc : list (text * json)) (st : list frame)
  (may_close : bool) (s more : text) :
  run (FObj acc None :: st, MKey may_close) (encode_basestring s ++ more)
  = run (FObj acc (Some s) :: st, MColon) more.
Proof.
  unfold encode_basestring. rewrite <- !app_assoc.
  cbn [app run step].
  assert (E : is_ws 34%N = false) by reflexivity. rewrite E.
  assert (E1 : (34 =? 125)%N = false) by reflexivity. rewrite E1.
  rewrite N.eqb_refl, string_body_read. cbn [run step].
  rewrite N.eqb_refl. cbn [end_string].
  rewrite app_nil_r, rev_involutive. reflexivity.
Qed.

Lemma string_reads (s : text) : reads_as (encode_basestring s) (JString s).
Proof.
  intros stack may_close more.
  unfold encode_basestring. rewrite <- !app_assoc.
  cbn [app run step]. unfold step_value.
  assert (E : is_ws 34%N = false) by reflexivity. rewrite E.
  assert (E1 : (34 =? 93)%N = false) by reflexivity. rewrite E1.
  rewrite N.eqb_refl, string_body_read. cbn [run step].
  rewrite N.eqb_refl. cbn [end_string].
  rewrite app_nil_r, rev_involutive. reflexivity.
Qed.

Lemma null_reads : reads_as (lit "null") JNull.
Proof. intros stack may_close more. reflexivity. Qed.

Lemma optional_reads (v : option text) :
  reads_as (dumps_optional v) (optional v).
Proof. destruct v; [apply string_reads | apply null_reads]. Qed.


Lemma items_read (stack : list frame) (l : list text) :
  l <> [] ->
  forall (acc : list json) (may_close : bool) (more : text),
  run (FList acc :: stack, MValue may_close)
      (join_with [44%N; 32%N] (map encode_basestring l) ++ 93%N :: more)
  = match complete stack (JList (rev acc ++ map JString l)) with
    | Some s => run s more
    | None => None
    end.
Proof.
  induction l as [|x l IH]; [congruence|]. intros _ acc may_close more.
  destruct l as [|y l'].
  - cbn [map join_with]. rewrite (string_reads x). cbn [complete].
    cbn [run step]. unfold step_closed.
    assert (E : is_ws 93%N = false) by reflexivity. rewrite E.
    assert (E1 : (93 =? 44)%N = false) by reflexivity. rewrite E1.
    rewrite N.eqb_refl. reflexivity.
  - change (join_with [44%N; 32%N] (map encode_basestring (x :: y :: l')))
      with (encode_basestring x ++ [44%N; 32%N]
            ++ join_with [44%N; 32%N] (map encode_basestring (y :: l'))).
    rewrite <- !app_assoc, (string_reads x). cbn [complete].
    cbn [app run step]. unfold step_closed.
    assert (E : is_ws 44%N = false) by reflexivity. rewrite E.
    rewrite N.eqb_refl. cbn [run step]. unfold step_value at 1.
    assert (E3 : is_ws 32%N = true) by reflexivity. rewrite E3.
    etransitivity;
      [exact (IH ltac:(discriminate) (JString x :: acc) false more)|].
    cbn [rev map]. rewrite <- app_assoc. reflexivity.
Qed.

Lemma strings_read (l : list text) :
  reads_as (dumps_strings l) (JList (map JString l)).
Proof.
  intros stack may_close more. unfold dumps_strings.
  change (lit "[") with [91%N]. change (lit "]") with [93%N].
  change (lit ", ") with [44%N; 32%N].
  rewrite <- !app_assoc. cbn [app run step]. unfold step_value at 1.
  assert (E : is_ws 91%N = false) by reflexivity. rewrite E.
  assert (E1 : (91 =? 93)%N = false) by reflexivity.
  assert (E2 : (91 =? 34)%N = false) by reflexivity.
  rewrite E1, E2, N.eqb_refl.
  destruct l as [|x l].
  - reflexivity.
  - apply (@items_read stack (x :: l) ltac:(discriminate) [] true more).
Qed.

(** The members of a dictionary: each written value is read as the value
    at the same place in [values]. *)
Lemma members_read (st : list frame) (items : list (text * text))
  (values : list json) :
  Forall2 (fun kv v => reads_as (snd kv) v) items values ->
  items <> [] ->
  forall (acc : list (text * json)) (may_close : bool) (more : text),
  run (FObj acc None :: st, MKey may_close)
      (join_with [44%N; 32%N]
         (map (fun kv => encode_basestring (fst kv) ++ [58%N; 32%N] ++ snd kv)
              items)
       ++ 125%N :: more)
  = match complete st (JObject (rev acc ++ combine (map fst items) values))
    with
    | Some s => run s more
    | None => None
    end.
Proof.
  induction 1 as [|[k w] v items values Hv Hrest IH]; [congruence|].
  intros _ acc may_close more. cbn [fst snd] in Hv.
  assert (Hmember : forall rest,
            run (FObj acc None :: st, MKey may_close)
                ((encode_basestring k ++ [58%N; 32%N] ++ w) ++ rest)
            = run (FObj ((k, v) :: acc) None :: st, MAfter) rest).
  { intros rest. rewrite <- !app_assoc, key_read.
    cbn [app run step].
    assert (E : is_ws 58%N = false) by reflexivity. rewrite E.
    rewrite N.eqb_refl. cbn [run step]. unfold step_value at 1.
    assert (E3 : is_ws 32%N = true) by reflexivity. rewrite E3.
    etransitivity; [exact (Hv (FObj acc (Some k) :: st) false rest)|].
    reflexivity. }
  destruct items as [|kv' items'].
  - inversion Hrest; subst. cbn [map join_with fst snd combine].
    etransitivity; [exact (Hmember _)|].
    cbn [run step]. unfold step_closed.
    assert (E : is_ws 125%N = false) by reflexivity. rewrite E.
    assert (E1 : (125 =? 44)%N = false) by reflexivity. rewrite E1.
    rewrite N.eqb_refl. reflexivity.
  - set (f := fun kv : text * text =>
                encode_basestring (fst kv) ++ [58%N; 32%N] ++ snd kv) in *.
    change (join_with [44%N; 32%N] (map f ((k, w) :: kv' :: items')))
      with (f (k, w) ++ [44%N; 32%N]
            ++ join_with [44%N; 32%N] (map f (kv' :: items'))).
    change (f (k, w)) with (encode_basestring k ++ [58%N; 32%N] ++ w).
    etransitivity; [exact (run_assoc _ _ _ _)|].
    etransitivity; [exact (Hmember _)|].
    cbn [app run step]. unfold step_closed.
    assert (E : is_ws 44%N = false) by reflexivity. rewrite E.
    rewrite N.eqb_refl. cbn [run step].
    assert (E3 : is_ws 32%N = true) by reflexivity. rewrite E3.
    etransitivity;
      [exact (IH ltac:(discriminate) ((k, v) :: acc) false more)|].
    cbn [map fst combine rev]. rewrite <- app_assoc. reflexivity.
Qed.

Lemma dict_reads (items : list (text * text)) (values : list json) :
  Forall2 (fun kv v => reads_as (snd kv) v) items values ->
  reads_as (dumps_dict items) (JObject (combine (map fst items) values)).
Proof.
  intros Hitems stack may_close more. unfold dumps_dict.
  change (lit "{") with [123%N]. change (lit "}") with [125%N].
  change (lit ", ") with [44%N; 32%N]. change (lit ": ") with [58%N; 32%N].
  rewrite <- !app_assoc. cbn [app run step]. unfold step_value at 1.
  assert (E : is_ws 123%N = false) by reflexivity. rewrite E.
  assert (E1 : (123 =? 93)%N = false) by reflexivity.
  assert (E2 : (123 =? 34)%N = false) by reflexivity.
  assert (E3 : (123 =? 91)%N = false) by reflexivity.
  rewrite E1, E2, E3, N.eqb_refl.
  destruct items as [|kv items].
  - inversion Hitems; subst. reflexivity.
  - apply (@members_read stack (kv :: items) values Hitems
             ltac:(discriminate) [] true more).
Qed.

(** The line written for an element of [hits] is read as its dictionary. *)
Lemma dumps_reads (e : Scanner.entry) : reads_as (dumps e) (entry_object e).
Proof.
  destruct e as [h|o r err]; unfold dumps.
  - refine (@dict_reads
              [ (lit "org", dumps_optional (Scanner.org h));
                (lit "repo", dumps_optional (Scanner.repo h));
                (lit "workflow_path", dumps_optional (Scanner.workflow_path h));
                (lit "commit_sha", dumps_optional (Scanner.commit_sha h));
                (lit "commit_date", dumps_optional (Scanner.commit_date h));
                (lit "matched_keywords",
                 dumps_strings (Scanner.matched_keywords h));
                (lit "message", encode_basestring (Scanner.message h));
                (lit "snapshot_relpath",
                 encode_basestring (Scanner.snapshot_relpath h));
                (lit "prev_sha", dumps_optional (Scanner.prev_sha h));
                (lit "diff_relpath", dumps_optional (Scanner.diff_relpath h)) ]
              [ optional (Scanner.org h); optional (Scanner.repo h);
                optional (Scanner.workflow_path h);
                optional (Scanner.commit_sha h);
                optional (Scanner.commit_date h);
                JList (map JString (Scanner.matched_keywords h));
                JString (Scanner.message h);
                JString (Scanner.snapshot_relpath h);
                optional (Scanner.prev_sha h);
                optional (Scanner.diff_relpath h) ] _).
    repeat constructor; cbn [snd];
      first [apply optional_reads | apply strings_read | apply string_reads].
  - refine (@dict_reads
              [ (lit "org", encode_basestring o);
                (lit "repo", encode_basestring r);
                (lit "workflow_path", lit "null");
                (lit "commit_sha", lit "null");
                (lit "error", encode_basestring err) ]
              [JString o; JString r; JNull; JNull; JString err] _).
    repeat constructor; cbn [snd];
      first [apply string_reads | apply null_reads].
Qed.

Lemma loads_dumps (e : Scanner.entry) :
  loads (dumps e ++ newline) = Some (entry_object e).
Proof.
  unfold loads. rewrite (dumps_reads e [] false newline). reflexivity.
Qed.


Variable mapping_error : json -> text.
Variable decode_error : text -> text.

Lemma strings_of_strings (l : list text) :
  strings_of (map JString l) = Some l.
Proof.
  induction l as [|x l IH]; [reflexivity|].
  cbn [map strings_of]. rewrite IH. reflexivity.
Qed.

(** The dictionary of a hit makes the [CommitInfo] with its values. *)
Lemma make_commit_hit (h : Scanner.Hit) (c : Comparator.CommitInfo) :
  commit_of h = Some c ->
  make_commit mapping_error (hit_object h) = Scanner.Loaded c.
Proof.
  unfold commit_of.
  destruct (Scanner.org h) as [org|] eqn:Eorg; [|discriminate].
  destruct (Scanner.repo h) as [repo|] eqn:Erepo; [|discriminate].
  destruct (Scanner.commit_date h) as [date|] eqn:Edate; [|discriminate].
  intros H. injection H as <-.
  unfold make_commit, hit_object. rewrite Eorg, Erepo, Edate.
  set (kv := [(lit "org", _); _; _; _; _; _; _; _; _; _]).
  assert (Hk : filter (fun k => negb (Scanner.text_in k fields))
                 (distinct_keys kv) = []) by reflexivity.
  assert (Hm : filter (fun f => negb (Scanner.text_in f (distinct_keys kv)))
                 fields = []) by reflexivity.
  cbv zeta. rewrite Hk, Hm.
  change (get (lit "org") kv JNull) with (JString org).
  change (get (lit "repo") kv JNull) with (JString repo).
  change (get (lit "workflow_path") kv JNull)
    with (optional (Scanner.workflow_path h)).
  change (get (lit "commit_sha") kv JNull)
    with (optional (Scanner.commit_sha h)).
  change (get (lit "commit_date") kv JNull) with (JString date).
  change (get (lit "matched_keywords") kv JNull)
    with (JList (map JString (Scanner.matched_keywords h))).
  change (get (lit "message") kv JNull) with (JString (Scanner.message h)).
  change (get (lit "snapshot_relpath") kv JNull)
    with (JString (Scanner.snapshot_relpath h)).
  change (get (lit "prev_sha") kv JNull) with (optional (Scanner.prev_sha h)).
  change (get (lit "diff_relpath") kv JNull)
    with (optional (Scanner.diff_relpath h)).
  unfold as_text, as_optional, as_strings. rewrite strings_of_strings.
  destruct (Scanner.workflow_path h), (Scanner.commit_sha h),
    (Scanner.prev_sha h), (Scanner.diff_relpath h); reflexivity.
Qed.

(** The dictionary of an error entry has a key that [CommitInfo] does not
    take. *)
Lemma make_commit_error (o r err : text) :
  make_commit mapping_error (error_object o r err)
  = Scanner.LoadRaises (lit "TypeError") (unexpected_argument (lit "error")).
Proof. reflexivity. Qed.


Lemma one_line_app (x y : text) :
  one_line x -> one_line y -> one_line (x ++ y).
Proof.
  unfold one_line. intros [H1 H2] [H3 H4].
  rewrite !contains_char_app, H1, H2, H3, H4. auto.
Qed.

Lemma escape_char_one_line (c : char) : one_line (escape_char c).
Proof.
  destruct (c <? 32)%N eqn:E32.
  - revert c E32. apply control_cases. intros n Hn.
    do 32 (destruct n as [|n]; [split; reflexivity|]). lia.
  - unfold escape_char. rewrite E32.
    destruct (c =? 34)%N; [split; reflexivity|].
    destruct (c =? 92)%N; [split; reflexivity|].
    apply N.ltb_ge in E32.
    assert (E : forall d, (d < 32)%N -> (c =? d)%N = false)
      by (intros d Hd; apply N.eqb_neq; lia).
    rewrite !E by lia.
    unfold one_line. cbn [contains_char existsb].
    rewrite !(N.eqb_sym _ c), !E by lia. auto.
Qed.

Lemma encode_basestring_one_line (s : text) : one_line (encode_basestring s).
Proof.
  unfold encode_basestring.
  apply one_line_app; [split; reflexivity|].
  apply one_line_app; [|split; reflexivity].
  induction s as [|c s IH]; [split; reflexivity|].
  cbn [flat_map]. apply one_line_app; [apply escape_char_one_line | exact IH].
Qed.

Lemma join_with_one_line (sep : text) (parts : list text) :
  one_line sep -> Forall one_line parts -> one_line (join_with sep parts).
Proof.
  intros Hsep Hparts. induction Hparts as [|p parts Hp Hrest IH];
    [split; reflexivity|].
  destruct parts as [|q parts']; [exact Hp|].
  change (join_with sep (p :: q :: parts'))
    with (p ++ sep ++ join_with sep (q :: parts')).
  repeat apply one_line_app; assumption.
Qed.

Lemma dumps_optional_one_line (v : option text) : one_line (dumps_optional v).
Proof.
  destruct v; [apply encode_basestring_one_line | split; reflexivity].
Qed.

Lemma dumps_strings_one_line (l : list text) : one_line (dumps_strings l).
Proof.
  unfold dumps_strings.
  apply one_line_app; [split; reflexivity|].
  apply one_line_app; [|split; reflexivity].
  apply join_with_one_line; [split; reflexivity|].
  apply Forall_map, Forall_forall. intros x _.
  apply encode_basestring_one_line.
Qed.

Lemma dumps_dict_one_line (items : list (text * text)) :
  Forall (fun kv => one_line (snd kv)) items -> one_line (dumps_dict items).
Proof.
  intros H. unfold dumps_dict.
  apply one_line_app; [split; reflexivity|].
  apply one_line_app; [|split; reflexivity].
  apply join_with_one_line; [split; reflexivity|].
  apply Forall_map.
  apply (Forall_impl _ (fun kv (Hkv : one_line (snd kv)) =>
           one_line_app (encode_basestring_one_line (fst kv))
             (one_line_app (conj eq_refl eq_refl : one_line (lit ": ")) Hkv))
           H).
Qed.

(** A line of [hits.jsonl] has no line break inside. *)
Lemma dumps_one_line_of_file (e : Scanner.entry) : one_line (dumps e).
Proof.
  destruct e as [h|o r err]; unfold dumps; apply dumps_dict_one_line;
    repeat constructor; cbn [snd];
    first [apply dumps_optional_one_line | apply dumps_strings_one_line
          | apply encode_basestring_one_line | split; reflexivity].
Qed.

Lemma lines_of_text_split (s : text) :
  lines_of_text s = Patch.split_lines s.
Proof.
  induction s as [|c s IH]; [reflexivity|].
  cbn [lines_of_text Patch.split_lines]. rewrite IH. reflexivity.
Qed.

Lemma hits_jsonl_one_cr_free (hits : list Scanner.entry) :
  contains_char 13%N (hits_jsonl hits) = false.
Proof.
  unfold hits_jsonl. induction hits as [|e hits IH]; [reflexivity|].
  cbn [map concat]. rewrite !contains_char_app, IH.
  destruct (dumps_one_line_of_file e) as [_ ->]. reflexivity.
Qed.

(** The file is read line by line as it was written. *)
Lemma readlines_hits_jsonl (hits : list Scanner.entry) :
  readlines (hits_jsonl hits) = map (fun h => dumps h ++ newline) hits.
Proof.
  unfold readlines.
  rewrite (universal_newlines_plain _ (hits_jsonl_one_cr_free hits)).
  rewrite lines_of_text_split. unfold hits_jsonl.
  apply split_lines_concat.
  apply Forall_map, Forall_forall. intros e _.
  exists (dumps e). split; [reflexivity|].
  apply (dumps_one_line_of_file e).
Qed.

Lemma dumps_line_nonblank (e : Scanner.entry) :
  nonblank (dumps e ++ newline) = true.
Proof. destruct e; reflexivity. Qed.

Lemma load_hit_lines (hits : list Scanner.Hit)
  (commits : list Comparator.CommitInfo)
  (rest : list text) :
  commits_of hits = Some commits ->
  load_lines mapping_error decode_error
    (map (fun h => dumps h ++ newline) (map Scanner.HitEntry hits) ++ rest)
  = match load_lines mapping_error decode_error rest with
    | Scanner.Loaded more => Scanner.Loaded (commits ++ more)
    | Scanner.LoadRaises cls msg => Scanner.LoadRaises cls msg
    | Scanner.LoadUnmodelled => Scanner.LoadUnmodelled
    end.
Proof.
  revert commits. induction hits as [|h hits IH]; intros commits.
  - intros H. injection H as <-. cbn [map app].
    destruct (load_lines _ _ rest); reflexivity.
  - cbn [commits_of].
    destruct (commit_of h) as [c|] eqn:Ec; [|discriminate].
    destruct (commits_of hits) as [cs|]; [|discriminate].
    intros H. injection H as <-.
    cbn [map app load_lines].
    rewrite dumps_line_nonblank, loads_dumps. cbn [entry_object].
    rewrite (make_commit_hit _ Ec), (IH cs eq_refl).
    destruct (load_lines _ _ rest); reflexivity.
Qed.

(** What the scanner writes to [hits.jsonl] for hits whose organisation,
    repository and date are strings is read back by
    [load_commits_from_jsonl] as the list of [CommitInfo] with the values
    of the hits, in their order. *)
Theorem hits_jsonl_is_read_back (hits : list Scanner.Hit)
  (commits : list Comparator.CommitInfo) :
  commits_of hits = Some commits ->
  load_commits_from_jsonl mapping_error decode_error
    (hits_jsonl (map Scanner.HitEntry hits))
  = Scanner.Loaded commits.
Proof.
  intros H. unfold load_commits_from_jsonl.
  rewrite readlines_hits_jsonl.
  pose proof (@load_hit_lines hits commits [] H) as E.
  cbn [load_lines] in E. rewrite !app_nil_r in E. exact E.
Qed.

(** A [hits.jsonl] with an error entry cannot be loaded: its line has the
    key ['error'], which [CommitInfo] does not take, and the loader ends
    with [TypeError] when it comes to the first such line. *)
Theorem error_entry_stops_jsonl_loader (good : list Scanner.Hit)
  (commits : list Comparator.CommitInfo) (o r err : text)
  (rest : list Scanner.entry) :
  commits_of good = Some commits ->
  load_commits_from_jsonl mapping_error decode_error
    (hits_jsonl (map Scanner.HitEntry good
                 ++ Scanner.ErrorEntry o r err :: rest))
  = Scanner.LoadRaises (lit "TypeError")
      (lit "CommitInfo.__init__() got an unexpected keyword argument 'error'").
Proof.
  intros H. unfold load_commits_from_jsonl.
  rewrite readlines_hits_jsonl, map_app.
  etransitivity; [exact (@load_hit_lines good commits _ H)|].
  cbn [map load_lines].
  rewrite dumps_line_nonblank, loads_dumps. cbn [entry_object].
  rewrite make_commit_error. reflexivity.
Qed.

End JsonlFacts.

Lemma hits_jsonl_is_read_back_witness :
  Jsonl.load_commits_from_jsonl (fun _ => []) (fun _ => [])
    (Jsonl.hits_jsonl [Scanner.HitEntry ScanScenario.hit_B])
  = Scanner.Loaded [Scenario.hit_B].
Proof.
  apply (@hits_jsonl_is_read_back (fun _ => []) (fun _ => [])
           [ScanScenario.hit_B] [Scenario.hit_B]).
  reflexivity.
Defined.

Lemma error_entry_stops_jsonl_loader_witness :
  Jsonl.load_commits_from_jsonl (fun _ => []) (fun _ => [])
    (Jsonl.hits_jsonl
       [Scanner.HitEntry ScanScenario.hit_B;
        Scanner.ErrorEntry (lit "o") (lit "r")
          (ScanScenario.bad_json
           ++ lit ": Expecting value: line 1 column 1 (char 0)");
        Scanner.HitEntry ScanScenario.hit_B])
  = Scanner.LoadRaises (lit "TypeError")
      (lit "CommitInfo.__init__() got an unexpected keyword argument 'error'").
Proof.
  apply (@error_entry_stops_jsonl_loader (fun _ => []) (fun _ => [])
           [ScanScenario.hit_B] [Scenario.hit_B] (lit "o") (lit "r")
           (ScanScenario.bad_json
            ++ lit ": Expecting value: line 1 column 1 (char 0)")
           [Scanner.HitEntry ScanScenario.hit_B]).
  reflexivity.
Defined.

(** ** The scan of one index document *)
Section ScanFacts.
Set Warnings "-notation-for-abbreviation".
Import Json Pathlib WorkflowScan WorkflowScanSpec.

Variable world : Type.
Variable exists_ : text -> world -> outcome bool.
Variable read_bytes : text -> world -> outcome (list N).
Variable inflate : list N -> outcome (list N).
Variable mkdir : text -> world -> outcome unit * world.
Variable write_text : text -> text -> world -> outcome unit * world.
Variable search : text -> text -> bool.
Variable nonzero : text -> bool.
Variable str_of : json -> text.
Variable repr_of : text -> text.
Variable decode_error : list N -> text.
Variable json_error : text -> text.
Variable root : pure_path.
Variable diffs_dir : pure_path.
Variable patterns : list text.

Local Notation scan_commit :=
  (scan_commit exists_ read_bytes inflate mkdir write_text search nonzero
     str_of repr_of root diffs_dir patterns).
Local Notation scan_commits :=
  (scan_commits exists_ read_bytes inflate mkdir write_text search nonzero
     str_of repr_of root diffs_dir patterns).
Local Notation scan :=
  (scan_repo_workflow_json exists_ read_bytes inflate mkdir write_text search
     nonzero str_of repr_of decode_error json_error root diffs_dir patterns).
Local Notation write_diff :=
  (write_diff mkdir write_text nonzero str_of repr_of diffs_dir).
Local Notation locate := (locate exists_ repr_of root).
Local Notation previous := (previous exists_ repr_of root).
Local Notation read_if_exists := (read_if_exists exists_ read_bytes inflate).
Local Notation read_document :=
  (read_document read_bytes decode_error json_error).

(** *** Steps *)

Lemma bind_returns (A B : Type) (m : action world A)
  (k : A -> action world B) st b st' :
  bind m k st = (Returns b, st') ->
  exists a st1, m st = (Returns a, st1) /\ k a st1 = (Returns b, st').
Proof.
  unfold bind. destruct (m st) as [[a|cls msg] st1]; intros H.
  - exists a, st1. split; [reflexivity | exact H].
  - discriminate.
Qed.

Lemma bind_raises (A B : Type) (m : action world A)
  (k : A -> action world B) st cls msg st1 :
  m st = (Raises cls msg, st1) -> bind m k st = (Raises cls msg, st1).
Proof. unfold bind. intros ->. reflexivity. Qed.

Lemma bind_step (A B : Type) (m : action world A)
  (k : A -> action world B) st a st1 :
  m st = (Returns a, st1) -> bind m k st = k a st1.
Proof. unfold bind. intros ->. reflexivity. Qed.

Lemma quiet_ret (A : Type) (a : A) : quiet (ret (world := world) a).
Proof. intros st. reflexivity. Qed.

Lemma quiet_lift (A : Type) (o : outcome A) : quiet (lift (world := world) o).
Proof. intros st. reflexivity. Qed.

Lemma quiet_bind (A B : Type) (m : action world A) (k : A -> action world B) :
  quiet m -> (forall a, quiet (k a)) -> quiet (bind m k).
Proof.
  intros Hm Hk st. unfold bind.
  pose proof (Hm st) as E. destruct (m st) as [[a|cls msg] st1]; cbn in E; subst st1.
  - apply Hk.
  - reflexivity.
Qed.

Lemma quiet_path_exists (p : pure_path) : quiet (path_exists exists_ p).
Proof. intros st. reflexivity. Qed.

Lemma quiet_read_text (p : pure_path) : quiet (read_text read_bytes inflate p).
Proof. intros st. reflexivity. Qed.

Lemma quiet_locate (p : pure_path) : quiet (locate p).
Proof.
  unfold WorkflowScan.locate. apply quiet_bind; [apply quiet_path_exists|].
  intros [|]; [apply quiet_ret|].
  apply quiet_bind; [apply quiet_lift|]. intros gz.
  apply quiet_bind; [apply quiet_path_exists|]. intros e. apply quiet_ret.
Qed.

Lemma quiet_previous (next : option json) : quiet (previous next).
Proof.
  destruct next as [n|]; cbn [WorkflowScan.previous]; [|apply quiet_ret].
  apply quiet_bind; [apply quiet_lift|]. intros a.
  apply quiet_bind; [apply quiet_lift|]. intros b.
  apply quiet_bind; [apply quiet_lift|]. intros c.
  apply quiet_bind; [apply quiet_locate|]. intros d. apply quiet_ret.
Qed.

Lemma quiet_read_if_exists (p : option pure_path) : quiet (read_if_exists p).
Proof.
  destruct p as [p|]; cbn [WorkflowScan.read_if_exists]; [|apply quiet_ret].
  apply quiet_bind; [apply quiet_path_exists|].
  intros [|]; [apply quiet_read_text | apply quiet_ret].
Qed.

Lemma quiet_read_document (json_path : text) : quiet (read_document json_path).
Proof. intros st. reflexivity. Qed.

Lemma quiet_returns (A : Type) (m : action world A) st a st' :
  quiet m -> m st = (Returns a, st') -> st' = st.
Proof. intros Hq H. pose proof (Hq st) as E. rewrite H in E. exact E. Qed.

Lemma lift_returns (A : Type) (o : outcome A) (st : WorkflowScan.state world) a st' :
  lift o st = (Returns a, st') -> o = Returns a /\ st' = st.
Proof. unfold lift. intros H. inversion H. split; reflexivity. Qed.

Lemma ret_returns (A : Type) (x a : A) (st st' : WorkflowScan.state world) :
  ret x st = (Returns a, st') -> x = a /\ st' = st.
Proof. unfold ret. intros H. inversion H. split; reflexivity. Qed.

(** *** The keyword list *)

Lemma insert_not_nil (x : text) (l : list text) : insert x l <> [].
Proof.
  destruct l as [|y l]; cbn; [discriminate|].
  destruct (text_eqb x y); [discriminate|].
  destruct (text_ltb x y); discriminate.
Qed.

Lemma sorted_set_nil (l : list text) : sorted_set l = [] -> l = [].
Proof.
  destruct l as [|x l]; [reflexivity|]. cbn. intros H.
  exfalso. exact (insert_not_nil _ _ H).
Qed.

Lemma insert_In (x p : text) (l : list text) :
  In p (insert x l) <-> p = x \/ In p l.
Proof.
  induction l as [|y l IH]; cbn.
  - split; [intros [H|[]]; left; symmetry; exact H
           | intros [H|[]]; left; symmetry; exact H].
  - destruct (text_eqb x y) eqn:E.
    + apply text_eqb_eq in E. subst y. cbn. split; [tauto|].
      intros [H|H]; [left; symmetry; exact H | exact H].
    + destruct (text_ltb x y); cbn.
      * split; [intros [H|H]; [left; symmetry; exact H | right; exact H]
               | intros [H|H]; [left; symmetry; exact H | right; exact H]].
      * rewrite IH. tauto.
Qed.

Lemma sorted_set_In (p : text) (l : list text) :
  In p (sorted_set l) <-> In p l.
Proof.
  induction l as [|x l IH]; cbn; [tauto|].
  rewrite insert_In, IH. split; intros [H|H]; auto.
Qed.

Lemma text_ltb_trans (a b c : text) :
  text_ltb a b = true -> text_ltb b c = true -> text_ltb a c = true.
Proof.
  revert b c. induction a as [|x a IH]; intros [|y b] [|z c]; cbn;
    try discriminate; try reflexivity.
  intros H1 H2.
  apply orb_true_iff in H1. apply orb_true_iff in H2. apply orb_true_iff.
  destruct H1 as [H1|H1], H2 as [H2|H2].
  - left. apply N.ltb_lt in H1, H2. apply N.ltb_lt. lia.
  - apply andb_true_iff in H2. destruct H2 as [H2 _].
    apply N.eqb_eq in H2. subst z. left. exact H1.
  - apply andb_true_iff in H1. destruct H1 as [H1 _].
    apply N.eqb_eq in H1. subst y. left. exact H2.
  - apply andb_true_iff in H1. destruct H1 as [H1 H1'].
    apply andb_true_iff in H2. destruct H2 as [H2 H2'].
    apply N.eqb_eq in H1, H2. subst y z. right.
    rewrite N.eqb_refl. cbn. exact (IH _ _ H1' H2').
Qed.

Lemma text_ltb_total (a b : text) :
  text_eqb a b = false -> text_ltb a b = false -> text_ltb b a = true.
Proof.
  revert b. induction a as [|x a IH]; intros [|y b]; cbn;
    try discriminate; try reflexivity.
  intros H1 H2. apply orb_false_iff in H2. destruct H2 as [H2 H3].
  apply N.ltb_ge in H2.
  destruct (N.eqb_spec x y) as [E|E].
  - subst y. rewrite N.eqb_refl in *. cbn in *.
    rewrite (IH _ H1 H3). apply orb_true_r.
  - assert (L : (y <? x)%N = true) by (apply N.ltb_lt; lia).
    rewrite L. reflexivity.
Qed.

Lemma insert_increasing (x : text) (l : list text) :
  increasing l -> increasing (insert x l).
Proof.
  induction l as [|y l IH]; cbn [insert increasing].
  - intros _. split; [constructor | exact I].
  - intros [Hy Hl]. destruct (text_eqb x y) eqn:E; [split; assumption|].
    destruct (text_ltb x y) eqn:L.
    + cbn [increasing]. split; [|split; assumption].
      constructor; [exact L|].
      eapply Forall_impl; [|exact Hy]. cbn. intros z Hz.
      exact (text_ltb_trans _ _ _ L Hz).
    + cbn [increasing]. split; [|exact (IH Hl)].
      apply Forall_forall. intros z Hz. apply insert_In in Hz.
      destruct Hz as [Hz|Hz].
      * subst z. exact (text_ltb_total _ _ E L).
      * rewrite Forall_forall in Hy. exact (Hy z Hz).
Qed.

Lemma sorted_set_increasing (l : list text) : increasing (sorted_set l).
Proof.
  induction l as [|x l IH]; cbn; [exact I|].
  apply insert_increasing. exact IH.
Qed.

(** The list of line 81 is the sorted set of the patterns found. *)
Lemma matching_found (c : json) (ms : list text) :
  matching search patterns (member (lit "message") c (JString []))
  = Returns ms ->
  ms = sorted_set (found search patterns c).
Proof.
  unfold matching, found.
  destruct patterns as [|p ps] eqn:Ep.
  - intros H. inversion H.
    destruct (member (lit "message") c (JString [])); reflexivity.
  - destruct (member (lit "message") c (JString [])); try discriminate.
    intros H. inversion H. reflexivity.
Qed.

Lemma matching_selected (c : json) (ms : list text) :
  matching search patterns (member (lit "message") c (JString []))
  = Returns ms ->
  selected search patterns c = match ms with [] => false | _ :: _ => true end.
Proof.
  intros H. apply matching_found in H. subst ms. unfold selected.
  destruct (found search patterns c) as [|x l] eqn:E; [reflexivity|].
  destruct (sorted_set (x :: l)) as [|y l'] eqn:E'; [|reflexivity].
  apply sorted_set_nil in E'. discriminate.
Qed.

Lemma matching_keywords (msg : json) (m0 : text) (ms : list text) :
  matching search patterns msg = Returns (m0 :: ms) ->
  exists m,
    msg = JString m
    /\ increasing (m0 :: ms)
    /\ forall p, In p (m0 :: ms) <-> In p patterns /\ search p m = true.
Proof.
  unfold matching. destruct patterns as [|p ps] eqn:Ep; [discriminate|].
  destruct msg as [| | |m| |]; try discriminate.
  intros H. injection H as E. exists m. split; [reflexivity|].
  rewrite <- E. split; [apply sorted_set_increasing|].
  intros q. rewrite sorted_set_In.
  exact (filter_In (fun p0 => search p0 m) q (p :: ps)).
Qed.

(** *** One patch *)

Lemma write_diff_returns (org0 repo0 wp sha prev : json) (old_text new_text : text)
  (st st' : WorkflowScan.state world) (r : option text) :
  write_diff org0 repo0 wp sha prev old_text new_text st = (Returns r, st') ->
  match r with
  | None => st' = st /\ (new_text = [] \/ old_text = [])
  | Some t =>
      old_text <> [] /\ new_text <> []
      /\ exists o rp leaf rel,
          org0 = JString o /\ repo0 = JString rp
          /\ wf_leaf nonzero wp = Returns leaf
          /\ relative_to repr_of
               (patch_path diffs_dir o rp leaf
                  (py_str str_of sha ++ lit ".patch"))
               (parent diffs_dir) = Returns rel
          /\ t = to_text rel
          /\ snd st'
             = snd st
               ++ [(to_text (patch_path diffs_dir o rp leaf
                               (py_str str_of sha ++ lit ".patch")),
                    DiffGenerator.unified_diff_text old_text new_text
                      (py_str str_of wp ++ lit "@"
                       ++ (if truthy nonzero prev then py_str str_of prev
                           else lit "NA"))
                      (py_str str_of wp ++ lit "@" ++ py_str str_of sha))]
  end.
Proof.
  unfold WorkflowScan.write_diff.
  destruct new_text as [|a new_text]; cbn [is_empty negb andb].
  { intros H. apply ret_returns in H. destruct H as [<- ->].
    split; [reflexivity | left; reflexivity]. }
  destruct old_text as [|b old_text]; cbn [is_empty negb andb].
  { intros H. apply ret_returns in H. destruct H as [<- ->].
    split; [reflexivity | right; reflexivity]. }
  intros H.
  apply bind_returns in H. destruct H as (leaf & s1 & H1 & H).
  apply lift_returns in H1. destruct H1 as [Hleaf ->].
  apply bind_returns in H. destruct H as (org_dir & s1 & H1 & H).
  apply lift_returns in H1. destruct H1 as [Horg ->].
  apply bind_returns in H. destruct H as (repo_dir & s1 & H1 & H).
  apply lift_returns in H1. destruct H1 as [Hrepo ->].
  apply bind_returns in H. destruct H as ([] & s1 & H1 & H).
  apply bind_returns in H. destruct H as ([] & s2 & H2 & H).
  apply bind_returns in H. destruct H as (rel & s3 & H3 & H).
  apply lift_returns in H3. destruct H3 as [Hrel ->].
  apply ret_returns in H. destruct H as [<- ->].
  destruct org0 as [| | |o| |]; try discriminate.
  cbn [div] in Horg. inversion Horg as [Eo]. subst org_dir.
  destruct repo0 as [| | |rp| |]; try discriminate.
  cbn [div] in Hrepo. inversion Hrepo as [Er]. subst repo_dir.
  split; [discriminate|]. split; [discriminate|].
  exists o, rp, leaf, rel.
  split; [reflexivity|]. split; [reflexivity|]. split; [exact Hleaf|].
  split; [exact Hrel|]. split; [reflexivity|].
  unfold make_dirs in H1.
  destruct (mkdir _ (fst st)) as [r1 w1]. inversion H1. subst s1 r1.
  unfold write in H2. cbn [fst snd] in H2.
  destruct (write_text _ _ w1) as [r2 w2]. inversion H2. subst s2 r2.
  reflexivity.
Qed.

(** *** One turn of the loop *)

Lemma previous_returns (next : option json) (st st' : WorkflowScan.state world)
  (prev : json * option pure_path) :
  previous next st = (Returns prev, st') ->
  match next with
  | None => prev = (JNull, None)
  | Some n => fst prev = member (lit "sha") n JNull /\ snd prev <> None
  end.
Proof.
  destruct next as [n|]; cbn [WorkflowScan.previous]; intros H.
  - apply bind_returns in H. destruct H as (a & s1 & H1 & H).
    apply lift_returns in H1. destruct H1 as [Ha ->].
    apply bind_returns in H. destruct H as (b & s1 & H1 & H).
    apply bind_returns in H. destruct H as (c & s2 & H2 & H).
    apply bind_returns in H. destruct H as (d & s3 & H3 & H).
    apply ret_returns in H. destruct H as [<- _]. cbn [fst snd].
    split; [|discriminate].
    destruct n; try discriminate. cbn in Ha. inversion Ha. reflexivity.
  - apply ret_returns in H. destruct H as [<- _]. reflexivity.
Qed.

Lemma read_nothing (st st' : WorkflowScan.state world) (s : text) :
  read_if_exists None st = (Returns s, st') -> s = [].
Proof.
  cbn [WorkflowScan.read_if_exists]. intros H.
  apply ret_returns in H. destruct H as [<- _]. reflexivity.
Qed.

(** What a turn leaves behind: a commit without a pattern in its message is
    skipped and nothing is touched; for a hit, the entry and what was
    written. *)
Lemma scan_commit_returns (org0 repo0 wp c : json) (next : option json)
  (st st' : WorkflowScan.state world) (r : option hit) :
  scan_commit org0 repo0 wp c next st = (Returns r, st') ->
  match r with
  | None => selected search patterns c = false /\ st' = st
  | Some h =>
      selected search patterns c = true
      /\ (exists raw,
             org h = org0 /\ repo h = repo0 /\ workflow_path h = wp
             /\ commit_sha h = member (lit "sha") c JNull
             /\ commit_date h = member (lit "date") c JNull
             /\ message h = member (lit "message") c (JString [])
             /\ member (lit "raw_snapshot_relpath") c JNull = JString raw
             /\ snapshot_relpath h = to_text (Resolver.normalize_relpath raw))
      /\ keywords_of_message search patterns h
      /\ match next with
         | Some n => prev_sha h = member (lit "sha") n JNull
         | None => prev_sha h = JNull /\ diff_relpath h = None
         end
      /\ match diff_relpath h with
         | None => st' = st
         | Some _ =>
             exists call,
               snd st' = snd st ++ [call]
               /\ written_for nonzero str_of repr_of diffs_dir call h
         end
  end.
Proof.
  unfold WorkflowScan.scan_commit. intros H.
  apply bind_returns in H. destruct H as (msg & s1 & H1 & H).
  apply lift_returns in H1. destruct H1 as [Hmsg ->].
  assert (Hc : exists kv, c = JObject kv).
  { destruct c; try discriminate. eexists. reflexivity. }
  destruct Hc as [kv ->]. cbn [dict_get] in Hmsg. inversion Hmsg as [Em].
  clear Hmsg. subst msg.
  apply bind_returns in H. destruct H as (matches & s1 & H1 & H).
  apply lift_returns in H1. destruct H1 as [Hmatch ->].
  pose proof (matching_selected (JObject kv) Hmatch) as Hsel.
  destruct matches as [|m0 ms].
  { apply ret_returns in H. destruct H as [<- ->]. split; [exact Hsel|reflexivity]. }
  apply bind_returns in H. destruct H as (sha & s1 & H1 & H).
  apply lift_returns in H1. destruct H1 as [Hsha ->].
  apply bind_returns in H. destruct H as (date & s1 & H1 & H).
  apply lift_returns in H1. destruct H1 as [Hdate ->].
  apply bind_returns in H. destruct H as (raw_rel & s1 & H1 & H).
  apply lift_returns in H1. destruct H1 as [Hraw ->].
  apply bind_returns in H. destruct H as (rel_path & s1 & H1 & H).
  apply lift_returns in H1. destruct H1 as [Hrel ->].
  apply bind_returns in H. destruct H as (curr_path & s1 & H1 & H).
  apply (@quiet_returns _ _ _ _ _ (quiet_locate _)) in H1. subst s1.
  apply bind_returns in H. destruct H as (prev & s1 & H1 & H).
  pose proof (@quiet_returns _ _ _ _ _ (quiet_previous _) H1) as E1. subst s1.
  apply previous_returns in H1.
  apply bind_returns in H. destruct H as (new_text & s1 & H2 & H).
  apply (@quiet_returns _ _ _ _ _ (quiet_read_if_exists _)) in H2. subst s1.
  apply bind_returns in H. destruct H as (old_text & s1 & H3 & H).
  pose proof (@quiet_returns _ _ _ _ _ (quiet_read_if_exists _) H3) as E3. subst s1.
  apply bind_returns in H. destruct H as (diff_file_rel & s1 & H4 & H).
  apply ret_returns in H. destruct H as [<- ->].
  cbn [dict_get] in Hsha, Hdate, Hraw.
  inversion Hsha as [Esha]. inversion Hdate as [Edate].
  inversion Hraw as [Eraw]. clear Hsha Hdate Hraw. subst sha date raw_rel.
  cbn [org repo workflow_path commit_sha commit_date matched_keywords message
       snapshot_relpath prev_sha diff_relpath].
  split; [exact Hsel|].
  assert (Hrawtext : exists raw,
             get (lit "raw_snapshot_relpath") kv JNull = JString raw
             /\ rel_path = Resolver.normalize_relpath raw).
  { destruct (get (lit "raw_snapshot_relpath") kv JNull);
      try discriminate.
    cbn [WorkflowScan.normalize_relpath] in Hrel. inversion Hrel.
    eexists. split; reflexivity. }
  destruct Hrawtext as (raw & Hrawtext & Erel).
  split.
  { exists raw. cbn [member]. rewrite Erel.
    repeat split; try reflexivity. exact Hrawtext. }
  split.
  { destruct (matching_keywords _ Hmatch) as (m & Hm & Hinc & Hin).
    exists m. cbn [matched_keywords message].
    split; [exact Hm|]. split; [discriminate|]. split; assumption. }
  apply write_diff_returns in H4.
  split.
  { destruct next as [n|].
    - destruct H1 as [H1 _]. exact H1.
    - subst prev. cbn [fst snd] in *. split; [reflexivity|].
      apply read_nothing in H3. subst old_text.
      destruct diff_file_rel as [t|]; [|reflexivity].
      destruct H4 as [H4 _]. exfalso. apply H4. reflexivity. }
  destruct diff_file_rel as [t|]; [|destruct H4 as [H4 _]; exact H4].
  destruct H4 as (Hold & Hnew & o & rp & leaf & rel & Ho & Hr & Hleaf & Hrelto
                  & Ht & Hlog).
  eexists. split; [exact Hlog|].
  exists (patch_path diffs_dir o rp leaf
            (py_str str_of (get (lit "sha") kv JNull) ++ lit ".patch")),
    old_text, new_text.
  split.
  { exists o, rp, leaf, rel.
    cbn [org repo workflow_path commit_sha diff_relpath].
    repeat split; try assumption; try reflexivity. rewrite Ht. reflexivity. }
  cbn [fst snd]. unfold fromfile, tofile.
  cbn [workflow_path prev_sha commit_sha].
  repeat split; try assumption; reflexivity.
Qed.

(** *** The loop *)

Lemma filter_map_S (f : nat -> bool) (l : list nat) :
  filter f (map S l) = map S (filter (fun i => f (S i)) l).
Proof.
  induction l as [|i l IH]; cbn; [reflexivity|].
  rewrite IH. destruct (f (S i)); reflexivity.
Qed.

Lemma hit_positions_cons (c : json) (rest : list json) :
  hit_positions search patterns (c :: rest)
  = (if selected search patterns c then [0] else [])
    ++ map S (hit_positions search patterns rest).
Proof.
  unfold hit_positions. cbn [List.length seq filter nth].
  rewrite <- seq_shift, filter_map_S. cbn [nth].
  destruct (selected search patterns c); reflexivity.
Qed.

Lemma Forall2_map_S (P Q : nat -> hit -> Prop) (l : list nat)
  (hits : list hit) :
  (forall i h, P i h -> Q (S i) h) ->
  Forall2 P l hits -> Forall2 Q (map S l) hits.
Proof.
  intros HPQ H. induction H as [|i h l hits Hih _ IH]; cbn; constructor.
  - apply HPQ. exact Hih.
  - exact IH.
Qed.

Lemma scan_commits_returns (org0 repo0 wp : json) (items : list json)
  (st st' : WorkflowScan.state world) (hits : list hit) :
  scan_commits org0 repo0 wp items st = (Returns hits, st') ->
  Forall2 (fun i h =>
             taken_from org0 repo0 wp items i h
             /\ preceded_by_next items i h
             /\ keywords_of_message search patterns h)
    (hit_positions search patterns items) hits
  /\ (exists calls,
         snd st' = snd st ++ calls
         /\ Forall2 (written_for nonzero str_of repr_of diffs_dir) calls
              (filter has_diff hits))
  /\ (Forall (fun h => diff_relpath h = None) hits -> st' = st).
Proof.
  revert st st' hits. induction items as [|c rest IH]; intros st st' hits H.
  - cbn [WorkflowScan.scan_commits] in H. apply ret_returns in H.
    destruct H as [<- ->]. split; [constructor|]. split.
    + exists []. rewrite app_nil_r. split; [reflexivity | constructor].
    + reflexivity.
  - cbn [WorkflowScan.scan_commits] in H.
    apply bind_returns in H. destruct H as (r & s1 & H1 & H).
    apply bind_returns in H. destruct H as (results & s2 & H2 & H).
    apply ret_returns in H. destruct H as [<- ->].
    apply scan_commit_returns in H1.
    destruct (IH _ _ _ H2) as (IHa & (calls & IHlog & IHcalls) & IHq).
    assert (Hrest : Forall2 (fun i h =>
                       taken_from org0 repo0 wp (c :: rest) i h
                       /\ preceded_by_next (c :: rest) i h
                       /\ keywords_of_message search patterns h)
                      (map S (hit_positions search patterns rest)) results).
    { eapply Forall2_map_S; [|exact IHa]. cbn beta.
      intros i h (Ha & Hb & Hc). split; [|split; [|exact Hc]].
      - destruct Ha as (c0 & raw & Hn & Ha). exists c0, raw.
        split; [exact Hn | exact Ha].
      - exact Hb. }
    rewrite hit_positions_cons.
    destruct r as [h|].
    + destruct H1 as (Hsel & (raw & Hfields) & Hkw & Hnext & Heff).
      rewrite Hsel. cbn [app]. split; [|split].
      * constructor; [|exact Hrest]. split; [|split; [|exact Hkw]].
        -- exists c, raw. split; [reflexivity | exact Hfields].
        -- unfold preceded_by_next. cbn [nth_error].
           destruct rest as [|n rest']; exact Hnext.
      * cbn [filter]. unfold has_diff at 1.
        destruct (diff_relpath h) as [t|].
        -- destruct Heff as (call & Hlog & Hcall).
           exists (call :: calls). split.
           ++ rewrite IHlog, Hlog, <- app_assoc. reflexivity.
           ++ constructor; assumption.
        -- subst s1. exists calls. split; assumption.
      * intros Hall. inversion Hall as [|h0 l0 Hh Hl]. subst h0 l0.
        rewrite Hh in Heff. subst s1. exact (IHq Hl).
    + destruct H1 as [Hsel ->]. rewrite Hsel. cbn [app].
      split; [exact Hrest|]. split; [|exact IHq].
      exists calls. split; assumption.
Qed.

(** The document, its commit list and the loop *)
Lemma scan_returns (json_path : text) (st st' : WorkflowScan.state world)
  (hits : list hit) :
  scan json_path st = (Returns hits, st') ->
  exists doc items,
    fst (read_document json_path st) = Returns (JObject doc)
    /\ iterate (get (lit "commits") doc (JList [])) = Returns items
    /\ scan_commits (get (lit "org") doc JNull) (get (lit "repo") doc JNull)
         (get (lit "workflow_path") doc JNull) items st
       = (Returns hits, st').
Proof.
  unfold WorkflowScan.scan_repo_workflow_json. intros H.
  apply bind_returns in H. destruct H as (data & s1 & H1 & H).
  pose proof (@quiet_returns _ _ _ _ _ (quiet_read_document _) H1) as E.
  subst s1.
  apply bind_returns in H. destruct H as (org0 & s1 & H2 & H).
  apply lift_returns in H2. destruct H2 as [Horg ->].
  destruct data as [| | | | |doc]; try discriminate.
  apply bind_returns in H. destruct H as (repo0 & s1 & H2 & H).
  apply lift_returns in H2. destruct H2 as [Hrepo ->].
  apply bind_returns in H. destruct H as (wp & s1 & H2 & H).
  apply lift_returns in H2. destruct H2 as [Hwp ->].
  apply bind_returns in H. destruct H as (commits & s1 & H2 & H).
  apply lift_returns in H2. destruct H2 as [Hcommits ->].
  apply bind_returns in H. destruct H as (items & s1 & H2 & H).
  apply lift_returns in H2. destruct H2 as [Hitems ->].
  cbn [dict_get] in Horg, Hrepo, Hwp, Hcommits.
  inversion Horg. inversion Hrepo. inversion Hwp. inversion Hcommits.
  subst org0 repo0 wp commits.
  exists doc, items. rewrite H1. cbn [fst].
  split; [reflexivity|]. split; [exact Hitems | exact H].
Qed.

Lemma scan_of_document (json_path : text) (st st' : WorkflowScan.state world)
  (hits : list hit) (doc : list (text * json)) (items : list json) :
  fst (read_document json_path st) = Returns (JObject doc) ->
  iterate (get (lit "commits") doc (JList [])) = Returns items ->
  scan json_path st = (Returns hits, st') ->
  scan_commits (get (lit "org") doc JNull) (get (lit "repo") doc JNull)
    (get (lit "workflow_path") doc JNull) items st
  = (Returns hits, st').
Proof.
  intros Hdoc Hitems H. apply scan_returns in H.
  destruct H as (doc' & items' & Hdoc' & Hitems' & H).
  rewrite Hdoc in Hdoc'. inversion Hdoc'. subst doc'.
  rewrite Hitems in Hitems'. inversion Hitems'. subst items'. exact H.
Qed.

Lemma Forall2_weaken (P Q : nat -> hit -> Prop) (l : list nat)
  (hits : list hit) :
  (forall i h, P i h -> Q i h) -> Forall2 P l hits -> Forall2 Q l hits.
Proof.
  intros HPQ H. induction H; constructor; auto.
Qed.

Lemma Forall2_right (A : Type) (P : A -> hit -> Prop) (Q : hit -> Prop)
  (l : list A) (hits : list hit) :
  (forall i h, P i h -> Q h) -> Forall2 P l hits -> Forall Q hits.
Proof.
  intros HPQ H. induction H; constructor; eauto.
Qed.

(** When the scan of an index document returns, its hits are, in the
    order of the commit list, the commits whose message contains one of the
    patterns, one hit for each; a hit carries the [org], the [repo] and the
    [workflow_path] of the document, the [sha], the [date] and the
    [message] of its commit, and as [snapshot_relpath] the normalised text
    of the commit's [raw_snapshot_relpath], which is a string. *)
Theorem hits_follow_the_commit_list (json_path : text)
  (st st' : WorkflowScan.state world) (hits : list hit)
  (doc : list (text * json)) (items : list json) :
  fst (read_document json_path st) = Returns (JObject doc) ->
  iterate (get (lit "commits") doc (JList [])) = Returns items ->
  scan json_path st = (Returns hits, st') ->
  Forall2
    (taken_from (get (lit "org") doc JNull) (get (lit "repo") doc JNull)
       (get (lit "workflow_path") doc JNull) items)
    (hit_positions search patterns items) hits.
Proof.
  intros Hdoc Hitems H.
  apply (scan_of_document _ _ Hdoc Hitems) in H.
  apply scan_commits_returns in H. destruct H as [H _].
  eapply Forall2_weaken; [|exact H]. cbn beta. intros i h [Ha _]. exact Ha.
Qed.

(** The predecessor recorded in a hit is the commit that follows it in
    the commit list: [prev_sha] is the [sha] of the commit at the next
    position, whether or not that one is a hit; the hit of the last commit
    of the list has [prev_sha] [None] and no diff. *)
Theorem predecessor_is_the_next_commit (json_path : text)
  (st st' : WorkflowScan.state world) (hits : list hit)
  (doc : list (text * json)) (items : list json) :
  fst (read_document json_path st) = Returns (JObject doc) ->
  iterate (get (lit "commits") doc (JList [])) = Returns items ->
  scan json_path st = (Returns hits, st') ->
  Forall2 (preceded_by_next items) (hit_positions search patterns items) hits.
Proof.
  intros Hdoc Hitems H.
  apply (scan_of_document _ _ Hdoc Hitems) in H.
  apply scan_commits_returns in H. destruct H as [H _].
  eapply Forall2_weaken; [|exact H]. cbn beta. intros i h (_ & Hb & _).
  exact Hb.
Qed.

(** In every hit the message is a string and [matched_keywords] is
    not empty, strictly ascending in the order of the code points (so
    without duplicates), and holds exactly the pattern sources that are
    found in the message. *)
Theorem keywords_are_the_patterns_found (json_path : text)
  (st st' : WorkflowScan.state world) (hits : list hit) :
  scan json_path st = (Returns hits, st') ->
  Forall (keywords_of_message search patterns) hits.
Proof.
  intros H. apply scan_returns in H.
  destruct H as (doc & items & _ & _ & H).
  apply scan_commits_returns in H. destruct H as [H _].
  eapply Forall2_right; [|exact H]. cbn beta. intros i h (_ & _ & Hc).
  exact Hc.
Qed.

(** When the scan returns, the calls of [write_text] it has made are,
    in order, one for each hit that has a [diff_relpath]: the file written
    is [diffs_dir / org / repo / leaf / "<sha>.patch"], [diff_relpath] is
    its path relative to the parent of [diffs_dir], and the text is the
    unified diff of two snapshot texts that are not empty, labelled
    [workflow_path@prev_sha] and [workflow_path@sha]; if no hit has a
    [diff_relpath], the scan has left the file system as it was. *)
Theorem patches_are_those_of_the_hits (json_path : text)
  (st st' : WorkflowScan.state world) (hits : list hit) :
  scan json_path st = (Returns hits, st') ->
  (exists calls,
      snd st' = snd st ++ calls
      /\ Forall2 (written_for nonzero str_of repr_of diffs_dir) calls
           (filter has_diff hits))
  /\ (Forall (fun h => diff_relpath h = None) hits -> st' = st).
Proof.
  intros H. apply scan_returns in H.
  destruct H as (doc & items & _ & _ & H).
  apply scan_commits_returns in H. destruct H as (_ & Hb & Hc).
  split; assumption.
Qed.

(** *** A commit without snapshot path *)

Lemma selected_matching (kv : list (text * json)) :
  selected search patterns (JObject kv) = true ->
  exists m0 ms,
    matching search patterns (get (lit "message") kv (JString []))
    = Returns (m0 :: ms).
Proof.
  unfold selected, found. cbn [member].
  unfold matching.
  destruct (get (lit "message") kv (JString [])) as [| | |m| |];
    try discriminate.
  destruct patterns as [|p ps]; [discriminate|].
  destruct (filter (fun p0 => search p0 m) (p :: ps)) as [|x l] eqn:E;
    [discriminate|].
  intros _. destruct (sorted_set (x :: l)) as [|m0 ms] eqn:E'.
  - apply sorted_set_nil in E'. discriminate.
  - exists m0, ms. reflexivity.
Qed.

Lemma scan_commit_without_path (org0 repo0 wp c : json) (next : option json)
  (st : WorkflowScan.state world) :
  selected search patterns c = true ->
  (forall raw, member (lit "raw_snapshot_relpath") c JNull <> JString raw) ->
  exists cls msg, scan_commit org0 repo0 wp c next st = (Raises cls msg, st).
Proof.
  intros Hsel Hraw. unfold WorkflowScan.scan_commit.
  destruct c as [| | | | |kv];
    try (eexists; eexists; unfold bind, lift; cbn; reflexivity).
  destruct (selected_matching kv Hsel) as (m0 & ms & Hm).
  unfold bind at 1. unfold lift at 1. cbn [dict_get].
  unfold bind at 1. unfold lift at 1. rewrite Hm.
  unfold bind at 1. unfold lift at 1.
  unfold bind at 1. unfold lift at 1.
  unfold bind at 1. unfold lift at 1.
  unfold bind at 1. unfold lift at 1.
  cbn [member] in Hraw.
  destruct (get (lit "raw_snapshot_relpath") kv JNull) as [| | |raw| |];
    cbn [WorkflowScan.normalize_relpath]; try (eexists; eexists; reflexivity).
  exfalso. exact (Hraw raw eq_refl).
Qed.

Lemma scan_commits_without_path (org0 repo0 wp c : json) (items : list json) :
  In c items ->
  selected search patterns c = true ->
  (forall raw, member (lit "raw_snapshot_relpath") c JNull <> JString raw) ->
  forall st,
    exists cls msg st1,
      scan_commits org0 repo0 wp items st = (Raises cls msg, st1).
Proof.
  intros Hin Hsel Hraw. induction items as [|x rest IH]; [destruct Hin|].
  intros st. cbn [WorkflowScan.scan_commits].
  destruct (scan_commit org0 repo0 wp x (hd_error rest) st)
    as [[r|cls msg] s1] eqn:E.
  - destruct Hin as [Hx|Hin].
    + subst x.
      destruct (@scan_commit_without_path org0 repo0 wp c (hd_error rest) st
                  Hsel Hraw) as (cls & msg & E').
      rewrite E' in E. discriminate.
    + destruct (IH Hin s1) as (cls & msg & st1 & E').
      exists cls, msg, st1.
      rewrite (@bind_step _ _ _ _ _ _ _ E). apply bind_raises. exact E'.
  - exists cls, msg, s1. apply bind_raises. exact E.
Qed.

(** A commit that has a pattern in its message but no
    [raw_snapshot_relpath] that is a string makes the scan of its document
    raise: no hit of the document is returned, whatever the other commits
    are. *)
Theorem commit_without_path_fails_the_document (json_path : text)
  (st : WorkflowScan.state world) (doc : list (text * json))
  (items : list json) (c : json) :
  fst (read_document json_path st) = Returns (JObject doc) ->
  iterate (get (lit "commits") doc (JList [])) = Returns items ->
  In c items ->
  selected search patterns c = true ->
  (forall raw, member (lit "raw_snapshot_relpath") c JNull <> JString raw) ->
  exists cls msg st1, scan json_path st = (Raises cls msg, st1).
Proof.
  intros Hdoc Hitems Hin Hsel Hraw.
  unfold WorkflowScan.scan_repo_workflow_json.
  destruct (read_document json_path st) as [r s1] eqn:E.
  pose proof (quiet_read_document json_path st) as Hq.
  rewrite E in Hq. cbn [snd] in Hq. subst s1.
  cbn [fst] in Hdoc. subst r.
  rewrite (@bind_step _ _ _ _ _ _ _ E).
  unfold bind at 1. unfold lift at 1. cbn [dict_get].
  unfold bind at 1. unfold lift at 1.
  unfold bind at 1. unfold lift at 1.
  unfold bind at 1. unfold lift at 1.
  unfold bind at 1. unfold lift at 1. rewrite Hitems.
  apply scan_commits_without_path with (c := c); assumption.
Qed.

(** *** The name of a patch *)

Lemma replace_one_char (a b : char) (s : text) :
  replace [a] [b] s = replace_char a b s.
Proof.
  unfold replace. induction s as [|c s IH]; [reflexivity|].
  cbn [replace_from startswith List.length Nat.sub replace_char map app].
  fold (replace_char a b s). rewrite andb_true_r, IH.
  rewrite (N.eqb_sym a c). destruct (c =? a)%N; reflexivity.
Qed.

Lemma replace_char_keeps_out (a b c : char) (s : text) :
  (a =? c)%N = false -> contains_char a s = false ->
  contains_char a (replace_char b c s) = false.
Proof.
  intros Hac. induction s as [|x s IH]; [reflexivity|].
  cbn [replace_char map contains_char existsb].
  fold (replace_char b c s). fold (contains_char a s).
  fold (contains_char a (replace_char b c s)).
  intros H. apply orb_false_iff in H. destruct H as [Hx Hs].
  rewrite (IH Hs). destruct (x =? b)%N; [rewrite Hac | rewrite Hx];
    reflexivity.
Qed.

Lemma wf_leaf_plain (wp : json) (leaf : text) :
  wf_leaf nonzero wp = Returns leaf ->
  contains_char sep leaf = false /\ contains_char bsep leaf = false.
Proof.
  unfold wf_leaf.
  destruct (if truthy nonzero wp then wp else JString (lit "workflow.yml"))
    as [| | |s| |]; try discriminate.
  intros H. injection H as <-.
  assert (E : replace_from (lit "\") (lit "_") 0
                (replace_from (lit "/") (lit "_") 0 s)
              = replace_char bsep 95%N (replace_char sep 95%N s)).
  { etransitivity; [exact (replace_one_char bsep 95%N _)|].
    f_equal. exact (replace_one_char sep 95%N s). }
  rewrite E. split.
  - apply replace_char_keeps_out; [reflexivity|].
    apply replace_char_removes. reflexivity.
  - apply replace_char_removes. reflexivity.
Qed.

Lemma relative_without_sep (s : text) :
  contains_char sep s = false -> startswith [sep] s = false.
Proof.
  destruct s as [|c s]; [reflexivity|].
  cbn [contains_char existsb startswith]. intros H.
  apply orb_false_iff in H. destruct H as [H _]. rewrite H. reflexivity.
Qed.

Lemma relative_app (s r : text) :
  r <> [] -> startswith [sep] r = false ->
  startswith [sep] s = false -> startswith [sep] (s ++ r) = false.
Proof.
  destruct s as [|c s]; cbn [app]; [intros _ H _; exact H|].
  intros _ _ H. exact H.
Qed.

Lemma drive_Path (args : list text) : drive (Path args) = [].
Proof.
  unfold Path, make. pose proof (parse_parts_posix_shape args) as H.
  destruct (parse_parts posix args) as [[d r] t]. destruct H as [H _].
  exact H.
Qed.

Lemma parse_relative (a : text) (rest : list text) (t2 : list text) :
  startswith [sep] a = false ->
  parse_parts posix rest = ([], [], t2) ->
  parse_parts posix (a :: rest) = ([], [], rel_parts sep a ++ t2).
Proof.
  intros Ha Hrest. cbn [parse_parts]. rewrite Hrest.
  destruct a as [|c a]; [reflexivity|]. cbn [is_empty].
  cbn [splitroot posix normalise_altsep altsep fsep].
  rewrite (posix_splitroot_relative _ Ha). reflexivity.
Qed.

Lemma Path_relative (args : list text) :
  Forall (fun a => startswith [sep] a = false) args ->
  Path args
  = {| drive := []; Pathlib.root := [];
       tail := flat_map (rel_parts sep) args |}.
Proof.
  intros H. unfold Path, make.
  assert (E : parse_parts posix args
              = ([], [], flat_map (rel_parts sep) args)).
  { induction H as [|a rest Ha _ IH]; [reflexivity|].
    cbn [flat_map]. apply parse_relative; assumption. }
  rewrite E. reflexivity.
Qed.

Lemma joinpath_relative (p : pure_path) (a : text) :
  startswith [sep] a = false ->
  joinpath p (Path [a])
  = {| drive := drive p; Pathlib.root := Pathlib.root p;
       tail := tail p ++ rel_parts sep a |}.
Proof.
  intros Ha. rewrite (@Path_relative [a]).
  - unfold joinpath. cbn [Pathlib.root tail is_empty negb flat_map].
    rewrite app_nil_r. reflexivity.
  - constructor; [exact Ha | constructor].
Qed.

Lemma parts_eqb_refl (l : list text) : parts_eqb l l = true.
Proof.
  unfold parts_eqb. rewrite Nat.eqb_refl. cbn [andb].
  induction l as [|x l IH]; [reflexivity|].
  cbn [combine forallb fst snd]. rewrite text_eqb_refl, IH. reflexivity.
Qed.

Lemma relative_to_below (p0 : pure_path) (more : list text) :
  drive p0 = [] ->
  relative_to repr_of
    {| drive := []; Pathlib.root := Pathlib.root p0;
       tail := tail p0 ++ more |} p0
  = Returns {| drive := []; Pathlib.root := []; tail := more |}.
Proof.
  destruct p0 as [d r t]. cbn [drive Pathlib.root tail]. intros ->.
  unfold relative_to, abs_parts, parts. cbn [drive Pathlib.root tail].
  destruct r as [|c r]; cbn [is_empty andb negb].
  - destruct t as [|x t].
    + cbn [List.length app is_empty andb negb skipn Nat.eqb]. reflexivity.
    + cbn [List.length]. rewrite firstn_app.
      change (S (List.length t)) with (List.length (x :: t)).
      rewrite Nat.sub_diag, firstn_all, firstn_O, app_nil_r.
      rewrite parts_eqb_refl. cbn [negb].
      rewrite skipn_app, Nat.sub_diag, skipn_all. cbn [app skipn].
      destruct t; reflexivity.
  - change ([] :: (c :: r) :: t ++ more)
      with (([] :: (c :: r) :: t) ++ more).
    rewrite firstn_app, Nat.sub_diag, firstn_all, firstn_O, app_nil_r.
    rewrite parts_eqb_refl. cbn [negb].
    rewrite skipn_app, Nat.sub_diag, skipn_all. cbn [app skipn].
    cbn [List.length Nat.eqb]. reflexivity.
Qed.

Lemma parent_of_child (p : pure_path) (x : text) :
  parent {| drive := drive p; Pathlib.root := Pathlib.root p;
            tail := tail p ++ [x] |} = p.
Proof.
  destruct p as [d r t]. unfold parent. cbn [drive Pathlib.root tail].
  rewrite removelast_last. reflexivity.
Qed.

(** The patch of [org], [repo], [leaf] and [fname] under [out / "diffs"],
    seen from [out]. *)
Lemma patch_path_relative (out o r leaf fname : text) :
  startswith [sep] o = false -> startswith [sep] r = false ->
  startswith [sep] leaf = false -> startswith [sep] fname = false ->
  relative_to repr_of
    (patch_path (joinpath (Path [out]) (Path [lit "diffs"])) o r leaf fname)
    (parent (joinpath (Path [out]) (Path [lit "diffs"])))
  = Returns (Path [lit "diffs"; o; r; leaf; fname]).
Proof.
  intros Ho Hr Hl Hf. unfold patch_path.
  rewrite (@joinpath_relative (Path [out]) (lit "diffs") eq_refl).
  change (rel_parts sep (lit "diffs")) with [lit "diffs"].
  rewrite parent_of_child.
  rewrite (@joinpath_relative _ _ Ho), (@joinpath_relative _ _ Hr),
    (@joinpath_relative _ _ Hl), (@joinpath_relative _ _ Hf).
  cbn [drive Pathlib.root tail]. rewrite drive_Path.
  rewrite <- !app_assoc.
  rewrite (@relative_to_below (Path [out]) _ (drive_Path [out])).
  rewrite (@Path_relative [lit "diffs"; o; r; leaf; fname]).
  - cbn [flat_map]. rewrite app_nil_r.
    change (rel_parts sep (lit "diffs")) with [lit "diffs"]. reflexivity.
  - repeat constructor; assumption.
Qed.

(** With [diffs_dir] the directory [diffs] of the output directory, a
    hit has a [diff_relpath] only if [org] and [repo] are strings and
    [workflow_path] is a string or a false value; unless [org], [repo] or
    the text of [sha] begins with a slash, [diff_relpath] is then the path
    [diffs/<org>/<repo>/<leaf>/<sha>.patch], where the leaf is
    [workflow_path] (or [workflow.yml]) with every slash and back-slash
    replaced by an underscore. *)
Theorem diff_relpath_is_under_diffs (out json_path : text)
  (st st' : WorkflowScan.state world) (hits : list hit) (h : hit) (t : text) :
  diffs_dir = joinpath (Path [out]) (Path [lit "diffs"]) ->
  scan json_path st = (Returns hits, st') ->
  In h hits ->
  diff_relpath h = Some t ->
  exists o r leaf,
    org h = JString o /\ repo h = JString r
    /\ wf_leaf nonzero (workflow_path h) = Returns leaf
    /\ contains_char sep leaf = false /\ contains_char bsep leaf = false
    /\ (startswith [sep] o = false -> startswith [sep] r = false ->
        startswith [sep] (py_str str_of (commit_sha h)) = false ->
        t = to_text (Path [lit "diffs"; o; r; leaf;
                           py_str str_of (commit_sha h) ++ lit ".patch"])).
Proof.
  intros Hdiffs H Hin Ht. apply scan_returns in H.
  destruct H as (doc & items & _ & _ & H).
  apply scan_commits_returns in H. destruct H as (_ & (calls & _ & Hcalls) & _).
  assert (Hpatch : exists path,
             patch_of nonzero str_of repr_of diffs_dir h path).
  { assert (Hall : Forall (fun h0 => exists path,
                      patch_of nonzero str_of repr_of diffs_dir h0 path)
                     (filter has_diff hits)).
    { eapply Forall2_right; [|exact Hcalls]. cbn beta.
      intros call h0 (path & _ & _ & Hp & _). exists path. exact Hp. }
    rewrite Forall_forall in Hall. apply Hall. apply filter_In.
    split; [exact Hin|]. unfold has_diff. rewrite Ht. reflexivity. }
  destruct Hpatch as (path & o & r & leaf & rel & Ho & Hr & Hleaf & Hpath
                      & Hrel & Hd).
  exists o, r, leaf.
  destruct (wf_leaf_plain _ Hleaf) as [Hsep Hbsep].
  repeat (split; [assumption|]).
  intros Po Pr Ps. rewrite Ht in Hd. injection Hd as ->.
  subst path. rewrite Hdiffs in Hrel.
  rewrite patch_path_relative in Hrel.
  - injection Hrel as <-. reflexivity.
  - exact Po.
  - exact Pr.
  - apply relative_without_sep. exact Hsep.
  - apply relative_app; [discriminate | reflexivity | exact Ps].
Qed.

End ScanFacts.

Lemma hits_follow_the_commit_list_witness :
  exists doc items hits st',
    ScanWorld.scan ScanWorld.index_path (ScanWorld.files, [])
    = (Returns hits, st')
    /\ Forall2
         (WorkflowScanSpec.taken_from
            (Json.get (lit "org") doc Json.JNull)
            (Json.get (lit "repo") doc Json.JNull)
            (Json.get (lit "workflow_path") doc Json.JNull) items)
         (WorkflowScanSpec.hit_positions ScanWorld.search ScanWorld.patterns
            items)
         hits.
Proof.
  eexists. eexists. eexists. eexists.
  split; [vm_compute; reflexivity|].
  unfold ScanWorld.scan.
  eapply (@hits_follow_the_commit_list ScanWorld.world ScanWorld.exists_
            ScanWorld.read_bytes ScanWorld.inflate ScanWorld.mkdir
            ScanWorld.write_text ScanWorld.search ScanWorld.nonzero
            ScanWorld.str_of ScanWorld.repr_of ScanWorld.decode_error
            ScanWorld.json_error ScanWorld.root ScanWorld.diffs_dir
            ScanWorld.patterns ScanWorld.index_path (ScanWorld.files, []));
    vm_compute; reflexivity.
Defined.

Lemma predecessor_is_the_next_commit_witness :
  exists items hits st',
    ScanWorld.scan ScanWorld.index_path (ScanWorld.files, [])
    = (Returns hits, st')
    /\ Forall2 (WorkflowScanSpec.preceded_by_next items)
         (WorkflowScanSpec.hit_positions ScanWorld.search ScanWorld.patterns
            items)
         hits.
Proof.
  eexists. eexists. eexists.
  split; [vm_compute; reflexivity|].
  unfold ScanWorld.scan.
  eapply (@predecessor_is_the_next_commit ScanWorld.world ScanWorld.exists_
            ScanWorld.read_bytes ScanWorld.inflate ScanWorld.mkdir
            ScanWorld.write_text ScanWorld.search ScanWorld.nonzero
            ScanWorld.str_of ScanWorld.repr_of ScanWorld.decode_error
            ScanWorld.json_error ScanWorld.root ScanWorld.diffs_dir
            ScanWorld.patterns ScanWorld.index_path (ScanWorld.files, []));
    vm_compute; reflexivity.
Defined.

Lemma keywords_are_the_patterns_found_witness :
  exists hits st',
    ScanWorld.scan ScanWorld.index_path (ScanWorld.files, [])
    = (Returns hits, st')
    /\ Forall
         (WorkflowScanSpec.keywords_of_message ScanWorld.search
            ScanWorld.patterns)
         hits.
Proof.
  eexists. eexists.
  split; [vm_compute; reflexivity|].
  unfold ScanWorld.scan.
  eapply (@keywords_are_the_patterns_found ScanWorld.world ScanWorld.exists_
            ScanWorld.read_bytes ScanWorld.inflate ScanWorld.mkdir
            ScanWorld.write_text ScanWorld.search ScanWorld.nonzero
            ScanWorld.str_of ScanWorld.repr_of ScanWorld.decode_error
            ScanWorld.json_error ScanWorld.root ScanWorld.diffs_dir
            ScanWorld.patterns ScanWorld.index_path (ScanWorld.files, []));
    vm_compute; reflexivity.
Defined.

Lemma patches_are_those_of_the_hits_witness :
  exists hits st',
    ScanWorld.scan ScanWorld.index_path (ScanWorld.files, [])
    = (Returns hits, st')
    /\ (exists calls,
           snd st' = [] ++ calls
           /\ Forall2
                (WorkflowScanSpec.written_for ScanWorld.nonzero
                   ScanWorld.str_of ScanWorld.repr_of ScanWorld.diffs_dir)
                calls (filter WorkflowScanSpec.has_diff hits))
    /\ (Forall (fun h => WorkflowScan.diff_relpath h = None) hits ->
        st' = (ScanWorld.files, [])).
Proof.
  eexists. eexists.
  split; [vm_compute; reflexivity|].
  apply (@patches_are_those_of_the_hits ScanWorld.world ScanWorld.exists_
           ScanWorld.read_bytes ScanWorld.inflate ScanWorld.mkdir
           ScanWorld.write_text ScanWorld.search ScanWorld.nonzero
           ScanWorld.str_of ScanWorld.repr_of ScanWorld.decode_error
           ScanWorld.json_error ScanWorld.root ScanWorld.diffs_dir
           ScanWorld.patterns ScanWorld.index_path (ScanWorld.files, [])).
  vm_compute. reflexivity.
Defined.

Lemma diff_relpath_is_under_diffs_witness :
  exists hits st' h,
    ScanWorld.scan ScanWorld.index_path (ScanWorld.files, [])
    = (Returns hits, st')
    /\ In h hits
    /\ WorkflowScan.diff_relpath h
       = Some (lit "diffs/o/r/.github_workflows_ci.yml/b2.patch").
Proof.
  eexists. eexists. eexists.
  split; [vm_compute; reflexivity|].
  split; [left; reflexivity|].
  destruct (@diff_relpath_is_under_diffs ScanWorld.world ScanWorld.exists_
              ScanWorld.read_bytes ScanWorld.inflate ScanWorld.mkdir
              ScanWorld.write_text ScanWorld.search ScanWorld.nonzero
              ScanWorld.str_of ScanWorld.repr_of ScanWorld.decode_error
              ScanWorld.json_error ScanWorld.root ScanWorld.diffs_dir
              ScanWorld.patterns (lit "/out") ScanWorld.index_path
              (ScanWorld.files, []) _ _ _
              (lit "diffs/o/r/.github_workflows_ci.yml/b2.patch")
              ltac:(vm_compute; reflexivity) ltac:(vm_compute; reflexivity)
              (or_introl eq_refl) ltac:(vm_compute; reflexivity))
    as (o & r & leaf & Ho & Hr & Hleaf & _).
  vm_compute. reflexivity.
Defined.

Lemma commit_without_path_fails_the_document_witness :
  exists cls msg st1,
    ScanWorld.scan ScanWorld.other_index_path (ScanWorld.files, [])
    = (Raises cls msg, st1).
Proof.
  unfold ScanWorld.scan.
  eapply (@commit_without_path_fails_the_document ScanWorld.world
            ScanWorld.exists_ ScanWorld.read_bytes ScanWorld.inflate
            ScanWorld.mkdir ScanWorld.write_text ScanWorld.search
            ScanWorld.nonzero ScanWorld.str_of ScanWorld.repr_of
            ScanWorld.decode_error ScanWorld.json_error ScanWorld.root
            ScanWorld.diffs_dir ScanWorld.patterns
            ScanWorld.other_index_path (ScanWorld.files, [])).
  - vm_compute. reflexivity.
  - vm_compute. reflexivity.
  - left. reflexivity.
  - vm_compute. reflexivity.
  - intros raw. vm_compute. discriminate.
Defined.

(** ** The one-shot scripts *)
Section RunnerFacts.
Import Comparator Runner.

Variable world : Type.
Variable run : Pathlib.pure_path -> world -> outcome Backend.PoutineResult * world.
Variable str_of : Json.json -> text.
Variable data_root : Pathlib.pure_path.
Variable mkdir : world -> outcome unit * world.
Variable write_json : list ComparisonResult -> world -> outcome unit * world.
Variable write_csv : list ComparisonResult -> world -> outcome unit * world.
Variable stop_container : world -> world.





Lemma limited_Forall (P : CommitInfo -> Prop) (limit : option Z)
  (commits : list CommitInfo) :
  Forall P commits -> Forall P (limited limit commits).
Proof.
  intros H. unfold limited. destruct limit as [l|]; [|exact H].
  destruct (l =? 0)%Z; [exact H|]. unfold slice_to. apply firstn_Forall.
  exact H.
Qed.

Lemma analyse_nothing (commits : list CommitInfo) (w : world) :
  Forall (fun c => prev_sha c = None \/ commit_sha c = None) commits ->
  analyse run str_of data_root commits w = ([], w).
Proof.
  intros H. induction H as [|c rest Hc _ IH]; [reflexivity|].
  cbn [analyse]. unfold compare_before_after.
  destruct Hc as [Hc|Hc]; rewrite Hc.
  - destruct (commit_sha c); exact IH.
  - exact IH.
Qed.

(** Hits without predecessor (the oldest commit of a workflow) or without
    hash give no result in the one-shot scripts: the analyzer is not run
    for them, and an input made of such hits only, or an empty input,
    leaves the loop of [main] without any result and the world as it
    was. *)
Theorem hits_without_predecessor_give_no_result (limit : option Z)
  (commits : list CommitInfo) (w : world) :
  Forall (fun c => prev_sha c = None \/ commit_sha c = None) commits ->
  analyse run str_of data_root (limited limit commits) w = ([], w).
Proof.
  intros H. apply analyse_nothing. apply limited_Forall. exact H.
Qed.

Lemma compare_returns_hash (commit : CommitInfo) (w w' : world)
  (r : ComparisonResult) :
  compare_before_after run str_of data_root commit w = (Returns r, w') ->
  commit_sha (commit_info r) <> None.
Proof.
  unfold compare_before_after.
  destruct (commit_sha commit) as [sha|] eqn:Hsha; [|discriminate].
  destruct (prev_sha commit) as [prev|]; [|discriminate].
  destruct (run _ w) as [[before|cls msg] w1]; [|discriminate].
  destruct (run _ w1) as [[after|cls msg] w2]; [|discriminate].
  intros H. injection H as <- _. cbn [commit_info]. rewrite Hsha.
  discriminate.
Qed.

Lemma analyse_hashes (commits : list CommitInfo) (w : world) :
  Forall (fun r => commit_sha (commit_info r) <> None)
    (fst (analyse run str_of data_root commits w)).
Proof.
  revert w. induction commits as [|c rest IH]; intros w; [constructor|].
  cbn [analyse].
  destruct (compare_before_after run str_of data_root c w)
    as [[r|cls msg] w1] eqn:E.
  - pose proof (IH w1) as Hrest.
    destruct (analyse run str_of data_root rest w1) as [rs w2].
    cbn [fst] in *. constructor; [|exact Hrest].
    exact (compare_returns_hash _ _ E).
  - apply IH.
Qed.

Lemma filter_Forall (A : Type) (P : A -> Prop) (f : A -> bool) (l : list A) :
  Forall P l -> Forall P (filter f l).
Proof.
  intros H. induction H as [|x l Hx _ IH]; cbn; [constructor|].
  destruct (f x); [constructor; assumption | exact IH].
Qed.

Lemma insert_Forall (P : ComparisonResult -> Prop) (r : ComparisonResult)
  (l : list ComparisonResult) :
  P r -> Forall P l -> Forall P (insert r l).
Proof.
  intros Hr H. induction H as [|x l Hx Hl IH]; cbn [insert].
  - constructor; [exact Hr | constructor].
  - destruct (reduction_count x <=? reduction_count r)%Z.
    + constructor; [exact Hr|]. constructor; assumption.
    + constructor; assumption.
Qed.

Lemma by_reduction_Forall (P : ComparisonResult -> Prop)
  (l : list ComparisonResult) :
  Forall P l -> Forall P (by_reduction l).
Proof.
  intros H. induction H as [|x l Hx _ IH]; cbn; [constructor|].
  apply insert_Forall; assumption.
Qed.

Lemma print_improved_returns (l : list ComparisonResult) :
  Forall (fun r => commit_sha (commit_info r) <> None) l ->
  print_improved l = Returns tt.
Proof.
  intros H. unfold print_improved.
  assert (E : existsb (fun r => match commit_sha (commit_info r) with
                                | None => true
                                | Some _ => false
                                end) l = false).
  { induction H as [|x l Hx _ IH]; [reflexivity|].
    cbn [existsb]. rewrite IH.
    destruct (commit_sha (commit_info x)); [reflexivity | congruence]. }
  rewrite E. reflexivity.
Qed.

Lemma improvements_return (s : script) (l : list ComparisonResult) :
  Forall (fun r => commit_sha (commit_info r) <> None) l ->
  improvements s l = Returns tt.
Proof.
  intros H. destruct s; cbn [improvements]; [| |reflexivity].
  - apply print_improved_returns. apply filter_Forall. exact H.
  - apply print_improved_returns. apply firstn_Forall.
    apply by_reduction_Forall. apply filter_Forall. exact H.
Qed.

Lemma save_something (s : script) (rs : list ComparisonResult) (w : world) :
  (forall w0, fst (mkdir w0) = Returns tt) ->
  (forall l w0, fst (write_json l w0) = Returns tt) ->
  (forall l w0, fst (write_csv l w0) = Returns tt) ->
  rs <> [] ->
  Forall (fun r => commit_sha (commit_info r) <> None) rs ->
  fst (save_results mkdir write_json write_csv s rs w) = Returns tt.
Proof.
  intros Hm Hj Hc Hne Hsha. unfold save_results.
  pose proof (Hm w) as E1. destruct (mkdir w) as [r1 w1]. cbn in E1. subst r1.
  pose proof (Hj rs w1) as E2. destruct (write_json rs w1) as [r2 w2].
  cbn in E2. subst r2.
  pose proof (Hc rs w2) as E3. destruct (write_csv rs w2) as [r3 w3].
  cbn in E3. subst r3.
  destruct rs as [|r rs]; [congruence|]. cbn [fst].
  apply improvements_return. exact Hsha.
Qed.

Lemma analyse_limited_nonempty (limit : option Z) (commits : list CommitInfo)
  (w : world) :
  fst (analyse run str_of data_root (limited limit commits) w) <> [] ->
  limited limit commits <> [].
Proof.
  intros H E. rewrite E in H. apply H. reflexivity.
Qed.

(** When the analyzer has come up and the report files can be written, a
    run in which at least one comparison returns a result completes, in each
    of the three scripts: the results that a run collects all have a commit
    hash, so the lines printed for the commits with improvements never
    raise. *)
Theorem run_with_a_result_completes (limit : option Z)
  (commits : list CommitInfo) (w : world) :
  (forall w0, fst (mkdir w0) = Returns tt) ->
  (forall l w0, fst (write_json l w0) = Returns tt) ->
  (forall l w0, fst (write_csv l w0) = Returns tt) ->
  fst (analyse run str_of data_root (limited limit commits) w) <> [] ->
  status (docker_main run str_of data_root mkdir write_json write_csv
            limit (Returns tt) commits w) = Completed
  /\ status (optimized_main run str_of data_root mkdir write_json write_csv
               stop_container limit Orchestrator.Started commits w)
     = Completed
  /\ status (fixed_main run str_of data_root mkdir write_json write_csv
               limit commits w) = Completed.
Proof.
  intros Hm Hj Hc Hsome.
  pose proof (analyse_limited_nonempty _ _ _ Hsome) as Hcommits.
  pose proof (analyse_hashes (limited limit commits) w) as Hsha.
  unfold docker_main, optimized_main, fixed_main.
  destruct (analyse run str_of data_root (limited limit commits) w)
    as [rs w1]. cbn [fst] in Hsome, Hsha.
  split; [|split].
  - pose proof (save_something Docker w1 Hm Hj Hc Hsome Hsha) as Hs.
    destruct (save_results mkdir write_json write_csv Docker rs w1)
      as [saved w2]. cbn [status fst] in *. subst saved. reflexivity.
  - destruct (limited limit commits); [congruence|].
    pose proof (save_something Optimized w1 Hm Hj Hc Hsome Hsha) as Hs.
    destruct (save_results mkdir write_json write_csv Optimized rs w1)
      as [saved w2]. cbn [status fst] in *. subst saved. reflexivity.
  - pose proof (save_something Fixed w1 Hm Hj Hc Hsome Hsha) as Hs.
    destruct (save_results mkdir write_json write_csv Fixed rs w1)
      as [saved w2]. cbn [status fst] in *. subst saved. reflexivity.
Qed.

End RunnerFacts.


Lemma hits_without_predecessor_give_no_result_witness :
  Runner.analyse Scenario.run Scenario.str_of Scenario.data_root
    (Runner.limited None [Scenario.hit_A; Scenario.hit_A]) tt
  = ([], tt).
Proof.
  apply (@hits_without_predecessor_give_no_result unit Scenario.run
           Scenario.str_of Scenario.data_root None
           [Scenario.hit_A; Scenario.hit_A] tt).
  repeat constructor.
Defined.

Lemma run_with_a_result_completes_witness :
  Runner.status
    (Runner.optimized_main Scenario.run Scenario.str_of Scenario.data_root
       (fun w => (Returns tt, w)) (fun _ w => (Returns tt, w))
       (fun _ w => (Returns tt, w)) (fun w => w) (Some 5%Z)
       Orchestrator.Started [Scenario.hit_A; Scenario.hit_B] tt)
  = Runner.Completed.
Proof.
  apply (@run_with_a_result_completes unit Scenario.run Scenario.str_of
           Scenario.data_root
           (fun w => (Returns tt, w)) (fun _ w => (Returns tt, w))
           (fun _ w => (Returns tt, w)) (fun w => w) (Some 5%Z)
           [Scenario.hit_A; Scenario.hit_B] tt);
    try reflexivity.
  vm_compute. discriminate.
Defined.

(** ** The result log read back *)
Section ReportLogFacts.
Import Orchestrator.

Variable decode_error : text -> text.

(** The lines with their line feeds and the lines without them have the
    same number of lines that are not blank. *)
Lemma nonblank_lines_agree (s : text) :
  match Jsonl.lines_of_text s, Pathlib.split 10%N s with
  | [], cur :: rest => cur = [] /\ rest = []
  | l :: ls, cur :: rest =>
      nonblank l = nonblank cur
      /\ List.length (filter nonblank ls) = List.length (filter nonblank rest)
  | _, [] => False
  end.
Proof.
  induction s as [|c s IH]; [split; reflexivity|].
  cbn [Jsonl.lines_of_text Pathlib.split].
  destruct (c =? 10)%N eqn:Ec.
  - split; [apply N.eqb_eq in Ec; subst c; reflexivity|].
    destruct (Jsonl.lines_of_text s) as [|l ls],
      (Pathlib.split 10%N s) as [|cur rest]; try contradiction.
    + destruct IH as [-> ->]. reflexivity.
    + destruct IH as [Hh Ht]. cbn [filter]. rewrite Hh.
      destruct (nonblank cur); cbn [List.length]; congruence.
  - destruct (Jsonl.lines_of_text s) as [|l ls],
      (Pathlib.split 10%N s) as [|cur rest]; try contradiction.
    + destruct IH as [-> ->]. split; reflexivity.
    + destruct IH as [Hh Ht]. split; [|exact Ht].
      unfold nonblank in *. cbn [forallb].
      destruct (isspace c); cbn [andb negb]; [exact Hh | reflexivity].
Qed.

Lemma nonblank_count_agrees (s : text) :
  List.length (filter nonblank (Jsonl.lines_of_text s))
  = List.length (filter nonblank (Pathlib.split 10%N s)).
Proof.
  pose proof (nonblank_lines_agree s) as H.
  destruct (Jsonl.lines_of_text s) as [|l ls],
    (Pathlib.split 10%N s) as [|cur rest]; try contradiction.
  - destruct H as [-> ->]. reflexivity.
  - destruct H as [Hh Ht]. cbn [filter]. rewrite Hh.
    destruct (nonblank cur); cbn [List.length]; congruence.
Qed.

Lemma load_lines_returns (lines : list text) (results : list Json.json) :
  Reports.load_lines decode_error lines = Returns results ->
  Forall2 (fun line data => Json.loads line = Some data)
    (filter nonblank lines) results.
Proof.
  revert results. induction lines as [|line rest IH]; intros results H.
  - cbn in H. injection H as <-. constructor.
  - cbn [Reports.load_lines filter] in *.
    destruct (nonblank line); [|exact (IH _ H)].
    destruct (Json.loads line) as [data|] eqn:E; [|discriminate].
    destruct (Reports.load_lines decode_error rest) as [rs|cls msg];
      [|discriminate].
    injection H as <-. constructor; [exact E | exact (IH _ eq_refl)].
Qed.

Lemma load_lines_parsed (lines : list text) :
  Forall (fun line => Json.loads line <> None) (filter nonblank lines) ->
  exists results, Reports.load_lines decode_error lines = Returns results.
Proof.
  induction lines as [|line rest IH]; intros H; [exists []; reflexivity|].
  cbn [Reports.load_lines filter] in *.
  destruct (nonblank line); [|exact (IH H)].
  inversion H as [|x l Hx Hl]. subst x l.
  destruct (Json.loads line) as [data|]; [|congruence].
  destruct (IH Hl) as [rs ->]. exists (data :: rs). reflexivity.
Qed.

(** The results that [load_all_results] reads for the final reports are
    the non-blank lines of the log, parsed, in order, and there are as many
    of them as [count_actual_results] counts; it returns exactly when every
    non-blank line of the log is JSON, and a missing log gives no result. *)
Theorem loaded_results_are_the_counted_lines (st : store) :
  (forall results,
      Reports.load_all_results decode_error st = Returns results ->
      Z.of_nat (List.length results) = count_actual_results st
      /\ Forall2 (fun line data => Json.loads line = Some data)
           (filter nonblank
              (Jsonl.readlines
                 (match results_file st with Some c => c | None => [] end)))
           results)
  /\ ((exists results,
          Reports.load_all_results decode_error st = Returns results)
      <-> Forall (fun line => Json.loads line <> None)
            (filter nonblank
               (Jsonl.readlines
                  (match results_file st with Some c => c | None => [] end)))).
Proof.
  unfold Reports.load_all_results, count_actual_results.
  destruct (results_file st) as [content|].
  - split.
    + intros results H. apply load_lines_returns in H. split; [|exact H].
      unfold file_lines, Jsonl.readlines in *.
      rewrite <- nonblank_count_agrees.
      f_equal. symmetry. exact (Forall2_length H).
    + split.
      * intros [results H]. apply load_lines_returns in H.
        revert H. generalize (filter nonblank (Jsonl.readlines content)).
        intros l H. induction H as [|line data l rs Hh _ IH];
          constructor; [congruence | exact IH].
      * apply load_lines_parsed.
  - split.
    + intros results H. injection H as <-. split; [reflexivity|constructor].
    + split; [intros _; constructor | intros _; exists []; reflexivity].
Qed.

End ReportLogFacts.
